(** * Electris: a shallow embedding of [src/js/tetris.ts]

    The two classes of the program, [Game] and [Tet], are embedded as
    functions over an explicit game state.  [Tet] objects are mutable and
    shared ([allTets], [currentTet], [nextTet] and the [that] of every falling
    animation point at the same objects), so the state carries a heap of
    [Tet]s and the fields hold references (indices) into it.

    - JavaScript numbers used as coordinates are [Z]; the cell markers of a
      shape, which the program only ever writes as the literals [0] and [1],
      are [nat]; the score of the state is a real number ([R]), the
      idealisation of the JavaScript double, which serves where scores are
      compared; the binary64 number that [collided] leaves in
      [this.game.score] is [collidedScore].
    - An uncaught [TypeError] (indexing [undefined]) is [None] in the option
      monad; the model does not continue after it.
    - [draw] only reads the state modelled here; it is kept for its one
      side effect, the refresh of the [landed] cache.  Its shadow loop, the
      outlines it traces, the high-score list and the text of the score are
      modelled apart, after the events.
    - [Math.random] is an input: every function that draws takes the drawn
      numbers as arguments. *)

From Stdlib Require Import ZArith List Bool Lia Reals Lra Sorted Ascii.
From Stdlib Require String DecimalString Floats.
From stdpp Require Import base option list gmap.

Local Open Scope Z_scope.

(** ** Constants of [Game] *)

Definition BOARD_ROW_NUM : Z := 16.
Definition BOARD_COL_NUM : Z := 10.

(** ** Data *)

(** [topLeft: {row: number, col: number}] *)
Record Pos := mkPos { row : Z; col : Z }.

(** [shape: number[][]]; a row's length is its own. *)
Abbreviation Shape := (list (list nat)).

(** The fields of a [Tet].  [rotation], [pivot] and [pivotMax] are
    [undefined] ([None]) on a Tet built by [new Tet(game, -1)].  The
    [perimeter] is a function of [shape] used by [draw] alone and is left
    out. *)
Record Tet := mkTet {
  type : Z;
  rotation : option Z;
  pivot : option Z;
  pivotMax : option Z;
  topLeft : Pos;
  shape : Shape
}.

Definition set_pivot (v : option Z) (t : Tet) : Tet :=
  mkTet (type t) (rotation t) v (pivotMax t) (topLeft t) (shape t).
Definition set_pivotMax (v : option Z) (t : Tet) : Tet :=
  mkTet (type t) (rotation t) (pivot t) v (topLeft t) (shape t).
Definition set_topLeft (v : Pos) (t : Tet) : Tet :=
  mkTet (type t) (rotation t) (pivot t) (pivotMax t) v (shape t).
Definition set_shape (v : Shape) (t : Tet) : Tet :=
  mkTet (type t) (rotation t) (pivot t) (pivotMax t) (topLeft t) v.

(** One row of [landed]: a JavaScript array read as the map from its indices
    to its elements; an index that is absent reads [undefined]. *)
Abbreviation LandedRow := (gmap Z nat).
Abbreviation Landed := (list (gmap Z nat)).

(** The state of a [Game], with the heap of [Tet]s, the interval [loop]
    (is it set?) and the [that] of every [moveLoop] interval still set. *)
Record Game := mkGame {
  heap : list Tet;
  devModeOn : bool;
  newTet : bool;
  currentTet : option nat;
  nextTet : option nat;
  updateLanded : bool;
  allTets : list nat;
  tetsToRemove : list Z;
  score : R;
  gameOver : bool;
  landed : Landed;
  paused : bool;
  loop : bool;
  moveLoops : list nat
}.

Definition set_heap (v : list Tet) (g : Game) : Game :=
  mkGame v (devModeOn g) (newTet g) (currentTet g) (nextTet g)
    (updateLanded g) (allTets g) (tetsToRemove g) (score g) (gameOver g)
    (landed g) (paused g) (loop g) (moveLoops g).
Definition set_newTet (v : bool) (g : Game) : Game :=
  mkGame (heap g) (devModeOn g) v (currentTet g) (nextTet g)
    (updateLanded g) (allTets g) (tetsToRemove g) (score g) (gameOver g)
    (landed g) (paused g) (loop g) (moveLoops g).
Definition set_currentTet (v : option nat) (g : Game) : Game :=
  mkGame (heap g) (devModeOn g) (newTet g) v (nextTet g)
    (updateLanded g) (allTets g) (tetsToRemove g) (score g) (gameOver g)
    (landed g) (paused g) (loop g) (moveLoops g).
Definition set_nextTet (v : option nat) (g : Game) : Game :=
  mkGame (heap g) (devModeOn g) (newTet g) (currentTet g) v
    (updateLanded g) (allTets g) (tetsToRemove g) (score g) (gameOver g)
    (landed g) (paused g) (loop g) (moveLoops g).
Definition set_updateLanded (v : bool) (g : Game) : Game :=
  mkGame (heap g) (devModeOn g) (newTet g) (currentTet g) (nextTet g)
    v (allTets g) (tetsToRemove g) (score g) (gameOver g)
    (landed g) (paused g) (loop g) (moveLoops g).
Definition set_allTets (v : list nat) (g : Game) : Game :=
  mkGame (heap g) (devModeOn g) (newTet g) (currentTet g) (nextTet g)
    (updateLanded g) v (tetsToRemove g) (score g) (gameOver g)
    (landed g) (paused g) (loop g) (moveLoops g).
Definition set_tetsToRemove (v : list Z) (g : Game) : Game :=
  mkGame (heap g) (devModeOn g) (newTet g) (currentTet g) (nextTet g)
    (updateLanded g) (allTets g) v (score g) (gameOver g)
    (landed g) (paused g) (loop g) (moveLoops g).
Definition set_score (v : R) (g : Game) : Game :=
  mkGame (heap g) (devModeOn g) (newTet g) (currentTet g) (nextTet g)
    (updateLanded g) (allTets g) (tetsToRemove g) v (gameOver g)
    (landed g) (paused g) (loop g) (moveLoops g).
Definition set_gameOver (v : bool) (g : Game) : Game :=
  mkGame (heap g) (devModeOn g) (newTet g) (currentTet g) (nextTet g)
    (updateLanded g) (allTets g) (tetsToRemove g) (score g) v
    (landed g) (paused g) (loop g) (moveLoops g).
Definition set_landed (v : Landed) (g : Game) : Game :=
  mkGame (heap g) (devModeOn g) (newTet g) (currentTet g) (nextTet g)
    (updateLanded g) (allTets g) (tetsToRemove g) (score g) (gameOver g)
    v (paused g) (loop g) (moveLoops g).
Definition set_paused (v : bool) (g : Game) : Game :=
  mkGame (heap g) (devModeOn g) (newTet g) (currentTet g) (nextTet g)
    (updateLanded g) (allTets g) (tetsToRemove g) (score g) (gameOver g)
    (landed g) v (loop g) (moveLoops g).
Definition set_loop (v : bool) (g : Game) : Game :=
  mkGame (heap g) (devModeOn g) (newTet g) (currentTet g) (nextTet g)
    (updateLanded g) (allTets g) (tetsToRemove g) (score g) (gameOver g)
    (landed g) (paused g) v (moveLoops g).
Definition set_moveLoops (v : list nat) (g : Game) : Game :=
  mkGame (heap g) (devModeOn g) (newTet g) (currentTet g) (nextTet g)
    (updateLanded g) (allTets g) (tetsToRemove g) (score g) (gameOver g)
    (landed g) (paused g) (loop g) v.

(** A write through a reference: [tet.field = ...] for the Tet at [id]. *)
Definition setTet (id : nat) (t : Tet) (g : Game) : Game :=
  set_heap (<[id := t]> (heap g)) g.

(** [new Tet(...)]: the object is allocated at the end of the heap. *)
Definition alloc (t : Tet) (g : Game) : nat * Game :=
  (length (heap g), set_heap (heap g ++ [t]) g).

(** [a === b] for a reference [a] and a possibly null or undefined [b]. *)
Definition sameRef (a : nat) (b : option nat) : bool :=
  match b with Some b' => Nat.eqb a b' | None => false end.

(** ** The cells of a shape

    Every collision loop of the program is
    [for row { for col { if (shape[row][col] !== 0) { ... } } }]:
    it visits the non-zero cells in row-major order.  [cells] lists them in
    that order. *)

Fixpoint rowCells (r c : Z) (cs : list nat) : list (Z * Z) :=
  match cs with
  | [] => []
  | x :: cs' =>
      (if Nat.eqb x 0 then [] else [(r, c)]) ++ rowCells r (c + 1) cs'
  end.

Fixpoint shapeCells (r : Z) (s : Shape) : list (Z * Z) :=
  match s with
  | [] => []
  | cs :: s' => rowCells r 0 cs ++ shapeCells (r + 1) s'
  end.

Definition cells (s : Shape) : list (Z * Z) := shapeCells 0 s.

(** ** Tet.getShapeMatrix *)

Definition matrixMatrix : list (list Shape) :=
  [ [ [[1;1;1;1]];       [[1];[1];[1];[1]] ];                                  (* I *)
    [ [[1;1;1];[0;0;1]]; [[0;1];[0;1];[1;1]]; [[1];[1;1;1]];   [[1;1];[1];[1]] ]; (* J *)
    [ [[1;1;1];[1]];     [[1;1];[0;1];[0;1]]; [[0;0;1];[1;1;1]]; [[1];[1];[1;1]] ]; (* L *)
    [ [[1;1];[1;1]] ];                                                           (* O *)
    [ [[0;1;1];[1;1]];   [[1];[1;1];[0;1]] ];                                    (* S *)
    [ [[1;1;1];[0;1]];   [[0;1];[1;1];[0;1]]; [[0;1];[1;1;1]];   [[1];[1;1];[1]] ]; (* T *)
    [ [[1;1];[0;1;1]];   [[0;1];[1;1];[1]] ]                                     (* Z *)
  ]%nat.

(** [arr[i]] for a number [i]: [undefined] off the array. *)
Definition index {A} (l : list A) (i : Z) : option A :=
  if i <? 0 then None else l !! Z.to_nat i.

(** The [switch (this.type)] that sets [pivotMax]. *)
Definition pivotMaxOf (ty : Z) : Z :=
  if ty =? 0 then 3 else if ty =? 3 then 0 else 1.

(** The entry of the table for a type and a rotation: [m[0]], [m[rotation % 2]]
    or [m[rotation]] by the number of entries of the type. *)
Definition catalog (ty rot : Z) : option Shape :=
  m ← index matrixMatrix ty;
  match length m with
  | 1%nat => index m 0
  | 2%nat => index m (Z.rem rot 2)
  | 4%nat => index m rot
  | _ => Some []
  end.

(** [getShapeMatrix(rotation)]: sets [this.pivotMax] and returns the entry.
    [None] where the JavaScript dereferences [undefined] (a type off the
    table) or hands [undefined] to a caller that dereferences it. *)
Definition getShapeMatrix (t : Tet) (rot : Z) : option (Tet * Shape) :=
  s ← catalog (type t) rot;
  Some (set_pivotMax (Some (pivotMaxOf (type t))) t, s).

(** [new Tet(game, type)] for a type above -1.  [rnd] is the value of
    [Math.floor(Math.random() * 7)], used when [type] is absent, [0] (falsy)
    or out of range. *)
Definition Tet_new (ty : option Z) (rnd : Z) : option Tet :=
  let ty' :=
    match ty with
    | Some t => if negb (t =? 0) && (-1 <=? t) && (t <? 7) then t else rnd
    | None => rnd
    end in
  '(t, s) ← getShapeMatrix (mkTet ty' (Some 0) (Some 0) None (mkPos 0 4) []) 0;
  Some (set_shape s t).

(** [new Tet(this.game, -1)] followed by the three assignments of
    [updateTet]: [newTet.type = this.type], [newTet.topLeft = ...] and
    [newTet.setShape(...)].  The constructor leaves every other field
    undefined. *)
Definition Tet_fragment (ty : Z) (tl : Pos) (s : Shape) : Tet :=
  mkTet ty None None None tl s.

(** ** Game.getLanded *)

Definition zeroRow : LandedRow :=
  list_to_map ((λ c : Z, (c, 0%nat)) <$> [0; 1; 2; 3; 4; 5; 6; 7; 8; 9]).

Definition emptyLanded : Landed := replicate 16 zeroRow.

(** [landed[r]]: [undefined] off the sixteen rows. *)
Definition landedRow (l : Landed) (r : Z) : option LandedRow := index l r.

(** [landed[r][c] !== 0] on a row: [undefined !== 0] is true. *)
Definition taken (lr : LandedRow) (c : Z) : bool :=
  match lr !! c with Some O => false | _ => true end.

(** [landed[r][c] === 0] on a row. *)
Definition isZero (lr : LandedRow) (c : Z) : bool :=
  match lr !! c with Some O => true | _ => false end.

(** [this.landed[r][c] = 1]: a TypeError when the row is undefined. *)
Definition mark (l : Landed) (r c : Z) : option Landed :=
  lr ← landedRow l r;
  Some (<[Z.to_nat r := <[c := 1%nat]> lr]> l).

Fixpoint markCells (l : Landed) (tl : Pos) (cs : list (Z * Z)) : option Landed :=
  match cs with
  | [] => Some l
  | (r, c) :: cs' => l' ← mark l (r + row tl) (c + col tl); markCells l' tl cs'
  end.

Fixpoint markTets (h : list Tet) (cur excl : option nat) (aT : list nat)
    (l : Landed) : option Landed :=
  match aT with
  | [] => Some l
  | i :: aT' =>
      if sameRef i cur || sameRef i excl then markTets h cur excl aT' l
      else
        t ← h !! i;
        l' ← markCells l (topLeft t) (cells (shape t));
        markTets h cur excl aT' l'
  end.

(** The array the loops of [getLanded] build when they run. *)
Definition buildLanded (g : Game) (excl : option nat) : option Landed :=
  markTets (heap g) (currentTet g) excl (allTets g) emptyLanded.

Definition getLanded (g : Game) (tet : option nat) : option (Game * Landed) :=
  let g1 := if tet is Some _ then set_updateLanded true g else g in
  if updateLanded g1 then
    l ← buildLanded g1 tet;
    Some (set_updateLanded false (set_landed l g1), l)
  else Some (g1, landed g1).

(** ** Tet.doesTetCollideBot *)

Fixpoint botScan (l : Landed) (pot : Pos) (cs : list (Z * Z)) : option bool :=
  match cs with
  | [] => Some false
  | (r, c) :: cs' =>
      if BOARD_ROW_NUM <=? r + row pot then Some true
      else
        lr ← landedRow l (r + row pot);
        if taken lr (c + col pot) then Some true else botScan l pot cs'
  end.

Definition doesTetCollideBot (g : Game) (this : nat) (potentialTopLeft : Pos)
    : option (Game * bool) :=
  '(g1, l) ← getLanded g (Some this);
  t ← heap g1 !! this;
  b ← botScan l potentialTopLeft (cells (shape t));
  Some (g1, b).

(** ** Tet.doesTetCollideSide *)

(** Which of the three [return true] of the loop was taken. *)
Inductive SideHit := HitLeft | HitRight | HitTaken.

Fixpoint sideScan (l : Landed) (pot : Pos) (cs : list (Z * Z))
    : option (option SideHit) :=
  match cs with
  | [] => Some None
  | (r, c) :: cs' =>
      if c + col pot <? 0 then Some (Some HitLeft)
      else if BOARD_COL_NUM <=? c + col pot then Some (Some HitRight)
      else
        lr ← landedRow l (r + row pot);
        if taken lr (c + col pot) then Some (Some HitTaken)
        else sideScan l pot cs'
  end.

(** [this.pivot < this.pivotMax && this.rotation % 2 === 0]; a comparison
    with [undefined] is false. *)
Definition canPivot (t : Tet) : bool :=
  match pivot t, pivotMax t, rotation t with
  | Some p, Some m, Some r => (p <? m) && (Z.rem r 2 =? 0)
  | _, _, _ => false
  end.

(** [this.pivot++] *)
Definition pivotIncr (t : Tet) : Tet := set_pivot (Z.succ <$> pivot t) t.

(** [direction === 1] *)
Definition isRight (direction : option Z) : bool :=
  match direction with Some d => d =? 1 | None => false end.

Definition doesTetCollideSide (g : Game) (this : nat) (potentialTopLeft : Pos)
    (direction : option Z) : option (Game * bool) :=
  '(g1, l) ← getLanded g None;
  t ← heap g1 !! this;
  hit ← sideScan l potentialTopLeft (cells (shape t));
  match hit with
  | None => Some (g1, false)
  | Some HitLeft => Some (g1, true)
  | Some HitRight =>
      Some (if canPivot t then setTet this (pivotIncr t) g1 else g1, true)
  | Some HitTaken =>
      Some (if isRight direction && canPivot t
            then setTet this (pivotIncr t) g1 else g1, true)
  end.

(** ** Tet.rotate *)

(** The collision loop of [rotate]: [true] when no cell of the potential
    shape is rejected. *)
Fixpoint rotScan (l : Landed) (tl : Pos) (cs : list (Z * Z)) : option bool :=
  match cs with
  | [] => Some true
  | (r, c) :: cs' =>
      if c + col tl <? 0 then Some false
      else if BOARD_COL_NUM <=? c + col tl then Some false
      else if BOARD_ROW_NUM <=? r + row tl then Some false
      else
        lr ← landedRow l (r + row tl);
        if taken lr (c + col tl) then Some false else rotScan l tl cs'
  end.

(** [potRot < 3 ? potRot + 1 : 0]; [undefined < 3] is false. *)
Definition nextRotation (t : Tet) : Z :=
  match rotation t with
  | Some r => if r <? 3 then r + 1 else 0
  | None => 0
  end.

(** The four assignments that commit a rotation.  [topLeft.col += pivot]
    needs a pivot that is a number: a Tet without one is never the current
    Tet, and the model stops there. *)
Definition commitRotation (t : Tet) (potRot : Z) (potShape : Shape) : option Tet :=
  p ← pivot t;
  Some (mkTet (type t) (Some potRot) (Some 0) (pivotMax t)
          (mkPos (row (topLeft t)) (col (topLeft t) + p)) potShape).

Definition rotate (g : Game) (this : nat) : option (Game * bool) :=
  '(g1, l) ← getLanded g None;
  t ← heap g1 !! this;
  let potRot := nextRotation t in
  '(t1, potShape) ← getShapeMatrix t potRot;
  let g2 := setTet this t1 g1 in
  ok ← rotScan l (topLeft t1) (cells potShape);
  if ok : bool then
    t2 ← commitRotation t1 potRot potShape;
    Some (setTet this t2 g2, true)
  else Some (g2, false).

(** ** Tet.cleanShape *)

(** [shape[row][0] > 0]; [undefined > 0] is false. *)
Definition headPositive (r : list nat) : bool :=
  match r with x :: _ => Nat.ltb 0 x | [] => false end.

Definition maxLen (s : Shape) : nat := foldr Nat.max 0%nat (length <$> s).

(** The [while (true)] loop.  One iteration either finds a row whose first
    cell is positive and leaves, or removes the first cell of every row
    ([splice(0, 1)]) and adds one to [topLeft.col].  When [fuel] iterations
    found no such row the answer is [None]; with [fuel = maxLen s] every row
    is empty by then and the JavaScript loop never leaves
    (see [stripLeading_fuel]). *)
Fixpoint stripLeading (fuel : nat) (s : Shape) (tl : Pos) : option (Shape * Pos) :=
  if existsb headPositive s then Some (s, tl)
  else
    match fuel with
    | O => None
    | S fuel' => stripLeading fuel' (tail <$> s) (mkPos (row tl) (col tl + 1))
    end.

(** The inner loop of the second [for]: zeros are removed from the end of a
    row until a cell that is not zero. *)
Fixpoint stripTrailing (r : list nat) : list nat :=
  match r with
  | [] => []
  | x :: r' =>
      match stripTrailing r' with
      | [] => if Nat.eqb x 0 then [] else [x]
      | r'' => x :: r''
      end
  end.

(** [None]: the call does not return. *)
Definition cleanShape (o : Shape * Pos) : option (Shape * Pos) :=
  '(s, tl) ← stripLeading (maxLen o.1) o.1 o.2;
  Some (stripTrailing <$> (s : Shape), tl).

(** ** Tet.arrayIsAllZeros *)

Definition arrayIsAllZeros (arr : list nat) : bool :=
  forallb (λ x, negb (Nat.ltb 0 x)) arr.

(** ** Tet.updateTet *)

(** The first loop of [updateTet], from row index [i] on: [currShape] and
    [topLeft] are the fragment being built, [q] the queue.  [tl0] is
    [this.topLeft]. *)
Fixpoint splitRows (tl0 : Pos) (i : Z) (rows : Shape) (currShape : Shape)
    (tl : Pos) (q : list (Shape * Pos)) : list (Shape * Pos) :=
  match rows with
  | [] => if currShape is [] then q else q ++ [(currShape, tl)]
  | r :: rows' =>
      if negb (arrayIsAllZeros r) then
        let tl' := if currShape is [] then mkPos (row tl0 + i) (col tl0) else tl in
        splitRows tl0 (i + 1) rows' (currShape ++ [r]) tl' q
      else if currShape is [] then splitRows tl0 (i + 1) rows' [] tl q
      else splitRows tl0 (i + 1) rows' [] tl (q ++ [(currShape, tl)])
  end.

Definition fragments (t : Tet) : list (Shape * Pos) :=
  splitRows (topLeft t) 0 (shape t) [] (topLeft t) [].

(** [arr.indexOf(x)] *)
Fixpoint indexOf (x : nat) (l : list nat) : Z :=
  match l with
  | [] => -1
  | y :: l' =>
      if Nat.eqb y x then 0
      else let i := indexOf x l' in if i <? 0 then -1 else i + 1
  end.

(** The second loop of [updateTet]: the objects of the queue after the
    first.  The rows of a fragment are shared with no other shape once
    [this.shape] is replaced, so the in-place [splice]s of [cleanShape] are
    not seen elsewhere. *)
Fixpoint pushFragments (g : Game) (ty : Z) (q : list (Shape * Pos)) : option Game :=
  match q with
  | [] => Some g
  | o :: q' =>
      '(s, tl) ← cleanShape o;
      let '(id, g1) := alloc (Tet_fragment ty tl s) g in
      pushFragments (set_allTets (allTets g1 ++ [id]) g1) ty q'
  end.

Definition updateTet (g : Game) (this : nat) : option Game :=
  t ← heap g !! this;
  match fragments t with
  | [] =>
      Some (set_tetsToRemove (tetsToRemove g ++ [indexOf this (allTets g)]) g)
  | o :: q' =>
      '(s, tl) ← cleanShape o;
      pushFragments (setTet this (set_shape s (set_topLeft tl t)) g) (type t) q'
  end.

(** ** Tet.alterShape *)

Definition zeroRowAt (s : Shape) (tlRow fullRow : Z) : Shape :=
  let r := fullRow - tlRow in
  if (r <? 0) || (Z.of_nat (length s) - 1 <? r) then s
  else alter (fmap (λ _, 0%nat)) (Z.to_nat r) s.

Definition alterShape (g : Game) (this : nat) (fullRows : list Z) : option Game :=
  t ← heap g !! this;
  let s := foldl (λ s fr, zeroRowAt s (row (topLeft t)) fr) (shape t) fullRows in
  updateTet (setTet this (set_shape s t) g) this.

(** ** Game.alterShapes *)

(** [a <= b] and [a > b] where [b] may be [undefined] (then both are false). *)
Definition leU (a : Z) (b : option Z) : bool :=
  match b with Some b' => a <=? b' | None => false end.
Definition gtU (a : Z) (b : option Z) : bool :=
  match b with Some b' => b' <? a | None => false end.

(** The first loop runs over the indices below the length [allTets] had on
    entry; [updateTet] only appends to [allTets], so these are the Tets
    listed on entry. *)
Fixpoint alterEach (g : Game) (firstRow lastRow : option Z) (fullRows : list Z)
    (aT : list nat) : option Game :=
  match aT with
  | [] => Some g
  | i :: aT' =>
      t ← heap g !! i;
      if leU (row (topLeft t)) ((λ f, f - 4) <$> firstRow)
         || gtU (row (topLeft t)) lastRow
      then alterEach g firstRow lastRow fullRows aT'
      else
        g1 ← alterShape g i fullRows;
        alterEach g1 firstRow lastRow fullRows aT'
  end.

(** [arr.splice(start, 1)] *)
Definition splice1 {A} (start : Z) (l : list A) : list A :=
  let len := Z.of_nat (length l) in
  let s := if start <? 0 then Z.max (len + start) 0 else Z.min start len in
  delete (Z.to_nat s) l.

Fixpoint removeTets (i : Z) (rm : list Z) (aT : list nat) : list nat :=
  match rm with
  | [] => aT
  | x :: rm' => removeTets (i + 1) rm' (splice1 (x - i) aT)
  end.

Definition alterShapes (g : Game) (fullRows : list Z) : option Game :=
  g1 ← alterEach g (head fullRows) (last fullRows) fullRows (allTets g);
  Some (set_updateLanded true
         (set_tetsToRemove []
           (set_allTets (removeTets 0 (tetsToRemove g1) (allTets g1)) g1))).

(** ** Tet.collided *)

(** [isFilled] for one row of [landed]. *)
Definition rowFilled (lr : LandedRow) : bool :=
  forallb (λ c, negb (isZero lr c)) (seqZ 0 BOARD_COL_NUM).

Fixpoint findFullRows (l : Landed) (rows : list Z) : option (list Z) :=
  match rows with
  | [] => Some []
  | r :: rows' =>
      lr ← landedRow l r;
      fr ← findFullRows l rows';
      Some (if rowFilled lr then r :: fr else fr)
  end.

(** [(fRLen ** (1 + (fRLen - 1) * 0.1)) * 10000] *)
Definition scoreGain (fRLen : nat) : R :=
  (Rpower (INR fRLen) (1 + (INR fRLen - 1) * (1 / 10)) * 10000)%R.

(** The rows [collided] finds full when called on the Tet [this]. *)
Definition fullRowsOf (g : Game) (this : nat) : option (Game * list Z) :=
  '(g1, l) ← getLanded g None;
  t ← heap g1 !! this;
  fr ← findFullRows l
         (seqZ (row (topLeft t)) (BOARD_ROW_NUM - row (topLeft t)));
  Some (set_updateLanded true g1, fr).

(** [collided]; the [setInterval] at its end adds a [moveLoop] whose [that]
    is [this]. *)
Definition collided (g : Game) (this : nat) : option Game :=
  '(g1, fullRows) ← fullRowsOf g this;
  match fullRows with
  | [] => Some g1
  | _ =>
      let g2 := set_score (score g1 + scoreGain (length fullRows))%R g1 in
      g3 ← alterShapes g2 fullRows;
      Some (set_moveLoops (moveLoops g3 ++ [this]) (set_updateLanded true g3))
  end.

(** ** The score in binary64

    [this.game.score] is a JavaScript number, a binary64 floating-point
    number ([PrimFloat.float]).  In
    [score += (fRLen ** (1 + (fRLen - 1) * 0.1)) * 10000] the operators
    [-], [*] and [+] are the correctly rounded ones of IEEE 754, those of
    [PrimFloat], and [0.1] is the binary64 number next to one tenth.  The
    result of [**] is implementation-approximated in ECMAScript: the
    operator of the engine is the argument [pow]. *)

Section Binary64.
Import PrimFloat.

Variable pow : float → float → float.




End Binary64.


(** ** Tet.moveLeft, moveRight, moveDown *)

Definition moveLeft (g : Game) (this : nat) : option Game :=
  t ← heap g !! this;
  let g0 := setTet this (set_pivot (Some 0) t) g in
  let pot := mkPos (row (topLeft t)) (col (topLeft t) - 1) in
  '(g1, b) ← doesTetCollideSide g0 this pot None;
  if b : bool then Some g1
  else t1 ← heap g1 !! this; Some (setTet this (set_topLeft pot t1) g1).

Definition moveRight (g : Game) (this : nat) : option Game :=
  t ← heap g !! this;
  let pot := mkPos (row (topLeft t)) (col (topLeft t) + 1) in
  '(g1, b) ← doesTetCollideSide g this pot (Some 1);
  if b : bool then Some g1
  else t1 ← heap g1 !! this; Some (setTet this (set_topLeft pot t1) g1).

Definition moveDown (g : Game) (this : nat) : option Game :=
  t ← heap g !! this;
  let pot := mkPos (row (topLeft t) + 1) (col (topLeft t)) in
  '(g1, b) ← doesTetCollideBot g this pot;
  if b : bool then
    collided (set_updateLanded true (set_currentTet None (set_newTet true g1))) this
  else t1 ← heap g1 !! this; Some (setTet this (set_topLeft pot t1) g1).

(** ** The falling animation: the callback of [moveLoop] in [collided] *)

(** One run of the [for] loop over [allTets]: [movingTets] is threaded, and
    [tetsMoved] is the third component. *)
Fixpoint settlePass (g : Game) (aT : list nat) (movingTets : list nat)
    (tetsMoved : bool) : option (Game * list nat * bool) :=
  match aT with
  | [] => Some (g, movingTets, tetsMoved)
  | i :: aT' =>
      if bool_decide (i ∈ movingTets)
         || (sameRef i (currentTet g) && negb (newTet g))
      then settlePass g aT' movingTets tetsMoved
      else
        t ← heap g !! i;
        let potTL := mkPos (row (topLeft t) + 1) (col (topLeft t)) in
        '(g1, b) ← doesTetCollideBot g i potTL;
        if b : bool then settlePass g1 aT' movingTets tetsMoved
        else
          t1 ← heap g1 !! i;
          settlePass (setTet i (set_topLeft potTL t1) g1) aT'
            (movingTets ++ [i]) true
  end.

(** [while (tetsMoved)].  A pass that moves a Tet adds it to [movingTets],
    and a Tet in [movingTets] is skipped, so there are at most
    [length allTets] passes that move and one that does not: [fuel] is
    never used up from [S (length allTets)] on (see [settleWhile_fuel]). *)
Fixpoint settleWhile (fuel : nat) (g : Game) (movingTets : list nat)
    : option (Game * list nat) :=
  match fuel with
  | O => None
  | S fuel' =>
      '(g1, movingTets1, tetsMoved) ← settlePass g (allTets g) movingTets false;
      let g2 := set_updateLanded true g1 in
      if tetsMoved : bool then settleWhile fuel' g2 movingTets1
      else Some (g2, movingTets1)
  end.

(** One round: the body of the callback up to [that.game.draw()]. *)
Definition settleRound (g : Game) : option (Game * list nat) :=
  settleWhile (S (length (allTets g))) g [].

(** ** Game.draw: the refresh of the [landed] cache

    With a next and a current Tet and [newTet] false, [draw] looks for the
    shadow of the current Tet with [doesTetCollideBot], from the row below
    it; every such call, and [doesNotTetPivotCollide] after them, recomputes
    [landed] without the current Tet.  Nothing else of the state is
    written. *)
Definition draw (g : Game) : option Game :=
  match nextTet g, newTet g, currentTet g with
  | Some _, false, Some c =>
      t ← heap g !! c;
      '(g1, _) ← doesTetCollideBot g c (mkPos (row (topLeft t) + 1) (col (topLeft t)));
      Some g1
  | _, _, _ => Some g
  end.

(** ** Game.createTet *)

(** The part of [createTet] before the collision test.  [r1] is the draw
    of [createTet] itself, [r2] the draw of the constructor called with
    [t], [r3] the draw of [new Tet(this)]. *)
Definition spawn (g : Game) (r1 r2 r3 : Z) : option Game :=
  g1 ← match nextTet g with
       | None =>
           let t := if (r1 =? 4) || (r1 =? 6) then r1 - 1 else r1 in
           tet ← Tet_new (Some t) r2;
           let '(id, g') := alloc tet g in
           Some (set_nextTet (Some id) g')
       | Some _ => Some g
       end;
  g2 ← (if newTet g1 then
          tet ← Tet_new None r3;
          let '(id, g') := alloc tet (set_currentTet (nextTet g1) g1) in
          Some (set_nextTet (Some id) g')
        else Some g1);
  let g3 := set_newTet false g2 in
  Some (if currentTet g3 is None then set_currentTet (nextTet g3) g3 else g3).

Definition createTet (g : Game) (r1 r2 r3 : Z) : option Game :=
  g1 ← spawn g r1 r2 r3;
  cur ← currentTet g1;
  t ← heap g1 !! cur;
  '(g2, b) ← doesTetCollideBot g1 cur (topLeft t);
  if b : bool then
    Some (set_loop false
           (set_newTet true (set_gameOver true (set_nextTet (currentTet g2) g2))))
  else draw (set_allTets (allTets g2 ++ [cur]) g2).

(** ** The constructor of [Game]

    [newGame] is the object with its field initialisers and [Game_new] the
    call of [createTet] on it: the part of the constructor that makes the
    state of the game.  What the constructor does on the page before that
    call, the canvas it looks up and the cookie of the high scores it
    reads, is in [Game_constructor], with the high scores. *)

Definition newGame (devMode : bool) : Game :=
  mkGame [] devMode true None None true [] [] 0%R false [] true false [].

Definition Game_new (devMode : bool) (r1 r2 r3 : Z) : option Game :=
  createTet (newGame devMode) r1 r2 r3.

(** ** The events: keys and timers

    [handleEvents] and the two intervals.  The events of a game are the
    arrows, [p] and the timers; the space bar, the reset key and the
    window focus are modelled apart, further on, and the developer's keys
    are left out. *)

Definition canTetMove (g : Game) : bool :=
  ((negb (newTet g) && negb (paused g)) || devModeOn g) && negb (gameOver g).

Definition tetDownLoop (g : Game) : Game := set_loop true g.

Inductive Event :=
  | KeyUp | KeyLeft | KeyRight | KeyDown | KeyP
  | Tick (r1 r2 r3 : Z)          (* the callback of [loop], with its draws *)
  | MoveTick (k : nat).          (* the callback of the [k]th [moveLoop] *)

Definition onKeyUp (g : Game) : option Game :=
  match canTetMove g, currentTet g with
  | true, Some c => '(g1, _) ← rotate g c; draw g1
  | _, _ => Some g
  end.

Definition onKeyLeft (g : Game) : option Game :=
  match canTetMove g, currentTet g with
  | true, Some c => g1 ← moveLeft g c; draw g1
  | _, _ => Some g
  end.

Definition onKeyRight (g : Game) : option Game :=
  match canTetMove g, currentTet g with
  | true, Some c => g1 ← moveRight g c; draw g1
  | _, _ => Some g
  end.

Definition onKeyDown (g : Game) : option Game :=
  match canTetMove g, currentTet g with
  | true, Some c =>
      let skip := newTet g in
      let g0 := if skip then g else set_loop false g in
      g1 ← moveDown g0 c;
      g2 ← draw g1;
      Some (if negb skip && negb (paused g2) then tetDownLoop g2 else g2)
  | _, _ => Some g
  end.

Definition onKeyP (g : Game) : option Game :=
  if gameOver g then Some g
  else if negb (paused g) then draw (set_paused true (set_loop false g))
  else draw (set_paused false (tetDownLoop g)).

(** The callback of [loop]; it runs only while the interval is set.
    [dropOnce] is never given a true value by the program, so the first
    line of the callback does nothing. *)
Definition onTick (g : Game) (r1 r2 r3 : Z) : option Game :=
  if negb (loop g) then None
  else
    g1 ← (if newTet g then createTet g r1 r2 r3
          else match paused g, currentTet g with
               | false, Some c => moveDown g c
               | _, _ => Some g
               end);
    draw g1.

(** The callback of a [moveLoop]: one round, then, when no Tet moved, the
    interval is cleared and [that.collided()] is called. *)
Definition onMoveTick (g : Game) (k : nat) : option Game :=
  that ← moveLoops g !! k;
  '(g1, movingTets) ← settleRound g;
  g2 ← draw g1;
  match movingTets with
  | [] => collided (set_moveLoops (delete k (moveLoops g2)) g2) that
  | _ => Some g2
  end.

(** [None]: the event cannot happen in this state (a timer that is not
    set), or its handler throws. *)
Definition step (g : Game) (e : Event) : option Game :=
  match e with
  | KeyUp => onKeyUp g
  | KeyLeft => onKeyLeft g
  | KeyRight => onKeyRight g
  | KeyDown => onKeyDown g
  | KeyP => onKeyP g
  | Tick r1 r2 r3 => onTick g r1 r2 r3
  | MoveTick k => onMoveTick g k
  end.

Fixpoint run (g : Game) (es : list Event) : option Game :=
  match es with
  | [] => Some g
  | e :: es' => g1 ← step g e; run g1 es'
  end.

(** The draws of [Math.floor(Math.random() * 7)]. *)
Definition isDraw (r : Z) : Prop := 0 <= r < 7.

Definition eventOk (e : Event) : Prop :=
  match e with
  | Tick r1 r2 r3 => isDraw r1 ∧ isDraw r2 ∧ isDraw r3
  | _ => True
  end.

(** The states a game reaches from [new Game(...)], developer's mode off. *)
Inductive reachable : Game → Prop :=
  | reach_new r1 r2 r3 g :
      isDraw r1 → isDraw r2 → isDraw r3 →
      Game_new false r1 r2 r3 = Some g → reachable g
  | reach_step g e g' :
      reachable g → eventOk e → step g e = Some g' → reachable g'.

(** ** Occupancy *)

(** The Tet [t] has a non-zero cell at the board cell [(r, c)]. *)
Definition occupies (t : Tet) (r c : Z) : bool :=
  bool_decide ((r - row (topLeft t), c - col (topLeft t)) ∈ cells (shape t)).

(** * More of the program: outlines, the shadow, more keys, the window,
    the high scores and the text of the score *)

(** ** Tet.getPerimeter and Tet.setShape *)

(** [periMatrix]: a shape and the corners of its outline, each corner an
    array [[x, y]]. *)
Definition periMatrix : list (Shape * list (list Z)) :=
  [ ([[1]]%nat,               [[0;0];[0;1];[1;1];[1;0]]);               (* fragments *)
    ([[1;1]]%nat,             [[0;0];[0;1];[2;1];[2;0]]);
    ([[1];[1]]%nat,           [[0;0];[0;2];[1;2];[1;0]]);
    ([[1;1;1]]%nat,           [[0;0];[0;1];[3;1];[3;0]]);
    ([[1];[1];[1]]%nat,       [[0;0];[0;3];[1;3];[1;0]]);
    ([[1;1];[0;1]]%nat,       [[0;0];[0;1];[1;1];[1;2];[2;2];[2;0]]);
    ([[0;1];[1;1]]%nat,       [[1;0];[1;1];[0;1];[0;2];[2;2];[2;0]]);
    ([[1];[1;1]]%nat,         [[0;0];[0;2];[2;2];[2;1];[1;1];[1;0]]);
    ([[1;1];[1]]%nat,         [[0;0];[0;2];[1;2];[1;1];[2;1];[2;0]]);
    ([[1;1;1;1]]%nat,         [[0;0];[0;1];[4;1];[4;0]]);               (* I *)
    ([[1];[1];[1];[1]]%nat,   [[0;0];[0;4];[1;4];[1;0]]);
    ([[1;1;1];[0;0;1]]%nat,   [[0;0];[0;1];[2;1];[2;2];[3;2];[3;0]]);   (* J *)
    ([[0;1];[0;1];[1;1]]%nat, [[1;0];[1;2];[0;2];[0;3];[2;3];[2;0]]);
    ([[1];[1;1;1]]%nat,       [[0;0];[0;2];[3;2];[3;1];[1;1];[1;0]]);
    ([[1;1];[1];[1]]%nat,     [[0;0];[0;3];[1;3];[1;1];[2;1];[2;0]]);
    ([[1;1;1];[1]]%nat,       [[0;0];[0;2];[1;2];[1;1];[3;1];[3;0]]);   (* L *)
    ([[1;1];[0;1];[0;1]]%nat, [[0;0];[0;1];[1;1];[1;3];[2;3];[2;0]]);
    ([[0;0;1];[1;1;1]]%nat,   [[2;0];[2;1];[0;1];[0;2];[3;2];[3;0]]);
    ([[1];[1];[1;1]]%nat,     [[0;0];[0;3];[2;3];[2;2];[1;2];[1;0]]);
    ([[1;1];[1;1]]%nat,       [[0;0];[0;2];[2;2];[2;0]]);               (* O *)
    ([[0;1;1];[1;1]]%nat,     [[1;0];[1;1];[0;1];[0;2];[2;2];[2;1];[3;1];[3;0]]); (* S *)
    ([[1];[1;1];[0;1]]%nat,   [[0;0];[0;2];[1;2];[1;3];[2;3];[2;1];[1;1];[1;0]]);
    ([[1;1;1];[0;1]]%nat,     [[0;0];[0;1];[1;1];[1;2];[2;2];[2;1];[3;1];[3;0]]); (* T *)
    ([[0;1];[1;1];[0;1]]%nat, [[1;0];[1;1];[0;1];[0;2];[1;2];[1;3];[2;3];[2;0]]);
    ([[0;1];[1;1;1]]%nat,     [[1;0];[1;1];[0;1];[0;2];[3;2];[3;1];[2;1];[2;0]]);
    ([[1];[1;1];[1]]%nat,     [[0;0];[0;3];[1;3];[1;2];[2;2];[2;1];[1;1];[1;0]]);
    ([[1;1];[0;1;1]]%nat,     [[0;0];[0;1];[1;1];[1;2];[3;2];[3;1];[2;1];[2;0]]); (* Z *)
    ([[0;1];[1;1];[1]]%nat,   [[1;0];[1;1];[0;1];[0;3];[1;3];[1;2];[2;2];[2;0]])
  ].

(** The loop over [col] for one row of the shape and the row of the entry:
    the answer is [checkNextShape] when the loop is left. *)
Fixpoint colLoop (sRow pRow : list nat) (cols : list nat) : bool :=
  match cols with
  | [] => false
  | col :: cols' =>
      if negb (length sRow =? length pRow)%nat then true
      else if bool_decide (sRow !! col = pRow !! col) then colLoop sRow pRow cols'
      else true
  end.

(** The loop over [row], entered with [checkNextShape]: [None] where the
    JavaScript would read a property of [undefined]. *)
Fixpoint rowLoop (shape pShape : Shape) (rows : list nat)
    (checkNextShape : bool) : option bool :=
  match rows with
  | [] => Some checkNextShape
  | row :: rows' =>
      if negb (length shape =? length pShape)%nat then Some true
      else if checkNextShape then Some true
      else
        sRow ← shape !! row;
        match pShape !! row with
        | Some pRow =>
            rowLoop shape pShape rows' (colLoop sRow pRow (seq 0 (length sRow)))
        | None =>
            (* [periMatrix[pRow][0][row]] is [undefined]: its [length] is
               read when the row of the shape has a cell *)
            if sRow is [] then rowLoop shape pShape rows' false else None
        end
  end.

Fixpoint periLoop (shape : Shape) (pm : list (Shape * list (list Z)))
    : option (list (list Z)) :=
  match pm with
  | [] => Some []
  | (pShape, peri) :: pm' =>
      c ← rowLoop shape pShape (seq 0 (length shape)) false;
      if c : bool then periLoop shape pm' else Some peri
  end.

Definition getPerimeter (shape : Shape) : option (list (list Z)) :=
  periLoop shape periMatrix.

(** ** Tet.doesNotTetPivotCollide *)

(** The collision loop of [doesNotTetPivotCollide]: [true] when no cell of
    the potential shape is rejected.  The row is tested first, then the
    cell of [landed], then the columns. *)
Fixpoint pivotScan (l : Landed) (tl : Pos) (cs : list (Z * Z)) : option bool :=
  match cs with
  | [] => Some true
  | (r, c) :: cs' =>
      if BOARD_ROW_NUM <=? r + row tl then Some false
      else
        lr ← landedRow l (r + row tl);
        if taken lr (c + col tl) then Some false
        else if c + col tl <? 0 then Some false
        else if BOARD_COL_NUM <=? c + col tl then Some false
        else if taken lr (c + col tl) then Some false
        else pivotScan l tl cs'
  end.

(** The answer is the perimeter of the next shape, or [false] ([None]).
    [potentialTopLeft.col] is [topLeft.col + pivot]: as in [rotate], the
    model stops at a Tet without a pivot ([draw] calls this method when
    [pivot > 0]). *)
Definition doesNotTetPivotCollide (g : Game) (this : nat)
    : option (Game * option (list (list Z))) :=
  t0 ← heap g !! this;
  let potRot := nextRotation t0 in
  p ← pivot t0;
  let potentialTopLeft := mkPos (row (topLeft t0)) (col (topLeft t0) + p) in
  '(g1, l) ← getLanded g (Some this);
  t ← heap g1 !! this;
  '(t1, potShape) ← getShapeMatrix t potRot;
  let g2 := setTet this t1 g1 in
  ok ← pivotScan l potentialTopLeft (cells potShape);
  if ok : bool then
    peri ← getPerimeter potShape;
    Some (g2, Some peri)
  else Some (g2, None).

(** ** The shadow of the current Tet in [Game.draw] *)

(** [while (!this.currentTet.doesTetCollideBot(tmpPotTopLeft))
       tmpPotTopLeft.row++]: the answer is [tmpPotTopLeft] when the loop is
    left, [None] when [fuel] calls all answered [false]. *)
Fixpoint shadowLoop (fuel : nat) (g : Game) (c : nat) (tmpPotTopLeft : Pos)
    : option (Game * Pos) :=
  match fuel with
  | O => None
  | S fuel' =>
      '(g1, b) ← doesTetCollideBot g c tmpPotTopLeft;
      if b : bool then Some (g1, tmpPotTopLeft)
      else shadowLoop fuel' g1 c
             (mkPos (row tmpPotTopLeft + 1) (col tmpPotTopLeft))
  end.

(** The position of the shadow: the loop from the row below the Tet, and
    then [tmpPotTopLeft.row--]. *)
Definition shadow (fuel : nat) (g : Game) (c : nat) : option (Game * Pos) :=
  t ← heap g !! c;
  '(g1, p) ← shadowLoop fuel g c (mkPos (row (topLeft t) + 1) (col (topLeft t)));
  Some (g1, mkPos (row p - 1) (col p)).

(** ** The space bar *)

(** [while (!that.newTet && that.currentTet) that.currentTet.moveDown()] *)
Fixpoint dropLoop (fuel : nat) (g : Game) : option Game :=
  match fuel with
  | O => None
  | S fuel' =>
      match newTet g, currentTet g with
      | false, Some c => g1 ← moveDown g c; dropLoop fuel' g1
      | _, _ => Some g
      end
  end.

(** The handler of the space bar. *)
Definition onKeySpace (fuel : nat) (g : Game) : option Game :=
  if canTetMove g then
    g1 ← dropLoop fuel g;
    g2 ← draw g1;
    Some (tetDownLoop g2)
  else Some g.

(** ** The reset key *)

(** The handler of [r]: the fields are reset and [createTet] is called.
    [landed], [updateLanded] and the [moveLoop] intervals are left as they
    are; [updateScore] belongs to the high scores, modelled apart. *)
Definition onKeyR (g : Game) (r1 r2 r3 : Z) : option Game :=
  let g1 := set_allTets [] g in
  let g2 := set_loop false g1 in
  let g3 := set_currentTet None g2 in
  let g4 := set_gameOver false g3 in
  let g5 := set_newTet true g4 in
  let g6 := set_nextTet None g5 in
  let g7 := set_paused true g6 in
  let g8 := set_score 0%R g7 in
  createTet g8 r1 r2 r3.

(** ** The window: [onblur] and [onfocus] *)

(** The game and the variable [pausedBeforeBlur] of [handleEvents]. *)
Record Window := mkWindow { game : Game; pausedBeforeBlur : bool }.

(** [new Game(...)] sets the handlers with [pausedBeforeBlur = true]. *)
Definition Window_new (g : Game) : Window := mkWindow g true.

Definition onBlur (w : Window) : option Window :=
  let g := game w in
  if negb (gameOver g) then
    g1 ← draw (set_paused true (set_loop false g));
    Some (mkWindow g1 (paused g))
  else Some w.

Definition onFocus (w : Window) : option Window :=
  let g := game w in
  if negb (pausedBeforeBlur w) && negb (gameOver g) then
    g1 ← draw (set_paused false (tetDownLoop g));
    Some (mkWindow g1 (pausedBeforeBlur w))
  else Some w.

(** ** The high scores *)

(** [getCookie] and [setCookie] keep the list in the cookie [highScores],
    as the text [JSON.stringify] makes of it; the model keeps the list
    itself, [None] when there is no such cookie.  [updateScore] is the
    field of [Game]. *)
Record Scores := mkScores { cookie : option (list R); updateScore : bool }.

(** [setHighScores(v)] *)
Definition setHighScores (v : list R) (s : Scores) : Scores :=
  mkScores (Some v) (updateScore s).

(** [getHighScores()] for a game whose score is [score]. *)
Definition getHighScores (score : R) (s : Scores) : list R * Scores :=
  match cookie s with
  | None =>
      let tmp := score :: replicate 9 0%R in
      (tmp, setHighScores tmp s)
  | Some tmp => (tmp, s)
  end.

(** The [for] loop of [checkHighScore]: [splice(i, 0, score)] at the first
    [i] with [score > highScores[i]], and [break]. *)
Fixpoint insertScore (score : R) (highScores : list R) : list R :=
  match highScores with
  | [] => []
  | x :: rest =>
      if Rgt_dec score x then score :: x :: rest
      else x :: insertScore score rest
  end.

Definition checkHighScore (score : R) (s : Scores) : list R * Scores :=
  let '(highScores, s1) := getHighScores score s in
  if updateScore s1 then
    let hsLen := length highScores in
    let hs1 := insertScore score highScores in
    let hs2 := if (hsLen <? length hs1)%nat then removelast hs1 else hs1 in
    (hs2, mkScores (Some hs2) false)
  else (highScores, s1).

(** ** The constructor on its page *)

(** What [new Game(canvasId, highScoresListId, devModeOn)] reads of the
    page before it calls [createTet]: [document.getElementById(canvasId)],
    whose [width] it sets, and in [displayHighScores] the cookie
    [highScores], which [JSON.parse] reads.  The id names a canvas
    ([canvasFound]) or no element; an element of another kind, on which
    [draw] would fail, is left out.  The cookie is absent, a text that
    [JSON.parse] refuses, or the text of a list of numbers, as
    [setHighScores] writes it; other texts are left out. *)
Inductive Cookie := NoCookie | BadCookie | ListCookie (hs : list R).

Record Page := mkPage { canvasFound : bool; highScores : Cookie }.

(** [displayHighScores()] on a game whose score is [score], for its effect
    on the cookie: [getHighScores] stores a list when there is none.  A
    [SyntaxError] of [JSON.parse] is [None].  [updateScore] is [true] in a
    new game. *)
Definition displayHighScores (score : R) (c : Cookie) : option Scores :=
  match c with
  | NoCookie => Some (getHighScores score (mkScores None true)).2
  | BadCookie => None
  | ListCookie hs => Some (getHighScores score (mkScores (Some hs) true)).2
  end.

(** The constructor: the [TypeError] of [this.canvas.width] on a missing
    canvas is [None]; then [displayHighScores], [createTet] and
    [handleEvents]. *)
Definition Game_constructor (p : Page) (devMode : bool) (r1 r2 r3 : Z)
    : option (Window * Scores) :=
  if canvasFound p then
    s ← displayHighScores (score (newGame devMode)) (highScores p);
    g ← Game_new devMode r1 r2 r3;
    Some (Window_new g, s)
  else None.

(** ** The outline that [draw] traces *)

(** A side of a square of the grid: the segment from the point [(x, y)]
    one unit to the right ([true]) or one unit down ([false]).  The block
    of a shape in row [r] and column [c] is the square with the corners
    [(c, r)] and [(c + 1, r + 1)]. *)
Definition Side : Type := Z * Z * bool.

(** The sides a line from the corner [p] to the corner [q] runs along;
    the lines of an outline are parallel to the axes. *)
Definition lineSides (p q : list Z) : list Side :=
  match p, q with
  | [x1; y1], [x2; y2] =>
      if y1 =? y2 then
        (λ x, (x, y1, true)) <$> seqZ (Z.min x1 x2) (Z.abs (x2 - x1))
      else if x1 =? x2 then
        (λ y, (x1, y, false)) <$> seqZ (Z.min y1 y2) (Z.abs (y2 - y1))
      else []
  | _, _ => []
  end.

(** The path of [draw]: [moveTo] the first corner, [lineTo] each of the
    others, [closePath]. *)
Definition outlineSides (peri : list (list Z)) : list Side :=
  match peri with
  | [] => []
  | p0 :: rest => concat (zip_with lineSides peri (rest ++ [p0]))
  end.

(** ** Game.commaSeparateNumber *)

(** [tmp.toString()] for a whole number that is not negative. *)
Definition digitsOf (n : N) : list ascii :=
  String.list_ascii_of_string
    (DecimalString.NilZero.string_of_uint (N.to_uint n)).

(** [\d] *)
Definition isDigit (c : ascii) : bool :=
  (48 <=? nat_of_ascii c)%nat && (nat_of_ascii c <=? 57)%nat.

(** ['$1' + ',' + '$2'] for a match on the digits [run], four or more:
    the greedy [(\d+)] takes all of them but the last three. *)
Definition commaRun (run : list ascii) : list ascii :=
  take (length run - 3) run ++ ","%char :: drop (length run - 3) run.

(** [replace(/(\d+)(\d{3})/, ...)] on the text [s] that follows the digits
    [run]: the match is the first run of four digits or more.  [None] when
    there is none, that is when [test] is false. *)
Fixpoint commaScan (run s : list ascii) : option (list ascii) :=
  match s with
  | [] => if (4 <=? length run)%nat then Some (commaRun run) else None
  | c :: s' =>
      if isDigit c then commaScan (run ++ [c]) s'
      else if (4 <=? length run)%nat then Some (commaRun run ++ c :: s')
      else (λ r, run ++ c :: r) <$> commaScan [] s'
  end.

(** The [while] loop; [None] when [fuel] tests were all true. *)
Fixpoint commaLoop (fuel : nat) (s : list ascii) : option (list ascii) :=
  match fuel with
  | O => None
  | S fuel' =>
      match commaScan [] s with
      | None => Some s
      | Some s' => commaLoop fuel' s'
      end
  end.

(** What [commaSeparateNumber] returns: a text, the number it was given,
    or the text of [toExponential(10)], which is not modelled. *)
Inductive Formatted :=
  | Text (s : list ascii)
  | Number (n : N)
  | Exponential (n : N).

(** [tmp] is [Math.floor(number)], not negative. *)
Definition commaSeparateNumber (fuel : nat) (tmp : N) : option Formatted :=
  if (tmp <=? 99999999999999)%N then
    s ← commaLoop fuel (digitsOf tmp);
    Some (if commaScan [] (digitsOf tmp) is Some _ then Text s else Number tmp)
  else if (999999999999999 <? tmp)%N then Some (Exponential tmp)
  else Some (Number tmp).

(** The text a value shows when it is added to a string. *)
Definition textOf (r : Formatted) : list ascii :=
  match r with
  | Text s => s
  | Number n => digitsOf n
  | Exponential _ => []
  end.

(** * Predicates of the specification *)

(** Two states that differ at most in the [landed] cache. *)
Definition cacheEq (g g' : Game) : Prop :=
  ∃ u l, g' = set_updateLanded u (set_landed l g).

(** A cell the loop of [doesTetCollideSide] passes over: inside the columns
    of the board and on a cell of [landed] that reads [0]. *)
Definition sideFree (l : Landed) (pot : Pos) (rc : Z * Z) : Prop :=
  0 <= rc.2 + col pot < BOARD_COL_NUM
  ∧ ∃ lr, landedRow l (rc.1 + row pot) = Some lr
          ∧ taken lr (rc.2 + col pot) = false.

(** A cell inside the columns of the board, on a cell of [landed] that does
    not read [0]. *)
Definition sideOverlap (l : Landed) (pot : Pos) (rc : Z * Z) : Prop :=
  0 <= rc.2 + col pot < BOARD_COL_NUM
  ∧ ∃ lr, landedRow l (rc.1 + row pot) = Some lr
          ∧ taken lr (rc.2 + col pot) = true.

(** [shape[r][c]], read as [0] off the shape. *)
Definition cellAt (s : Shape) (r c : Z) : nat :=
  default 0%nat (index s r ≫= λ rw, index rw c).

(** The rows of a shape that [cleanShape] is given by [updateTet]: each
    holds a cell that is not zero. *)
Definition rowsNonZero (s : Shape) : Prop :=
  Forall (λ rw : list nat, ∃ x, x ∈ rw ∧ x ≠ 0%nat) s.

(** No column of zeros on the left, no zero at the end of a row, and no
    empty row: the shape is not padded. *)
Definition trimmed (s : Shape) : Prop :=
  s ≠ [] ∧ existsb headPositive s = true
  ∧ Forall (λ rw : list nat, rw ≠ [] ∧ last rw ≠ Some 0%nat) s.

(** The cell of a fragment, or of a Tet, at a board position. *)
Definition cellOf (s : Shape) (tl : Pos) (r c : Z) : nat :=
  cellAt s (r - row tl) (c - col tl).

(** A fragment as [updateTet] queues it: at least one row, each row with
    a non-zero cell. *)
Definition wfFrag (f : Shape * Pos) : Prop := f.1 ≠ [] ∧ rowsNonZero f.1.

(** A fragment that is a maximal run of rows of the shape [s] of a Tet at
    [tl0]: rows [i] to [i + length f.1 - 1] of [s], none of them all zero,
    with an all-zero row (or no row) just above and just below. *)
Definition isRun (s : Shape) (tl0 : Pos) (f : Shape * Pos) : Prop :=
  ∃ i : nat,
    f.2 = mkPos (row tl0 + Z.of_nat i) (col tl0)
    ∧ f.1 ≠ []
    ∧ take (length f.1) (drop i s) = f.1
    ∧ Forall (λ rw, arrayIsAllZeros rw = false) f.1
    ∧ (∀ rw, (0 < i)%nat → s !! (i - 1)%nat = Some rw → arrayIsAllZeros rw = true)
    ∧ (∀ rw, s !! (i + length f.1)%nat = Some rw → arrayIsAllZeros rw = true).


(** The Tets [updateTet] creates for the fragments after the first. *)
Definition fragmentTets (ty : Z) (news : list (Shape * Pos)) : list Tet :=
  (λ f : Shape * Pos, Tet_fragment ty f.2 f.1) <$> news.

(** The Tets of [allTets] a pass can still move. *)
Definition restTets (g : Game) (mv : list nat) : list nat :=
  filter (λ i, i ∉ mv) (allTets g).

(** Every Tet with the property [P] is still there, with [P]. *)
Definition keepsTets (P : Tet → Prop) (g g' : Game) : Prop :=
  ∀ i t, heap g !! i = Some t → P t → ∃ t', heap g' !! i = Some t' ∧ P t'.

(** ... and the score is the same. *)
Definition keeps (P : Tet → Prop) (g g' : Game) : Prop :=
  score g' = score g ∧ keepsTets P g g'.

(** The inputs of the player to the Tet it controls. *)
Inductive Input := ILeft | IRight | IDown | IRotate.

Definition applyInput (g : Game) (this : nat) (i : Input) : option Game :=
  match i with
  | ILeft => moveLeft g this
  | IRight => moveRight g this
  | IDown => moveDown g this
  | IRotate => fst <$> rotate g this
  end.

Fixpoint applyInputs (g : Game) (this : nat) (inputs : list Input) : option Game :=
  match inputs with
  | [] => Some g
  | i :: inputs' => g1 ← applyInput g this i; applyInputs g1 this inputs'
  end.

(** An O Tet as the constructor leaves it, as far as the pivot goes. *)
Definition pivotlessO (t : Tet) : Prop :=
  type t = 3 ∧ pivot t = Some 0 ∧ pivotMax t = Some 0.

(** A game: [new Game(...)], developer's mode off, with the draws
    [r1 r2 r3], and then the events [es]. *)
Definition play (r1 r2 r3 : Z) (es : list Event) : option Game :=
  g ← Game_new false r1 r2 r3; run g es.

(** A game in which two landed Tets overlap.  An I Tet is stood in
    column 8 and an O Tet laid in columns 6 and 7, both on the floor.  The
    next I Tet, lying in row 12 on columns 4 to 7, is pushed three times
    against the I in column 8: its pivot is 3.  It is then rotated: the
    cells tested are rows 12 to 15 of column 4, the cells taken are rows 12
    to 15 of column 7, where the O Tet lies.  It lands there. *)
Definition overlapTrace : list Event :=
  [KeyP; KeyUp; KeyRight; KeyRight; KeyRight; KeyRight]
  ++ replicate 13 KeyDown
  ++ [Tick 0 0 0; KeyRight; KeyRight]
  ++ replicate 15 KeyDown
  ++ [Tick 0 0 5]
  ++ replicate 12 KeyDown
  ++ [KeyRight; KeyRight; KeyRight; KeyUp; KeyDown].

(** ** Games used as instances *)

(** An I Tet lying on columns 6 to 9 of row 0, pivot 0. *)
Definition wallGame : Game :=
  Eval vm_compute in default (newGame false) (play 0 0 3 [KeyP; KeyRight; KeyRight]).

(** The same Tet after three more moves to the right, all refused:
    pivot 3. *)
Definition kickGame : Game :=
  Eval vm_compute in
    default (newGame false)
      (play 0 0 3 [KeyP; KeyRight; KeyRight; KeyRight; KeyRight; KeyRight]).

(** [kickGame] after [rotate]. *)
Definition kickRotated : Game :=
  Eval vm_compute in default (newGame false) (fst <$> rotate kickGame 0).

Definition wallTet : Tet :=
  mkTet 0 (Some 0) (Some 0) (Some 3) (mkPos 0 6) [[1; 1; 1; 1]]%nat.

Definition kickTet : Tet :=
  mkTet 0 (Some 0) (Some 3) (Some 3) (mkPos 0 6) [[1; 1; 1; 1]]%nat.

(** Eight O Tets dropped where they spawn: columns 4 and 5 are full, and
    [newTet] is set for the ninth. *)
Definition topOutTrace : list Event :=
  [KeyP]
  ++ replicate 15 KeyDown ++ [Tick 0 0 3]
  ++ replicate 13 KeyDown ++ [Tick 0 0 3]
  ++ replicate 11 KeyDown ++ [Tick 0 0 3]
  ++ replicate 9 KeyDown ++ [Tick 0 0 3]
  ++ replicate 7 KeyDown ++ [Tick 0 0 3]
  ++ replicate 5 KeyDown ++ [Tick 0 0 3]
  ++ replicate 3 KeyDown ++ [Tick 0 0 3]
  ++ replicate 1 KeyDown.

Definition topOutGame : Game :=
  Eval vm_compute in default (newGame false) (play 3 0 3 topOutTrace).

Definition topOutSpawned : Game :=
  Eval vm_compute in default (newGame false) (spawn topOutGame 0 0 3).

Definition topOutChecked : Game :=
  Eval vm_compute in
    default (newGame false)
      (fst <$> doesTetCollideBot topOutSpawned 8 (mkPos 0 4)).

Definition oTet : Tet :=
  mkTet 3 (Some 0) (Some 0) (Some 0) (mkPos 0 4) [[1; 1]; [1; 1]]%nat.

(** Three J Tets and a standing I Tet: when the I lands, row 14 is full
    and row 15 is not. *)
Definition clearPrefix : list Event :=
  [KeyP; KeyLeft; KeyLeft; KeyLeft; KeyLeft] ++ replicate 15 KeyDown
  ++ [Tick 0 0 1; KeyLeft] ++ replicate 15 KeyDown
  ++ [Tick 0 0 0; KeyRight; KeyRight; KeyRight] ++ replicate 15 KeyDown
  ++ [Tick 0 0 2; KeyUp; KeyRight; KeyRight] ++ replicate 12 KeyDown.

(** The state in which [moveDown] calls [collided] on the I Tet. *)
Definition clearLanding : Game :=
  Eval vm_compute in
    default (newGame false)
      (s ← play 1 0 1 clearPrefix;
       '(g1, _) ← doesTetCollideBot (set_loop false s) 3 (mkPos 13 6);
       Some (set_updateLanded true (set_currentTet None (set_newTet true g1)))).

Definition clearCleared : Game :=
  Eval vm_compute in default (newGame false) (collided clearLanding 3).





(** The standing I Tet of [clearLanding] with row 14 set to zero, as
    [alterShape] leaves it for [updateTet]. *)
Definition splitTet : Tet :=
  mkTet 0 (Some 1) (Some 0) (Some 3) (mkPos 12 6) [[1]; [1]; [0]; [1]]%nat.

Definition splitGame : Game :=
  Eval vm_compute in setTet 3 splitTet clearLanding.

(** The state after the landing and one round of the falling animation:
    the next round moves nothing. *)
Definition settledGame : Game :=
  Eval vm_compute in
    default (newGame false) (play 1 0 1 (clearPrefix ++ [KeyDown; MoveTick 0])).

Definition settledRound : Game :=
  Eval vm_compute in default (newGame false) (fst <$> settleRound settledGame).

(** An O Tet, just spawned. *)
Definition oGame : Game :=
  Eval vm_compute in default (newGame false) (play 3 0 3 [KeyP]).

Definition oMoved : Game :=
  Eval vm_compute in
    default (newGame false)
      (applyInputs oGame 0 [IRight; IRotate; ILeft; IRotate; IDown]).
(** * More predicates and instances *)

(** A board cell that a Tet of [allTets] other than the current Tet and
    [excl] occupies: the cells the loops of [getLanded] mark. *)
Definition landedBy (g : Game) (excl : option nat) (r c : Z) : Prop :=
  ∃ i t, i ∈ allTets g ∧ sameRef i (currentTet g) = false
         ∧ sameRef i excl = false
         ∧ heap g !! i = Some t ∧ occupies t r c = true.

(** [l] has the sixteen rows of [landed], and [landed[r][c] !== 0] holds
    off the ten columns and on the cells [P]. *)
Definition gridOf (l : Landed) (P : Z → Z → Prop) : Prop :=
  length l = 16%nat
  ∧ ∀ r lr, landedRow l r = Some lr →
      ∀ c, taken lr c = true ↔ (c < 0 ∨ BOARD_COL_NUM <= c ∨ P r c).

(** Every Tet [getLanded] marks is on the heap, with its non-zero cells on
    the sixteen rows. *)
Definition rowsOk (t : Tet) : Prop :=
  Forall (λ rc : Z * Z, 0 <= rc.1 + row (topLeft t) < BOARD_ROW_NUM)
    (cells (shape t)).

Definition markable (g : Game) (excl : option nat) : Prop :=
  ∀ i, i ∈ allTets g → sameRef i (currentTet g) = false →
       sameRef i excl = false →
       ∃ t, heap g !! i = Some t ∧ rowsOk t.

(** A cell of a shape put at [pot] that is below the board, off its
    columns, or on a cell [P]. *)
Definition hitsP (P : Z → Z → Prop) (pot : Pos) (rc : Z * Z) : Prop :=
  BOARD_ROW_NUM <= rc.1 + row pot
  ∨ rc.2 + col pot < 0
  ∨ BOARD_COL_NUM <= rc.2 + col pot
  ∨ P (rc.1 + row pot) (rc.2 + col pot).

(** Some non-zero cell of the shape [s], put at [pot], is such a cell. *)
Definition hitsAt (P : Z → Z → Prop) (s : Shape) (pot : Pos) : Prop :=
  ∃ rc : Z * Z, rc ∈ cells s ∧ hitsP P pot rc.

(** The [landed] cache can be used as it is: it is marked out of date, or
    it is the grid of the Tets that have landed. *)
Definition cacheFresh (g : Game) : Prop :=
  updateLanded g = true ∨ gridOf (landed g) (landedBy g None).

(** The fields of a [Game] that say what the game is doing. *)
Definition flags (g : Game)
    : bool * bool * option nat * option nat * bool * bool * bool :=
  (devModeOn g, newTet g, currentTet g, nextTet g, gameOver g, paused g, loop g).

(** Neither the flags nor the falling animations change. *)
Definition quiet (g g' : Game) : Prop :=
  flags g' = flags g ∧ moveLoops g' = moveLoops g.

(** A shape goes with an entry of [periMatrix] when it has as many rows as
    the entry and each of its rows is empty or is the row of the entry. *)
Definition rowGoes (sRow pRow : list nat) : bool :=
  bool_decide (sRow = []) || bool_decide (sRow = pRow).

Definition goesWith (shape pShape : Shape) : bool :=
  (length shape =? length pShape)%nat
  && forallb (λ rp : list nat * list nat, rowGoes rp.1 rp.2)
       (zip shape pShape).

(** The state in which [moveDown] calls [collided]. *)
Definition landingOf (g : Game) : Game :=
  set_updateLanded true (set_currentTet None (set_newTet true g)).

(** The rows a Tet can go down before it is stopped. *)
Definition fallOf (P : Z → Z → Prop) (s : Shape) (tl : Pos) (k : nat) : Prop :=
  (∀ j : nat, (j < k)%nat →
     ¬ hitsAt P s (mkPos (row tl + 1 + Z.of_nat j) (col tl)))
  ∧ hitsAt P s (mkPos (row tl + 1 + Z.of_nat k) (col tl)).

(** The state [getLanded] leaves when it has built [l]. *)
Definition cached (l : Landed) (g : Game) : Game :=
  set_updateLanded false (set_landed l g).

(** The type of the first Tet of a game: [createTet] turns a draw of 4 or
    6 into 3 or 5, and the constructor, given 0, draws again. *)
Definition firstType (r1 r2 : Z) : Z :=
  let t := if (r1 =? 4) || (r1 =? 6) then r1 - 1 else r1 in
  if t =? 0 then r2 else t.

(** A Tet as the constructor makes it for a type from 0 to 6. *)
Definition freshTet (ty : Z) (s : Shape) : Tet :=
  mkTet ty (Some 0) (Some 0) (Some (pivotMaxOf ty)) (mkPos 0 4) s.

(** ** More games used as instances *)

(** Three J Tets on the floor and a standing I Tet above the gap between
    them: the state of [clearPrefix], before the I lands. *)
Definition busyGame : Game :=
  Eval vm_compute in default (newGame false) (play 1 0 1 clearPrefix).

Definition busyTet : Tet :=
  mkTet 0 (Some 1) (Some 0) (Some 3) (mkPos 12 6) [[1]; [1]; [1]; [1]]%nat.

(** The grid [getLanded] builds in [busyGame]. *)
Definition busyGrid : Landed :=
  Eval vm_compute in default [] (buildLanded busyGame (Some 3%nat)).

Definition wallRight : Game :=
  Eval vm_compute in default (newGame false) (moveRight wallGame 0).

Definition wallLeft : Game :=
  Eval vm_compute in default (newGame false) (moveLeft wallGame 0).

Definition wallDown : Game :=
  Eval vm_compute in default (newGame false) (moveDown wallGame 0).

Definition wallRotated : Game :=
  Eval vm_compute in default (newGame false) (fst <$> rotate wallGame 0).

(** [kickGame] after [doesNotTetPivotCollide], which sets [pivotMax] again
    and builds [landed]. *)
Definition kickShadowed : Game :=
  Eval vm_compute in
    default (newGame false) (fst <$> doesNotTetPivotCollide kickGame 0).

Definition kickPeri : list (list Z) := [[0; 0]; [0; 4]; [1; 4]; [1; 0]].

(** An I Tet rotated at its pivot. *)
Definition kickTurned : Tet :=
  mkTet 0 (Some 1) (Some 0) (Some 3) (mkPos 0 9) [[1]; [1]; [1]; [1]]%nat.

Definition oPaused : Game :=
  Eval vm_compute in default (newGame false) (onKeyP oGame).

Definition oBlurred : Window :=
  Eval vm_compute in
    default (Window_new (newGame false)) (onBlur (Window_new oGame)).

Definition oFocused : Window :=
  Eval vm_compute in default (Window_new (newGame false)) (onFocus oBlurred).

(** The shapes [getPerimeter] knows. *)
Definition periShapes : list Shape := fst <$> periMatrix.

(** A shape with an outline, or the shape [alterShape] leaves of a Tet that
    is cleared away: every row all zeros. *)
Definition knownShape (s : Shape) : Prop :=
  s ∈ periShapes ∨ Forall (λ rw, arrayIsAllZeros rw = true) s.

(** The rows of [s] that [m] marks, set to zero. *)
Definition maskRows (m : list bool) (s : Shape) : Shape :=
  zip_with (λ (b : bool) (rw : list nat),
              if b then (λ _, 0%nat) <$> rw else rw) m s.

Fixpoint allMasks (n : nat) : list (list bool) :=
  match n with
  | O => [[]]
  | S n' => (cons true <$> allMasks n') ++ (cons false <$> allMasks n')
  end.

(** The fragments of the shape [s] with the rows [m] set to zero are
    cleaned to shapes of [periMatrix]; with no fragment, no block is
    left. *)
Definition clearedOk (s : Shape) (m : list bool) : bool :=
  let s' := maskRows m s in
  match fragments (mkTet 0 None None None (mkPos 0 0) s') with
  | [] => forallb arrayIsAllZeros s'
  | q =>
      forallb (λ f, match cleanShape f with
                    | Some f' => bool_decide (f'.1 ∈ periShapes)
                    | None => false
                    end) q
  end.

(** The shape [alterShape] gives a Tet before [updateTet]. *)
Definition zeroedShape (t : Tet) (fullRows : list Z) : Shape :=
  foldl (λ s fr, zeroRowAt s (row (topLeft t)) fr) (shape t) fullRows.

(** A Tet as the game keeps it: a type of the table, on the rows of the
    board, with a shape [getPerimeter] knows (or cleared away), and a
    rotation of the table when it has one. *)
Definition tetOk (t : Tet) : Prop :=
  0 <= type t < 7
  ∧ 0 <= row (topLeft t)
  ∧ rowsOk t
  ∧ knownShape (shape t)
  ∧ ∀ r, rotation t = Some r → 0 <= r <= 3.

(** The references of a game point at Tets, and the current and the next
    Tet were made by the constructor: they have a pivot. *)
Definition refsOk (g : Game) : Prop :=
  Forall (λ i, (i < length (heap g))%nat) (allTets g)
  ∧ Forall (λ i, (i < length (heap g))%nat) (moveLoops g)
  ∧ (∀ c, currentTet g = Some c →
       ∃ t, heap g !! c = Some t ∧ is_Some (pivot t))
  ∧ (∀ c, nextTet g = Some c →
       ∃ t, heap g !! c = Some t ∧ is_Some (pivot t)).

(** A well-formed game. *)
Definition wf (g : Game) : Prop := Forall tetOk (heap g) ∧ refsOk g.

(** An event that can happen: a timer fires only while it is set. *)
Definition enabled (g : Game) (e : Event) : Prop :=
  match e with
  | Tick _ _ _ => loop g = true
  | MoveTick k => (k < length (moveLoops g))%nat
  | _ => True
  end.

(** The cache of [landed] has its sixteen rows, or is out of date. *)
Definition cacheSized (g : Game) : Prop :=
  updateLanded g = true ∨ length (landed g) = 16%nat.

(** A Tet listed in [allTets] has a non-zero block on the cell [(r, c)];
    the current Tet counts. *)
Definition blockAt (g : Game) (r c : Z) : Prop :=
  ∃ i t, i ∈ allTets g ∧ heap g !! i = Some t ∧ occupies t r c = true.

(** The test of [alterShapes] that passes over a Tet. *)
Definition passedOver (fullRows : list Z) (t : Tet) : bool :=
  leU (row (topLeft t)) ((λ f, f - 4) <$> head fullRows)
  || gtU (row (topLeft t)) (last fullRows).

(** A Tet with at least one block. *)
Definition hasBlock (t : Tet) : Prop := cells (shape t) ≠ [].

(** Between [g] and [g'] the lists of the game are the same, as are the
    flags and the score, and every Tet that had a block has one. *)
Definition sameLists (g g' : Game) : Prop :=
  allTets g' = allTets g ∧ tetsToRemove g' = tetsToRemove g
  ∧ nextTet g' = nextTet g ∧ keepsTets hasBlock g g'
  ∧ flags g' = flags g ∧ score g' = score g.

(** The lists of the game are in order: no Tet is listed twice, none
    waits to be removed, every listed Tet has a block, and the next Tet
    has one and is not listed. *)
Definition listedOk (g : Game) : Prop :=
  NoDup (allTets g) ∧ tetsToRemove g = []
  ∧ (∀ i t, i ∈ allTets g → heap g !! i = Some t → hasBlock t)
  ∧ (∀ n, nextTet g = Some n →
       (n ∉ allTets g) ∧ ∀ t, heap g !! n = Some t → hasBlock t).

(** [clearLanding] with row 14 cleared by [alterShapes]. *)
Definition clearedRows : Game :=
  Eval vm_compute in default (newGame false) (alterShapes clearLanding [14]).

(** The mode of a game: over or not, the developer's mode, and the timer
    [loop]. *)
Definition mode (g : Game) : bool * bool * bool :=
  (gameOver g, devModeOn g, loop g).

(** A game that is over has no timer [loop], and the developer's mode is
    off. *)
Definition overOk (g : Game) : Prop :=
  devModeOn g = false ∧ (gameOver g = true → loop g = false).

(** The game of [topOutTrace] after the next tick of the timer: the ninth
    O Tet collides where it is made, and the game is over. *)
Definition overGame : Game :=
  Eval vm_compute in
    default (newGame false) (play 3 0 3 (topOutTrace ++ [Tick 0 0 3])).

(** The shape has a block in row [r] and column [c]. *)
Definition isBlock (s : Shape) (r c : Z) : bool :=
  negb (Nat.eqb (cellAt s r c) 0).

(** A side with a block of the shape on one side of it and none on the
    other. *)
Definition onBorder (s : Shape) (e : Side) : bool :=
  let '(x, y, across) := e in
  if across then xorb (isBlock s (y - 1) x) (isBlock s y x)
  else xorb (isBlock s y (x - 1)) (isBlock s y x).

(** The sides of the squares of a 4 by 4 shape. *)
Definition boxSides : list Side :=
  x ← seqZ 0 5; y ← seqZ 0 5; [(x, y, true); (x, y, false)].

(** Equality of sides, and lists of sides without a repeat. *)
Definition sideEqb (e1 e2 : Side) : bool :=
  (e1.1.1 =? e2.1.1) && (e1.1.2 =? e2.1.2) && Bool.eqb e1.2 e2.2.

Fixpoint noDupSides (l : list Side) : bool :=
  match l with
  | [] => true
  | e :: l' => negb (existsb (sideEqb e) l') && noDupSides l'
  end.

(** The check of one entry of [periMatrix]. *)
Definition outlineOk (e : Shape * list (list Z)) : bool :=
  forallb (onBorder e.1) (outlineSides e.2)
  && forallb (λ sd, implb (onBorder e.1 sd)
                      (existsb (sideEqb sd) (outlineSides e.2))) boxSides
  && noDupSides (outlineSides e.2)
  && forallb (λ rc : Z * Z, (rc.1 <? 4) && (rc.2 <? 4)) (cells e.1)
  && bool_decide (getPerimeter e.1 = Some e.2).

(** [busyGame] after the down arrow: the I Tet lands and row 14 goes. *)
Definition busyDown : Game :=
  Eval vm_compute in default (newGame false) (step busyGame KeyDown).

(** Digits from the last to the first, with a comma after each three
    that are followed by more. *)
Fixpoint groupRev (rs : list ascii) : list ascii :=
  match rs with
  | a :: b :: c :: (_ :: _) as rest => a :: b :: c :: ","%char :: groupRev rest
  | _ => rs
  end.

(** The digits in groups of three from the right, with commas between. *)
Definition withCommas (ds : list ascii) : list ascii :=
  reverse (groupRev (reverse ds)).

(** What is left of a text by the loop: groups of a comma and three
    digits. *)
Inductive groups3 : list ascii → Prop :=
  | groups3_nil : groups3 []
  | groups3_cons a b c rest :
      isDigit a = true → isDigit b = true → isDigit c = true →
      groups3 rest → groups3 (","%char :: a :: b :: c :: rest).

(** * Properties *)

(** ** The [landed] cache *)

Lemma cacheEq_refl g : cacheEq g g.
Proof. exists (updateLanded g), (landed g). by destruct g. Qed.

Lemma cacheEq_trans g1 g2 g3 : cacheEq g1 g2 → cacheEq g2 g3 → cacheEq g1 g3.
Proof. intros (u & l & ->) (u' & l' & ->). by exists u', l'. Qed.

Lemma getLanded_cacheEq g x g1 l :
  getLanded g x = Some (g1, l) → cacheEq g g1.
Proof.
  unfold getLanded. intros H.
  destruct x; simpl in H.
  - destruct (buildLanded _ _) as [l'|]; simplify_eq/=. by eexists _, _.
  - destruct (updateLanded g).
    + destruct (buildLanded _ _) as [l'|]; simplify_eq/=. by eexists _, _.
    + simplify_eq. apply cacheEq_refl.
Qed.

Lemma doesTetCollideBot_cacheEq g this pot g1 b :
  doesTetCollideBot g this pot = Some (g1, b) → cacheEq g g1.
Proof.
  unfold doesTetCollideBot. intros H.
  destruct (getLanded g (Some this)) as [[g2 l]|] eqn:HL; simpl in H; [|done].
  apply getLanded_cacheEq in HL.
  destruct (heap g2 !! this); simpl in H; [|done].
  destruct (botScan _ _ _); simpl in H; [|done]. by simplify_eq.
Qed.

Lemma heap_setTet_eq g this t t' :
  heap g !! this = Some t → heap (setTet this t' g) !! this = Some t'.
Proof. intros H. apply list_lookup_insert_eq. by eapply lookup_lt_Some. Qed.

(** ** Tet.rotate: what a successful rotation commits *)

Lemma nextRotation_mod t r :
  rotation t = Some r → 0 <= r <= 3 → nextRotation t = (r + 1) mod 4.
Proof.
  intros Hr Hb. unfold nextRotation. rewrite Hr.
  assert (r = 0 ∨ r = 1 ∨ r = 2 ∨ r = 3) as [->|[->|[->| ->]]] by lia; done.
Qed.

(** C3.  For a Tet with a rotation [r] in [0..3] and a pivot [p] (every Tet
    but a fragment has both), a [rotate] that returns [true] leaves the Tet
    with the shape the table gives for its type and [(r + 1) mod 4], with
    [topLeft.col] increased by [p], with pivot [0] and with rotation
    [(r + 1) mod 4]. *)
Theorem rotate_commits g this t r p g' :
  heap g !! this = Some t → rotation t = Some r → 0 <= r <= 3 →
  pivot t = Some p →
  rotate g this = Some (g', true) →
  ∃ t', heap g' !! this = Some t'
    ∧ catalog (type t) ((r + 1) mod 4) = Some (shape t')
    ∧ topLeft t' = mkPos (row (topLeft t)) (col (topLeft t) + p)
    ∧ pivot t' = Some 0
    ∧ rotation t' = Some ((r + 1) mod 4)
    ∧ type t' = type t.
Proof.
  intros Ht Hr Hb Hp H. unfold rotate in H.
  destruct (getLanded g None) as [[g1 l]|] eqn:HL; simpl in H; [|done].
  apply getLanded_cacheEq in HL as (u & l' & ->). simpl in H.
  rewrite Ht in H. simpl in H.
  rewrite (nextRotation_mod t r Hr Hb) in H.
  unfold getShapeMatrix in H.
  destruct (catalog _ _) as [s|] eqn:Hc; simpl in H; [|done].
  destruct (rotScan _ _ _) as [[]|]; simpl in H; [|done|done].
  unfold commitRotation in H. simpl in H. rewrite Hp in H. simpl in H.
  simplify_eq. simpl.
  eexists. split.
  { rewrite list_insert_insert_eq. apply list_lookup_insert_eq.
    by eapply lookup_lt_Some. }
  simpl. done.
Qed.

(** ** Tet.doesTetCollideSide: when the pivot grows *)

Lemma sideScan_app l pot pre cs :
  Forall (sideFree l pot) pre → sideScan l pot (pre ++ cs) = sideScan l pot cs.
Proof.
  induction 1 as [|[r c] pre [Hc (lr & Hlr & Ht)] _ IH]; [done|].
  simpl in *. unfold BOARD_COL_NUM in *.
  destruct (Z.ltb_spec (c + col pot) 0); [lia|].
  destruct (Z.leb_spec 10 (c + col pot)); [lia|].
  rewrite Hlr. simpl. by rewrite Ht.
Qed.

Lemma sideScan_right l pot pre rc cs :
  Forall (sideFree l pot) pre → BOARD_COL_NUM <= rc.2 + col pot →
  sideScan l pot (pre ++ rc :: cs) = Some (Some HitRight).
Proof.
  intros Hpre Hc. rewrite sideScan_app by done. destruct rc as [r c].
  simpl in *. unfold BOARD_COL_NUM in *.
  destruct (Z.ltb_spec (c + col pot) 0); [lia|].
  by destruct (Z.leb_spec 10 (c + col pot)); [|lia].
Qed.

Lemma sideScan_overlap l pot pre rc cs :
  Forall (sideFree l pot) pre → sideOverlap l pot rc →
  sideScan l pot (pre ++ rc :: cs) = Some (Some HitTaken).
Proof.
  intros Hpre [Hc (lr & Hlr & Ht)]. rewrite sideScan_app by done.
  destruct rc as [r c]. simpl in *. unfold BOARD_COL_NUM in *.
  destruct (Z.ltb_spec (c + col pot) 0); [lia|].
  destruct (Z.leb_spec 10 (c + col pot)); [lia|].
  rewrite Hlr. simpl. by rewrite Ht.
Qed.

(** C8.  Let [rc] be the first non-zero cell of the shape, in the order of
    the loop, that the side check does not pass over ([pre] are the cells
    before it, all free).  If [rc] is at column 10 or more, the check
    returns [true] and the pivot grows by one exactly when
    [pivot < pivotMax] and the rotation is even, whatever [direction] is.
    If [rc] is on an occupied cell of [landed], the pivot grows under the
    same condition only if moreover [direction === 1]. *)
Theorem side_collision_pivot g this pot direction g1 l t p m r pre rc post :
  getLanded g None = Some (g1, l) →
  heap g1 !! this = Some t →
  pivot t = Some p → pivotMax t = Some m → rotation t = Some r →
  cells (shape t) = pre ++ rc :: post →
  Forall (sideFree l pot) pre →
  (BOARD_COL_NUM <= rc.2 + col pot →
     ∃ g' t', doesTetCollideSide g this pot direction = Some (g', true)
       ∧ heap g' !! this = Some t'
       ∧ pivot t' = Some (if (p <? m) && (Z.rem r 2 =? 0) then p + 1 else p))
  ∧ (sideOverlap l pot rc →
     ∃ g' t', doesTetCollideSide g this pot direction = Some (g', true)
       ∧ heap g' !! this = Some t'
       ∧ pivot t' = Some (if isRight direction && ((p <? m) && (Z.rem r 2 =? 0))
                          then p + 1 else p)).
Proof.
  intros HL Ht Hp Hm Hr Hcs Hpre.
  assert (canPivot t = (p <? m) && (Z.rem r 2 =? 0)) as Hcan.
  { unfold canPivot. by rewrite Hp, Hm, Hr. }
  assert (pivot (pivotIncr t) = Some (p + 1)) as Hinc.
  { unfold pivotIncr. simpl. rewrite Hp. simpl. f_equal; lia. }
  split; intros Hrc; unfold doesTetCollideSide; rewrite HL; simpl;
    rewrite Ht; simpl; rewrite Hcs.
  - rewrite sideScan_right by done. simpl. rewrite Hcan.
    destruct ((p <? m) && _); do 2 eexists; (split; [done|]).
    + split; [by eapply heap_setTet_eq|done].
    + done.
  - rewrite sideScan_overlap by done. simpl. rewrite Hcan.
    destruct (isRight direction && _); do 2 eexists; (split; [done|]).
    + split; [by eapply heap_setTet_eq|done].
    + done.
Qed.


Lemma index_Some {A} (l : list A) i x :
  index l i = Some x ↔ 0 <= i ∧ l !! Z.to_nat i = Some x.
Proof.
  unfold index. destruct (Z.ltb_spec i 0).
  - split; [done|intros [? _]; lia].
  - split; [by intros; split; [lia|]|by intros [_ ?]].
Qed.

Lemma index_nil {A} i : index ([] : list A) i = None.
Proof. unfold index. by destruct (_ <? _). Qed.

Lemma index_cons {A} (x : A) l i :
  index (x :: l) i = if decide (i = 0) then Some x else index l (i - 1).
Proof.
  unfold index. destruct (decide (i = 0)) as [->|Hi]; [done|].
  destruct (Z.ltb_spec i 0), (Z.ltb_spec (i - 1) 0); try lia; try done.
  replace (Z.to_nat i) with (S (Z.to_nat (i - 1))) by lia. done.
Qed.

Lemma cellAt_nil r c : cellAt [] r c = 0%nat.
Proof. unfold cellAt. by rewrite index_nil. Qed.

Lemma cellAt_cons rw s r c :
  cellAt (rw :: s) r c =
  if decide (r = 0) then default 0%nat (index rw c) else cellAt s (r - 1) c.
Proof. unfold cellAt. rewrite index_cons. by destruct (decide _). Qed.

Lemma elem_of_rowCells r c0 cs r' c' :
  (r', c') ∈ rowCells r c0 cs ↔
  r' = r ∧ default 0%nat (index cs (c' - c0)) ≠ 0%nat.
Proof.
  revert c0. induction cs as [|x cs IH]; intros c0; simpl.
  - rewrite index_nil. split; [by intros ?%elem_of_nil|]. by intros [_ ?].
  - rewrite elem_of_app, IH, index_cons.
    replace (c' - (c0 + 1)) with (c' - c0 - 1) by lia.
    destruct (decide (c' - c0 = 0)) as [Hc|Hc]; simpl.
    + destruct (Nat.eqb_spec x 0) as [->|Hx].
      * rewrite elem_of_nil, Hc. simpl.
        split; [|by intros [_ ?]]. intros [[]|[_ H]].
        unfold index in H. by destruct (0 - 1 <? 0) eqn:?.
      * rewrite list_elem_of_singleton. split.
        -- intros [?|[-> _]]; [by simplify_eq|done].
        -- intros [-> _]. left. f_equal. lia.
    + destruct (Nat.eqb_spec x 0) as [->|Hx].
      * rewrite elem_of_nil. tauto.
      * rewrite list_elem_of_singleton. split; [|tauto].
        intros [?|?]; [|done]. simplify_eq. lia.
Qed.

Lemma elem_of_shapeCells r0 s r c :
  (r, c) ∈ shapeCells r0 s ↔ cellAt s (r - r0) c ≠ 0%nat.
Proof.
  revert r0. induction s as [|rw s IH]; intros r0; simpl.
  - rewrite cellAt_nil. split; [by intros ?%elem_of_nil|done].
  - rewrite elem_of_app, IH, elem_of_rowCells, cellAt_cons, Z.sub_0_r.
    replace (r - (r0 + 1)) with (r - r0 - 1) by lia.
    destruct (decide (r - r0 = 0)) as [Hr|Hr].
    + split; [|intros; left; split; [lia|done]].
      intros [[_ ?]|H]; [done|]. exfalso. apply H.
      unfold cellAt, index. rewrite Hr. done.
    + split; [|tauto]. intros [[-> ?]|?]; [lia|done].
Qed.

Lemma elem_of_cells s r c : (r, c) ∈ cells s ↔ cellAt s r c ≠ 0%nat.
Proof. unfold cells. by rewrite elem_of_shapeCells, Z.sub_0_r. Qed.

(** ** cleanShape *)

Lemma headPositive_index rw :
  headPositive rw = true ↔ default 0%nat (index rw 0) ≠ 0%nat.
Proof.
  destruct rw as [|x rw]; simpl; [done|].
  unfold index. simpl. destruct (Nat.ltb_spec 0 x); split; try done; lia.
Qed.

Lemma index_drop {A} (l : list A) (k : nat) c :
  0 <= c → index (drop k l) c = index l (c + Z.of_nat k).
Proof.
  intros Hc. unfold index.
  destruct (Z.ltb_spec c 0), (Z.ltb_spec (c + Z.of_nat k) 0); try lia.
  rewrite lookup_drop. f_equal. lia.
Qed.

Lemma cellAt_neg s r c : c < 0 → cellAt s r c = 0%nat.
Proof.
  intros Hc. unfold cellAt. destruct (index s r); [|done]. simpl.
  unfold index. by destruct (Z.ltb_spec c 0); [|lia].
Qed.

Lemma cellAt_fmap (f : list nat → list nat) s r c c' :
  (∀ rw, default 0%nat (index (f rw) c) = default 0%nat (index rw c')) →
  cellAt (f <$> s) r c = cellAt s r c'.
Proof.
  intros Hf. unfold cellAt, index.
  destruct (r <? 0); [done|]. rewrite list_lookup_fmap.
  destruct (s !! Z.to_nat r); simpl; [apply Hf|done].
Qed.

Lemma cellAt_drop s (k : nat) r c :
  0 <= c → cellAt (drop k <$> s) r c = cellAt s r (c + Z.of_nat k).
Proof. intros Hc. apply cellAt_fmap. intros rw. by rewrite index_drop. Qed.

Lemma existsb_headPositive s :
  existsb headPositive s = true ↔ ∃ r, cellAt s r 0 ≠ 0%nat.
Proof.
  rewrite existsb_exists. split.
  - intros (rw & Hin & Hh). apply list_elem_of_In, list_elem_of_lookup in Hin as [i Hi].
    exists (Z.of_nat i). unfold cellAt.
    assert (index s (Z.of_nat i) = Some rw) as ->.
    { apply index_Some. split; [lia|]. by rewrite Nat2Z.id. }
    by apply headPositive_index.
  - intros [r Hr]. unfold cellAt in Hr.
    destruct (index s r) as [rw|] eqn:Hi; [|done].
    apply index_Some in Hi as [_ Hi]. exists rw. split.
    + apply list_elem_of_In. by eapply list_elem_of_lookup_2.
    + by apply headPositive_index.
Qed.

Lemma tail_drop {A} (l : list A) k : tail (drop k l) = drop (S k) l.
Proof.
  replace (tail (drop k l)) with (drop 1 (drop k l)) by (by destruct (drop k l)).
  rewrite drop_drop. f_equal; lia.
Qed.

(** What [stripLeading] returns: [k] columns were removed, each of them all
    zero, none of them needed more fuel, and the loop stopped on a first
    column with a positive cell. *)
Lemma stripLeading_spec fuel s tl s' tl' :
  stripLeading fuel s tl = Some (s', tl') →
  ∃ k : nat, (k <= fuel)%nat
    ∧ s' = drop k <$> s
    ∧ tl' = mkPos (row tl) (col tl + Z.of_nat k)
    ∧ existsb headPositive s' = true
    ∧ (∀ r c, 0 <= c < Z.of_nat k → cellAt s r c = 0%nat)
    ∧ (∀ f, stripLeading f s tl = Some (s', tl') ↔ (k <= f)%nat).
Proof.
  revert s tl. induction fuel as [|fuel IH]; intros s tl; simpl.
  - destruct (existsb headPositive s) eqn:He; [|done]. intros ?; simplify_eq.
    exists 0%nat. split; [lia|]. split.
    { rewrite <- (list_fmap_id s') at 1. apply list_fmap_ext. intros. by rewrite drop_0. }
    split; [destruct tl'; simpl; f_equal; lia|]. split; [done|].
    split; [intros; lia|]. intros f. split; [lia|]. intros _.
    destruct f; simpl; by rewrite He.
  - destruct (existsb headPositive s) eqn:He.
    + intros ?; simplify_eq.
      exists 0%nat. split; [lia|]. split.
      { rewrite <- (list_fmap_id s') at 1. apply list_fmap_ext. intros. by rewrite drop_0. }
      split; [destruct tl'; simpl; f_equal; lia|]. split; [done|].
      split; [intros; lia|]. intros f. split; [lia|]. intros _.
      destruct f; simpl; by rewrite He.
    + intros H. apply IH in H as (k & Hk & Hs & -> & Hh & Hz & Hf).
      assert (drop k <$> (tail <$> s) = drop (S k) <$> s) as E.
      { rewrite <- !list_fmap_compose. apply list_fmap_ext.
        intros _ rw _. simpl. destruct rw; simpl; [by rewrite drop_nil|done]. }
      rewrite E in Hs. subst s'.
      exists (S k). split; [lia|]. split; [done|].
      split; [simpl; f_equal; lia|].
      split; [done|].
      split.
      { intros r c Hc. destruct (decide (c = 0)) as [->|Hc0].
        - destruct (cellAt s r 0) eqn:Hcell; [done|].
          assert (existsb headPositive s = true); [|congruence].
          apply existsb_headPositive. exists r. by rewrite Hcell.
        - specialize (Hz r (c - 1)). 
          rewrite (cellAt_fmap tail s r (c - 1) c) in Hz; [apply Hz; lia|].
          intros rw. destruct rw as [|x rw]; simpl.
          + by rewrite !index_nil.
          + rewrite index_cons. destruct (decide (c = 0)); [lia|done]. }
      intros f. destruct f as [|f]; simpl; rewrite He; [split; [done|lia]|].
      rewrite Hf. lia.
Qed.

Lemma maxLen_ge (s : Shape) rw : rw ∈ s → (length rw <= maxLen s)%nat.
Proof.
  unfold maxLen. induction 1 as [rw s|rw rw' s _ IH]; rewrite fmap_cons; simpl; lia.
Qed.

Lemma cellAt_lookup s (i j : nat) rw x :
  s !! i = Some rw → rw !! j = Some x → cellAt s (Z.of_nat i) (Z.of_nat j) = x.
Proof.
  intros Hi Hj. unfold cellAt.
  assert (index s (Z.of_nat i) = Some rw) as ->.
  { apply index_Some. split; [lia|]. by rewrite Nat2Z.id. }
  simpl. assert (index rw (Z.of_nat j) = Some x) as ->; [|done].
  apply index_Some. split; [lia|]. by rewrite Nat2Z.id.
Qed.

(** Enough fuel: a positive cell at column [j] of some row stops the loop
    after at most [j] columns. *)
Lemma stripLeading_total s tl r (j : nat) fuel :
  cellAt s r (Z.of_nat j) ≠ 0%nat → (j <= fuel)%nat →
  is_Some (stripLeading fuel s tl).
Proof.
  revert s tl j. induction fuel as [|fuel IH]; intros s tl j Hj Hf; simpl.
  - assert (j = 0%nat) as -> by lia.
    assert (existsb headPositive s = true) as ->; [|done].
    apply existsb_headPositive. by exists r.
  - destruct (existsb headPositive s) eqn:He; [done|].
    destruct j as [|j].
    { assert (existsb headPositive s = true); [|congruence].
      apply existsb_headPositive. by exists r. }
    apply (IH _ _ j); [|lia].
    rewrite (cellAt_fmap tail s r (Z.of_nat j) (Z.of_nat (S j))); [done|].
    intros rw. destruct rw as [|x rw]; simpl.
    + by rewrite !index_nil.
    + rewrite index_cons. destruct (decide _); [lia|]. f_equal. f_equal. lia.
Qed.

(** The answer of [stripLeading] does not depend on the fuel from
    [maxLen s] on: [None] there is a loop that never leaves. *)
Lemma stripLeading_fuel s tl fuel :
  (maxLen s <= fuel)%nat → stripLeading fuel s tl = stripLeading (maxLen s) s tl.
Proof.
  intros Hf.
  destruct (stripLeading fuel s tl) as [[s' tl']|] eqn:H1.
  - apply stripLeading_spec in H1 as (k & _ & -> & -> & Hh & _ & Hk).
    symmetry. apply Hk.
    apply existsb_exists in Hh as (rw & Hin & Hh).
    apply list_elem_of_In, list_elem_of_fmap in Hin as (rw' & -> & Hin).
    apply maxLen_ge in Hin.
    assert (k < length rw')%nat; [|lia].
    destruct (drop k rw') eqn:Hd; [done|].
    apply (f_equal length) in Hd. rewrite length_drop in Hd. simpl in Hd. lia.
  - destruct (stripLeading (maxLen s) s tl) as [[s' tl']|] eqn:H2; [|done].
    apply stripLeading_spec in H2 as (k & Hk' & -> & -> & _ & _ & Hk).
    assert (stripLeading fuel s tl = Some (drop k <$> s, mkPos (row tl) (col tl + Z.of_nat k)));
      [apply Hk; lia|congruence].
Qed.

Lemma stripTrailing_lookup rw i :
  default 0%nat (stripTrailing rw !! i) = default 0%nat (rw !! i).
Proof.
  revert i. induction rw as [|x rw IH]; intros i; simpl; [done|].
  destruct (stripTrailing rw) as [|y rw'] eqn:Hs.
  - destruct (Nat.eqb_spec x 0) as [->|Hx].
    + destruct i as [|i]; simpl; [done|]. by rewrite <- IH.
    + destruct i as [|i]; simpl; [done|]. by rewrite <- IH.
  - destruct i as [|i]; simpl; [done|]. apply IH.
Qed.

Lemma stripTrailing_index rw c :
  default 0%nat (index (stripTrailing rw) c) = default 0%nat (index rw c).
Proof. unfold index. destruct (c <? 0); [done|]. apply stripTrailing_lookup. Qed.

Lemma stripTrailing_last rw : last (stripTrailing rw) ≠ Some 0%nat.
Proof.
  induction rw as [|x rw IH]; simpl; [done|].
  destruct (stripTrailing rw) as [|y rw'] eqn:Hs.
  - destruct (Nat.eqb_spec x 0) as [->|Hx]; simpl; [done|]. by intros [= ->].
  - by rewrite last_cons_cons.
Qed.

Lemma cellAt_stripTrailing s r c :
  cellAt (stripTrailing <$> s) r c = cellAt s r c.
Proof. apply cellAt_fmap. intros. apply stripTrailing_index. Qed.

Lemma headPositive_stripTrailing rw :
  headPositive (stripTrailing rw) = headPositive rw.
Proof.
  apply eq_true_iff_eq. rewrite !headPositive_index.
  by rewrite stripTrailing_index.
Qed.

Lemma stripTrailing_nil rw i : stripTrailing rw = [] → default 0%nat (rw !! i) = 0%nat.
Proof. intros H. by rewrite <- stripTrailing_lookup, H. Qed.

Lemma existsb_headPositive_stripTrailing (s : Shape) :
  existsb headPositive (stripTrailing <$> s) = existsb headPositive s.
Proof.
  induction s as [|rw s IH]; [done|]. rewrite fmap_cons. simpl.
  by rewrite headPositive_stripTrailing, IH.
Qed.

Lemma cleanShape_spec (s : Shape) (tl : Pos) :
  s ≠ [] → rowsNonZero s →
  ∃ (k : nat) s',
    cleanShape (s, tl) = Some (s', mkPos (row tl) (col tl + Z.of_nat k))
    ∧ (∀ fuel, is_Some (stripLeading fuel s tl) ↔ (k <= fuel)%nat)
    ∧ Forall (λ rw : list nat, (k + 1 <= length rw)%nat) s
    ∧ (∀ r c, cellAt s' (r - row tl) (c - (col tl + Z.of_nat k))
              = cellAt s (r - row tl) (c - col tl))
    ∧ trimmed s'.
Proof.
  intros Hne Hnz. unfold rowsNonZero in Hnz. unfold cleanShape. simpl.
  destruct s as [|rw0 s0]; [done|].
  assert (is_Some (stripLeading (maxLen (rw0 :: s0)) (rw0 :: s0) tl)) as [[s1 tl1] H1].
  { apply Forall_cons in Hnz as [(x & Hx & Hx0) _].
    apply list_elem_of_lookup in Hx as [j Hj].
    apply (stripLeading_total _ _ 0 j).
    - change 0 with (Z.of_nat 0).
      by rewrite (cellAt_lookup (rw0 :: s0) 0 j rw0 x).
    - apply lookup_lt_Some in Hj.
      pose proof (maxLen_ge (rw0 :: s0) rw0 ltac:(left)). lia. }
  rewrite H1. simpl.
  apply stripLeading_spec in H1 as (k & _ & -> & -> & Hh & Hz & Hk).
  assert (Forall (λ rw : list nat, (k + 1 <= length rw)%nat
                   ∧ ∃ j x, (k <= j)%nat ∧ rw !! j = Some x ∧ x ≠ 0%nat) (rw0 :: s0)) as Hlen.
  { apply Forall_forall. intros rw Hin.
    rewrite Forall_forall in Hnz. destruct (Hnz rw Hin) as (x & Hx & Hx0).
    apply list_elem_of_lookup in Hx as [j Hj].
    apply list_elem_of_lookup in Hin as [i Hi].
    pose proof (cellAt_lookup _ i j rw x Hi Hj) as Hc.
    destruct (decide (j < k)%nat) as [Hjk|Hjk].
    + rewrite Hz in Hc by lia. congruence.
    + split; [apply lookup_lt_Some in Hj; lia|]. exists j, x. split; [lia|done]. }
  exists k, (stripTrailing <$> (drop k <$> rw0 :: s0)).
  split; [done|]. split; [|split; [|split]].
  - intros fuel. split; [|intros Hf; by rewrite (proj2 (Hk fuel) Hf)].
    intros [[s2 tl2] H2].
    pose proof H2 as H3.
    apply stripLeading_spec in H3 as (k2 & Hk2' & -> & -> & _ & _ & Hk2).
    pose proof (proj2 (Hk (Nat.max k k2)) ltac:(lia)) as E1.
    pose proof (proj2 (Hk2 (Nat.max k k2)) ltac:(lia)) as E2.
    rewrite E1 in E2. injection E2 as _ E2. lia.
  - eapply Forall_impl; [exact Hlen|]. by intros rw [? _].
  - intros r c. rewrite cellAt_stripTrailing.
    destruct (Z.ltb_spec (c - (col tl + Z.of_nat k)) 0) as [Hc|Hc].
    + rewrite cellAt_neg by done.
      destruct (Z.ltb_spec (c - col tl) 0) as [Hc'|Hc'].
      * by rewrite cellAt_neg.
      * symmetry. apply Hz. lia.
    + rewrite cellAt_drop by done. f_equal. lia.
  - split; [done|]. split.
    + by rewrite existsb_headPositive_stripTrailing.
    + rewrite <- list_fmap_compose. apply Forall_fmap.
      eapply Forall_impl; [exact Hlen|]. intros rw (_ & j & x & Hj & Hx & Hx0). simpl.
      split; [|apply stripTrailing_last].
      intros Hnil. apply (stripTrailing_nil _ (j - k)) in Hnil.
      rewrite lookup_drop in Hnil. replace (k + (j - k))%nat with j in Hnil by lia.
      rewrite Hx in Hnil. done.
Qed.

(** C10.  On a shape as [updateTet] passes it, a run of at least one row
    with each row holding a non-zero cell (see [fragments_wf]),
    [cleanShape] returns.  Its first loop removes [k]
    columns, in [k + 1] iterations, and [k + 1] is at most the length of
    every row; [topLeft.col] grows by [k]; and the cell of the result at a
    board position is the cell of the input at that position. *)
Theorem cleanShape_terminates (s : Shape) (tl : Pos) :
  s ≠ [] → rowsNonZero s →
  ∃ (k : nat) s',
    cleanShape (s, tl) = Some (s', mkPos (row tl) (col tl + Z.of_nat k))
    ∧ (∀ fuel, is_Some (stripLeading fuel s tl) ↔ (k <= fuel)%nat)
    ∧ Forall (λ rw : list nat, (k + 1 <= length rw)%nat) s
    ∧ ∀ r c, cellAt s' (r - row tl) (c - (col tl + Z.of_nat k))
             = cellAt s (r - row tl) (c - col tl).
Proof.
  intros Hne Hnz.
  destruct (cleanShape_spec s tl Hne Hnz) as (k & s' & H1 & H2 & H3 & H4 & _).
  by exists k, s'.
Qed.


Lemma occupies_cellOf t r c :
  occupies t r c = true ↔ cellOf (shape t) (topLeft t) r c ≠ 0%nat.
Proof. unfold occupies. rewrite bool_decide_eq_true. apply elem_of_cells. Qed.

Lemma arrayIsAllZeros_true rw c :
  arrayIsAllZeros rw = true → default 0%nat (index rw c) = 0%nat.
Proof.
  unfold arrayIsAllZeros. rewrite forallb_forall. intros H.
  destruct (index rw c) as [x|] eqn:Hi; [|done]. simpl.
  apply index_Some in Hi as [_ Hi].
  apply list_elem_of_lookup_2, list_elem_of_In, H in Hi.
  destruct (Nat.ltb_spec 0 x); [done|lia].
Qed.

Lemma arrayIsAllZeros_false rw :
  arrayIsAllZeros rw = false → ∃ x, x ∈ rw ∧ x ≠ 0%nat.
Proof.
  induction rw as [|x rw IH]; simpl; [done|].
  destruct (Nat.ltb_spec 0 x); simpl.
  - intros _. exists x. split; [left|lia].
  - intros (y & ? & ?)%IH. exists y. split; [by right|done].
Qed.

Lemma cellAt_app s1 s2 r c :
  cellAt (s1 ++ s2) r c =
  if decide (r < Z.of_nat (length s1)) then cellAt s1 r c
  else cellAt s2 (r - Z.of_nat (length s1)) c.
Proof.
  revert r. induction s1 as [|rw s1 IH]; intros r.
  - simpl. rewrite Z.sub_0_r. case_decide; [|done].
    unfold cellAt, index. by destruct (Z.ltb_spec r 0); [|lia].
  - change ((rw :: s1) ++ s2) with (rw :: (s1 ++ s2)).
    rewrite !cellAt_cons, IH. simpl length.
    repeat case_decide; try lia; try done.
    f_equal. lia.
Qed.

Lemma cellAt_row_neg s r c : r < 0 → cellAt s r c = 0%nat.
Proof. intros Hr. unfold cellAt, index. by destruct (Z.ltb_spec r 0); [|lia]. Qed.

Lemma cellAt_row_ge s r c : Z.of_nat (length s) <= r → cellAt s r c = 0%nat.
Proof.
  intros Hr. unfold cellAt, index. destruct (Z.ltb_spec r 0); [done|].
  rewrite lookup_ge_None_2; [done|lia].
Qed.

(** The fragments [updateTet] queues hold the non-zero cells of the shape,
    each at its board position. *)
Lemma splitRows_cells tl0 rows R C : ∀ i curr tl q,
  0 <= i →
  (curr ≠ [] → tl = mkPos (row tl0 + i - Z.of_nat (length curr)) (col tl0)) →
  (∃ f, f ∈ splitRows tl0 i rows curr tl q ∧ cellOf f.1 f.2 R C ≠ 0%nat) ↔
  (∃ f, f ∈ q ∧ cellOf f.1 f.2 R C ≠ 0%nat)
  ∨ (curr ≠ [] ∧ cellOf curr tl R C ≠ 0%nat)
  ∨ cellAt rows (R - row tl0 - i) (C - col tl0) ≠ 0%nat.
Proof.
  induction rows as [|rw rows IH]; intros i curr tl q Hi Htl; simpl.
  - rewrite cellAt_nil. destruct curr as [|r0 curr].
    + naive_solver.
    + setoid_rewrite elem_of_app. setoid_rewrite list_elem_of_singleton.
      split.
      * intros (f & [Hf| ->] & Hc); [left; by exists f|right; left; done].
      * intros [(f & Hf & Hc)|[[_ Hc]|?]]; [exists f; auto| |done].
        exists (r0 :: curr, tl). auto.
  - rewrite cellAt_cons.
    destruct (arrayIsAllZeros rw) eqn:Hz; simpl.
    + assert (∀ x, (if decide (R - row tl0 - i = 0)
                    then default 0%nat (index rw (C - col tl0)) else x) ≠ 0%nat
                   ↔ R - row tl0 - i ≠ 0 ∧ x ≠ 0%nat) as Hrw.
      { intros x. destruct (decide _); [|naive_solver].
        rewrite arrayIsAllZeros_true by done. naive_solver. }
      rewrite Hrw. clear Hrw.
      destruct curr as [|r0 curr].
      * rewrite IH by (done || lia).
        replace (R - row tl0 - (i + 1)) with (R - row tl0 - i - 1) by lia.
        split; [|naive_solver].
        intros [?|[?|Hc]]; [auto|auto|]. right; right. split; [|done].
        intros Hr. rewrite Hr in Hc. by rewrite cellAt_row_neg in Hc.
      * rewrite IH by (done || lia).
        replace (R - row tl0 - (i + 1)) with (R - row tl0 - i - 1) by lia.
        setoid_rewrite elem_of_app. setoid_rewrite list_elem_of_singleton.
        split.
        -- intros [(f & [Hf | ->] & Hc)|[[? _]|Hc]]; [left; by exists f|auto|done|].
           right; right. split; [|done].
           intros Hr. rewrite Hr in Hc. by rewrite cellAt_row_neg in Hc.
        -- intros [(f & Hf & Hc)|[[_ Hc]|[_ Hc]]]; [left; exists f; auto| |auto].
           left. exists (r0 :: curr, tl). auto.
    + set (tl' := if curr is [] then mkPos (row tl0 + i) (col tl0) else tl).
      rewrite (IH (i + 1) (curr ++ [rw]) tl' q); [|lia|].
      2:{ intros _. rewrite length_app. simpl. subst tl'.
          destruct curr; simpl; [f_equal; lia|].
          rewrite Htl by done. simpl. f_equal. lia. }
      replace (R - row tl0 - (i + 1)) with (R - row tl0 - i - 1) by lia.
      assert (cellOf (curr ++ [rw]) tl' R C ≠ 0%nat ↔
              (curr ≠ [] ∧ cellOf curr tl R C ≠ 0%nat)
              ∨ (R - row tl0 - i = 0 ∧ default 0%nat (index rw (C - col tl0)) ≠ 0%nat)) as Hc.
      { unfold cellOf. rewrite cellAt_app. subst tl'.
        destruct curr as [|r0 curr].
        - cbn [length app row col]. change (Z.of_nat 0) with 0.
          rewrite Z.sub_0_r.
          replace (R - (row tl0 + i)) with (R - row tl0 - i) by lia.
          rewrite cellAt_cons, !cellAt_nil.
          repeat case_decide; try lia; naive_solver.
        - rewrite (Htl ltac:(done)). simpl row; simpl col.
          rewrite (cellAt_cons rw []), cellAt_nil. simpl length.
          case_decide as Hlt.
          + split; [by left|]. intros [[_ ?]|[Hr _]]; [done|lia].
          + rewrite (cellAt_row_ge (r0 :: curr)) by (simpl length; lia).
            case_decide as Hr.
            * split; [|naive_solver]. intros ?. right. split; [lia|done].
            * split; [done|]. intros [[_ ?]|[? _]]; [done|lia]. }
      rewrite Hc. clear Hc.
      assert (curr ++ [rw] ≠ []) as Hne by (by destruct curr).
      destruct (decide (R - row tl0 - i = 0)) as [Hr|Hr].
      * split; [|naive_solver].
        intros [?|[[_ [?|?]]|Hcell]]; [auto|auto|naive_solver|].
        rewrite Hr in Hcell. by rewrite cellAt_row_neg in Hcell.
      * naive_solver.
Qed.

Lemma wfFrag_snoc q r0 curr tl :
  Forall wfFrag q → rowsNonZero (r0 :: curr) →
  Forall wfFrag (q ++ [(r0 :: curr, tl)]).
Proof.
  intros Hq Hc. apply Forall_app. split; [done|].
  apply Forall_singleton. by split.
Qed.

Lemma splitRows_wf tl0 rows : ∀ i curr tl q,
  Forall wfFrag q → rowsNonZero curr →
  Forall wfFrag (splitRows tl0 i rows curr tl q).
Proof.
  induction rows as [|rw rows IH]; intros i curr tl q Hq Hcurr; simpl.
  - destruct curr as [|r0 curr]; [done|]. by apply wfFrag_snoc.
  - destruct (arrayIsAllZeros rw) eqn:Hz; simpl.
    + destruct curr as [|r0 curr]; [by apply IH|].
      apply IH; [by apply wfFrag_snoc|constructor].
    + apply IH; [done|]. apply Forall_app. split; [done|].
      apply Forall_singleton. by apply arrayIsAllZeros_false.
Qed.

Lemma fragments_wf t : Forall wfFrag (fragments t).
Proof. apply splitRows_wf; constructor. Qed.

Lemma fragments_cells t r c :
  (∃ f, f ∈ fragments t ∧ cellOf f.1 f.2 r c ≠ 0%nat)
  ↔ cellOf (shape t) (topLeft t) r c ≠ 0%nat.
Proof.
  unfold fragments. rewrite splitRows_cells by done.
  unfold cellOf. rewrite Z.sub_0_r. split; [|auto].
  intros [(f & Hf & _)|[[? _]|?]]; [by apply elem_of_nil in Hf|done|done].
Qed.

Lemma cleanShape_frag f :
  wfFrag f →
  ∃ f', cleanShape f = Some f' ∧ trimmed f'.1
        ∧ ∀ r c, cellOf f'.1 f'.2 r c = cellOf f.1 f.2 r c.
Proof.
  destruct f as [s tl]. intros [Hne Hnz].
  destruct (cleanShape_spec s tl Hne Hnz) as (k & s' & H1 & _ & _ & H4 & H5).
  eexists. split; [exact H1|]. split; [done|]. intros r c. apply H4.
Qed.

Lemma cleanShape_all q :
  Forall wfFrag q →
  ∃ news, mapM cleanShape q = Some news
    ∧ Forall2 (λ f f' : Shape * Pos, trimmed f'.1
                 ∧ ∀ r c, cellOf f'.1 f'.2 r c = cellOf f.1 f.2 r c) q news.
Proof.
  induction 1 as [|f q Hf _ (news & Hn & IH)].
  - exists []. split; [done|constructor].
  - destruct (cleanShape_frag f Hf) as (f' & Hc & Hf').
    exists (f' :: news). split; [|by constructor].
    simpl. rewrite Hc. simpl. by rewrite Hn.
Qed.

Lemma pushFragments_spec ty q : ∀ g news,
  mapM cleanShape q = Some news →
  pushFragments g ty q =
    Some (set_allTets (allTets g ++ seq (length (heap g)) (length q))
            (set_heap (heap g ++ fragmentTets ty news) g)).
Proof.
  induction q as [|o q IH]; intros g news Hn; simpl in *.
  - injection Hn as <-. unfold fragmentTets. simpl. rewrite !app_nil_r.
    by destruct g.
  - destruct (cleanShape o) as [[s tl]|]; simpl in *; [|done].
    destruct (mapM cleanShape q) as [news'|]; simpl in *; [|done].
    injection Hn as <-. rewrite (IH _ news') by done. simpl.
    rewrite length_app. simpl. unfold fragmentTets.
    rewrite <- !app_assoc. simpl.
    replace (length (heap g) + 1)%nat with (S (length (heap g))) by lia.
    by destruct g.
Qed.

(** The fragments that [updateTet] queues are the maximal runs of rows of
    the shape that are not all zero. *)
Lemma splitRows_runs tl0 rows : ∀ pre0 curr tl q,
  let s := (pre0 ++ curr) ++ rows in
  Forall (isRun s tl0) q →
  Forall (λ rw, arrayIsAllZeros rw = false) curr →
  (∀ rw, last pre0 = Some rw → arrayIsAllZeros rw = true) →
  (curr ≠ [] → tl = mkPos (row tl0 + Z.of_nat (length pre0)) (col tl0)) →
  Forall (isRun s tl0)
    (splitRows tl0 (Z.of_nat (length (pre0 ++ curr))) rows curr tl q).
Proof.
  induction rows as [|r rows IH]; intros pre0 curr tl q s Hq Hcurr Hlast Htl.
  - simpl. destruct curr as [|c0 curr]; [done|].
    apply Forall_app. split; [done|]. apply Forall_singleton.
    exists (length pre0). simpl. split; [by apply Htl|]. split; [done|].
    subst s. rewrite app_nil_r. split.
    { rewrite drop_app_length. apply take_ge. simpl. lia. }
    split; [done|]. split.
    + intros rw Hpos Hrw. apply Hlast.
      rewrite last_lookup. rewrite lookup_app_l in Hrw by (simpl; lia).
      rewrite <- Hrw. f_equal. lia.
    + intros rw Hrw. apply lookup_lt_Some in Hrw.
      rewrite length_app in Hrw. simpl in Hrw. lia.
  - assert (s = (pre0 ++ curr ++ [r]) ++ rows) as Hs1.
    { subst s. by rewrite <- !app_assoc. }
    assert (Z.of_nat (length (pre0 ++ curr)) + 1
            = Z.of_nat (length (pre0 ++ curr ++ [r]))) as Hlen.
    { rewrite !length_app. simpl. lia. }
    simpl. destruct (arrayIsAllZeros r) eqn:Hz; simpl.
    + assert (s = (((pre0 ++ curr) ++ [r]) ++ []) ++ rows) as Hs2.
      { subst s. by rewrite app_nil_r, <- !app_assoc. }
      assert (Z.of_nat (length (pre0 ++ curr)) + 1
              = Z.of_nat (length (((pre0 ++ curr) ++ [r]) ++ []))) as Hlen2.
      { rewrite !length_app. simpl. lia. }
      assert (∀ rw, last ((pre0 ++ curr) ++ [r]) = Some rw →
                    arrayIsAllZeros rw = true) as Hlast2.
      { intros rw. rewrite last_snoc. by intros [= <-]. }
      destruct curr as [|c0 curr].
      * rewrite Hlen2.
        pose proof (IH ((pre0 ++ []) ++ [r]) [] tl q) as IH'. simpl in IH'.
        rewrite <- Hs2 in IH'. apply IH'; [done|done|done|done].
      * rewrite Hlen2.
        pose proof (IH ((pre0 ++ c0 :: curr) ++ [r]) [] tl
                      (q ++ [(c0 :: curr, tl)])) as IH'.
        simpl in IH'. rewrite <- Hs2 in IH'. apply IH'; [|done|done|done].
        apply Forall_app. split; [done|]. apply Forall_singleton.
        exists (length pre0). simpl. split; [by apply Htl|]. split; [done|].
        split.
        { subst s. rewrite <- !app_assoc. rewrite drop_app_length.
          change (c0 :: curr ++ r :: rows) with ((c0 :: curr) ++ r :: rows).
          rewrite take_app_length'; done. }
        split; [done|]. split.
        -- intros rw Hpos Hrw. apply Hlast.
           rewrite last_lookup. subst s.
           rewrite <- app_assoc, lookup_app_l in Hrw by lia.
           rewrite <- Hrw. f_equal. lia.
        -- intros rw Hrw. subst s.
           rewrite <- app_assoc, lookup_app_r in Hrw by lia.
           change (c0 :: curr ++ r :: rows) with ((c0 :: curr) ++ r :: rows) in Hrw.
           rewrite lookup_app_r in Hrw by (simpl; lia).
           replace (length pre0 + S (length curr) - length pre0
                    - length (c0 :: curr))%nat with 0%nat in Hrw by (simpl; lia).
           simpl in Hrw. by injection Hrw as <-.
    + rewrite Hlen.
      set (tl' := if curr is [] then _ else tl).
      pose proof (IH pre0 (curr ++ [r]) tl' q) as IH'. simpl in IH'.
      rewrite <- Hs1 in IH'. apply IH'; [done| |done|].
      * apply Forall_app. split; [done|]. by apply Forall_singleton.
      * intros _. subst tl'. destruct curr as [|c0 curr].
        -- rewrite app_nil_r. done.
        -- by apply Htl.
Qed.

Lemma fragments_runs t : Forall (isRun (shape t) (topLeft t)) (fragments t).
Proof.
  unfold fragments.
  pose proof (splitRows_runs (topLeft t) (shape t) [] [] (topLeft t) []) as H.
  simpl in H. apply H; done.
Qed.

(** C4 (amended).  When the first loop of [updateTet] queues the fragments
    [o :: q] of the Tet [this], [updateTet] returns; the first fragment,
    cleaned, replaces [topLeft] and [shape] of [this] in place; every other
    fragment, cleaned, is a new Tet at the end of [allTets], in the order of
    the queue, whose type is the type of [this] and whose rotation, pivot
    and pivotMax are undefined; every one of these shapes is trimmed; and a
    board cell is occupied by one of them exactly when the shape of [this]
    occupied it on entry.  The queued fragments are the maximal runs of
    rows of the shape that are not all zero. *)
Theorem updateTet_splits g this t o q :
  heap g !! this = Some t → fragments t = o :: q →
  ∃ g' f0 news,
    updateTet g this = Some g'
    ∧ cleanShape o = Some f0 ∧ mapM cleanShape q = Some news
    ∧ heap g' = <[this := set_shape f0.1 (set_topLeft f0.2 t)]> (heap g)
                ++ fragmentTets (type t) news
    ∧ allTets g' = allTets g ++ seq (length (heap g)) (length q)
    ∧ Forall (λ n, type n = type t ∧ rotation n = None ∧ pivot n = None
                   ∧ pivotMax n = None) (fragmentTets (type t) news)
    ∧ Forall (λ f : Shape * Pos, trimmed f.1) (f0 :: news)
    ∧ (∀ r c, cellOf (shape t) (topLeft t) r c ≠ 0%nat
              ↔ ∃ f, f ∈ f0 :: news ∧ cellOf f.1 f.2 r c ≠ 0%nat)
    ∧ Forall (isRun (shape t) (topLeft t)) (o :: q).
Proof.
  intros Ht Hfr.
  pose proof (fragments_wf t) as Hwf. rewrite Hfr in Hwf.
  destruct (cleanShape_all _ Hwf) as (all & Hall & Hrel).
  simpl in Hall.
  destruct (cleanShape o) as [f0|] eqn:Ho; simpl in Hall; [|done].
  destruct (mapM cleanShape q) as [news|] eqn:Hq; simpl in Hall; [|done].
  injection Hall as <-.
  exists (set_allTets (allTets g ++ seq (length (heap g)) (length q))
            (set_heap (<[this := set_shape f0.1 (set_topLeft f0.2 t)]> (heap g)
                       ++ fragmentTets (type t) news) g)), f0, news.
  split.
  { unfold updateTet. rewrite Ht. simpl. rewrite Hfr, Ho. simpl.
    destruct f0 as [s0 tl0]. rewrite (pushFragments_spec _ _ _ news) by done.
    simpl. rewrite length_insert. by destruct g. }
  do 4 (split; [done|]). split.
  { unfold fragmentTets. apply Forall_fmap, Forall_forall. by intros. }
  split.
  { eapply Forall2_Forall_r; [exact Hrel|]. apply Forall_forall. by intros ? _ ? [? _]. }
  split; [|rewrite <- Hfr; apply fragments_runs].
  intros r c. rewrite <- fragments_cells, Hfr. split.
  - intros (f & Hf & Hc).
    apply list_elem_of_lookup in Hf as [i Hi].
    destruct (Forall2_lookup_l _ _ _ _ _ Hrel Hi) as (f' & Hi' & _ & Hcell).
    exists f'. split; [by eapply list_elem_of_lookup_2|]. by rewrite Hcell.
  - intros (f' & Hf & Hc).
    apply list_elem_of_lookup in Hf as [i Hi].
    destruct (Forall2_lookup_r _ _ _ _ _ Hrel Hi) as (f & Hi' & _ & Hcell).
    exists f. split; [by eapply list_elem_of_lookup_2|]. by rewrite <- Hcell.
Qed.

(** ** Moves and rotations that are refused *)

Lemma sideScan_clear l pot cs :
  sideScan l pot cs = Some None → ∀ rc, rc ∈ cs → 0 <= rc.2 + col pot.
Proof.
  induction cs as [|[r c] cs IH]; intros H rc Hin.
  - by apply elem_of_nil in Hin.
  - simpl in H. destruct (Z.ltb_spec (c + col pot) 0); [done|].
    destruct (_ <=? _); [done|].
    destruct (landedRow _ _); simpl in H; [|done].
    destruct (taken _ _); [done|].
    apply elem_of_cons in Hin as [->|Hin]; [done|]. by apply IH.
Qed.

Lemma headPositive_cell s :
  existsb headPositive s = true → ∃ r, (r, 0) ∈ cells s.
Proof.
  intros [r Hr]%existsb_headPositive. exists r. by apply elem_of_cells.
Qed.

Lemma sideScan_hitRight l pot cs :
  sideScan l pot cs = Some (Some HitRight) →
  ∃ rc, rc ∈ cs ∧ BOARD_COL_NUM <= rc.2 + col pot.
Proof.
  induction cs as [|[r c] cs IH]; intros H; [done|].
  simpl in H. destruct (_ <? _); [done|].
  destruct (Z.leb_spec BOARD_COL_NUM (c + col pot)).
  { exists (r, c). split; [left|done]. }
  destruct (landedRow _ _); simpl in H; [|done].
  destruct (taken _ _); [done|].
  destruct (IH H) as (rc & ? & ?). exists rc. split; [by right|done].
Qed.

(** What [doesTetCollideSide] does to the state: the cache may be
    refreshed, and the pivot of [this] may grow by one when the answer is
    [true]. *)
Lemma doesTetCollideSide_inv g this pot d g' b t :
  heap g !! this = Some t →
  doesTetCollideSide g this pot d = Some (g', b) →
  ∃ g1 l hit t',
    getLanded g None = Some (g1, l)
    ∧ sideScan l pot (cells (shape t)) = Some hit
    ∧ b = (if hit is Some _ then true else false)
    ∧ g' = setTet this t' g1
    ∧ (t' = t
       ∨ (canPivot t = true ∧ t' = pivotIncr t
          ∧ (hit = Some HitRight ∨ (hit = Some HitTaken ∧ isRight d = true)))).
Proof.
  intros Ht H. unfold doesTetCollideSide in H.
  destruct (getLanded g None) as [[g1 l]|] eqn:HL; simpl in H; [|done].
  pose proof HL as (u & l' & Hg1)%getLanded_cacheEq.
  assert (heap g1 !! this = Some t) as Ht1 by (by rewrite Hg1).
  assert (g1 = setTet this t g1) as Hid.
  { unfold setTet. rewrite list_insert_id by done. by destruct g1. }
  rewrite Ht1 in H. simpl in H.
  destruct (sideScan _ _ _) as [hit|] eqn:Hs; simpl in H; [|done].
  exists g1, l, hit.
  destruct hit as [[]|]; injection H as <- <-.
  - exists t. auto 10.
  - destruct (canPivot t) eqn:Hc; [exists (pivotIncr t)|exists t]; auto 10.
  - destruct (isRight d && canPivot t) eqn:Hc; [exists (pivotIncr t)|exists t];
      [|auto 10].
    apply andb_true_iff in Hc as [? Hc]. auto 10.
  - exists t. auto 10.
Qed.

Lemma rotate_inv g this t g' b :
  heap g !! this = Some t → rotate g this = Some (g', b) →
  ∃ g1 s, cacheEq g g1
    ∧ catalog (type t) (nextRotation t) = Some s
    ∧ g' = setTet this
             (if b then
                mkTet (type t) (Some (nextRotation t)) (Some 0)
                  (Some (pivotMaxOf (type t)))
                  (mkPos (row (topLeft t))
                     (col (topLeft t) + default 0 (pivot t))) s
              else set_pivotMax (Some (pivotMaxOf (type t))) t) g1
    ∧ (b = true → is_Some (pivot t)).
Proof.
  intros Ht H. unfold rotate in H.
  destruct (getLanded g None) as [[g1 l]|] eqn:HL; simpl in H; [|done].
  pose proof HL as Hc%getLanded_cacheEq. pose proof Hc as (u & l' & Hg1).
  assert (heap g1 !! this = Some t) as Ht1 by (by rewrite Hg1).
  rewrite Ht1 in H. simpl in H. unfold getShapeMatrix in H.
  destruct (catalog _ _) as [s|]; simpl in H; [|done].
  exists g1, s. split; [done|]. split; [done|].
  destruct (rotScan _ _ _) as [[]|]; simpl in H; [| |done].
  - unfold commitRotation in H. simpl in H.
    destruct (pivot t) as [p|]; simpl in H; [|done].
    injection H as <- <-. split; [|by eauto]. unfold setTet. simpl.
    rewrite list_insert_insert_eq. done.
  - injection H as <- <-. done.
Qed.

Lemma moveLeft_inv g this t g' :
  heap g !! this = Some t → moveLeft g this = Some g' →
  ∃ t' g1 b, heap g' !! this = Some t'
    ∧ doesTetCollideSide (setTet this (set_pivot (Some 0) t) g) this
        (mkPos (row (topLeft t)) (col (topLeft t) - 1)) None = Some (g1, b)
    ∧ topLeft t' = (if b then topLeft t
                    else mkPos (row (topLeft t)) (col (topLeft t) - 1))
    ∧ shape t' = shape t ∧ rotation t' = rotation t
    ∧ type t' = type t ∧ pivotMax t' = pivotMax t
    ∧ (pivot t' = Some 0
       ∨ (b = true ∧ canPivot (set_pivot (Some 0) t) = true
          ∧ pivot t' = Some 1))
    ∧ (Forall (λ rc : Z * Z, rc.2 + col (topLeft t) - 1 < BOARD_COL_NUM)
         (cells (shape t)) → pivot t' = Some 0)
    ∧ (col (topLeft t) = 0 → existsb headPositive (shape t) = true →
       b = true).
Proof.
  intros Ht H. unfold moveLeft in H. rewrite Ht in H. simpl in H.
  set (t0 := set_pivot (Some 0) t) in *.
  destruct (doesTetCollideSide _ _ _ _) as [[g1 b]|] eqn:Hs; simpl in H; [|done].
  assert (heap (setTet this t0 g) !! this = Some t0) as Ht0
    by (by eapply heap_setTet_eq).
  destruct (doesTetCollideSide_inv _ _ _ _ _ _ _ Ht0 Hs)
    as (g2 & l & hit & t' & HL & Hscan & Hb & -> & Ht').
  pose proof HL as (u & l' & Hg2)%getLanded_cacheEq.
  assert (heap (setTet this t' g2) !! this = Some t') as Hh.
  { apply list_lookup_insert_eq. rewrite Hg2. simpl.
    rewrite length_insert. by eapply lookup_lt_Some. }
  assert (col (topLeft t) = 0 → existsb headPositive (shape t) = true → b = true) as Hcol.
  { intros Hc [r Hr]%headPositive_cell. destruct hit; [done|].
    pose proof (sideScan_clear _ _ _ Hscan _ Hr) as Hle. simpl in Hle. lia. }
  assert (pivot t' = Some 0
          ∨ (b = true ∧ canPivot t0 = true ∧ pivot t' = Some 1)) as Hp.
  { destruct Ht' as [->|(? & -> & Hhit)]; [by left|]. right.
    split; [|done]. rewrite Hb. by destruct Hhit as [->|[-> _]]. }
  assert (Forall (λ rc : Z * Z, rc.2 + col (topLeft t) - 1 < BOARD_COL_NUM)
            (cells (shape t)) → pivot t' = Some 0) as Hin.
  { intros Hall. destruct Ht' as [->|(_ & _ & [Hhit|[_ ?]])]; [done| |done].
    rewrite Hhit in Hscan.
    apply sideScan_hitRight in Hscan as (rc & Hrc & Hge). simpl in Hge.
    rewrite Forall_forall in Hall. apply Hall in Hrc. lia. }
  assert (shape t' = shape t ∧ rotation t' = rotation t
          ∧ type t' = type t ∧ pivotMax t' = pivotMax t) as (Hsh & Hrot & Hty & Hpm).
  { by destruct Ht' as [->|(_ & -> & _)]. }
  assert (topLeft t' = topLeft t) as Htl.
  { by destruct Ht' as [->|(_ & -> & _)]. }
  destruct b.
  + injection H as <-. exists t', (setTet this t' g2), true. done.
  + rewrite Hh in H. simpl in H. injection H as <-.
    eexists _, (setTet this t' g2), false.
    split; [by eapply heap_setTet_eq|]. done.
Qed.

Lemma moveRight_inv g this t g' :
  heap g !! this = Some t → moveRight g this = Some g' →
  ∃ t' g1 b, heap g' !! this = Some t'
    ∧ doesTetCollideSide g this
        (mkPos (row (topLeft t)) (col (topLeft t) + 1)) (Some 1) = Some (g1, b)
    ∧ topLeft t' = (if b then topLeft t
                    else mkPos (row (topLeft t)) (col (topLeft t) + 1))
    ∧ shape t' = shape t ∧ rotation t' = rotation t
    ∧ type t' = type t ∧ pivotMax t' = pivotMax t
    ∧ (pivot t' = pivot t
       ∨ (b = true ∧ canPivot t = true ∧ pivot t' = Z.succ <$> pivot t)).
Proof.
  intros Ht H. unfold moveRight in H. rewrite Ht in H. simpl in H.
  destruct (doesTetCollideSide _ _ _ _) as [[g1 b]|] eqn:Hs; simpl in H; [|done].
  destruct (doesTetCollideSide_inv _ _ _ _ _ _ _ Ht Hs)
    as (g2 & l & hit & t' & HL & Hscan & Hb & -> & Ht').
  pose proof HL as (u & l' & Hg2)%getLanded_cacheEq.
  assert (heap (setTet this t' g2) !! this = Some t') as Hh.
  { apply list_lookup_insert_eq. rewrite Hg2. simpl. by eapply lookup_lt_Some. }
  destruct b.
  + injection H as <-. exists t', (setTet this t' g2), true.
    split; [done|]. split; [done|].
    destruct Ht' as [->|(? & -> & _)]; auto 10.
  + rewrite Hh in H. simpl in H. injection H as <-.
    destruct Ht' as [->|(_ & _ & Hhit)].
    * eexists _, (setTet this t g2), false.
      split; [by eapply heap_setTet_eq|]. split; [done|]. simpl. auto 10.
    * by destruct Hhit as [Hhit|[Hhit _]]; rewrite Hhit in Hb.
Qed.

(** C5 (amended).  A [rotate] that returns [false] leaves [topLeft],
    [shape], [rotation] and [pivot] of the Tet as they were.  [moveLeft]
    and [moveRight] leave [topLeft] as it was exactly when their side check
    answers [true], and never change [shape] or [rotation]; but the pivot
    is not left alone.  [moveLeft] sets it to [0] before the check, whether
    it moves or not (the check adds one again only when a cell of the Tet,
    one column to the left, is still at column 10 or more); a [moveRight]
    that is refused leaves the pivot as it was or adds one to it.  With
    [topLeft.col = 0] and a non-zero cell in the first column of the shape,
    the side check of [moveLeft] always answers [true]. *)
Theorem refused_moves g this t :
  heap g !! this = Some t →
  (∀ g', rotate g this = Some (g', false) →
     ∃ t', heap g' !! this = Some t' ∧ topLeft t' = topLeft t
       ∧ shape t' = shape t ∧ rotation t' = rotation t ∧ pivot t' = pivot t)
  ∧ (∀ g', moveLeft g this = Some g' →
     ∃ t' g1 b, heap g' !! this = Some t'
       ∧ doesTetCollideSide (setTet this (set_pivot (Some 0) t) g) this
           (mkPos (row (topLeft t)) (col (topLeft t) - 1)) None = Some (g1, b)
       ∧ topLeft t' = (if b then topLeft t
                       else mkPos (row (topLeft t)) (col (topLeft t) - 1))
       ∧ shape t' = shape t ∧ rotation t' = rotation t
       ∧ (pivot t' = Some 0 ∨ (b = true ∧ pivot t' = Some 1))
       ∧ (Forall (λ rc : Z * Z, rc.2 + col (topLeft t) - 1 < BOARD_COL_NUM)
            (cells (shape t)) → pivot t' = Some 0)
       ∧ (col (topLeft t) = 0 → existsb headPositive (shape t) = true →
          b = true))
  ∧ (∀ g', moveRight g this = Some g' →
     ∃ t' g1 b, heap g' !! this = Some t'
       ∧ doesTetCollideSide g this
           (mkPos (row (topLeft t)) (col (topLeft t) + 1)) (Some 1) = Some (g1, b)
       ∧ topLeft t' = (if b then topLeft t
                       else mkPos (row (topLeft t)) (col (topLeft t) + 1))
       ∧ shape t' = shape t ∧ rotation t' = rotation t
       ∧ (pivot t' = pivot t ∨ (b = true ∧ pivot t' = Z.succ <$> pivot t))).
Proof.
  intros Ht. split; [|split].
  - intros g' H.
    destruct (rotate_inv _ _ _ _ _ Ht H) as (g1 & s & (u & l & ->) & _ & -> & _).
    eexists. split; [by eapply heap_setTet_eq|done].
  - intros g' H.
    destruct (moveLeft_inv _ _ _ _ Ht H)
      as (t' & g1 & b & ? & ? & ? & ? & ? & _ & _ & Hp & ? & ?).
    exists t', g1, b. do 5 (split; [done|]). split; [|done].
    destruct Hp as [?|(? & _ & ?)]; auto.
  - intros g' H.
    destruct (moveRight_inv _ _ _ _ Ht H)
      as (t' & g1 & b & ? & ? & ? & ? & ? & _ & _ & Hp).
    exists t', g1, b. do 5 (split; [done|]).
    destruct Hp as [?|(? & _ & ?)]; auto.
Qed.

(** ** Game.createTet: a spawn that collides *)

Lemma spawn_allTets g r1 r2 r3 g1 :
  spawn g r1 r2 r3 = Some g1 → allTets g1 = allTets g.
Proof.
  unfold spawn, alloc. intros H.
  destruct (nextTet g) eqn:Hn; simpl in H;
    [|destruct (Tet_new (Some _) r2); simpl in H; [|done]];
    (destruct (newTet g); simpl in H;
      [destruct (Tet_new None r3); simpl in H; [|done]|]);
    injection H as <-; rewrite ?Hn; simpl; by repeat case_match.
Qed.

(** C6.  When the Tet [createTet] makes current collides where it stands,
    [createTet] returns with [gameOver] set, that Tet as [nextTet], and
    [allTets] as it was on entry: the Tet is not added.  [newTet] is set
    again and the interval [loop] is cleared. *)
Theorem createTet_game_over g r1 r2 r3 g1 cur t g2 :
  spawn g r1 r2 r3 = Some g1 →
  currentTet g1 = Some cur → heap g1 !! cur = Some t →
  doesTetCollideBot g1 cur (topLeft t) = Some (g2, true) →
  ∃ g', createTet g r1 r2 r3 = Some g'
    ∧ gameOver g' = true
    ∧ nextTet g' = Some cur ∧ currentTet g' = Some cur
    ∧ heap g' !! cur = Some t
    ∧ allTets g' = allTets g
    ∧ newTet g' = true ∧ loop g' = false.
Proof.
  intros Hs Hc Ht Hb. unfold createTet. rewrite Hs. simpl.
  rewrite Hc. simpl. rewrite Ht. simpl. rewrite Hb. simpl.
  eexists. split; [done|].
  apply doesTetCollideBot_cacheEq in Hb as (u & l & ->). simpl.
  rewrite Hc, Ht. apply spawn_allTets in Hs. done.
Qed.

Lemma Tet_new_topLeft ty rnd t : Tet_new ty rnd = Some t → topLeft t = mkPos 0 4.
Proof.
  unfold Tet_new, getShapeMatrix. intros H.
  destruct (catalog _ _); simpl in H; [|done]. by simplify_eq.
Qed.

(** ** The falling animation *)

(** [doesTetCollideBot] always recomputes [landed]: neither its answer nor
    the state it leaves depends on the cache. *)
Lemma doesTetCollideBot_cache g ga this pot :
  cacheEq g ga → doesTetCollideBot ga this pot = doesTetCollideBot g this pot.
Proof. intros (u & l & ->). by destruct g. Qed.

Lemma settlePass_cache aT : ∀ g ga mv b,
  cacheEq g ga →
  match settlePass g aT mv b, settlePass ga aT mv b with
  | Some (g', mv', b'), Some (ga', mv'', b'') =>
      mv'' = mv' ∧ b'' = b' ∧ (ga' = g' ∨ (g' = g ∧ ga' = ga))
  | None, None => True
  | _, _ => False
  end.
Proof.
  induction aT as [|i aT IH]; intros g ga mv b Hc; simpl.
  - auto.
  - pose proof Hc as (u & l & Hga).
    assert (currentTet ga = currentTet g ∧ newTet ga = newTet g
            ∧ heap ga = heap g) as (-> & -> & ->) by (by rewrite Hga).
    destruct (bool_decide (i ∈ mv) || _); [by apply IH|].
    destruct (heap g !! i) as [t|]; simpl; [|done].
    rewrite (doesTetCollideBot_cache g ga) by done.
    destruct (doesTetCollideBot g i _) as [[g1 b1]|]; simpl; [|done].
    destruct b1.
    + destruct (settlePass g1 aT mv b) as [[[g' mv'] b']|]; auto.
    + destruct (heap g1 !! i); simpl; [|done].
      destruct (settlePass _ aT _ true) as [[[g' mv'] b']|]; auto.
Qed.

(** What one pass does: it adds the Tets it moves to [movingTets]; when it
    adds none, it changes the cache at most and every Tet it did not skip
    is blocked. *)
Lemma settlePass_inv aT : ∀ g mv b g' mv' b',
  settlePass g aT mv b = Some (g', mv', b') →
  allTets g' = allTets g ∧ currentTet g' = currentTet g ∧ newTet g' = newTet g
  ∧ moveLoops g' = moveLoops g
  ∧ ∃ extra, mv' = mv ++ extra
    ∧ (∀ i, i ∈ extra → i ∈ aT ∧ i ∉ mv)
    ∧ (extra ≠ [] → b' = true)
    ∧ (extra = [] → b' = b ∧ cacheEq g g'
       ∧ ∀ i, i ∈ aT → i ∉ mv →
           (sameRef i (currentTet g) && negb (newTet g)) = false →
           ∃ t g2, heap g !! i = Some t
             ∧ doesTetCollideBot g i
                 (mkPos (row (topLeft t) + 1) (col (topLeft t))) = Some (g2, true)).
Proof.
  induction aT as [|i aT IH]; intros g mv b g' mv' b' H; simpl in H.
  - simplify_eq. do 4 (split; [done|]). exists []. rewrite app_nil_r.
    split; [done|]. split; [by intros ? ?%elem_of_nil|]. split; [done|].
    intros _. split; [done|]. split; [apply cacheEq_refl|].
    by intros ? ?%elem_of_nil.
  - destruct (bool_decide (i ∈ mv) || _) eqn:Hskip.
    { apply IH in H as (? & ? & ? & ? & extra & -> & Hex & Hb & Hno).
      do 4 (split; [done|]). exists extra. split; [done|].
      split; [intros j Hj; destruct (Hex j Hj); split; [by right|done]|].
      split; [done|]. intros He. destruct (Hno He) as (? & ? & Hbl).
      do 2 (split; [done|]). intros j [->|Hj]%elem_of_cons Hmv Hcur; [|by apply Hbl].
      apply orb_true_iff in Hskip as [Hin|?]; [|congruence].
      by apply bool_decide_eq_true in Hin. }
    destruct (heap g !! i) as [t|] eqn:Ht; simpl in H; [|done].
    destruct (doesTetCollideBot g i _) as [[g1 b1]|] eqn:Hbot; simpl in H; [|done].
    pose proof Hbot as Hc%doesTetCollideBot_cacheEq.
    pose proof Hc as (u & l & Hg1).
    destruct b1.
    + apply IH in H as (Ha & Hcu & Hn & Hm & extra & -> & Hex & Hb & Hno).
      rewrite Hg1 in Ha, Hcu, Hn, Hm. simpl in *.
      do 4 (split; [done|]). exists extra. split; [done|].
      split; [intros j Hj; destruct (Hex j Hj); split; [by right|done]|].
      split; [done|]. intros He. destruct (Hno He) as (? & Hc' & Hbl).
      split; [done|]. split; [by eapply cacheEq_trans|].
      intros j [->|Hj]%elem_of_cons Hmv Hcur; [by eauto|].
      destruct (Hbl j Hj Hmv) as (t' & g2 & Ht' & Hbot').
      { by rewrite Hg1. }
      exists t', g2. split; [by rewrite Hg1 in Ht'|].
      by rewrite <- (doesTetCollideBot_cache g g1).
    + destruct (heap g1 !! i) as [t1|]; simpl in H; [|done].
      apply IH in H as (Ha & Hcu & Hn & Hm & extra & -> & Hex & Hb & Hno).
      rewrite Hg1 in Ha, Hcu, Hn, Hm. simpl in *.
      do 4 (split; [done|]). exists (i :: extra).
      split; [by rewrite <- app_assoc|].
      apply orb_false_iff in Hskip as [Hin%bool_decide_eq_false _].
      split.
      { intros j [->|Hj]%elem_of_cons; [split; [left|done]|].
        destruct (Hex j Hj) as [? Hnin]. split; [by right|].
        intros ?. apply Hnin. apply elem_of_app. by left. }
      split; [|done]. intros _.
      destruct extra; [by apply Hno|]. by apply Hb.
Qed.

Lemma draw_cacheEq g g2 : draw g = Some g2 → cacheEq g g2.
Proof.
  unfold draw. intros H.
  destruct (nextTet g), (newTet g), (currentTet g); simplify_eq;
    try apply cacheEq_refl.
  destruct (heap g !! _); simpl in H; [|done].
  destruct (doesTetCollideBot _ _ _) as [[g1 b]|] eqn:Hb; simpl in H; [|done].
  simplify_eq. by eapply doesTetCollideBot_cacheEq.
Qed.

Lemma settleWhile_inv fuel : ∀ g mv g' mv',
  settleWhile fuel g mv = Some (g', mv') →
  ∃ extra, mv' = mv ++ extra
    ∧ (extra = [] →
       ∃ g1, settlePass g (allTets g) mv false = Some (g1, mv, false)
             ∧ g' = set_updateLanded true g1).
Proof.
  induction fuel as [|fuel IH]; intros g mv g' mv' H; simpl in H; [done|].
  destruct (settlePass g (allTets g) mv false) as [[[g1 mv1] b1]|] eqn:Hp;
    simpl in H; [|done].
  pose proof (settlePass_inv _ _ _ _ _ _ _ Hp)
    as (_ & _ & _ & _ & extra & -> & _ & Hb & Hno).
  destruct b1.
  - apply IH in H as (extra' & -> & _).
    exists (extra ++ extra'). split; [by rewrite app_assoc|].
    intros He. apply app_eq_nil in He as [-> ->].
    destruct (Hno eq_refl) as [HH _]. discriminate HH.
  - simplify_eq. exists extra. split; [done|]. intros ->.
    rewrite app_nil_r. by exists g1.
Qed.

Lemma filter_length_shrink (P Q : nat → Prop) `{∀ x, Decision (P x)}
    `{∀ x, Decision (Q x)} (l : list nat) x :
  (∀ y, Q y → P y) → x ∈ l → P x → ¬ Q x →
  (length (filter Q l) < length (filter P l))%nat.
Proof.
  intros HQP Hx HP HQ.
  assert (∀ l', length (filter Q l') <= length (filter P l'))%nat as Hle.
  { induction l' as [|y l' IH]; [done|]. rewrite !filter_cons.
    destruct (decide (Q y)), (decide (P y)); simpl; try lia.
    exfalso. auto. }
  induction Hx as [x l|x y l Hx IH]; rewrite !filter_cons.
  - destruct (decide (Q x)), (decide (P x)); try done. simpl.
    specialize (Hle l). lia.
  - specialize (IH HP HQ).
    destruct (decide (Q y)), (decide (P y)); simpl; try lia.
    exfalso. auto.
Qed.

Lemma settlePass_rest g mv g' mv' :
  settlePass g (allTets g) mv false = Some (g', mv', true) →
  (length (restTets (set_updateLanded true g') mv') < length (restTets g mv))%nat.
Proof.
  intros Hp.
  pose proof (settlePass_inv _ _ _ _ _ _ _ Hp)
    as (Ha & _ & _ & _ & extra & -> & Hex & _ & Hno).
  unfold restTets. simpl. rewrite Ha.
  destruct extra as [|x extra]; [destruct (Hno eq_refl) as [HH _]; discriminate HH|].
  destruct (Hex x ltac:(left)) as [Hin Hnin].
  apply (filter_length_shrink _ _ _ x); [|done|done|].
  - intros y Hy ?. apply Hy. apply elem_of_app. by left.
  - intros Hx. apply Hx. apply elem_of_app. right. left.
Qed.

(** Enough fuel: from one more than the Tets a pass can still move, the
    fuel of [settleWhile] does not matter. *)
Lemma settleWhile_fuel fuel1 : ∀ fuel2 g mv,
  (length (restTets g mv) < fuel1)%nat → (length (restTets g mv) < fuel2)%nat →
  settleWhile fuel1 g mv = settleWhile fuel2 g mv.
Proof.
  induction fuel1 as [|fuel1 IH]; intros fuel2 g mv H1 H2; [lia|].
  destruct fuel2 as [|fuel2]; [lia|]. simpl.
  destruct (settlePass g (allTets g) mv false) as [[[g1 mv1] b1]|] eqn:Hp;
    simpl; [|done].
  destruct b1; [|done].
  apply settlePass_rest in Hp. apply IH; lia.
Qed.

Lemma settleRound_fuel g fuel :
  (length (allTets g) < fuel)%nat → settleWhile fuel g [] = settleRound g.
Proof.
  intros Hf. unfold settleRound.
  assert (length (restTets g []) <= length (allTets g))%nat
    by apply length_filter.
  apply settleWhile_fuel; lia.
Qed.

(** C7.  The callback of [moveLoop] runs one round.  When the round moved
    a Tet, the callback ends after [draw] and the interval stays set, so
    the round is run again.  When the round moved no Tet, it changed the
    cache at most; every Tet of [allTets] but a current one is blocked one
    row down; the same round run again moves no Tet and leaves the same
    state; and the callback clears its interval and calls [collided] on
    [that]. *)
Theorem settle_fixed_point g g1 mv k that :
  settleRound g = Some (g1, mv) → moveLoops g !! k = Some that →
  (mv ≠ [] →
     onMoveTick g k = draw g1
     ∧ ∀ g2, draw g1 = Some g2 → moveLoops g2 !! k = Some that)
  ∧ (mv = [] →
     cacheEq g g1
     ∧ (∀ i, i ∈ allTets g →
          (sameRef i (currentTet g) && negb (newTet g)) = false →
          ∃ t g2, heap g !! i = Some t
            ∧ doesTetCollideBot g i
                (mkPos (row (topLeft t) + 1) (col (topLeft t))) = Some (g2, true))
     ∧ settleRound g1 = Some (g1, [])
     ∧ onMoveTick g k =
         g2 ← draw g1; collided (set_moveLoops (delete k (moveLoops g2)) g2) that).
Proof.
  intros Hr Hk. split.
  - intros Hmv. unfold onMoveTick. rewrite Hk. simpl. rewrite Hr. simpl.
    split.
    + destruct (draw g1); simpl; [|done]. by destruct mv.
    + intros g2 (u & l & ->)%draw_cacheEq. simpl.
      unfold settleRound in Hr.
      assert (moveLoops g1 = moveLoops g) as ->; [|done].
      clear Hk Hmv. revert Hr. generalize (S (length (allTets g))).
      generalize (@nil nat). intros mv0 fuel. revert g mv0.
      induction fuel as [|fuel IH]; intros g mv0 H; simpl in H; [done|].
      destruct (settlePass g (allTets g) mv0 false) as [[[g' mv'] b']|] eqn:Hp;
        simpl in H; [|done].
      apply settlePass_inv in Hp as (_ & _ & _ & Hm & _).
      destruct b'.
      * apply IH in H. by rewrite H.
      * by simplify_eq.
  - intros ->. unfold settleRound in Hr.
    apply settleWhile_inv in Hr as (extra & Hex & Hno).
    destruct extra; [|done]. destruct (Hno eq_refl) as (g' & Hp & ->).
    pose proof (settlePass_inv _ _ _ _ _ _ _ Hp)
      as (Ha & _ & _ & _ & extra & Hex' & _ & _ & Hno').
    assert (extra = []) as -> by (by destruct extra).
    destruct (Hno' eq_refl) as (_ & Hc & Hbl).
    assert (cacheEq g (set_updateLanded true g')) as Hc1.
    { destruct Hc as (u & l & ->). by exists true, l. }
    split; [done|]. split.
    { intros i Hi Hcur. apply Hbl; [done| |done]. by intros ?%elem_of_nil. }
    split.
    + unfold settleRound. simpl. rewrite Ha.
      pose proof (settlePass_cache (allTets g) g (set_updateLanded true g') [] false Hc1)
        as Hcache.
      rewrite Hp in Hcache.
      destruct (settlePass (set_updateLanded true g') _ _ _)
        as [[[ga' mv''] b'']|]; [|done].
      destruct Hcache as (-> & -> & [->|[-> ->]]); simpl; [done|].
      by destruct g.
    + unfold onMoveTick. rewrite Hk. simpl. unfold settleRound.
      simpl. rewrite Hp. done.
Qed.

(** ** What the removal of rows leaves alone *)

Section Frame.
Variable P : Tet → Prop.
Hypothesis P_shape : ∀ s t, P t → P (set_shape s t).
Hypothesis P_topLeft : ∀ tl t, P t → P (set_topLeft tl t).

Lemma keeps_refl g : keeps P g g.
Proof. split; [done|]. intros i t ? ?. by exists t. Qed.

Lemma keeps_same g g' :
  heap g' = heap g → score g' = score g → keeps P g g'.
Proof. intros Hh Hs. split; [done|]. intros i t ? ?. exists t. by rewrite Hh. Qed.

Lemma keeps_trans g1 g2 g3 : keeps P g1 g2 → keeps P g2 g3 → keeps P g1 g3.
Proof.
  intros [Hs1 H1] [Hs2 H2]. split; [congruence|].
  intros i t Hi Ht. destruct (H1 i t Hi Ht) as (t' & Hi' & Ht'). eauto.
Qed.

Lemma keeps_setTet g i t t' :
  heap g !! i = Some t → (P t → P t') → keeps P g (setTet i t' g).
Proof.
  intros Hi Ht. split; [done|]. intros j tj Hj HP. simpl.
  destruct (decide (j = i)) as [->|Hne].
  - exists t'. split; [by eapply heap_setTet_eq|]. apply Ht. congruence.
  - exists tj. by rewrite list_lookup_insert_ne.
Qed.

Lemma keeps_pushFragments ty q : ∀ g g',
  pushFragments g ty q = Some g' → keeps P g g'.
Proof.
  induction q as [|o q IH]; intros g g' H; simpl in H.
  - injection H as <-. apply keeps_refl.
  - destruct (cleanShape o) as [[s tl]|]; simpl in H; [|done].
    eapply keeps_trans; [|by eapply IH]. split; [done|].
    intros i t Hi Ht. exists t. split; [|done]. simpl.
    by apply lookup_app_l_Some.
Qed.

Lemma keeps_updateTet g this g' : updateTet g this = Some g' → keeps P g g'.
Proof.
  unfold updateTet. intros H.
  destruct (heap g !! this) as [t|] eqn:Ht; simpl in H; [|done].
  destruct (fragments t) as [|o q].
  - injection H as <-. by apply keeps_same.
  - destruct (cleanShape o) as [[s tl]|]; simpl in H; [|done].
    eapply keeps_trans; [|by eapply keeps_pushFragments].
    eapply keeps_setTet; [done|]. auto.
Qed.

Lemma keeps_alterShape g this fullRows g' :
  alterShape g this fullRows = Some g' → keeps P g g'.
Proof.
  unfold alterShape. intros H.
  destruct (heap g !! this) as [t|] eqn:Ht; simpl in H; [|done].
  eapply keeps_trans; [|by eapply keeps_updateTet].
  eapply keeps_setTet; [done|]. auto.
Qed.

Lemma keeps_alterEach firstRow lastRow fullRows aT : ∀ g g',
  alterEach g firstRow lastRow fullRows aT = Some g' → keeps P g g'.
Proof.
  induction aT as [|i aT IH]; intros g g' H; simpl in H.
  - injection H as <-. apply keeps_refl.
  - destruct (heap g !! i) as [t|]; simpl in H; [|done].
    destruct (leU _ _ || gtU _ _); [by eapply IH|].
    destruct (alterShape g i fullRows) as [g1|] eqn:Ha; simpl in H; [|done].
    eapply keeps_trans; [by eapply keeps_alterShape|by eapply IH].
Qed.

Lemma keeps_alterShapes g fullRows g' :
  alterShapes g fullRows = Some g' → keeps P g g'.
Proof.
  unfold alterShapes. intros H.
  destruct (alterEach _ _ _ _ _) as [g1|] eqn:He; simpl in H; [|done].
  injection H as <-. eapply keeps_trans; [by eapply keeps_alterEach|].
  by apply keeps_same.
Qed.

Lemma fullRowsOf_cacheEq g this g1 fullRows :
  fullRowsOf g this = Some (g1, fullRows) → cacheEq g g1.
Proof.
  unfold fullRowsOf. intros H.
  destruct (getLanded g None) as [[g2 l]|] eqn:HL; simpl in H; [|done].
  apply getLanded_cacheEq in HL as (u & l' & ->).
  destruct (heap _ !! this); simpl in H; [|done].
  destruct (findFullRows _ _); simpl in H; [|done].
  injection H as <- <-. by eexists _, _.
Qed.

Lemma keepsTets_collided g this g' :
  collided g this = Some g' → keepsTets P g g'.
Proof.
  unfold collided. intros H.
  destruct (fullRowsOf g this) as [[g1 fullRows]|] eqn:Hf; simpl in H; [|done].
  apply fullRowsOf_cacheEq in Hf as (u & l & ->).
  destruct fullRows as [|r rs].
  - injection H as <-. intros i t ? ?. by exists t.
  - destruct (alterShapes _ _) as [g3|] eqn:Ha; simpl in H; [|done].
    injection H as <-. apply keeps_alterShapes in Ha as [_ Ha].
    intros i t Hi Ht. by apply (Ha i t).
Qed.
End Frame.

(** ** The score of a landing *)

(** [moveDown] on a Tet that cannot go down is [collided], called with
    [newTet] and [updateLanded] set and [currentTet] null; the score is
    still the one [moveDown] was entered with. *)
Lemma moveDown_lands g this t g1 :
  heap g !! this = Some t →
  doesTetCollideBot g this (mkPos (row (topLeft t) + 1) (col (topLeft t)))
  = Some (g1, true) →
  let landing := set_updateLanded true (set_currentTet None (set_newTet true g1)) in
  moveDown g this = collided landing this ∧ score landing = score g.
Proof.
  intros Ht Hb. unfold moveDown. rewrite Ht. simpl. rewrite Hb. simpl.
  split; [done|].
  apply doesTetCollideBot_cacheEq in Hb as (u & l & ->). done.
Qed.







Section ScoreBinary64.
Import PrimFloat.



End ScoreBinary64.

(** ** The O Tet *)

Lemma Tet_new_O ty rnd t :
  Tet_new ty rnd = Some t → type t = 3 →
  pivotlessO t ∧ rotation t = Some 0 ∧ shape t = [[1; 1]; [1; 1]]%nat.
Proof.
  unfold Tet_new, getShapeMatrix. intros H Hty.
  destruct (catalog _ _) as [s|] eqn:Hc; simpl in H; [|done].
  injection H as <-. simpl in *. rewrite Hty in *.
  vm_compute in Hc. injection Hc as <-. done.
Qed.

Lemma pivotlessO_canPivot t : pivotlessO t → canPivot t = false.
Proof.
  intros (_ & Hp & Hm). unfold canPivot. rewrite Hp, Hm. by destruct (rotation t).
Qed.

Lemma moveDown_keepsTets P g this g' :
  (∀ s t, P t → P (set_shape s t)) → (∀ tl t, P t → P (set_topLeft tl t)) →
  moveDown g this = Some g' → keepsTets P g g'.
Proof.
  intros HPs HPt H. unfold moveDown in H.
  destruct (heap g !! this) as [t|] eqn:Ht; simpl in H; [|done].
  destruct (doesTetCollideBot _ _ _) as [[g1 b]|] eqn:Hb; simpl in H; [|done].
  apply doesTetCollideBot_cacheEq in Hb as (u & l & ->).
  destruct b.
  - apply (keepsTets_collided P HPs HPt) in H.
    intros i ti Hi HP. by apply (H i ti).
  - simpl in H. rewrite Ht in H. simpl in H. injection H as <-.
    eapply (keeps_setTet P (set_updateLanded u (set_landed l g))); [exact Ht|].
    apply HPt.
Qed.

(** C9 (amended).  Whatever moves and rotations an O Tet is given, its
    pivot stays [0] and its pivotMax stays [0].  Its rotation does change:
    a [rotate] that returns [true] sets it to the next rotation, and
    leaves the shape, the one entry of the table for O, as it was. *)
Theorem O_pivot_fixed inputs : ∀ g this t g',
  heap g !! this = Some t →
  type t = 3 → pivot t = Some 0 → pivotMax t = Some 0 →
  applyInputs g this inputs = Some g' →
  (∃ t', heap g' !! this = Some t'
     ∧ type t' = 3 ∧ pivot t' = Some 0 ∧ pivotMax t' = Some 0)
  ∧ (∀ g'', shape t = [[1; 1]; [1; 1]]%nat → rotate g this = Some (g'', true) →
     ∃ t'', heap g'' !! this = Some t''
       ∧ rotation t'' = Some (nextRotation t) ∧ shape t'' = shape t).
Proof.
  intros g this t g' Ht Hty Hp Hm H. split.
  - assert (pivotlessO t) as HP by done. clear Hty Hp Hm.
    revert g t g' Ht HP H.
    induction inputs as [|i inputs IH]; intros g t g' Ht HP H; simpl in H.
    { injection H as <-. by exists t. }
    destruct (applyInput g this i) as [g1|] eqn:Hi; simpl in H; [|done].
    assert (∃ t1, heap g1 !! this = Some t1 ∧ pivotlessO t1) as (t1 & Ht1 & HP1);
      [|by eapply IH].
    destruct HP as (Hty & Hp & Hm).
    assert (pivotlessO t) as HP by done.
    destruct i; simpl in Hi.
    + destruct (moveLeft_inv _ _ _ _ Ht Hi)
        as (t' & _ & b & Ht' & _ & _ & _ & _ & Hty' & Hm' & Hp' & _).
      exists t'. split; [done|]. split; [congruence|]. split; [|congruence].
      destruct Hp' as [?|(_ & Hc & _)]; [done|].
      rewrite pivotlessO_canPivot in Hc; done.
    + destruct (moveRight_inv _ _ _ _ Ht Hi)
        as (t' & _ & b & Ht' & _ & _ & _ & _ & Hty' & Hm' & Hp').
      exists t'. split; [done|]. split; [congruence|]. split; [|congruence].
      destruct Hp' as [?|(_ & Hc & _)]; [congruence|].
      rewrite pivotlessO_canPivot in Hc; done.
    + apply (moveDown_keepsTets pivotlessO) in Hi; [by apply (Hi this t)| |];
        by intros ? ? ?.
    + destruct (rotate g this) as [[g2 b]|] eqn:Hr; simpl in Hi; [|done].
      injection Hi as <-.
      destruct (rotate_inv _ _ _ _ _ Ht Hr) as (g3 & s & (u & l & ->) & _ & -> & _).
      eexists. split; [by eapply heap_setTet_eq|].
      rewrite Hty. by destruct b.
  - intros g'' Hs Hr.
    destruct (rotate_inv _ _ _ _ _ Ht Hr) as (g3 & s & (u & l & ->) & Hc & -> & _).
    eexists. split; [by eapply heap_setTet_eq|]. simpl. split; [done|].
    rewrite Hty in Hc. unfold catalog in Hc. simpl in Hc.
    injection Hc as <-. done.
Qed.

(** ** Games *)

Lemma run_reachable es : ∀ g g',
  reachable g → Forall eventOk es → run g es = Some g' → reachable g'.
Proof.
  induction es as [|e es IH]; intros g g' Hg Hes H; simpl in H.
  - by injection H as <-.
  - destruct (step g e) as [g1|] eqn:Hs; simpl in H; [|done].
    apply Forall_cons in Hes as [He Hes].
    eapply IH; [|done|done]. by eapply reach_step.
Qed.

Lemma play_reachable r1 r2 r3 es g :
  isDraw r1 → isDraw r2 → isDraw r3 → Forall eventOk es →
  play r1 r2 r3 es = Some g → reachable g.
Proof.
  intros H1 H2 H3 Hes H. unfold play in H.
  destruct (Game_new false r1 r2 r3) as [g0|] eqn:H0; simpl in H; [|done].
  eapply run_reachable; [|exact Hes|exact H].
  by apply (reach_new r1 r2 r3).
Qed.

Lemma overlapTrace_ok : Forall eventOk overlapTrace.
Proof.
  apply Forall_forall. intros e He. vm_compute in He.
  repeat (apply elem_of_cons in He as [->|He]; [by vm_compute|]).
  by apply elem_of_nil in He.
Qed.

(** C1.  The game [play 0 0 3 overlapTrace] is one the program plays from
    [new Game(...)]; at its end no Tet is current, and the Tets 1 and 2 of
    [allTets], an O and an I that have both landed, both occupy the cell of
    row 14 and column 7. *)
Theorem landed_tets_overlap :
  ∃ g ti tj,
    play 0 0 3 overlapTrace = Some g ∧ reachable g ∧ currentTet g = None
    ∧ allTets g = [0; 1; 2]%nat
    ∧ heap g !! 1%nat = Some ti ∧ heap g !! 2%nat = Some tj
    ∧ occupies ti 14 7 = true ∧ occupies tj 14 7 = true.
Proof.
  assert (∃ g, play 0 0 3 overlapTrace = Some g) as [g Hg]
    by (vm_compute; eexists; reflexivity).
  assert (currentTet <$> play 0 0 3 overlapTrace = Some None) as Hcur
    by (vm_compute; reflexivity).
  assert (allTets <$> play 0 0 3 overlapTrace = Some [0; 1; 2]%nat) as Hall
    by (vm_compute; reflexivity).
  assert ((g ← play 0 0 3 overlapTrace;
           ti ← heap g !! 1%nat; tj ← heap g !! 2%nat;
           Some (occupies ti 14 7, occupies tj 14 7)) = Some (true, true)) as Hocc
    by (vm_compute; reflexivity).
  rewrite Hg in Hcur, Hall, Hocc.
  cbn [fmap option_fmap option_map mbind option_bind] in Hcur, Hall, Hocc.
  destruct (heap g !! 1%nat) as [ti|] eqn:Hi; [|discriminate Hocc].
  destruct (heap g !! 2%nat) as [tj|] eqn:Hj; [|discriminate Hocc].
  cbn [mbind option_bind] in Hocc.
  exists g, ti, tj. split; [exact Hg|]. split.
  { apply (play_reachable 0 0 3 overlapTrace);
      [unfold isDraw; lia..|apply overlapTrace_ok|exact Hg]. }
  split; [congruence|]. split; [congruence|].
  split; [exact Hi|]. split; [exact Hj|]. split; congruence.
Qed.

(** ** The games of the instances are states of plays *)

Lemma wallGame_play : play 0 0 3 [KeyP; KeyRight; KeyRight] = Some wallGame.
Proof. vm_compute. reflexivity. Qed.

Lemma kickGame_play :
  play 0 0 3 [KeyP; KeyRight; KeyRight; KeyRight; KeyRight; KeyRight]
  = Some kickGame.
Proof. vm_compute. reflexivity. Qed.

Lemma topOutGame_play : play 3 0 3 topOutTrace = Some topOutGame.
Proof. vm_compute. reflexivity. Qed.

Lemma clearLanding_lands :
  (s ← play 1 0 1 clearPrefix;
   t ← heap s !! 3%nat;
   '(g1, b) ← doesTetCollideBot (set_loop false s) 3
                (mkPos (row (topLeft t) + 1) (col (topLeft t)));
   Some (set_updateLanded true (set_currentTet None (set_newTet true g1)),
         b, currentTet s))
  = Some (clearLanding, true, Some 3%nat)
  ∧ (s ← play 1 0 1 clearPrefix; moveDown (set_loop false s) 3)
    = Some clearCleared.
Proof. split; vm_compute; reflexivity. Qed.

Lemma settledGame_play :
  play 1 0 1 (clearPrefix ++ [KeyDown; MoveTick 0]) = Some settledGame.
Proof. vm_compute. reflexivity. Qed.

Lemma oGame_play : play 3 0 3 [KeyP] = Some oGame.
Proof. vm_compute. reflexivity. Qed.

(** ** Instances *)

Lemma rotate_commits_witness :
  ∃ t', heap kickRotated !! 0%nat = Some t'
    ∧ catalog 0 ((0 + 1) mod 4) = Some (shape t')
    ∧ topLeft t' = mkPos 0 (6 + 3)
    ∧ pivot t' = Some 0
    ∧ rotation t' = Some ((0 + 1) mod 4)
    ∧ type t' = 0.
Proof.
  apply (rotate_commits kickGame 0 kickTet 0 3 kickRotated).
  - reflexivity.
  - reflexivity.
  - lia.
  - reflexivity.
  - vm_compute. reflexivity.
Defined.

Lemma side_collision_pivot_witness :
  ∃ g' t', doesTetCollideSide wallGame 0 (mkPos 0 7) (Some 1) = Some (g', true)
    ∧ heap g' !! 0%nat = Some t'
    ∧ pivot t' = Some (if (0 <? 3) && (Z.rem 0 2 =? 0) then 0 + 1 else 0).
Proof.
  refine (proj1 (side_collision_pivot wallGame 0 (mkPos 0 7) (Some 1)
            wallGame (landed wallGame) wallTet 0 3 0
            [(0, 0); (0, 1); (0, 2)] (0, 3) [] _ _ _ _ _ _ _) _).
  - vm_compute. reflexivity.
  - reflexivity.
  - reflexivity.
  - reflexivity.
  - reflexivity.
  - reflexivity.
  - repeat (apply Forall_cons_2;
            [split; [simpl; unfold BOARD_COL_NUM; lia
                    |eexists; split; reflexivity]|]).
    apply Forall_nil_2.
  - simpl. unfold BOARD_COL_NUM. lia.
Defined.

Lemma refused_moves_witness :
  (∀ g', rotate wallGame 0 = Some (g', false) →
     ∃ t', heap g' !! 0%nat = Some t' ∧ topLeft t' = topLeft wallTet
       ∧ shape t' = shape wallTet ∧ rotation t' = rotation wallTet
       ∧ pivot t' = pivot wallTet)
  ∧ (∀ g', moveLeft wallGame 0 = Some g' →
     ∃ t' g1 b, heap g' !! 0%nat = Some t'
       ∧ doesTetCollideSide (setTet 0 (set_pivot (Some 0) wallTet) wallGame) 0
           (mkPos (row (topLeft wallTet)) (col (topLeft wallTet) - 1)) None
         = Some (g1, b)
       ∧ topLeft t' = (if b then topLeft wallTet
                       else mkPos (row (topLeft wallTet)) (col (topLeft wallTet) - 1))
       ∧ shape t' = shape wallTet ∧ rotation t' = rotation wallTet
       ∧ (pivot t' = Some 0 ∨ (b = true ∧ pivot t' = Some 1))
       ∧ (Forall (λ rc : Z * Z, rc.2 + col (topLeft wallTet) - 1 < BOARD_COL_NUM)
            (cells (shape wallTet)) → pivot t' = Some 0)
       ∧ (col (topLeft wallTet) = 0 →
          existsb headPositive (shape wallTet) = true → b = true))
  ∧ (∀ g', moveRight wallGame 0 = Some g' →
     ∃ t' g1 b, heap g' !! 0%nat = Some t'
       ∧ doesTetCollideSide wallGame 0
           (mkPos (row (topLeft wallTet)) (col (topLeft wallTet) + 1)) (Some 1)
         = Some (g1, b)
       ∧ topLeft t' = (if b then topLeft wallTet
                       else mkPos (row (topLeft wallTet)) (col (topLeft wallTet) + 1))
       ∧ shape t' = shape wallTet ∧ rotation t' = rotation wallTet
       ∧ (pivot t' = pivot wallTet
          ∨ (b = true ∧ pivot t' = Z.succ <$> pivot wallTet))).
Proof. apply (refused_moves wallGame 0 wallTet). reflexivity. Defined.

(** The claim C5 at [wallGame]: the move to the right is refused,
    [topLeft] stays, and the pivot goes from 0 to 1. *)
Lemma refused_right_grows_pivot :
  (t ← heap wallGame !! 0%nat; Some (topLeft t, pivot t)) = Some (mkPos 0 6, Some 0)
  ∧ ('(_, b) ← doesTetCollideSide wallGame 0 (mkPos 0 7) (Some 1); Some b) = Some true
  ∧ (g ← moveRight wallGame 0; t ← heap g !! 0%nat; Some (topLeft t, pivot t))
    = Some (mkPos 0 6, Some 1)
  ∧ reachable wallGame.
Proof.
  split; [reflexivity|]. split; [vm_compute; reflexivity|].
  split; [vm_compute; reflexivity|].
  apply (play_reachable 0 0 3 [KeyP; KeyRight; KeyRight]);
    [unfold isDraw; lia..| |vm_compute; reflexivity].
  repeat constructor.
Qed.

Lemma createTet_game_over_witness :
  ∃ g', createTet topOutGame 0 0 3 = Some g'
    ∧ gameOver g' = true
    ∧ nextTet g' = Some 8%nat ∧ currentTet g' = Some 8%nat
    ∧ heap g' !! 8%nat = Some oTet
    ∧ allTets g' = allTets topOutGame
    ∧ newTet g' = true ∧ loop g' = false.
Proof.
  apply (createTet_game_over topOutGame 0 0 3 topOutSpawned 8 oTet topOutChecked).
  - vm_compute. reflexivity.
  - reflexivity.
  - reflexivity.
  - vm_compute. reflexivity.
Defined.

Section ScoreWitness.
Import PrimFloat.


End ScoreWitness.








Lemma clearLanding_rows : snd <$> fullRowsOf clearLanding 3 = Some [14].
Proof. vm_compute. reflexivity. Qed.

Lemma updateTet_splits_witness :
  ∃ g' f0 news,
    updateTet splitGame 3 = Some g'
    ∧ cleanShape ([[1]; [1]]%nat, mkPos 12 6) = Some f0
    ∧ mapM cleanShape [([[1]]%nat, mkPos 15 6)] = Some news
    ∧ heap g' = <[3%nat := set_shape f0.1 (set_topLeft f0.2 splitTet)]> (heap splitGame)
                ++ fragmentTets (type splitTet) news
    ∧ allTets g' = allTets splitGame
                   ++ seq (length (heap splitGame))
                        (length [([[1]]%nat, mkPos 15 6)])
    ∧ Forall (λ n, type n = type splitTet ∧ rotation n = None ∧ pivot n = None
                   ∧ pivotMax n = None) (fragmentTets (type splitTet) news)
    ∧ Forall (λ f : Shape * Pos, trimmed f.1) (f0 :: news)
    ∧ (∀ r c, cellOf (shape splitTet) (topLeft splitTet) r c ≠ 0%nat
              ↔ ∃ f, f ∈ f0 :: news ∧ cellOf f.1 f.2 r c ≠ 0%nat)
    ∧ Forall (isRun (shape splitTet) (topLeft splitTet))
        [([[1]; [1]]%nat, mkPos 12 6); ([[1]]%nat, mkPos 15 6)].
Proof.
  apply (updateTet_splits splitGame 3 splitTet).
  - reflexivity.
  - reflexivity.
Defined.

(** The claim C4 in the game [clearPrefix] and the landing of the I Tet:
    the Tet 5 is made by the landing (the heap held five Tets before it);
    it is in [allTets]; its type is 0, the type of the I Tet it was cut
    from, and not the -1 its constructor was called with. *)
Lemma fragment_has_type_of_original :
  length <$> (heap <$> play 1 0 1 clearPrefix) = Some 5%nat
  ∧ (g ← play 1 0 1 (clearPrefix ++ [KeyDown]);
     t ← heap g !! 5%nat;
     Some (type t, rotation t, topLeft t, shape t, bool_decide (5%nat ∈ allTets g)))
    = Some (0, None, mkPos 15 6, [[1%nat]], true)
  ∧ (g ← play 1 0 1 (clearPrefix ++ [KeyDown]);
     t ← heap g !! 3%nat; Some (type t, topLeft t, shape t))
    = Some (0, mkPos 12 6, [[1]; [1]]%nat).
Proof. repeat split; vm_compute; reflexivity. Qed.

Lemma settle_fixed_point_witness :
  (@nil nat ≠ [] →
     onMoveTick settledGame 0 = draw settledRound
     ∧ ∀ g2, draw settledRound = Some g2 → moveLoops g2 !! 0%nat = Some 3%nat)
  ∧ (@nil nat = [] →
     cacheEq settledGame settledRound
     ∧ (∀ i, i ∈ allTets settledGame →
          (sameRef i (currentTet settledGame) && negb (newTet settledGame)) = false →
          ∃ t g2, heap settledGame !! i = Some t
            ∧ doesTetCollideBot settledGame i
                (mkPos (row (topLeft t) + 1) (col (topLeft t))) = Some (g2, true))
     ∧ settleRound settledRound = Some (settledRound, [])
     ∧ onMoveTick settledGame 0 =
         g2 ← draw settledRound;
         collided (set_moveLoops (delete 0%nat (moveLoops g2)) g2) 3).
Proof.
  apply (settle_fixed_point settledGame settledRound [] 0 3).
  - vm_compute. reflexivity.
  - reflexivity.
Defined.

Lemma O_pivot_fixed_witness :
  (∃ t', heap oMoved !! 0%nat = Some t'
     ∧ type t' = 3 ∧ pivot t' = Some 0 ∧ pivotMax t' = Some 0)
  ∧ (∀ g'', shape oTet = [[1; 1]; [1; 1]]%nat →
     rotate oGame 0 = Some (g'', true) →
     ∃ t'', heap g'' !! 0%nat = Some t''
       ∧ rotation t'' = Some (nextRotation oTet) ∧ shape t'' = shape oTet).
Proof.
  apply (O_pivot_fixed [IRight; IRotate; ILeft; IRotate; IDown] oGame 0 oTet oMoved).
  - reflexivity.
  - reflexivity.
  - reflexivity.
  - reflexivity.
  - vm_compute. reflexivity.
Defined.

(** The claim C9 in a game: an O Tet is spawned with rotation 0, the up
    arrow is pressed once, and its rotation is 1. *)
Lemma O_rotation_advances :
  (g ← play 3 0 3 [KeyP]; t ← heap g !! 0%nat;
   Some (currentTet g, type t, rotation t, pivot t, shape t))
  = Some (Some 0%nat, 3, Some 0, Some 0, [[1; 1]; [1; 1]]%nat)
  ∧ (g ← play 3 0 3 [KeyP; KeyUp]; t ← heap g !! 0%nat;
     Some (currentTet g, type t, rotation t, pivot t, shape t))
    = Some (Some 0%nat, 3, Some 1, Some 0, [[1; 1]; [1; 1]]%nat).
Proof. split; vm_compute; reflexivity. Qed.

Lemma cleanShape_terminates_witness :
  ∃ (k : nat) s',
    cleanShape ([[0; 0; 1; 0]; [0; 1]]%nat, mkPos 3 4)
    = Some (s', mkPos (row (mkPos 3 4)) (col (mkPos 3 4) + Z.of_nat k))
    ∧ (∀ fuel, is_Some (stripLeading fuel [[0; 0; 1; 0]; [0; 1]]%nat (mkPos 3 4))
               ↔ (k <= fuel)%nat)
    ∧ Forall (λ rw : list nat, (k + 1 <= length rw)%nat) [[0; 0; 1; 0]; [0; 1]]%nat
    ∧ ∀ r c, cellAt s' (r - row (mkPos 3 4)) (c - (col (mkPos 3 4) + Z.of_nat k))
             = cellAt [[0; 0; 1; 0]; [0; 1]]%nat (r - row (mkPos 3 4))
                 (c - col (mkPos 3 4)).
Proof.
  apply (cleanShape_terminates [[0; 0; 1; 0]; [0; 1]]%nat (mkPos 3 4)).
  - discriminate.
  - repeat (apply Forall_cons_2;
            [exists 1%nat; split; [repeat constructor|lia]|]).
    apply Forall_nil_2.
Defined.

Lemma stripLeading_nil fuel : ∀ tl, stripLeading fuel [] tl = None.
Proof. induction fuel as [|fuel IH]; intros tl; simpl; [done|apply IH]. Qed.

(** A shape with no row is outside of what [updateTet] passes (its runs
    are never empty): called on it directly, the first loop of
    [cleanShape] never leaves. *)
Lemma cleanShape_no_row_loops :
  rowsNonZero []
  ∧ cleanShape ([], mkPos 0 0) = None
  ∧ ∀ fuel, stripLeading fuel [] (mkPos 0 0) = None.
Proof.
  split; [apply Forall_nil_2|]. split; [reflexivity|].
  intros fuel. apply stripLeading_nil.
Qed.

(** * More properties *)

Lemma landedRow_is_Some l r :
  is_Some (landedRow l r) ↔ 0 <= r < Z.of_nat (length l).
Proof.
  unfold landedRow, index. destruct (Z.ltb_spec r 0).
  - split; [by intros [? ?]|lia].
  - rewrite lookup_lt_is_Some. lia.
Qed.

Lemma taken_insert lr c c' :
  taken (<[c := 1%nat]> lr) c' = bool_decide (c' = c) || taken lr c'.
Proof.
  unfold taken. case_bool_decide as Hc.
  - subst. by rewrite lookup_insert_eq.
  - by rewrite lookup_insert_ne.
Qed.

Lemma mark_spec l r c l' :
  mark l r c = Some l' →
  length l' = length l
  ∧ ∀ r', landedRow l' r' =
          if decide (r' = r) then <[c := 1%nat]> <$> landedRow l r'
          else landedRow l r'.
Proof.
  unfold mark. intros H.
  destruct (landedRow l r) as [lr|] eqn:Hr; simpl in H; [|done].
  injection H as <-. split; [by rewrite length_insert|].
  assert (is_Some (landedRow l r)) as Hs by done.
  apply landedRow_is_Some in Hs.
  intros r'. unfold landedRow, index in *.
  destruct (Z.ltb_spec r 0); [lia|].
  destruct (decide (r' = r)) as [->|Hne].
  - destruct (Z.ltb_spec r 0); [lia|].
    rewrite list_lookup_insert_eq by lia. by rewrite Hr.
  - destruct (Z.ltb_spec r' 0); [done|].
    rewrite list_lookup_insert_ne by lia. done.
Qed.

Lemma mark_is_Some l r c :
  is_Some (mark l r c) ↔ 0 <= r < Z.of_nat (length l).
Proof.
  rewrite <- landedRow_is_Some. unfold mark.
  destruct (landedRow l r); simpl; split; intros [? ?]; done.
Qed.

Lemma markCells_grid tl cs : ∀ l l' P,
  gridOf l P → markCells l tl cs = Some l' →
  gridOf l' (λ r c, P r c ∨ (r - row tl, c - col tl) ∈ cs).
Proof.
  induction cs as [|[r0 c0] cs IH]; intros l l' P HP H; simpl in H.
  - injection H as <-. destruct HP as [Hl HP]. split; [done|].
    intros r lr Hr c. rewrite (HP r lr Hr c).
    setoid_rewrite elem_of_nil. tauto.
  - destruct (mark l (r0 + row tl) (c0 + col tl)) as [l1|] eqn:Hm;
      simpl in H; [|done].
    apply mark_spec in Hm as [Hlen Hrow].
    assert (gridOf l1 (λ r c, P r c ∨ (r - row tl, c - col tl) = (r0, c0)))
      as H1.
    { destruct HP as [Hl HP]. split; [congruence|].
      intros r lr Hr c. rewrite Hrow in Hr.
      destruct (decide (r = r0 + row tl)) as [->|Hne].
      - destruct (landedRow l (r0 + row tl)) as [lr0|] eqn:Hr0; [|done].
        simpl in Hr. injection Hr as <-.
        rewrite taken_insert, orb_true_iff, bool_decide_eq_true.
        rewrite (HP _ lr0 Hr0 c). split.
        + intros [->|?]; [|tauto]. right. right. right. f_equal; lia.
        + intros [?|[?|[?|Heq]]]; try tauto.
          injection Heq as ? ?. left. lia.
      - rewrite (HP r lr Hr c). split; [tauto|].
        intros [?|[?|[?|Heq]]]; try tauto.
        injection Heq as ? ?. lia. }
    apply (IH _ _ _ H1) in H. destruct H as [Hl H]. split; [done|].
    intros r lr Hr c. rewrite (H r lr Hr c).
    rewrite elem_of_cons. tauto.
Qed.

Lemma markCells_length tl cs : ∀ l l',
  markCells l tl cs = Some l' → length l' = length l.
Proof.
  induction cs as [|[r0 c0] cs IH]; intros l l' H; simpl in H.
  - by injection H as <-.
  - destruct (mark l _ _) as [l1|] eqn:Hm; simpl in H; [|done].
    apply mark_spec in Hm as [Hlen _]. rewrite (IH _ _ H). done.
Qed.

Lemma markCells_is_Some tl cs : ∀ l,
  is_Some (markCells l tl cs)
  ↔ Forall (λ rc : Z * Z, 0 <= rc.1 + row tl < Z.of_nat (length l)) cs.
Proof.
  induction cs as [|[r0 c0] cs IH]; intros l; simpl.
  - split; [by intros|by eexists].
  - rewrite Forall_cons. simpl.
    destruct (mark l (r0 + row tl) (c0 + col tl)) as [l1|] eqn:Hm; simpl.
    + rewrite IH. apply mark_spec in Hm as Hs. destruct Hs as [-> _].
      assert (is_Some (mark l (r0 + row tl) (c0 + col tl))) as Hs by done.
      apply mark_is_Some in Hs. tauto.
    + split; [by intros [? ?]|]. intros [Hr _].
      apply (mark_is_Some l _ (c0 + col tl)) in Hr. rewrite Hm in Hr.
      by destruct Hr.
Qed.

Lemma gridOf_iff l P Q :
  (∀ r c, P r c ↔ Q r c) → gridOf l P → gridOf l Q.
Proof.
  intros HPQ [Hl HP]. split; [done|].
  intros r lr Hr c. rewrite (HP r lr Hr c), HPQ. done.
Qed.

Lemma markTets_grid h cur excl aT : ∀ l l' P,
  gridOf l P → markTets h cur excl aT l = Some l' →
  gridOf l' (λ r c, P r c ∨
     ∃ i t, i ∈ aT ∧ sameRef i cur = false ∧ sameRef i excl = false
            ∧ h !! i = Some t ∧ occupies t r c = true).
Proof.
  induction aT as [|i aT IH]; intros l l' P HP H; simpl in H.
  - injection H as <-. eapply gridOf_iff; [|exact HP].
    intros r c. split; [tauto|]. intros [?|(i & t & Hi & _)]; [done|].
    by apply elem_of_nil in Hi.
  - destruct (sameRef i cur || sameRef i excl) eqn:Hx.
    + apply (IH _ _ _ HP) in H. eapply gridOf_iff; [|exact H].
      intros r c. split.
      * intros [?|(j & t & Hj & ?)]; [tauto|]. right. exists j, t.
        rewrite elem_of_cons. tauto.
      * intros [?|(j & t & Hj & Hc & He & ?)]; [tauto|].
        apply elem_of_cons in Hj as [->|Hj].
        -- rewrite Hc, He in Hx. done.
        -- right. exists j, t. tauto.
    + apply orb_false_iff in Hx as [Hc He].
      destruct (h !! i) as [t|] eqn:Ht; simpl in H; [|done].
      destruct (markCells l (topLeft t) (cells (shape t))) as [l1|] eqn:Hm;
        simpl in H; [|done].
      apply (markCells_grid _ _ _ _ _ HP) in Hm.
      apply (IH _ _ _ Hm) in H. eapply gridOf_iff; [|exact H].
      intros r c. split.
      * intros [[?|Hin]|(j & t' & Hj & ?)]; [tauto| |].
        -- right. exists i, t. rewrite elem_of_cons. unfold occupies.
           rewrite bool_decide_eq_true. tauto.
        -- right. exists j, t'. rewrite elem_of_cons. tauto.
      * intros [?|(j & t' & Hj & Hc' & He' & Ht' & Ho)]; [tauto|].
        apply elem_of_cons in Hj as [->|Hj].
        -- left. right. rewrite Ht in Ht'. injection Ht' as <-.
           unfold occupies in Ho. by apply bool_decide_eq_true in Ho.
        -- right. exists j, t'. tauto.
Qed.

Lemma markTets_is_Some h cur excl aT : ∀ l,
  length l = 16%nat →
  is_Some (markTets h cur excl aT l)
  ↔ ∀ i, i ∈ aT → sameRef i cur = false → sameRef i excl = false →
         ∃ t, h !! i = Some t ∧ rowsOk t.
Proof.
  induction aT as [|i aT IH]; intros l Hl; simpl.
  - split; [|by eexists]. intros _ i Hi. by apply elem_of_nil in Hi.
  - destruct (sameRef i cur || sameRef i excl) eqn:Hx.
    + rewrite (IH l Hl). split.
      * intros H j Hj Hc He. apply elem_of_cons in Hj as [->|Hj].
        -- rewrite Hc, He in Hx. done.
        -- by apply H.
      * intros H j Hj. apply H. rewrite elem_of_cons. tauto.
    + apply orb_false_iff in Hx as [Hc He].
      destruct (h !! i) as [t|] eqn:Ht; simpl.
      * destruct (markCells l (topLeft t) (cells (shape t))) as [l1|] eqn:Hm;
          simpl.
        -- assert (is_Some (markCells l (topLeft t) (cells (shape t)))) as Hs
             by done.
           apply markCells_is_Some in Hs. rewrite Hl in Hs.
           apply markCells_length in Hm. rewrite (IH l1) by congruence.
           split.
           ++ intros H j Hj Hc' He'. apply elem_of_cons in Hj as [->|Hj].
              ** exists t. done.
              ** by apply H.
           ++ intros H j Hj. apply H. rewrite elem_of_cons. tauto.
        -- split; [by intros [? ?]|]. intros H.
           destruct (H i) as (t' & Ht' & Hok); [left|done|done|].
           rewrite Ht in Ht'. injection Ht' as <-.
           assert (is_Some (markCells l (topLeft t) (cells (shape t)))) as Hs.
           { apply markCells_is_Some. rewrite Hl. exact Hok. }
           rewrite Hm in Hs. by destruct Hs.
      * split; [by intros [? ?]|]. intros H.
        destruct (H i) as (t' & Ht' & _); [left|done|done|]. congruence.
Qed.

Lemma emptyLanded_grid : gridOf emptyLanded (λ _ _, False).
Proof.
  split; [done|]. intros r lr Hr c.
  assert (lr = zeroRow) as ->.
  { unfold landedRow, index in Hr. destruct (r <? 0); [done|].
    unfold emptyLanded in Hr. apply lookup_replicate in Hr as [-> _]. done. }
  unfold BOARD_COL_NUM.
  destruct (decide (0 <= c < 10)) as [Hc|Hc].
  - assert (c = 0 ∨ c = 1 ∨ c = 2 ∨ c = 3 ∨ c = 4 ∨ c = 5 ∨ c = 6 ∨ c = 7
            ∨ c = 8 ∨ c = 9) as Hcs by lia.
    split; [|lia]. intros Ht. exfalso.
    destruct Hcs as [->|[->|[->|[->|[->|[->|[->|[->|[->| ->]]]]]]]]];
      vm_compute in Ht; discriminate Ht.
  - split; [lia|]. intros _. unfold taken.
    destruct (zeroRow !! c) as [x|] eqn:Hx; [|done].
    unfold zeroRow in Hx. apply elem_of_list_to_map_2 in Hx.
    apply list_elem_of_fmap in Hx as (c' & Heq & Hin).
    injection Heq as -> ->.
    repeat (apply elem_of_cons in Hin as [->|Hin]; [lia|]).
    by apply elem_of_nil in Hin.
Qed.

Lemma buildLanded_grid g excl l :
  buildLanded g excl = Some l → gridOf l (landedBy g excl).
Proof.
  unfold buildLanded. intros H.
  apply (markTets_grid _ _ _ _ _ _ _ emptyLanded_grid) in H.
  eapply gridOf_iff; [|exact H]. intros r c. unfold landedBy. split.
  - intros [[]|?]. done.
  - intros ?. by right.
Qed.

Lemma buildLanded_is_Some g excl :
  is_Some (buildLanded g excl) ↔ markable g excl.
Proof. unfold buildLanded. by rewrite markTets_is_Some. Qed.

Lemma botScan_hits l P pot cs b :
  gridOf l P → botScan l pot cs = Some b →
  (b = true ↔ ∃ rc, rc ∈ cs ∧ hitsP P pot rc).
Proof.
  intros [Hl HP]. revert b. induction cs as [|[r c] cs IH]; intros b H; simpl in H.
  - injection H as <-. split; [done|]. intros (rc & Hin & _).
    by apply elem_of_nil in Hin.
  - destruct (Z.leb_spec BOARD_ROW_NUM (r + row pot)) as [Hr|Hr].
    { injection H as <-. split; [|done]. intros _. exists (r, c).
      split; [left|]. unfold hitsP. simpl. tauto. }
    destruct (landedRow l (r + row pot)) as [lr|] eqn:Hlr; simpl in H; [|done].
    pose proof (HP _ _ Hlr (c + col pot)) as Ht.
    destruct (taken lr (c + col pot)) eqn:Htk.
    { injection H as <-. split; [|done]. intros _. exists (r, c).
      split; [left|]. unfold hitsP. simpl. tauto. }
    rewrite (IH b H). split.
    + intros (rc & Hin & Hh). exists rc. rewrite elem_of_cons. tauto.
    + intros (rc & Hin & Hh). apply elem_of_cons in Hin as [->|Hin].
      * unfold hitsP in Hh. simpl in Hh. destruct Hh as [?|Hh]; [lia|].
        assert (false = true) by (by apply Ht). done.
      * exists rc. tauto.
Qed.

Lemma sideScan_hits l P pot cs hit :
  gridOf l P → sideScan l pot cs = Some hit →
  (is_Some hit ↔ ∃ rc, rc ∈ cs ∧ hitsP P pot rc).
Proof.
  intros [Hl HP]. revert hit.
  induction cs as [|[r c] cs IH]; intros hit H; simpl in H.
  - injection H as <-. split; [by intros [? ?]|]. intros (rc & Hin & _).
    by apply elem_of_nil in Hin.
  - destruct (Z.ltb_spec (c + col pot) 0) as [Hc0|Hc0].
    { injection H as <-. split; [|by eexists]. intros _. exists (r, c).
      split; [left|]. unfold hitsP. simpl. tauto. }
    destruct (Z.leb_spec BOARD_COL_NUM (c + col pot)) as [Hc1|Hc1].
    { injection H as <-. split; [|by eexists]. intros _. exists (r, c).
      split; [left|]. unfold hitsP. simpl. tauto. }
    destruct (landedRow l (r + row pot)) as [lr|] eqn:Hlr; simpl in H; [|done].
    pose proof (HP _ _ Hlr (c + col pot)) as Ht.
    assert (is_Some (landedRow l (r + row pot))) as Hs by done.
    apply landedRow_is_Some in Hs. rewrite Hl in Hs.
    destruct (taken lr (c + col pot)) eqn:Htk.
    { injection H as <-. split; [|by eexists]. intros _. exists (r, c).
      split; [left|]. unfold hitsP. simpl. tauto. }
    rewrite (IH hit H). split.
    + intros (rc & Hin & Hh). exists rc. rewrite elem_of_cons. tauto.
    + intros (rc & Hin & Hh). apply elem_of_cons in Hin as [->|Hin].
      * unfold hitsP in Hh. simpl in Hh. unfold BOARD_ROW_NUM in Hh.
        destruct Hh as [?|Hh]; [lia|].
        assert (false = true) by (by apply Ht). done.
      * exists rc. tauto.
Qed.

Lemma rotScan_hits l P pot cs ok :
  gridOf l P → rotScan l pot cs = Some ok →
  (ok = false ↔ ∃ rc, rc ∈ cs ∧ hitsP P pot rc).
Proof.
  intros [Hl HP]. revert ok.
  induction cs as [|[r c] cs IH]; intros ok H; simpl in H.
  - injection H as <-. split; [done|]. intros (rc & Hin & _).
    by apply elem_of_nil in Hin.
  - destruct (Z.ltb_spec (c + col pot) 0) as [Hc0|Hc0].
    { injection H as <-. split; [|done]. intros _. exists (r, c).
      split; [left|]. unfold hitsP. simpl. tauto. }
    destruct (Z.leb_spec BOARD_COL_NUM (c + col pot)) as [Hc1|Hc1].
    { injection H as <-. split; [|done]. intros _. exists (r, c).
      split; [left|]. unfold hitsP. simpl. tauto. }
    destruct (Z.leb_spec BOARD_ROW_NUM (r + row pot)) as [Hr|Hr].
    { injection H as <-. split; [|done]. intros _. exists (r, c).
      split; [left|]. unfold hitsP. simpl. tauto. }
    destruct (landedRow l (r + row pot)) as [lr|] eqn:Hlr; simpl in H; [|done].
    pose proof (HP _ _ Hlr (c + col pot)) as Ht.
    destruct (taken lr (c + col pot)) eqn:Htk.
    { injection H as <-. split; [|done]. intros _. exists (r, c).
      split; [left|]. unfold hitsP. simpl. tauto. }
    rewrite (IH ok H). split.
    + intros (rc & Hin & Hh). exists rc. rewrite elem_of_cons. tauto.
    + intros (rc & Hin & Hh). apply elem_of_cons in Hin as [->|Hin].
      * unfold hitsP in Hh. simpl in Hh. destruct Hh as [?|Hh]; [lia|].
        assert (false = true) by (by apply Ht). done.
      * exists rc. tauto.
Qed.

Lemma landedBy_cache g u l excl r c :
  landedBy (set_updateLanded u (set_landed l g)) excl r c ↔ landedBy g excl r c.
Proof. done. Qed.

Lemma getLanded_rebuilt g tet g' l :
  is_Some tet ∨ updateLanded g = true →
  getLanded g tet = Some (g', l) →
  gridOf l (landedBy g tet) ∧ g' = set_updateLanded false (set_landed l g).
Proof.
  intros Hu H. unfold getLanded in H.
  assert (updateLanded (if tet is Some _ then set_updateLanded true g else g)
          = true) as Hup.
  { destruct tet; [done|]. by destruct Hu as [[? ?]|?]. }
  rewrite Hup in H.
  destruct (buildLanded _ tet) as [l'|] eqn:Hb; simpl in H; [|done].
  injection H as <- <-. split.
  - apply buildLanded_grid in Hb. by destruct tet.
  - by destruct tet, g.
Qed.

Lemma getLanded_fresh g g' l :
  cacheFresh g → getLanded g None = Some (g', l) →
  gridOf l (landedBy g None) ∧ cacheEq g g'.
Proof.
  intros Hf H. split; [|by eapply getLanded_cacheEq].
  destruct (updateLanded g) eqn:Hu.
  - apply getLanded_rebuilt in H as [? _]; [done|by right].
  - destruct Hf as [?|Hf]; [congruence|]. unfold getLanded in H.
    rewrite Hu in H. by injection H as <- <-.
Qed.

(** X1.  When [getLanded] rebuilds the grid (it is given a Tet, or
    [updateLanded] is set) and returns, the grid has 16 rows,
    [updateLanded] is cleared and nothing else of the game changes; on a
    row from 0 to 15 a cell reads non-zero exactly when its column is off
    the board or a Tet of [allTets], other than the current Tet and the
    given Tet, has a block there. *)
Theorem getLanded_grid g tet g' l r :
  is_Some tet ∨ updateLanded g = true →
  getLanded g tet = Some (g', l) →
  0 <= r < BOARD_ROW_NUM →
  length l = 16%nat
  ∧ g' = set_updateLanded false (set_landed l g)
  ∧ ∃ lr, landedRow l r = Some lr
      ∧ ∀ c, taken lr c = true
             ↔ (c < 0 ∨ BOARD_COL_NUM <= c ∨ landedBy g tet r c).
Proof.
  intros Hu H Hr. apply getLanded_rebuilt in H as [[Hl HP] ->]; [|done].
  split; [done|]. split; [done|].
  destruct (proj2 (landedRow_is_Some l r)) as [lr Hlr].
  { rewrite Hl. unfold BOARD_ROW_NUM in Hr. lia. }
  exists lr. split; [done|]. by apply HP.
Qed.

Lemma getLanded_None_iff g tet :
  getLanded g tet = None
  ↔ (is_Some tet ∨ updateLanded g = true) ∧ ¬ markable g tet.
Proof.
  unfold getLanded.
  destruct tet as [x|]; simpl.
  - rewrite <- buildLanded_is_Some.
    change (buildLanded (set_updateLanded true g) (Some x))
      with (buildLanded g (Some x)).
    destruct (buildLanded g (Some x)); simpl; split.
    + done.
    + intros [_ Hn]. destruct Hn. by eexists.
    + intros _. split; [left; by eexists|]. by intros [? ?].
    + done.
  - rewrite <- buildLanded_is_Some. destruct (updateLanded g); simpl.
    + destruct (buildLanded g None); simpl; split.
      * done.
      * intros [_ Hn]. destruct Hn. by eexists.
      * intros _. split; [by right|]. by intros [? ?].
      * done.
    + split; [done|]. intros [[[? ?]|?] _]; done.
Qed.

(** X2.  [getLanded] throws exactly when it rebuilds the grid and some Tet
    it has to mark is missing or has a block on a row outside 0..15; a
    call answered from the cache never throws. *)
Theorem getLanded_throws g tet :
  getLanded g tet = None
  ↔ (is_Some tet ∨ updateLanded g = true) ∧ ¬ markable g tet.
Proof. apply getLanded_None_iff. Qed.

Lemma doesTetCollideBot_inv g this t pot g' b :
  heap g !! this = Some t →
  doesTetCollideBot g this pot = Some (g', b) →
  (b = true ↔ hitsAt (landedBy g (Some this)) (shape t) pot)
  ∧ ∃ l, g' = set_updateLanded false (set_landed l g).
Proof.
  intros Ht H. unfold doesTetCollideBot in H.
  destruct (getLanded g (Some this)) as [[g1 l]|] eqn:HL; simpl in H; [|done].
  apply getLanded_rebuilt in HL as [Hg ->]; [|left; by eexists].
  simpl in H. rewrite Ht in H. simpl in H.
  destruct (botScan l pot (cells (shape t))) as [b'|] eqn:Hb; simpl in H; [|done].
  injection H as <- <-. split; [|by eexists].
  by apply (botScan_hits _ _ _ _ _ Hg).
Qed.

(** X3.  When [doesTetCollideBot] returns, it answers true exactly when
    some block of the Tet, put at the potential position, is below row 15,
    off the columns, or on a block of another landed Tet; the only state
    it changes is the [landed] cache. *)
Theorem doesTetCollideBot_hits g this t pot g' b :
  heap g !! this = Some t →
  doesTetCollideBot g this pot = Some (g', b) →
  (b = true ↔ hitsAt (landedBy g (Some this)) (shape t) pot)
  ∧ ∃ l, g' = set_updateLanded false (set_landed l g).
Proof. apply doesTetCollideBot_inv. Qed.

Lemma quiet_refl g : quiet g g.
Proof. done. Qed.

Lemma quiet_trans g1 g2 g3 : quiet g1 g2 → quiet g2 g3 → quiet g1 g3.
Proof. intros [? ?] [? ?]. split; congruence. Qed.

Lemma quiet_cacheEq g g' : cacheEq g g' → quiet g g'.
Proof. by intros (u & l & ->). Qed.

Lemma quiet_pushFragments ty q : ∀ g g',
  pushFragments g ty q = Some g' → quiet g g'.
Proof.
  induction q as [|o q IH]; intros g g' H; simpl in H.
  - by injection H as <-.
  - destruct (cleanShape o) as [[s tl]|]; simpl in H; [|done].
    eapply quiet_trans; [|by eapply IH]. done.
Qed.

Lemma quiet_updateTet g this g' : updateTet g this = Some g' → quiet g g'.
Proof.
  unfold updateTet. intros H.
  destruct (heap g !! this) as [t|]; simpl in H; [|done].
  destruct (fragments t) as [|o q].
  - by injection H as <-.
  - destruct (cleanShape o) as [[s tl]|]; simpl in H; [|done].
    eapply quiet_trans; [|by eapply quiet_pushFragments]. done.
Qed.

Lemma quiet_alterShape g this fullRows g' :
  alterShape g this fullRows = Some g' → quiet g g'.
Proof.
  unfold alterShape. intros H.
  destruct (heap g !! this) as [t|]; simpl in H; [|done].
  eapply quiet_trans; [|by eapply quiet_updateTet]. done.
Qed.

Lemma quiet_alterEach firstRow lastRow fullRows aT : ∀ g g',
  alterEach g firstRow lastRow fullRows aT = Some g' → quiet g g'.
Proof.
  induction aT as [|i aT IH]; intros g g' H; simpl in H.
  - by injection H as <-.
  - destruct (heap g !! i) as [t|]; simpl in H; [|done].
    destruct (leU _ _ || gtU _ _); [by eapply IH|].
    destruct (alterShape g i fullRows) as [g1|] eqn:Ha; simpl in H; [|done].
    eapply quiet_trans; [by eapply quiet_alterShape|by eapply IH].
Qed.

Lemma quiet_alterShapes g fullRows g' :
  alterShapes g fullRows = Some g' → quiet g g'.
Proof.
  unfold alterShapes. intros H.
  destruct (alterEach _ _ _ _ _) as [g1|] eqn:He; simpl in H; [|done].
  injection H as <-. eapply quiet_trans; [by eapply quiet_alterEach|]. done.
Qed.

Lemma collided_flags g this g' :
  collided g this = Some g' →
  flags g' = flags g ∧ updateLanded g' = true
  ∧ (moveLoops g' = moveLoops g ∨ moveLoops g' = moveLoops g ++ [this]).
Proof.
  unfold collided. intros H.
  destruct (fullRowsOf g this) as [[g1 fullRows]|] eqn:Hf; simpl in H; [|done].
  assert (updateLanded g1 = true) as Hu.
  { unfold fullRowsOf in Hf.
    destruct (getLanded g None) as [[g2 l]|]; simpl in Hf; [|done].
    destruct (heap g2 !! this); simpl in Hf; [|done].
    destruct (findFullRows _ _); simpl in Hf; [|done].
    by injection Hf as <- <-. }
  apply fullRowsOf_cacheEq in Hf. apply quiet_cacheEq in Hf as [Hf Hm].
  destruct fullRows as [|r rs].
  - injection H as <-. split; [done|]. split; [done|]. by left.
  - destruct (alterShapes _ _) as [g3|] eqn:Ha; simpl in H; [|done].
    injection H as <-. apply quiet_alterShapes in Ha as [Ha Hm'].
    split; [exact (eq_trans Ha Hf)|]. split; [done|]. right. simpl.
    rewrite Hm'. simpl. by rewrite Hm.
Qed.

Lemma landedBy_setTet g this t t' excl r c :
  heap g !! this = Some t →
  shape t' = shape t → topLeft t' = topLeft t →
  landedBy (setTet this t' g) excl r c ↔ landedBy g excl r c.
Proof.
  intros Ht Hs Htl. unfold landedBy. simpl. split.
  - intros (i & ti & Hi & Hc & He & Hh & Ho).
    destruct (decide (i = this)) as [->|Hne].
    + exists this, t. rewrite list_lookup_insert_eq in Hh
        by (by eapply lookup_lt_Some).
      injection Hh as <-. repeat split; try done.
      unfold occupies in *. by rewrite <- Hs, <- Htl.
    + exists i, ti. rewrite list_lookup_insert_ne in Hh by done. done.
  - intros (i & ti & Hi & Hc & He & Hh & Ho).
    destruct (decide (i = this)) as [->|Hne].
    + exists this, t'. rewrite list_lookup_insert_eq
        by (by eapply lookup_lt_Some).
      rewrite Ht in Hh. injection Hh as <-. repeat split; try done.
      unfold occupies in *. by rewrite Hs, Htl.
    + exists i, ti. rewrite list_lookup_insert_ne by done. done.
Qed.

Lemma hitsAt_iff P Q s pot :
  (∀ r c, P r c ↔ Q r c) → hitsAt P s pot ↔ hitsAt Q s pot.
Proof.
  intros HPQ. unfold hitsAt, hitsP. by setoid_rewrite HPQ.
Qed.

Lemma doesTetCollideSide_hits g this t pot d g' b :
  cacheFresh g → heap g !! this = Some t →
  doesTetCollideSide g this pot d = Some (g', b) →
  (b = true ↔ hitsAt (landedBy g None) (shape t) pot)
  ∧ ∃ g1 t', cacheEq g g1 ∧ g' = setTet this t' g1
      ∧ shape t' = shape t ∧ topLeft t' = topLeft t
      ∧ (b = false → t' = t).
Proof.
  intros Hf Ht H.
  destruct (doesTetCollideSide_inv _ _ _ _ _ _ _ Ht H)
    as (g1 & l & hit & t' & HL & Hs & -> & -> & Ht').
  apply (getLanded_fresh _ _ _ Hf) in HL as [Hg Hc].
  apply (sideScan_hits _ _ _ _ _ Hg) in Hs. split.
  - rewrite <- Hs.
    destruct hit; split; intros HH;
      first [done | by eexists | by destruct HH].
  - exists g1, t'. split; [done|]. split; [done|].
    destruct Ht' as [->|(_ & -> & Hh)]; [done|].
    repeat split; try done. intros Hb.
    destruct Hh as [->|[-> _]]; done.
Qed.

(** X4.  With a usable [landed] cache, [moveRight] changes only the Tet and
    the cache: when a block of the Tet, one column to the right, would be
    off the board or on a landed block, position and shape stay; otherwise
    the Tet is the old one with [topLeft.col] increased by one. *)
Theorem moveRight_moves g this t g' :
  cacheFresh g → heap g !! this = Some t → moveRight g this = Some g' →
  let pot := mkPos (row (topLeft t)) (col (topLeft t) + 1) in
  ∃ g1 t', cacheEq g g1 ∧ g' = setTet this t' g1
    ∧ (hitsAt (landedBy g None) (shape t) pot →
       topLeft t' = topLeft t ∧ shape t' = shape t)
    ∧ (¬ hitsAt (landedBy g None) (shape t) pot → t' = set_topLeft pot t).
Proof.
  intros Hf Ht H pot. unfold moveRight in H. rewrite Ht in H. simpl in H.
  fold pot in H.
  destruct (doesTetCollideSide g this pot (Some 1)) as [[g1 b]|] eqn:Hs;
    simpl in H; [|done].
  destruct (doesTetCollideSide_hits _ _ _ _ _ _ _ Hf Ht Hs)
    as (Hb & g2 & t' & Hc & -> & Hsh & Htl & Hsame).
  destruct b.
  - injection H as <-. exists g2, t'. split; [done|]. split; [done|].
    split; [done|]. intros Hn. destruct Hn. by apply Hb.
  - rewrite (Hsame eq_refl) in *.
    destruct Hc as (u & l & ->).
    simpl in H. rewrite list_lookup_insert_eq in H by (by eapply lookup_lt_Some).
    simpl in H. injection H as <-.
    exists (set_updateLanded u (set_landed l g)), (set_topLeft pot t).
    split; [by eexists _, _|]. split.
    { unfold setTet. simpl. by rewrite list_insert_insert_eq. }
    split; [|done]. intros Hh. apply Hb in Hh. done.
Qed.

(** X5.  With a usable [landed] cache, [moveLeft] changes only the Tet and
    the cache: when a block of the Tet, one column to the left, would be
    off the board or on a landed block, position and shape stay; otherwise
    the Tet is the old one with [pivot] reset to 0 and [topLeft.col]
    decreased by one. *)
Theorem moveLeft_moves g this t g' :
  cacheFresh g → heap g !! this = Some t → moveLeft g this = Some g' →
  let pot := mkPos (row (topLeft t)) (col (topLeft t) - 1) in
  ∃ g1 t', cacheEq g g1 ∧ g' = setTet this t' g1
    ∧ (hitsAt (landedBy g None) (shape t) pot →
       topLeft t' = topLeft t ∧ shape t' = shape t)
    ∧ (¬ hitsAt (landedBy g None) (shape t) pot →
       t' = set_topLeft pot (set_pivot (Some 0) t)).
Proof.
  intros Hf Ht H pot. unfold moveLeft in H. rewrite Ht in H. simpl in H.
  fold pot in H.
  set (t0 := set_pivot (Some 0) t) in *.
  assert (heap (setTet this t0 g) !! this = Some t0) as Ht0
    by (by eapply heap_setTet_eq).
  assert (cacheFresh (setTet this t0 g)) as Hf0.
  { destruct Hf as [?|[Hl HP]]; [by left|]. right. split; [done|].
    intros r lr Hr c. simpl in Hr. rewrite (HP r lr Hr c).
    by rewrite (landedBy_setTet g this t t0). }
  destruct (doesTetCollideSide (setTet this t0 g) this pot None)
    as [[g1 b]|] eqn:Hs; simpl in H; [|done].
  destruct (doesTetCollideSide_hits _ _ _ _ _ _ _ Hf0 Ht0 Hs)
    as (Hb & g2 & t' & Hc & -> & Hsh & Htl & Hsame).
  assert (hitsAt (landedBy (setTet this t0 g) None) (shape t0) pot
          ↔ hitsAt (landedBy g None) (shape t) pot) as Hiff.
  { apply hitsAt_iff. intros r c. by apply (landedBy_setTet g this t t0). }
  rewrite Hiff in Hb.
  destruct Hc as (u & l & ->).
  exists (set_updateLanded u (set_landed l g)).
  destruct b.
  - injection H as <-. exists t'. split; [by eexists _, _|]. split.
    { unfold setTet. simpl. by rewrite list_insert_insert_eq. }
    split; [done|]. intros Hn. destruct Hn. by apply Hb.
  - rewrite (Hsame eq_refl) in *.
    simpl in H. rewrite list_lookup_insert_eq in H
      by (rewrite length_insert; by eapply lookup_lt_Some).
    simpl in H. injection H as <-.
    exists (set_topLeft pot t0).
    split; [by eexists _, _|]. split.
    { unfold setTet. simpl. by rewrite !list_insert_insert_eq. }
    split; [|done]. intros Hh. apply Hb in Hh. done.
Qed.

(** X6.  [moveDown] moves the Tet one row down, changing nothing else but
    the [landed] cache, when no block of it would then be below row 15,
    off the columns or on a landed block; when one would, it lands the
    Tet: [newTet] is set, [currentTet] is null, [updateLanded] is set, and
    [nextTet], [gameOver], [paused] and the timer [loop] are as before. *)
Theorem moveDown_moves g this t g' :
  heap g !! this = Some t → moveDown g this = Some g' →
  let pot := mkPos (row (topLeft t) + 1) (col (topLeft t)) in
  (¬ hitsAt (landedBy g (Some this)) (shape t) pot →
     ∃ l, g' = setTet this (set_topLeft pot t)
                 (set_updateLanded false (set_landed l g)))
  ∧ (hitsAt (landedBy g (Some this)) (shape t) pot →
     newTet g' = true ∧ currentTet g' = None ∧ updateLanded g' = true
     ∧ nextTet g' = nextTet g ∧ gameOver g' = gameOver g
     ∧ paused g' = paused g ∧ loop g' = loop g).
Proof.
  intros Ht H pot. unfold moveDown in H. rewrite Ht in H. simpl in H.
  fold pot in H.
  destruct (doesTetCollideBot g this pot) as [[g1 b]|] eqn:Hb; simpl in H;
    [|done].
  apply (doesTetCollideBot_inv _ _ _ _ _ _ Ht) in Hb as [Hb [l ->]].
  destruct b.
  - split; [intros Hn; destruct Hn; by apply Hb|]. intros _.
    apply collided_flags in H as (Hfl & Hu & _).
    unfold flags in Hfl. simpl in Hfl. by injection Hfl as ? ? ? ? ? ? ?.
  - split; [|intros Hh; apply Hb in Hh; done]. intros _.
    simpl in H. rewrite Ht in H. simpl in H. injection H as <-. by exists l.
Qed.

(** X7.  With a usable [landed] cache, [rotate] succeeds exactly when the
    shape of the next rotation, put at the [topLeft] the Tet has now (the
    pivot is not added in the test), has no block off the board or on a
    landed block. *)
Theorem rotate_iff g this t g' b :
  cacheFresh g → heap g !! this = Some t → rotate g this = Some (g', b) →
  ∃ s, catalog (type t) (nextRotation t) = Some s
    ∧ (b = true ↔ ¬ hitsAt (landedBy g None) s (topLeft t)).
Proof.
  intros Hf Ht H. unfold rotate in H.
  destruct (getLanded g None) as [[g1 l]|] eqn:HL; simpl in H; [|done].
  apply (getLanded_fresh _ _ _ Hf) in HL as [Hg (u & l' & ->)].
  simpl in H. rewrite Ht in H. simpl in H.
  unfold getShapeMatrix in H.
  destruct (catalog (type t) (nextRotation t)) as [s|]; simpl in H; [|done].
  exists s. split; [done|].
  destruct (rotScan l _ (cells s)) as [ok|] eqn:Hr; simpl in H; [|done].
  apply (rotScan_hits _ _ _ _ _ Hg) in Hr. simpl in Hr.
  destruct ok.
  - destruct (commitRotation _ _ _); simpl in H; [|done].
    injection H as <- <-. split; [|done]. intros _ Hh.
    apply Hr in Hh. done.
  - injection H as <- <-. split; [done|]. intros Hn. destruct Hn.
    by apply Hr.
Qed.

Lemma landedBy_setTet_current g c t' excl r k :
  currentTet g = Some c →
  landedBy (setTet c t' g) excl r k ↔ landedBy g excl r k.
Proof.
  intros Hc. unfold landedBy. simpl. rewrite Hc. split.
  - intros (i & ti & Hi & Hn & He & Hh & Ho).
    assert (i ≠ c) as Hne.
    { intros ->. simpl in Hn. by rewrite Nat.eqb_refl in Hn. }
    exists i, ti. rewrite list_lookup_insert_ne in Hh by done. done.
  - intros (i & ti & Hi & Hn & He & Hh & Ho).
    assert (i ≠ c) as Hne.
    { intros ->. simpl in Hn. by rewrite Nat.eqb_refl in Hn. }
    exists i, ti. rewrite list_lookup_insert_ne by done. done.
Qed.

Lemma landedBy_excl_current g c r k :
  currentTet g = Some c → landedBy g (Some c) r k ↔ landedBy g None r k.
Proof.
  intros Hc. unfold landedBy. rewrite Hc. split.
  - intros (i & ti & Hi & Hn & He & Hh & Ho). by exists i, ti.
  - intros (i & ti & Hi & Hn & He & Hh & Ho). by exists i, ti.
Qed.

Lemma cacheFresh_iff g g' :
  updateLanded g' = updateLanded g → landed g' = landed g →
  (∀ r c, landedBy g' None r c ↔ landedBy g None r c) →
  cacheFresh g → cacheFresh g'.
Proof.
  intros Hu Hl HP [?|Hg]; [left; congruence|]. right. rewrite Hl.
  eapply gridOf_iff; [|exact Hg]. intros r c. by rewrite HP.
Qed.

Lemma cacheFresh_stale g : updateLanded g = true → cacheFresh g.
Proof. by left. Qed.

Lemma getLanded_None_fresh g g' l :
  cacheFresh g → getLanded g None = Some (g', l) → cacheFresh g'.
Proof.
  intros Hf H. destruct (getLanded_fresh _ _ _ Hf H) as [Hg _].
  unfold getLanded in H. destruct (updateLanded g) eqn:Hu.
  - destruct (buildLanded g None); simpl in H; [|done].
    injection H as <- <-. by right.
  - injection H as <- <-. by right.
Qed.

Lemma doesTetCollideBot_fresh g c pot g' b :
  currentTet g = Some c →
  doesTetCollideBot g c pot = Some (g', b) → cacheFresh g'.
Proof.
  intros Hc H. unfold doesTetCollideBot in H.
  destruct (getLanded g (Some c)) as [[g1 l]|] eqn:HL; simpl in H; [|done].
  apply getLanded_rebuilt in HL as [Hg ->]; [|left; by eexists].
  destruct (heap _ !! c); simpl in H; [|done].
  destruct (botScan _ _ _); simpl in H; [|done].
  injection H as <- <-. right. simpl.
  eapply gridOf_iff; [|exact Hg]. intros r k.
  by rewrite landedBy_excl_current.
Qed.

Lemma draw_fresh g g' : cacheFresh g → draw g = Some g' → cacheFresh g'.
Proof.
  intros Hf H. unfold draw in H.
  destruct (nextTet g); [|by injection H as <-].
  destruct (newTet g); [by injection H as <-|].
  destruct (currentTet g) as [c|] eqn:Hc; [|by injection H as <-].
  destruct (heap g !! c) as [t|]; simpl in H; [|done].
  destruct (doesTetCollideBot _ _ _) as [[g1 b]|] eqn:Hb; simpl in H; [|done].
  injection H as <-. by eapply doesTetCollideBot_fresh.
Qed.

Lemma cacheFresh_setTet_current g c t' :
  currentTet g = Some c → cacheFresh g → cacheFresh (setTet c t' g).
Proof.
  intros Hc Hf. apply (cacheFresh_iff g); [done|done| |exact Hf].
  intros r k. by apply landedBy_setTet_current.
Qed.

Lemma doesTetCollideSide_fresh g c pot d g' b :
  currentTet g = Some c → cacheFresh g →
  doesTetCollideSide g c pot d = Some (g', b) → cacheFresh g'.
Proof.
  intros Hc Hf H. unfold doesTetCollideSide in H.
  destruct (getLanded g None) as [[g1 l]|] eqn:HL; simpl in H; [|done].
  pose proof (getLanded_None_fresh _ _ _ Hf HL) as Hf1.
  apply getLanded_cacheEq in HL as (u & l' & ->).
  destruct (heap _ !! c) as [t|]; simpl in H; [|done].
  destruct (sideScan _ _ _) as [hit|]; simpl in H; [|done].
  assert (∀ t', cacheFresh (setTet c t' (set_updateLanded u (set_landed l' g))))
    as Hset.
  { intros t'. by apply cacheFresh_setTet_current. }
  destruct hit as [[]|]; injection H as <- <-; try done.
  - by destruct (canPivot t).
  - by destruct (isRight d && canPivot t).
Qed.

Lemma rotate_fresh g c g' b :
  currentTet g = Some c → cacheFresh g →
  rotate g c = Some (g', b) → cacheFresh g'.
Proof.
  intros Hc Hf H. unfold rotate in H.
  destruct (getLanded g None) as [[g1 l]|] eqn:HL; simpl in H; [|done].
  pose proof (getLanded_None_fresh _ _ _ Hf HL) as Hf1.
  apply getLanded_cacheEq in HL as (u & l' & ->).
  destruct (heap _ !! c) as [t|]; simpl in H; [|done].
  destruct (getShapeMatrix _ _) as [[t1 s]|]; simpl in H; [|done].
  destruct (rotScan _ _ _) as [[]|]; simpl in H; [| |done].
  - destruct (commitRotation _ _ _) as [t2|]; simpl in H; [|done].
    injection H as <- <-.
    apply cacheFresh_setTet_current; [done|].
    by apply cacheFresh_setTet_current.
  - injection H as <- <-. by apply cacheFresh_setTet_current.
Qed.

Lemma moveLeft_fresh g c g' :
  currentTet g = Some c → cacheFresh g →
  moveLeft g c = Some g' → cacheFresh g'.
Proof.
  intros Hc Hf H. unfold moveLeft in H.
  destruct (heap g !! c) as [t|]; simpl in H; [|done].
  destruct (doesTetCollideSide _ _ _ _) as [[g1 b]|] eqn:Hs; simpl in H; [|done].
  assert (currentTet g1 = Some c) as Hc1.
  { unfold doesTetCollideSide in Hs.
    destruct (getLanded _ None) as [[g2 l]|] eqn:HL; simpl in Hs; [|done].
    apply getLanded_cacheEq in HL as (u & l' & ->).
    destruct (heap _ !! c); simpl in Hs; [|done].
    destruct (sideScan _ _ _) as [[[]|]|]; simpl in Hs; [| | | |done];
      injection Hs as <- <-; try done;
      first [by destruct (canPivot _) | by destruct (isRight _ && canPivot _)]. }
  apply doesTetCollideSide_fresh in Hs;
    [|done|by apply cacheFresh_setTet_current].
  destruct b; [by injection H as <-|].
  destruct (heap g1 !! c); simpl in H; [|done]. injection H as <-.
  by apply cacheFresh_setTet_current.
Qed.

Lemma moveRight_fresh g c g' :
  currentTet g = Some c → cacheFresh g →
  moveRight g c = Some g' → cacheFresh g'.
Proof.
  intros Hc Hf H. unfold moveRight in H.
  destruct (heap g !! c) as [t|]; simpl in H; [|done].
  destruct (doesTetCollideSide _ _ _ _) as [[g1 b]|] eqn:Hs; simpl in H; [|done].
  assert (currentTet g1 = Some c) as Hc1.
  { unfold doesTetCollideSide in Hs.
    destruct (getLanded _ None) as [[g2 l]|] eqn:HL; simpl in Hs; [|done].
    apply getLanded_cacheEq in HL as (u & l' & ->).
    destruct (heap _ !! c); simpl in Hs; [|done].
    destruct (sideScan _ _ _) as [[[]|]|]; simpl in Hs; [| | | |done];
      injection Hs as <- <-; try done;
      first [by destruct (canPivot _) | by destruct (isRight _ && canPivot _)]. }
  apply doesTetCollideSide_fresh in Hs; [|done|done].
  destruct b; [by injection H as <-|].
  destruct (heap g1 !! c); simpl in H; [|done]. injection H as <-.
  by apply cacheFresh_setTet_current.
Qed.

Lemma moveDown_fresh g c g' :
  currentTet g = Some c → moveDown g c = Some g' → cacheFresh g'.
Proof.
  intros Hc H. unfold moveDown in H.
  destruct (heap g !! c) as [t|]; simpl in H; [|done].
  destruct (doesTetCollideBot _ _ _) as [[g1 b]|] eqn:Hb; simpl in H; [|done].
  pose proof (doesTetCollideBot_fresh _ _ _ _ _ Hc Hb) as Hf1.
  apply doesTetCollideBot_cacheEq in Hb as (u & l & ->).
  destruct b.
  - apply collided_flags in H as (_ & Hu & _). by left.
  - destruct (heap _ !! c); simpl in H; [|done]. injection H as <-.
    by apply cacheFresh_setTet_current.
Qed.

Lemma createTet_fresh g r1 r2 r3 g' :
  createTet g r1 r2 r3 = Some g' → cacheFresh g'.
Proof.
  unfold createTet. intros H.
  destruct (spawn g r1 r2 r3) as [g1|]; simpl in H; [|done].
  destruct (currentTet g1) as [cur|] eqn:Hc; simpl in H; [|done].
  destruct (heap g1 !! cur) as [t|]; simpl in H; [|done].
  destruct (doesTetCollideBot _ _ _) as [[g2 b]|] eqn:Hb; simpl in H; [|done].
  pose proof (doesTetCollideBot_fresh _ _ _ _ _ Hc Hb) as Hf.
  apply doesTetCollideBot_cacheEq in Hb as (u & l & ->).
  destruct b.
  - injection H as <-. by apply (cacheFresh_iff _ _ eq_refl eq_refl) in Hf.
  - apply draw_fresh in H; [done|].
    apply (cacheFresh_iff (set_updateLanded u (set_landed l g1)));
      [done|done| |done].
    intros r k. unfold landedBy. simpl. rewrite Hc. split.
    + intros (i & ti & Hi & Hn & He & Hh & Ho). exists i, ti.
      apply elem_of_app in Hi as [Hi|Hi]; [done|].
      apply list_elem_of_singleton in Hi as ->.
      simpl in Hn. by rewrite Nat.eqb_refl in Hn.
    + intros (i & ti & Hi & Hn & He & Hh & Ho). exists i, ti.
      rewrite elem_of_app. tauto.
Qed.

Lemma settleWhile_stale fuel : ∀ g mv g' mv',
  settleWhile fuel g mv = Some (g', mv') → updateLanded g' = true.
Proof.
  induction fuel as [|fuel IH]; intros g mv g' mv' H; simpl in H; [done|].
  destruct (settlePass _ _ _ _) as [[[g1 mv1] []]|]; simpl in H; [| |done].
  - by eapply IH.
  - by injection H as <- <-.
Qed.

Lemma step_fresh g e g' : cacheFresh g → step g e = Some g' → cacheFresh g'.
Proof.
  intros Hf H. destruct e; simpl in H.
  - unfold onKeyUp in H. destruct (canTetMove g); [|by injection H as <-].
    destruct (currentTet g) as [c|] eqn:Hc; [|by injection H as <-].
    destruct (rotate g c) as [[g1 b]|] eqn:Hr; simpl in H; [|done].
    eapply draw_fresh; [|done]. by eapply rotate_fresh.
  - unfold onKeyLeft in H. destruct (canTetMove g); [|by injection H as <-].
    destruct (currentTet g) as [c|] eqn:Hc; [|by injection H as <-].
    destruct (moveLeft g c) as [g1|] eqn:Hr; simpl in H; [|done].
    eapply draw_fresh; [|done]. by eapply moveLeft_fresh.
  - unfold onKeyRight in H. destruct (canTetMove g); [|by injection H as <-].
    destruct (currentTet g) as [c|] eqn:Hc; [|by injection H as <-].
    destruct (moveRight g c) as [g1|] eqn:Hr; simpl in H; [|done].
    eapply draw_fresh; [|done]. by eapply moveRight_fresh.
  - unfold onKeyDown in H. destruct (canTetMove g); [|by injection H as <-].
    destruct (currentTet g) as [c|] eqn:Hc; [|by injection H as <-].
    destruct (moveDown _ c) as [g1|] eqn:Hr; simpl in H; [|done].
    destruct (draw g1) as [g2|] eqn:Hd; simpl in H; [|done].
    assert (cacheFresh g2) as Hf2.
    { assert (currentTet (if newTet g then g else set_loop false g) = Some c)
        as Hc0 by (by destruct (newTet g)).
      apply (moveDown_fresh _ _ _ Hc0) in Hr.
      by apply (draw_fresh _ _ Hr). }
    injection H as <-.
    destruct (negb (newTet g) && negb (paused g2)); exact Hf2.
  - unfold onKeyP in H. destruct (gameOver g); [by injection H as <-|].
    destruct (negb (paused g)); (eapply draw_fresh; [|exact H]); exact Hf.
  - unfold onTick in H. destruct (negb (loop g)); [done|].
    destruct (newTet g).
    + destruct (createTet g r1 r2 r3) as [g1|] eqn:Hc; simpl in H; [|done].
      eapply draw_fresh; [|done]. by eapply createTet_fresh.
    + destruct (paused g).
      { simpl in H. eapply draw_fresh; [|exact H]. exact Hf. }
      destruct (currentTet g) as [c|] eqn:Hc.
      * destruct (moveDown g c) as [g1|] eqn:Hm; simpl in H; [|done].
        eapply draw_fresh; [|done]. by eapply moveDown_fresh.
      * simpl in H. eapply draw_fresh; [|exact H]. exact Hf.
  - unfold onMoveTick in H.
    destruct (moveLoops g !! k) as [that|]; simpl in H; [|done].
    destruct (settleRound g) as [[g1 mv]|] eqn:Hs; simpl in H; [|done].
    apply settleWhile_stale in Hs.
    destruct (draw g1) as [g2|] eqn:Hd; simpl in H; [|done].
    apply draw_fresh in Hd; [|by left].
    destruct mv.
    + apply collided_flags in H as (_ & Hu & _). by left.
    + by injection H as <-.
Qed.

Lemma reachable_fresh g : reachable g → cacheFresh g.
Proof.
  induction 1 as [r1 r2 r3 g _ _ _ H|g e g' _ IH _ H].
  - by eapply createTet_fresh.
  - by eapply step_fresh.
Qed.

(** X8.  In every state of a game the [landed] cache is marked out of date
    or is the grid of the landed Tets: [getLanded] never answers from a
    stale cache. *)
Theorem landed_cache_fresh g : reachable g → cacheFresh g.
Proof. apply reachable_fresh. Qed.

Lemma colLoop_forallb sRow pRow cols :
  length sRow = length pRow →
  colLoop sRow pRow cols
  = negb (forallb (λ col, bool_decide (sRow !! col = pRow !! col)) cols).
Proof.
  intros Hl. induction cols as [|col cols IH]; simpl; [done|].
  rewrite Hl, Nat.eqb_refl. simpl.
  destruct (bool_decide (sRow !! col = pRow !! col)); simpl; [exact IH|done].
Qed.

Lemma forallb_lookup_eq (a b : list nat) :
  length a = length b →
  forallb (λ i, bool_decide (a !! i = b !! i)) (seq 0 (length a))
  = bool_decide (a = b).
Proof.
  intros Hl. apply eq_true_iff_eq. rewrite forallb_forall, bool_decide_eq_true.
  split.
  - intros H. apply list_eq. intros i.
    destruct (decide (i < length a)%nat) as [Hi|Hi].
    + specialize (H i). rewrite bool_decide_eq_true in H. apply H.
      apply in_seq. lia.
    + rewrite !lookup_ge_None_2 by lia. done.
  - intros -> i _. by apply bool_decide_eq_true.
Qed.

Lemma colLoop_rowGoes sRow pRow :
  colLoop sRow pRow (seq 0 (length sRow)) = negb (rowGoes sRow pRow).
Proof.
  unfold rowGoes. destruct sRow as [|x sRow]; [done|].
  destruct (decide (length (x :: sRow) = length pRow)) as [Hl|Hl].
  - rewrite colLoop_forallb by done. rewrite forallb_lookup_eq by done.
    by rewrite (bool_decide_eq_false_2 (x :: sRow = [])) by done.
  - rewrite (bool_decide_eq_false_2 (x :: sRow = [])) by done.
    rewrite (bool_decide_eq_false_2 (x :: sRow = pRow)) by congruence.
    simpl. apply Nat.eqb_neq in Hl. simpl in Hl. by rewrite Hl.
Qed.

Lemma rowLoop_true shape pShape rows :
  length shape = length pShape → rowLoop shape pShape rows true = Some true.
Proof.
  intros Hl. destruct rows; simpl; [done|]. by rewrite Hl, Nat.eqb_refl.
Qed.

Lemma rowLoop_shift x y shape pShape rows c :
  length shape = length pShape →
  rowLoop (x :: shape) (y :: pShape) (S <$> rows) c
  = rowLoop shape pShape rows c.
Proof.
  intros Hl. revert c. induction rows as [|row rows IH]; intros c; simpl; [done|].
  rewrite Hl, !Nat.eqb_refl. simpl. destruct c; [done|].
  destruct (shape !! row) as [sRow|]; simpl; [|done].
  destruct (pShape !! row) as [pRow|]; [apply IH|].
  destruct sRow; [apply IH|done].
Qed.

Lemma rowLoop_zip shape : ∀ pShape,
  length shape = length pShape →
  rowLoop shape pShape (seq 0 (length shape)) false
  = Some (negb (forallb (λ rp : list nat * list nat, rowGoes rp.1 rp.2)
                  (zip shape pShape))).
Proof.
  induction shape as [|x shape IH]; intros [|y pShape] Hl; simpl in Hl;
    try done.
  injection Hl as Hl.
  cbn [length seq]. rewrite <- fmap_S_seq.
  cbn [rowLoop]. cbn [length]. rewrite Hl, Nat.eqb_refl.
  cbn [negb lookup list_lookup mbind option_bind].
  rewrite colLoop_rowGoes. cbn [zip zip_with forallb fst snd].
  destruct (rowGoes x y); cbn [negb andb].
  - rewrite rowLoop_shift by done. rewrite <- Hl. by apply IH.
  - apply rowLoop_true. simpl. congruence.
Qed.

Lemma rowLoop_goesWith shape pShape :
  shape ≠ [] →
  rowLoop shape pShape (seq 0 (length shape)) false
  = Some (negb (goesWith shape pShape)).
Proof.
  intros Hne. unfold goesWith. destruct shape as [|x shape]; [done|].
  destruct (decide (length (x :: shape) = length pShape)) as [Hl|Hl].
  - rewrite rowLoop_zip by done. rewrite Hl, Nat.eqb_refl. done.
  - apply Nat.eqb_neq in Hl. rewrite Hl. simpl. simpl in Hl. by rewrite Hl.
Qed.

Lemma periLoop_find shape pm :
  shape ≠ [] →
  periLoop shape pm
  = Some (default [] (snd <$> find (λ e, goesWith shape e.1) pm)).
Proof.
  intros Hne. induction pm as [|[pShape peri] pm IH]; simpl; [done|].
  rewrite rowLoop_goesWith by done. simpl.
  destruct (goesWith shape pShape); simpl; [done|exact IH].
Qed.

Lemma goesWith_eq shape pShape :
  Forall (λ r : list nat, r ≠ []) shape →
  goesWith shape pShape = bool_decide (pShape = shape).
Proof.
  intros Hrows. unfold goesWith.
  apply eq_true_iff_eq. rewrite andb_true_iff, Nat.eqb_eq, bool_decide_eq_true.
  split.
  - intros [Hl Hz]. symmetry.
    revert pShape Hl Hz.
    induction Hrows as [|x shape Hx Hrows IH]; intros [|y pShape] Hl Hz;
      simpl in *; try done.
    apply andb_true_iff in Hz as [Hxy Hz]. unfold rowGoes in Hxy.
    rewrite (bool_decide_eq_false_2 (x = [])) in Hxy by done.
    simpl in Hxy. apply bool_decide_eq_true in Hxy as ->.
    f_equal. apply IH; [lia|done].
  - intros ->. split; [done|]. clear.
    induction shape as [|x shape IH]; simpl; [done|].
    rewrite IH, andb_true_r. unfold rowGoes.
    rewrite (bool_decide_eq_true_2 (x = x)) by done. apply orb_true_r.
Qed.

(** X9.  [getPerimeter] returns for every shape.  For the shape with no row
    it returns the outline of the first entry of its table, the one of
    [[[1]]]: its loop over the rows is not entered, so no entry is
    refused.  For a shape with a row it returns the outline of the first
    entry that has as many rows as the shape and agrees with it on every
    row that is not empty, or [[]] when there is none; for a shape with a
    row and no empty row, this is the entry equal to the shape. *)
Theorem getPerimeter_finds shape :
  getPerimeter [] = Some [[0; 0]; [0; 1]; [1; 1]; [1; 0]]
  ∧ (shape ≠ [] →
     getPerimeter shape
     = Some (default [] (snd <$> find (λ e, goesWith shape e.1) periMatrix)))
  ∧ (shape ≠ [] → Forall (λ r : list nat, r ≠ []) shape →
     getPerimeter shape
     = Some (default []
               (snd <$> find (λ e, bool_decide (e.1 = shape)) periMatrix))).
Proof.
  split; [reflexivity|]. unfold getPerimeter.
  split; [apply periLoop_find|].
  intros Hne Hrows. rewrite periLoop_find by done. do 3 f_equal.
  generalize periMatrix. intros pm.
  induction pm as [|e pm IH]; simpl; [done|].
  rewrite goesWith_eq by done. by rewrite IH.
Qed.

Lemma pivotScan_hits l P pot cs ok :
  gridOf l P → pivotScan l pot cs = Some ok →
  (ok = false ↔ ∃ rc, rc ∈ cs ∧ hitsP P pot rc).
Proof.
  intros [Hl HP]. revert ok.
  induction cs as [|[r c] cs IH]; intros ok H; simpl in H.
  - injection H as <-. split; [done|]. intros (rc & Hin & _).
    by apply elem_of_nil in Hin.
  - destruct (Z.leb_spec BOARD_ROW_NUM (r + row pot)) as [Hr|Hr].
    { injection H as <-. split; [|done]. intros _. exists (r, c).
      split; [left|]. unfold hitsP. simpl. tauto. }
    destruct (landedRow l (r + row pot)) as [lr|] eqn:Hlr; simpl in H; [|done].
    pose proof (HP _ _ Hlr (c + col pot)) as Ht.
    destruct (taken lr (c + col pot)) eqn:Htk.
    { injection H as <-. split; [|done]. intros _. exists (r, c).
      split; [left|]. unfold hitsP. simpl. tauto. }
    destruct (Z.ltb_spec (c + col pot) 0) as [Hc0|Hc0].
    { exfalso. assert (false = true) by (apply Ht; tauto). done. }
    destruct (Z.leb_spec BOARD_COL_NUM (c + col pot)) as [Hc1|Hc1].
    { exfalso. assert (false = true) by (apply Ht; tauto). done. }
    rewrite (IH ok H). split.
    + intros (rc & Hin & Hh). exists rc. rewrite elem_of_cons. tauto.
    + intros (rc & Hin & Hh). apply elem_of_cons in Hin as [->|Hin].
      * unfold hitsP in Hh. simpl in Hh. destruct Hh as [?|Hh]; [lia|].
        assert (false = true) by (by apply Ht). done.
      * exists rc. tauto.
Qed.

Lemma doesNotTetPivotCollide_inv g this t p g' res :
  heap g !! this = Some t → pivot t = Some p →
  doesNotTetPivotCollide g this = Some (g', res) →
  ∃ s, catalog (type t) (nextRotation t) = Some s
    ∧ (res = None ↔
       hitsAt (landedBy g (Some this)) s
         (mkPos (row (topLeft t)) (col (topLeft t) + p)))
    ∧ (∀ peri, res = Some peri → getPerimeter s = Some peri)
    ∧ ∃ l, g' = setTet this (set_pivotMax (Some (pivotMaxOf (type t))) t)
                  (set_updateLanded false (set_landed l g)).
Proof.
  intros Ht Hp H. unfold doesNotTetPivotCollide in H.
  rewrite Ht in H. simpl in H. rewrite Hp in H. simpl in H.
  destruct (getLanded g (Some this)) as [[g1 l]|] eqn:HL; simpl in H; [|done].
  apply getLanded_rebuilt in HL as [Hg ->]; [|left; by eexists].
  simpl in H. rewrite Ht in H. simpl in H. unfold getShapeMatrix in H.
  destruct (catalog (type t) (nextRotation t)) as [s|]; simpl in H; [|done].
  exists s. split; [done|].
  destruct (pivotScan l _ (cells s)) as [ok|] eqn:Hs; simpl in H; [|done].
  apply (pivotScan_hits _ _ _ _ _ Hg) in Hs.
  destruct ok.
  - destruct (getPerimeter s) as [peri|]; simpl in H; [|done].
    injection H as <- <-. split.
    { split; [done|]. intros Hh. by apply Hs in Hh. }
    split; [by intros ? [= <-]|]. by exists l.
  - injection H as <- <-. split.
    { split; [|done]. intros _. by apply Hs. }
    split; [done|]. by exists l.
Qed.

(** X10.  [doesNotTetPivotCollide] returns false exactly when the shape of
    the next rotation, put at [topLeft] moved right by the pivot, has a
    block below row 15, off the columns or on a block of another landed
    Tet; otherwise it returns [getPerimeter] of that shape.  It changes
    only [pivotMax] of the Tet and the [landed] cache. *)
Theorem doesNotTetPivotCollide_iff g this t p g' res :
  heap g !! this = Some t → pivot t = Some p →
  doesNotTetPivotCollide g this = Some (g', res) →
  ∃ s, catalog (type t) (nextRotation t) = Some s
    ∧ (res = None ↔
       hitsAt (landedBy g (Some this)) s
         (mkPos (row (topLeft t)) (col (topLeft t) + p)))
    ∧ (∀ peri, res = Some peri → getPerimeter s = Some peri)
    ∧ ∃ l, g' = setTet this (set_pivotMax (Some (pivotMaxOf (type t))) t)
                  (set_updateLanded false (set_landed l g)).
Proof. apply doesNotTetPivotCollide_inv. Qed.

(** X11.  When [doesNotTetPivotCollide] returned an outline (the shadow of
    the rotation is drawn) and the [rotate] that follows succeeds, the
    rotated Tet is at [topLeft] moved right by the pivot and none of its
    blocks is off the board or on another landed Tet. *)
Theorem shadow_rotation_is_free g this t p g1 peri g2 t2 :
  heap g !! this = Some t → pivot t = Some p →
  doesNotTetPivotCollide g this = Some (g1, Some peri) →
  rotate g1 this = Some (g2, true) →
  heap g2 !! this = Some t2 →
  topLeft t2 = mkPos (row (topLeft t)) (col (topLeft t) + p)
  ∧ ¬ hitsAt (landedBy g (Some this)) (shape t2) (topLeft t2).
Proof.
  intros Ht Hp Hd Hr Ht2.
  destruct (doesNotTetPivotCollide_inv g this t p g1 (Some peri) Ht Hp Hd)
    as (s & Hs & Hres & _ & l & ->).
  assert (heap (setTet this (set_pivotMax (Some (pivotMaxOf (type t))) t)
                  (set_updateLanded false (set_landed l g))) !! this
          = Some (set_pivotMax (Some (pivotMaxOf (type t))) t)) as Ht1.
  { apply (heap_setTet_eq _ _ t). exact Ht. }
  destruct (rotate_inv _ _ _ _ _ Ht1 Hr) as (g3 & s' & (u & l' & ->) & Hs' & -> & _).
  simpl in Hs'. unfold nextRotation in Hs'. simpl in Hs'.
  fold (nextRotation t) in Hs'. rewrite Hs in Hs'. injection Hs' as <-.
  simpl in Ht2. rewrite list_lookup_insert_eq in Ht2
    by (rewrite length_insert; by eapply lookup_lt_Some).
  injection Ht2 as <-. simpl. rewrite Hp. simpl. split; [done|].
  intros Hh. apply Hres in Hh. done.
Qed.

Lemma rowCells_nonneg r c0 cs rc :
  rc ∈ rowCells r c0 cs → rc.1 = r ∧ c0 <= rc.2.
Proof.
  revert c0. induction cs as [|x cs IH]; intros c0 H; simpl in H.
  - by apply elem_of_nil in H.
  - apply elem_of_app in H as [H|H].
    + destruct (Nat.eqb x 0); [by apply elem_of_nil in H|].
      apply list_elem_of_singleton in H as ->. simpl. lia.
    + apply IH in H. lia.
Qed.

Lemma shapeCells_nonneg r0 s rc :
  rc ∈ shapeCells r0 s → r0 <= rc.1 ∧ 0 <= rc.2.
Proof.
  revert r0. induction s as [|rw s IH]; intros r0 H; simpl in H.
  - by apply elem_of_nil in H.
  - apply elem_of_app in H as [H|H].
    + apply rowCells_nonneg in H. lia.
    + apply IH in H. lia.
Qed.

Lemma cells_nonneg s rc : rc ∈ cells s → 0 <= rc.1 ∧ 0 <= rc.2.
Proof. apply shapeCells_nonneg. Qed.

Lemma botScan_is_Some l pot cs :
  length l = 16%nat →
  Forall (λ rc : Z * Z, 0 <= rc.1 + row pot) cs →
  is_Some (botScan l pot cs).
Proof.
  intros Hl. induction 1 as [|[r c] cs Hr _ IH]; simpl; [by eexists|].
  destruct (Z.leb_spec BOARD_ROW_NUM (r + row pot)); [by eexists|].
  destruct (proj2 (landedRow_is_Some l (r + row pot))) as [lr ->].
  { rewrite Hl. unfold BOARD_ROW_NUM in *. simpl in Hr. lia. }
  simpl. destruct (taken lr _); [by eexists|done].
Qed.

Lemma doesTetCollideBot_is_Some g this t pot :
  markable g (Some this) → heap g !! this = Some t →
  0 <= row pot →
  is_Some (doesTetCollideBot g this pot).
Proof.
  intros Hm Ht Hr. unfold doesTetCollideBot.
  destruct (getLanded g (Some this)) as [[g1 l]|] eqn:HL.
  - apply getLanded_rebuilt in HL as [[Hl _] ->]; [|left; by eexists].
    simpl. rewrite Ht. simpl.
    destruct (botScan_is_Some l pot (cells (shape t)) Hl) as [b ->];
      [|by eexists].
    apply Forall_forall. intros rc Hrc. apply cells_nonneg in Hrc. lia.
  - apply getLanded_None_iff in HL as [_ Hn]. done.
Qed.

Lemma hitsAt_floor P s pot :
  cells s ≠ [] → BOARD_ROW_NUM <= row pot → hitsAt P s pot.
Proof.
  intros Hne Hr. destruct (cells s) as [|rc cs] eqn:Hc; [done|].
  exists rc. split; [rewrite Hc; left|]. left.
  assert (rc ∈ cells s) as Hin by (rewrite Hc; left).
  apply cells_nonneg in Hin. lia.
Qed.

Lemma landedBy_cacheEq g g' excl r c :
  cacheEq g g' → landedBy g' excl r c ↔ landedBy g excl r c.
Proof. by intros (u & l & ->). Qed.

Lemma markable_cacheEq g g' excl :
  cacheEq g g' → markable g excl → markable g' excl.
Proof. by intros (u & l & ->). Qed.

Lemma fallOf_unique P s tl k k' : fallOf P s tl k → fallOf P s tl k' → k = k'.
Proof.
  intros [H1 H2] [H1' H2'].
  destruct (Nat.lt_trichotomy k k') as [Hlt|[->|Hlt]]; [|done|].
  - by destruct (H1' k Hlt).
  - by destruct (H1 k' Hlt).
Qed.

Lemma markTets_setTet h cur c t' aT : ∀ l,
  markTets (<[c := t']> h) cur (Some c) aT l = markTets h cur (Some c) aT l.
Proof.
  induction aT as [|i aT IH]; intros l; simpl; [done|].
  destruct (decide (i = c)) as [->|Hne].
  - rewrite Nat.eqb_refl, orb_true_r. apply IH.
  - rewrite list_lookup_insert_ne by done.
    destruct (sameRef i cur || (i =? c)%nat); [apply IH|].
    destruct (h !! i) as [t|]; simpl; [|done].
    destruct (markCells l _ _); simpl; [apply IH|done].
Qed.

Lemma buildLanded_setTet g c t' :
  buildLanded (setTet c t' g) (Some c) = buildLanded g (Some c).
Proof. unfold buildLanded. simpl. apply markTets_setTet. Qed.

Lemma landedBy_setTet_excl g c t' r k :
  landedBy (setTet c t' g) (Some c) r k ↔ landedBy g (Some c) r k.
Proof.
  unfold landedBy. simpl. split.
  - intros (i & ti & Hi & Hn & He & Hh & Ho).
    assert (i ≠ c) as Hne by (intros ->; by rewrite Nat.eqb_refl in He).
    exists i, ti. rewrite list_lookup_insert_ne in Hh by done. done.
  - intros (i & ti & Hi & Hn & He & Hh & Ho).
    assert (i ≠ c) as Hne by (intros ->; by rewrite Nat.eqb_refl in He).
    exists i, ti. rewrite list_lookup_insert_ne by done. done.
Qed.

Lemma doesTetCollideBot_built g c t l pot :
  buildLanded g (Some c) = Some l → heap g !! c = Some t →
  doesTetCollideBot g c pot
  = (b ← botScan l pot (cells (shape t)); Some (cached l g, b)).
Proof.
  intros Hb Ht. unfold doesTetCollideBot, getLanded. simpl.
  change (buildLanded (set_updateLanded true g) (Some c))
    with (buildLanded g (Some c)).
  rewrite Hb. simpl. rewrite Ht. simpl.
  destruct (botScan l pot _); simpl; [|done]. unfold cached. by destruct g.
Qed.

Lemma setTet_id g c t :
  heap g !! c = Some t →
  setTet c (set_topLeft
              (mkPos (row (topLeft t) + Z.of_nat 0) (col (topLeft t))) t) g
  = g.
Proof.
  intros Ht. unfold setTet, set_topLeft. simpl. rewrite Z.add_0_r.
  replace (mkPos (row (topLeft t)) (col (topLeft t))) with (topLeft t)
    by by destruct (topLeft t).
  replace (mkTet (type t) (rotation t) (pivot t) (pivotMax t)
             (topLeft t) (shape t)) with t by by destruct t.
  rewrite list_insert_id by done. by destruct g.
Qed.

Lemma dropLoop_lands g c t g1 fuel :
  newTet g = false → currentTet g = Some c → heap g !! c = Some t →
  doesTetCollideBot g c (mkPos (row (topLeft t) + 1) (col (topLeft t)))
  = Some (g1, true) →
  (1 < fuel)%nat →
  dropLoop fuel g = collided (landingOf g1) c.
Proof.
  intros Hnew Hcur Ht Hd Hf.
  destruct fuel as [|[|fuel]]; [lia|lia|]. cbn [dropLoop].
  rewrite Hnew, Hcur. unfold moveDown. rewrite Ht. simpl.
  rewrite Hd. simpl. fold (landingOf g1).
  destruct (collided (landingOf g1) c) as [g2|] eqn:Hc; simpl; [|done].
  apply collided_flags in Hc as (Hfl & _).
  unfold flags in Hfl. simpl in Hfl. injection Hfl as _ Hn2 _ _ _ _ _.
  by rewrite Hn2.
Qed.

Lemma dropLoop_falls l (n : nat) : ∀ g c t,
  newTet g = false → currentTet g = Some c → heap g !! c = Some t →
  cells (shape t) ≠ [] → buildLanded g (Some c) = Some l →
  0 <= row (topLeft t) →
  BOARD_ROW_NUM <= row (topLeft t) + 1 + Z.of_nat n →
  ∃ k : nat,
    fallOf (landedBy g (Some c)) (shape t) (topLeft t) k
    ∧ (k <= n)%nat
    ∧ ∀ fuel, (k + 1 < fuel)%nat →
        dropLoop fuel g
        = collided
            (landingOf
               (setTet c
                  (set_topLeft
                     (mkPos (row (topLeft t) + Z.of_nat k) (col (topLeft t))) t)
                  (cached l g))) c.
Proof.
  induction n as [|n IH]; intros g c t Hnew Hcur Ht Hne Hb Hr Hn.
  all: pose proof (doesTetCollideBot_built g c t l
      (mkPos (row (topLeft t) + 1) (col (topLeft t))) Hb Ht) as Hd.
  all: destruct (botScan_is_Some l
      (mkPos (row (topLeft t) + 1) (col (topLeft t))) (cells (shape t)))
      as [b Hsome];
    [apply buildLanded_grid in Hb; by destruct Hb
    |apply Forall_forall; intros rc Hrc; apply cells_nonneg in Hrc;
     simpl; lia|].
  all: rewrite Hsome in Hd; simpl in Hd.
  all: pose proof Hd as Hd'.
  all: apply (doesTetCollideBot_inv _ _ _ _ _ _ Ht) in Hd' as [Hiff _].
  all: destruct b.
  1,3: exists 0%nat; split;
    [split; [lia|]; rewrite Z.add_0_r; by apply Hiff|];
    split; [lia|]; intros fuel Hf;
    rewrite (setTet_id (cached l g) c t Ht);
    apply (dropLoop_lands g c t); [done|done|done|done|lia].
  - exfalso.
    assert (hitsAt (landedBy g (Some c)) (shape t)
              (mkPos (row (topLeft t) + 1) (col (topLeft t)))) as Hh.
    { apply hitsAt_floor; [done|simpl; lia]. }
    apply Hiff in Hh. done.
  - set (pot := mkPos (row (topLeft t) + 1) (col (topLeft t))) in *.
    set (t1 := set_topLeft pot t).
    set (g1 := setTet c t1 (cached l g)).
    assert (heap g1 !! c = Some t1) as Ht1.
    { apply (heap_setTet_eq _ _ t). exact Ht. }
    destruct (IH g1 c t1) as (k & [Hlt Hhit] & Hk & Hfuel);
      [done|done|done|done| |simpl; lia|simpl; lia|].
    { unfold g1. rewrite buildLanded_setTet. exact Hb. }
    exists (S k). split; [split|split].
    + intros j Hj Hh. destruct j as [|j].
      { rewrite Z.add_0_r in Hh. apply Hiff in Hh. done. }
      apply (Hlt j); [lia|]. simpl.
      apply (hitsAt_iff (landedBy g (Some c))).
      { intros r k0. unfold g1. by rewrite landedBy_setTet_excl. }
      replace (row (topLeft t) + 1 + 1 + Z.of_nat j)
        with (row (topLeft t) + 1 + Z.of_nat (S j)) by lia. exact Hh.
    + simpl in Hhit.
      apply (hitsAt_iff (landedBy g (Some c))) in Hhit.
      2:{ intros r k0. unfold g1. by rewrite landedBy_setTet_excl. }
      replace (row (topLeft t) + 1 + Z.of_nat (S k))
        with (row (topLeft t) + 1 + 1 + Z.of_nat k) by lia. exact Hhit.
    + lia.
    + intros fuel Hf. destruct fuel as [|fuel]; [lia|]. cbn [dropLoop].
      rewrite Hnew, Hcur. unfold moveDown. rewrite Ht. simpl.
      fold pot. rewrite Hd. simpl. rewrite Ht. simpl.
      fold t1. fold (setTet c t1 (cached l g)). fold g1.
      rewrite Hfuel by lia. f_equal. f_equal.
      unfold g1, setTet, cached, t1, set_topLeft. simpl.
      rewrite list_insert_insert_eq.
      replace (row (topLeft t) + 1 + Z.of_nat k)
        with (row (topLeft t) + Z.of_nat (S k)) by lia. done.
Qed.

Lemma shadowLoop_falls l (n : nat) : ∀ g c t pot,
  heap g !! c = Some t → cells (shape t) ≠ [] →
  buildLanded g (Some c) = Some l → 0 <= row pot →
  BOARD_ROW_NUM <= row pot + Z.of_nat n →
  ∃ k : nat,
    (∀ j : nat, (j < k)%nat →
       ¬ hitsAt (landedBy g (Some c)) (shape t)
           (mkPos (row pot + Z.of_nat j) (col pot)))
    ∧ hitsAt (landedBy g (Some c)) (shape t)
        (mkPos (row pot + Z.of_nat k) (col pot))
    ∧ (k <= n)%nat
    ∧ ∀ fuel,
        ((fuel <= k)%nat → shadowLoop fuel g c pot = None)
        ∧ ((k < fuel)%nat →
           shadowLoop fuel g c pot
           = Some (cached l g, mkPos (row pot + Z.of_nat k) (col pot))).
Proof.
  induction n as [|n IH]; intros g c t pot Ht Hne Hb Hr Hn.
  all: pose proof (doesTetCollideBot_built g c t l pot Hb Ht) as Hd.
  all: destruct (botScan_is_Some l pot (cells (shape t))) as [b Hsome];
    [apply buildLanded_grid in Hb; by destruct Hb
    |apply Forall_forall; intros rc Hrc; apply cells_nonneg in Hrc; lia|].
  all: rewrite Hsome in Hd; simpl in Hd.
  all: pose proof Hd as Hd'.
  all: apply (doesTetCollideBot_inv _ _ _ _ _ _ Ht) in Hd' as [Hiff _].
  all: assert (mkPos (row pot + Z.of_nat 0) (col pot) = pot) as Hpot
    by (destruct pot; simpl; f_equal; lia).
  all: destruct b.
  1,3: exists 0%nat; rewrite Hpot; split; [lia|]; split; [by apply Hiff|];
    split; [lia|]; intros fuel; split;
    [intros Hf; by replace fuel with 0%nat by lia
    |intros Hf; destruct fuel as [|fuel]; [lia|]; simpl; by rewrite Hd].
  - exfalso.
    assert (hitsAt (landedBy g (Some c)) (shape t) pot) as Hh
      by (apply hitsAt_floor; [done|lia]).
    apply Hiff in Hh. done.
  - assert (buildLanded (cached l g) (Some c) = Some l) as Hb1 by exact Hb.
    destruct (IH (cached l g) c t (mkPos (row pot + 1) (col pot)) Ht Hne Hb1
                ltac:(simpl; lia) ltac:(simpl; lia))
      as (k & Hlt & Hhit & Hk & Hfuel).
    simpl in *. exists (S k). split_and!.
    + intros j Hj Hh. destruct j as [|j].
      { rewrite Hpot in Hh. apply Hiff in Hh. done. }
      apply (Hlt j); [lia|].
      replace (row pot + 1 + Z.of_nat j) with (row pot + Z.of_nat (S j))
        by lia. exact Hh.
    + replace (row pot + Z.of_nat (S k)) with (row pot + 1 + Z.of_nat k)
        by lia. exact Hhit.
    + lia.
    + intros fuel. split.
      * intros Hf. destruct fuel as [|fuel]; [done|]. simpl.
        rewrite Hd. simpl. apply Hfuel. lia.
      * intros Hf. destruct fuel as [|fuel]; [lia|]. simpl.
        rewrite Hd. simpl. rewrite (proj2 (Hfuel fuel)) by lia.
        replace (row pot + 1 + Z.of_nat k)
          with (row pot + Z.of_nat (S k)) by lia.
        unfold cached. by destruct g.
Qed.

Lemma shadowLoop_empty l fuel : ∀ g c t pot,
  heap g !! c = Some t → cells (shape t) = [] →
  buildLanded g (Some c) = Some l →
  shadowLoop fuel g c pot = None.
Proof.
  induction fuel as [|fuel IH]; intros g c t pot Ht He Hb; simpl; [done|].
  rewrite (doesTetCollideBot_built g c t l pot Hb Ht), He. simpl.
  by apply (IH (cached l g) c t).
Qed.

Lemma dropLoop_empty l fuel : ∀ g c t,
  newTet g = false → currentTet g = Some c →
  heap g !! c = Some t → cells (shape t) = [] →
  buildLanded g (Some c) = Some l →
  dropLoop fuel g = None.
Proof.
  induction fuel as [|fuel IH]; intros g c t Hn Hc Ht He Hb; simpl; [done|].
  rewrite Hn, Hc. unfold moveDown. rewrite Ht. simpl.
  rewrite (doesTetCollideBot_built g c t l _ Hb Ht), He. simpl.
  rewrite Ht. simpl.
  apply (IH _ c (set_topLeft (mkPos (row (topLeft t) + 1) (col (topLeft t))) t));
    try done.
  - apply (heap_setTet_eq _ _ t). exact Ht.
  - rewrite buildLanded_setTet. exact Hb.
Qed.

(** X12.  The loop of [draw] that looks for the shadow of the current Tet
    stops, for a Tet with a block, after [k + 1] tests, where [k] is the
    number of rows the Tet can go down before a block of it is stopped,
    and the shadow is [k] rows below the Tet; for a Tet without a block
    the loop never stops. *)
Theorem shadow_row g c t l :
  heap g !! c = Some t → buildLanded g (Some c) = Some l →
  0 <= row (topLeft t) →
  (cells (shape t) = [] → ∀ fuel, shadow fuel g c = None)
  ∧ (cells (shape t) ≠ [] →
     ∃ k : nat,
       fallOf (landedBy g (Some c)) (shape t) (topLeft t) k
       ∧ ∀ fuel,
           ((fuel <= k)%nat → shadow fuel g c = None)
           ∧ ((k < fuel)%nat →
              shadow fuel g c
              = Some (cached l g,
                      mkPos (row (topLeft t) + Z.of_nat k) (col (topLeft t))))).
Proof.
  intros Ht Hb Hr. split.
  - intros He fuel. unfold shadow. rewrite Ht. simpl.
    by rewrite (shadowLoop_empty l fuel g c t).
  - intros Hne.
    destruct (shadowLoop_falls l (Z.to_nat (BOARD_ROW_NUM - row (topLeft t)))
                g c t (mkPos (row (topLeft t) + 1) (col (topLeft t)))
                Ht Hne Hb ltac:(simpl; lia) ltac:(simpl; lia))
      as (k & Hlt & Hhit & _ & Hfuel).
    exists k. split; [by split|]. intros fuel. unfold shadow.
    rewrite Ht. simpl. split.
    + intros Hf. by rewrite (proj1 (Hfuel fuel)).
    + intros Hf. rewrite (proj2 (Hfuel fuel)) by done. simpl.
      do 3 f_equal. lia.
Qed.

(** X13.  When the Tet can move, the space bar puts the current Tet where
    [draw] shows its shadow, lands it there with [collided], draws and
    sets the timer; the loop of the handler ends after [k + 1] calls of
    [moveDown]. *)
Theorem space_bar_lands_on_shadow g c t l :
  canTetMove g = true → newTet g = false → currentTet g = Some c →
  heap g !! c = Some t → cells (shape t) ≠ [] →
  buildLanded g (Some c) = Some l → 0 <= row (topLeft t) →
  ∃ (k : nat) p,
    p = mkPos (row (topLeft t) + Z.of_nat k) (col (topLeft t))
    ∧ fallOf (landedBy g (Some c)) (shape t) (topLeft t) k
    ∧ ∀ fuel, (k + 1 < fuel)%nat →
        shadow fuel g c = Some (cached l g, p)
        ∧ onKeySpace fuel g
          = (g1 ← collided
                    (landingOf (setTet c (set_topLeft p t) (cached l g))) c;
             g2 ← draw g1;
             Some (tetDownLoop g2)).
Proof.
  intros Hmv Hn Hc Ht Hne Hb Hr.
  destruct (dropLoop_falls l (Z.to_nat (BOARD_ROW_NUM - row (topLeft t)))
              g c t Hn Hc Ht Hne Hb Hr ltac:(lia))
    as (k & Hfall & _ & Hdrop).
  destruct (shadowLoop_falls l (Z.to_nat (BOARD_ROW_NUM - row (topLeft t)))
              g c t (mkPos (row (topLeft t) + 1) (col (topLeft t)))
              Ht Hne Hb ltac:(simpl; lia) ltac:(simpl; lia))
    as (k' & Hlt & Hhit & _ & Hfuel).
  assert (k' = k) as ->.
  { apply (fallOf_unique (landedBy g (Some c)) (shape t) (topLeft t));
      [by split|done]. }
  exists k, (mkPos (row (topLeft t) + Z.of_nat k) (col (topLeft t))).
  split; [done|]. split; [done|]. intros fuel Hf. split.
  - unfold shadow. rewrite Ht. simpl.
    rewrite (proj2 (Hfuel fuel)) by lia. simpl. do 3 f_equal. lia.
  - unfold onKeySpace. rewrite Hmv. by rewrite Hdrop.
Qed.

(** The space bar on a Tet that has no block left never returns. *)
Lemma space_bar_hangs g c t l fuel :
  canTetMove g = true → newTet g = false → currentTet g = Some c →
  heap g !! c = Some t → cells (shape t) = [] →
  buildLanded g (Some c) = Some l →
  onKeySpace fuel g = None.
Proof.
  intros Hmv Hn Hc Ht He Hb. unfold onKeySpace. rewrite Hmv.
  by rewrite (dropLoop_empty l fuel g c t).
Qed.

Lemma isDraw_cases r :
  isDraw r → r = 0 ∨ r = 1 ∨ r = 2 ∨ r = 3 ∨ r = 4 ∨ r = 5 ∨ r = 6.
Proof. unfold isDraw. lia. Qed.

Lemma catalog_draw ty :
  isDraw ty → ∃ s, catalog ty 0 = Some s
    ∧ botScan emptyLanded (mkPos 0 4) (cells s) = Some false
    ∧ botScan emptyLanded (mkPos 1 4) (cells s) = Some false.
Proof.
  intros H. apply isDraw_cases in H.
  destruct H as [->|[->|[->|[->|[->|[->| ->]]]]]];
    eexists; (split; [reflexivity|]); split; vm_compute; reflexivity.
Qed.

Lemma Tet_new_fresh ty rnd ty' :
  ty' = match ty with
        | Some t => if negb (t =? 0) && (-1 <=? t) && (t <? 7) then t else rnd
        | None => rnd
        end →
  ∀ s, catalog ty' 0 = Some s → Tet_new ty rnd = Some (freshTet ty' s).
Proof.
  intros -> s Hs. unfold Tet_new, getShapeMatrix. simpl.
  rewrite Hs. done.
Qed.

Lemma firstType_draw r1 r2 : isDraw r1 → isDraw r2 → isDraw (firstType r1 r2).
Proof.
  intros H1 H2. apply isDraw_cases in H1.
  destruct H1 as [->|[->|[->|[->|[->|[->| ->]]]]]]; unfold firstType; simpl;
    try done; unfold isDraw; lia.
Qed.

Lemma Tet_new_first r1 r2 s :
  isDraw r1 → catalog (firstType r1 r2) 0 = Some s →
  Tet_new (Some (if (r1 =? 4) || (r1 =? 6) then r1 - 1 else r1)) r2
  = Some (freshTet (firstType r1 r2) s).
Proof.
  intros H1 Hs. apply Tet_new_fresh; [|done].
  apply isDraw_cases in H1.
  destruct H1 as [->|[->|[->|[->|[->|[->| ->]]]]]]; done.
Qed.

Lemma buildLanded_none g excl :
  allTets g = [] → buildLanded g excl = Some emptyLanded.
Proof. unfold buildLanded. intros ->. reflexivity. Qed.

Lemma buildLanded_self g c excl :
  allTets g = [c] → currentTet g = Some c →
  buildLanded g excl = Some emptyLanded.
Proof.
  unfold buildLanded. intros -> ->. cbn [markTets sameRef].
  rewrite Nat.eqb_refl. reflexivity.
Qed.

Lemma spawn_start g r1 r2 r3 s1 s3 :
  isDraw r1 →
  catalog (firstType r1 r2) 0 = Some s1 → catalog r3 0 = Some s3 →
  nextTet g = None → newTet g = true → currentTet g = None →
  spawn g r1 r2 r3
  = Some (mkGame
            (heap g ++ [freshTet (firstType r1 r2) s1; freshTet r3 s3])
            (devModeOn g) false (Some (length (heap g)))
            (Some (S (length (heap g)))) (updateLanded g) (allTets g)
            (tetsToRemove g) (score g) (gameOver g) (landed g)
            (paused g) (loop g) (moveLoops g)).
Proof.
  intros H1 Hs1 Hs3 Hn Hnew Hc. unfold spawn. rewrite Hn.
  rewrite (Tet_new_first r1 r2 s1 H1 Hs1). simpl. rewrite Hnew.
  rewrite (Tet_new_fresh None r3 r3 eq_refl s3 Hs3). simpl.
  rewrite <- app_assoc, length_app. simpl. by rewrite Nat.add_1_r.
Qed.

Lemma draw_built g n c t l b :
  nextTet g = Some n → newTet g = false → currentTet g = Some c →
  heap g !! c = Some t → buildLanded g (Some c) = Some l →
  botScan l (mkPos (row (topLeft t) + 1) (col (topLeft t))) (cells (shape t))
  = Some b →
  draw g = Some (cached l g).
Proof.
  intros Hn Hnew Hc Ht Hb Hs. unfold draw. rewrite Hn, Hnew, Hc, Ht.
  cbn [mbind option_bind].
  rewrite (doesTetCollideBot_built g c t l _ Hb Ht), Hs. done.
Qed.

(** [createTet] at the start of a game: no Tet on the board, none next. *)
Lemma createTet_start g r1 r2 r3 :
  isDraw r1 → isDraw r2 → isDraw r3 →
  allTets g = [] → nextTet g = None → newTet g = true → currentTet g = None →
  ∃ s1 s3,
    catalog (firstType r1 r2) 0 = Some s1 ∧ catalog r3 0 = Some s3
    ∧ createTet g r1 r2 r3
      = Some (mkGame
                (heap g ++ [freshTet (firstType r1 r2) s1; freshTet r3 s3])
                (devModeOn g) false (Some (length (heap g)))
                (Some (S (length (heap g)))) false [length (heap g)]
                (tetsToRemove g) (score g) (gameOver g) emptyLanded
                (paused g) (loop g) (moveLoops g)).
Proof.
  intros H1 H2 H3 Ha Hn Hnew Hc.
  destruct (catalog_draw _ (firstType_draw r1 r2 H1 H2)) as (s1 & Hs1 & Hb1 & Hb1').
  destruct (catalog_draw _ H3) as (s3 & Hs3 & _).
  exists s1, s3. split; [done|]. split; [done|].
  unfold createTet.
  rewrite (spawn_start g r1 r2 r3 s1 s3 H1 Hs1 Hs3 Hn Hnew Hc).
  set (h := heap g ++ [freshTet (firstType r1 r2) s1; freshTet r3 s3]).
  assert (h !! length (heap g) = Some (freshTet (firstType r1 r2) s1)) as Hl.
  { unfold h. rewrite lookup_app_r by lia. by rewrite Nat.sub_diag. }
  cbn [mbind option_bind currentTet heap]. rewrite Hl.
  cbn [mbind option_bind].
  erewrite doesTetCollideBot_built; [|apply buildLanded_none; exact Ha|exact Hl].
  change (topLeft (freshTet (firstType r1 r2) s1)) with (mkPos 0 4).
  change (shape (freshTet (firstType r1 r2) s1)) with s1.
  rewrite Hb1. cbn [mbind option_bind].
  erewrite (draw_built _ (S (length (heap g))) (length (heap g)) _ emptyLanded);
    [|reflexivity|reflexivity|reflexivity|exact Hl| |exact Hb1'].
  - unfold cached, set_allTets, set_updateLanded, set_landed.
    cbn [heap devModeOn newTet currentTet nextTet updateLanded allTets
         tetsToRemove score gameOver landed paused loop moveLoops].
    by rewrite Ha.
  - apply (buildLanded_self _ (length (heap g))); [|reflexivity].
    cbn [allTets set_allTets cached set_updateLanded set_landed].
    by rewrite Ha.
Qed.

(** The fields of a new game after its [createTet]. *)
Lemma Game_new_state devMode r1 r2 r3 :
  isDraw r1 → isDraw r2 → isDraw r3 →
  ∃ s1 s3,
    catalog (firstType r1 r2) 0 = Some s1 ∧ catalog r3 0 = Some s3
    ∧ Game_new devMode r1 r2 r3
      = Some (mkGame [freshTet (firstType r1 r2) s1; freshTet r3 s3]
                devMode false (Some 0%nat) (Some 1%nat) false [0%nat] [] 0%R
                false emptyLanded true false []).
Proof.
  intros H1 H2 H3.
  destruct (createTet_start (newGame devMode) r1 r2 r3 H1 H2 H3)
    as (s1 & s3 & Hs1 & Hs3 & Hc); try done.
  exists s1, s3. split; [done|]. split; [done|]. exact Hc.
Qed.

(** X15.  The reset key always gives a fresh game: [allTets] holds the new
    current Tet only, the score is 0, the game is paused and not over, the
    timer [loop] is cleared.  The timers of a falling animation of the old
    game are not cleared. *)
Theorem onKeyR_restarts g r1 r2 r3 :
  isDraw r1 → isDraw r2 → isDraw r3 →
  ∃ s1 s3,
    catalog (firstType r1 r2) 0 = Some s1 ∧ catalog r3 0 = Some s3
    ∧ onKeyR g r1 r2 r3
      = Some (mkGame
                (heap g ++ [freshTet (firstType r1 r2) s1; freshTet r3 s3])
                (devModeOn g) false (Some (length (heap g)))
                (Some (S (length (heap g)))) false [length (heap g)]
                (tetsToRemove g) 0%R false emptyLanded true false
                (moveLoops g)).
Proof.
  intros H1 H2 H3. unfold onKeyR.
  destruct (createTet_start
              (set_score 0
                 (set_paused true
                    (set_nextTet None
                       (set_newTet true
                          (set_gameOver false
                             (set_currentTet None
                                (set_loop false (set_allTets [] g))))))))
              r1 r2 r3 H1 H2 H3)
    as (s1 & s3 & Hs1 & Hs3 & Hc); try done.
  exists s1, s3. split; [done|]. split; [done|]. exact Hc.
Qed.

Lemma cacheEq_gameOver g g' : cacheEq g g' → gameOver g' = gameOver g.
Proof. by intros (u & l & ->). Qed.

(** X16.  [p] in a running game pauses it: only [paused], the timer [loop]
    and the [landed] cache change, the arrow keys then leave the state as
    it is and the timer cannot fire; [p] again gives the state before the
    pause with the timer set, up to the [landed] cache. *)
Theorem pause_resume g g1 :
  devModeOn g = false → gameOver g = false → paused g = false →
  onKeyP g = Some g1 →
  cacheEq (set_paused true (set_loop false g)) g1
  ∧ step g1 KeyUp = Some g1 ∧ step g1 KeyLeft = Some g1
  ∧ step g1 KeyRight = Some g1 ∧ step g1 KeyDown = Some g1
  ∧ (∀ r1 r2 r3, step g1 (Tick r1 r2 r3) = None)
  ∧ ∀ g2, onKeyP g1 = Some g2 → cacheEq (set_loop true g) g2.
Proof.
  intros Hdev Hover Hp H. unfold onKeyP in H. rewrite Hover, Hp in H.
  simpl in H. apply draw_cacheEq in H as (u & l & ->).
  split; [by eexists _, _|].
  assert (canTetMove (set_updateLanded u (set_landed l
            (set_paused true (set_loop false g)))) = false) as Hmv.
  { unfold canTetMove. simpl. rewrite Hdev. by rewrite andb_false_r. }
  cbn [step]. unfold onKeyUp, onKeyLeft, onKeyRight, onKeyDown, onTick.
  rewrite Hmv. do 4 (split; [done|]). split; [by intros; simpl|].
  intros g2 H2. unfold onKeyP in H2. simpl in H2. rewrite Hover in H2.
  simpl in H2. apply draw_cacheEq in H2 as (u' & l' & ->).
  exists u', l'. destruct g. simpl in *. by subst.
Qed.

(** X17.  While the game is not over, leaving the window pauses the game and
    clears the timer; coming back resumes it, with the timer set, exactly
    when it was not paused before, and leaves it paused otherwise. *)
Theorem blur_focus w w1 w2 :
  gameOver (game w) = false →
  onBlur w = Some w1 → onFocus w1 = Some w2 →
  cacheEq (set_paused true (set_loop false (game w))) (game w1)
  ∧ cacheEq (if paused (game w) then set_loop false (game w)
             else set_loop true (game w)) (game w2).
Proof.
  intros Hover H1 H2. unfold onBlur in H1. rewrite Hover in H1. simpl in H1.
  destruct (draw _) as [g1|] eqn:Hd; simpl in H1; [|done].
  injection H1 as <-. apply draw_cacheEq in Hd as (u & l & ->).
  split; [by eexists _, _|].
  unfold onFocus in H2. simpl in H2. rewrite Hover in H2.
  destruct (paused (game w)) eqn:Hp; simpl in H2.
  - injection H2 as <-. simpl. exists u, l. destruct (game w). simpl in *.
    by subst.
  - destruct (draw _) as [g2|] eqn:Hd2; simpl in H2; [|done].
    injection H2 as <-. apply draw_cacheEq in Hd2 as (u' & l' & ->).
    simpl. exists u', l'. destruct (game w). simpl in *. by subst.
Qed.

Lemma insertScore_cases score hs :
  StronglySorted Rge hs →
  (insertScore score hs = hs ∧ Forall (λ x, (x >= score)%R) hs)
  ∨ (length (insertScore score hs) = S (length hs)
     ∧ Permutation (score :: hs) (insertScore score hs)
     ∧ StronglySorted Rge (insertScore score hs)).
Proof.
  induction 1 as [|x hs Hs IH Hx]; simpl; [left; done|].
  destruct (Rgt_dec score x) as [Hgt|Hle].
  - right. split; [done|]. split; [done|].
    constructor; [by constructor|]. constructor; [lra|].
    eapply Forall_impl; [exact Hx|]. simpl. intros y Hy. lra.
  - destruct IH as [[-> Hall]|(Hlen & Hperm & Hsort)].
    + left. split; [done|]. constructor; [lra|done].
    + right. split; [simpl; lia|]. split.
      * rewrite <- Hperm. apply perm_swap.
      * constructor; [done|].
        rewrite <- Hperm. constructor; [lra|done].
Qed.

Lemma StronglySorted_snoc (hs : list R) d :
  StronglySorted Rge hs → Forall (λ x, (x >= d)%R) hs →
  StronglySorted Rge (hs ++ [d]).
Proof.
  induction 1 as [|x hs Hs IH Hx]; intros Hd; simpl.
  - constructor; [constructor|constructor].
  - apply Forall_cons in Hd as [Hxd Hd]. constructor; [by apply IH|].
    apply Forall_app. split; [done|]. by constructor.
Qed.

(** X18.  With a cookie of high scores in decreasing order, [checkHighScore]
    stores a list of the same length: the old list with the score put in
    its place and the lowest entry dropped; [updateScore] is cleared. *)
Theorem checkHighScore_top score s hs :
  updateScore s = true → cookie s = Some hs → StronglySorted Rge hs →
  ∃ hs' d,
    checkHighScore score s = (hs', mkScores (Some hs') false)
    ∧ length hs' = length hs
    ∧ Permutation (score :: hs) (hs' ++ [d])
    ∧ StronglySorted Rge (hs' ++ [d]).
Proof.
  intros Hu Hc Hs. unfold checkHighScore, getHighScores. rewrite Hc, Hu.
  destruct (insertScore_cases score hs Hs) as [[-> Hall]|(Hlen & Hperm & Hsort)].
  - rewrite Nat.ltb_irrefl. exists hs, score. split; [done|]. split; [done|].
    split; [apply Permutation_cons_append|by apply StronglySorted_snoc].
  - rewrite Hlen. rewrite (proj2 (Nat.ltb_lt _ _)) by lia.
    assert (insertScore score hs ≠ []) as Hne
      by (intros He; by rewrite He in Hlen).
    destruct (exists_last Hne) as (hs' & d & Heq).
    rewrite Heq, removelast_last. exists hs', d. split; [done|].
    rewrite Heq in Hlen, Hperm, Hsort. rewrite length_app in Hlen.
    simpl in Hlen. split; [lia|]. done.
Qed.

(** X19.  Without a cookie, [getHighScores] makes the list of the score and
    nine zeros, and [checkHighScore] puts the score in again: a positive
    score is twice in the list of ten that is stored. *)
Theorem checkHighScore_no_cookie score s :
  updateScore s = true → cookie s = None →
  ∃ hs, checkHighScore score s = (hs, mkScores (Some hs) false)
    ∧ hs = if Rgt_dec score 0 then score :: score :: replicate 8 0%R
           else score :: replicate 9 0%R.
Proof.
  intros Hu Hc. unfold checkHighScore, getHighScores. rewrite Hc. simpl.
  rewrite Hu. simpl.
  destruct (Rgt_dec score score) as [?|_]; [lra|].
  destruct (Rgt_dec score 0) as [Hgt|Hle]; simpl; eexists; split; done.
Qed.

(** X20.  [checkHighScore] again, with any score, returns the same list and
    leaves the cookie and [updateScore] as they are. *)
Theorem checkHighScore_again score score' s :
  checkHighScore score' (checkHighScore score s).2 = checkHighScore score s.
Proof.
  unfold checkHighScore, getHighScores.
  destruct s as [[hs|] []]; simpl; try done.
Qed.

Lemma cacheFresh_built g :
  buildLanded g None = Some (landed g) → cacheFresh g.
Proof. intros H. right. by apply buildLanded_grid. Qed.

Lemma busyGame_play : play 1 0 1 clearPrefix = Some busyGame.
Proof. vm_compute. reflexivity. Qed.

Lemma getLanded_grid_witness :
  length busyGrid = 16%nat
  ∧ cached busyGrid busyGame
    = set_updateLanded false (set_landed busyGrid busyGame)
  ∧ ∃ lr, landedRow busyGrid 14 = Some lr
      ∧ ∀ c, taken lr c = true
             ↔ (c < 0 ∨ BOARD_COL_NUM <= c
                ∨ landedBy busyGame (Some 3%nat) 14 c).
Proof.
  apply (getLanded_grid busyGame (Some 3%nat) (cached busyGrid busyGame)
           busyGrid 14).
  - left. by eexists.
  - vm_compute. reflexivity.
  - unfold BOARD_ROW_NUM. lia.
Defined.

Lemma doesTetCollideBot_hits_witness :
  (true = true
   ↔ hitsAt (landedBy busyGame (Some 3%nat)) (shape busyTet) (mkPos 13 6))
  ∧ ∃ l, cached busyGrid busyGame
         = set_updateLanded false (set_landed l busyGame).
Proof.
  apply (doesTetCollideBot_hits busyGame 3 busyTet (mkPos 13 6)
           (cached busyGrid busyGame) true).
  - reflexivity.
  - vm_compute. reflexivity.
Defined.

Lemma moveRight_moves_witness :
  let pot := mkPos (row (topLeft wallTet)) (col (topLeft wallTet) + 1) in
  ∃ g1 t', cacheEq wallGame g1 ∧ wallRight = setTet 0 t' g1
    ∧ (hitsAt (landedBy wallGame None) (shape wallTet) pot →
       topLeft t' = topLeft wallTet ∧ shape t' = shape wallTet)
    ∧ (¬ hitsAt (landedBy wallGame None) (shape wallTet) pot →
       t' = set_topLeft pot wallTet).
Proof.
  apply (moveRight_moves wallGame 0 wallTet wallRight).
  - apply cacheFresh_built. vm_compute. reflexivity.
  - reflexivity.
  - vm_compute. reflexivity.
Defined.

Lemma moveLeft_moves_witness :
  let pot := mkPos (row (topLeft wallTet)) (col (topLeft wallTet) - 1) in
  ∃ g1 t', cacheEq wallGame g1 ∧ wallLeft = setTet 0 t' g1
    ∧ (hitsAt (landedBy wallGame None) (shape wallTet) pot →
       topLeft t' = topLeft wallTet ∧ shape t' = shape wallTet)
    ∧ (¬ hitsAt (landedBy wallGame None) (shape wallTet) pot →
       t' = set_topLeft pot (set_pivot (Some 0) wallTet)).
Proof.
  apply (moveLeft_moves wallGame 0 wallTet wallLeft).
  - apply cacheFresh_built. vm_compute. reflexivity.
  - reflexivity.
  - vm_compute. reflexivity.
Defined.

Lemma moveDown_moves_witness :
  let pot := mkPos (row (topLeft wallTet) + 1) (col (topLeft wallTet)) in
  (¬ hitsAt (landedBy wallGame (Some 0%nat)) (shape wallTet) pot →
     ∃ l, wallDown = setTet 0 (set_topLeft pot wallTet)
                       (set_updateLanded false (set_landed l wallGame)))
  ∧ (hitsAt (landedBy wallGame (Some 0%nat)) (shape wallTet) pot →
     newTet wallDown = true ∧ currentTet wallDown = None
     ∧ updateLanded wallDown = true
     ∧ nextTet wallDown = nextTet wallGame
     ∧ gameOver wallDown = gameOver wallGame
     ∧ paused wallDown = paused wallGame ∧ loop wallDown = loop wallGame).
Proof.
  apply (moveDown_moves wallGame 0 wallTet wallDown).
  - reflexivity.
  - vm_compute. reflexivity.
Defined.

Lemma rotate_iff_witness :
  ∃ s, catalog (type wallTet) (nextRotation wallTet) = Some s
    ∧ (true = true ↔ ¬ hitsAt (landedBy wallGame None) s (topLeft wallTet)).
Proof.
  apply (rotate_iff wallGame 0 wallTet wallRotated true).
  - apply cacheFresh_built. vm_compute. reflexivity.
  - reflexivity.
  - vm_compute. reflexivity.
Defined.

Lemma landed_cache_fresh_witness : cacheFresh busyGame.
Proof.
  apply (landed_cache_fresh busyGame).
  apply (play_reachable 1 0 1 clearPrefix);
    [unfold isDraw; lia..| |exact busyGame_play].
  unfold clearPrefix. repeat (apply Forall_app; split);
    try (apply Forall_forall; intros e He;
         apply elem_of_replicate in He as [-> _]; exact I);
    repeat constructor; unfold isDraw; lia.
Defined.

Lemma doesNotTetPivotCollide_iff_witness :
  ∃ s, catalog (type kickTet) (nextRotation kickTet) = Some s
    ∧ (Some kickPeri = None ↔
       hitsAt (landedBy kickGame (Some 0%nat)) s
         (mkPos (row (topLeft kickTet)) (col (topLeft kickTet) + 3)))
    ∧ (∀ peri, Some kickPeri = Some peri → getPerimeter s = Some peri)
    ∧ ∃ l, kickShadowed
           = setTet 0 (set_pivotMax (Some (pivotMaxOf (type kickTet))) kickTet)
               (set_updateLanded false (set_landed l kickGame)).
Proof.
  apply (doesNotTetPivotCollide_iff kickGame 0 kickTet 3 kickShadowed
           (Some kickPeri)).
  - reflexivity.
  - reflexivity.
  - vm_compute. reflexivity.
Defined.

Lemma shadow_rotation_is_free_witness :
  topLeft kickTurned
  = mkPos (row (topLeft kickTet)) (col (topLeft kickTet) + 3)
  ∧ ¬ hitsAt (landedBy kickGame (Some 0%nat)) (shape kickTurned)
        (topLeft kickTurned).
Proof.
  apply (shadow_rotation_is_free kickGame 0 kickTet 3 kickShadowed kickPeri
           kickRotated kickTurned).
  - reflexivity.
  - reflexivity.
  - vm_compute. reflexivity.
  - vm_compute. reflexivity.
  - reflexivity.
Defined.

Lemma shadow_row_witness :
  (cells (shape oTet) = [] → ∀ fuel, shadow fuel oGame 0 = None)
  ∧ (cells (shape oTet) ≠ [] →
     ∃ k : nat,
       fallOf (landedBy oGame (Some 0%nat)) (shape oTet) (topLeft oTet) k
       ∧ ∀ fuel,
           ((fuel <= k)%nat → shadow fuel oGame 0 = None)
           ∧ ((k < fuel)%nat →
              shadow fuel oGame 0
              = Some (cached emptyLanded oGame,
                      mkPos (row (topLeft oTet) + Z.of_nat k)
                        (col (topLeft oTet))))).
Proof.
  apply (shadow_row oGame 0 oTet emptyLanded).
  - reflexivity.
  - vm_compute. reflexivity.
  - simpl. lia.
Defined.

Lemma space_bar_lands_on_shadow_witness :
  ∃ (k : nat) p,
    p = mkPos (row (topLeft oTet) + Z.of_nat k) (col (topLeft oTet))
    ∧ fallOf (landedBy oGame (Some 0%nat)) (shape oTet) (topLeft oTet) k
    ∧ ∀ fuel, (k + 1 < fuel)%nat →
        shadow fuel oGame 0 = Some (cached emptyLanded oGame, p)
        ∧ onKeySpace fuel oGame
          = (g1 ← collided
                    (landingOf (setTet 0 (set_topLeft p oTet)
                                  (cached emptyLanded oGame))) 0;
             g2 ← draw g1;
             Some (tetDownLoop g2)).
Proof.
  apply (space_bar_lands_on_shadow oGame 0 oTet emptyLanded).
  - reflexivity.
  - reflexivity.
  - reflexivity.
  - reflexivity.
  - discriminate.
  - vm_compute. reflexivity.
  - simpl. lia.
Defined.

Lemma onKeyR_restarts_witness :
  ∃ s1 s3,
    catalog (firstType 4 0) 0 = Some s1 ∧ catalog 2 0 = Some s3
    ∧ onKeyR settledGame 4 0 2
      = Some (mkGame
                (heap settledGame
                 ++ [freshTet (firstType 4 0) s1; freshTet 2 s3])
                (devModeOn settledGame) false
                (Some (length (heap settledGame)))
                (Some (S (length (heap settledGame)))) false
                [length (heap settledGame)]
                (tetsToRemove settledGame) 0%R false emptyLanded true false
                (moveLoops settledGame)).
Proof.
  apply (onKeyR_restarts settledGame 4 0 2); unfold isDraw; lia.
Defined.

Lemma pause_resume_witness :
  cacheEq (set_paused true (set_loop false oGame)) oPaused
  ∧ step oPaused KeyUp = Some oPaused ∧ step oPaused KeyLeft = Some oPaused
  ∧ step oPaused KeyRight = Some oPaused ∧ step oPaused KeyDown = Some oPaused
  ∧ (∀ r1 r2 r3, step oPaused (Tick r1 r2 r3) = None)
  ∧ ∀ g2, onKeyP oPaused = Some g2 → cacheEq (set_loop true oGame) g2.
Proof.
  apply (pause_resume oGame oPaused).
  - reflexivity.
  - reflexivity.
  - reflexivity.
  - vm_compute. reflexivity.
Defined.

Lemma blur_focus_witness :
  cacheEq (set_paused true (set_loop false (game (Window_new oGame))))
    (game oBlurred)
  ∧ cacheEq (if paused (game (Window_new oGame))
             then set_loop false (game (Window_new oGame))
             else set_loop true (game (Window_new oGame))) (game oFocused).
Proof.
  apply (blur_focus (Window_new oGame) oBlurred oFocused).
  - reflexivity.
  - vm_compute. reflexivity.
  - vm_compute. reflexivity.
Defined.

Lemma checkHighScore_top_witness :
  ∃ hs' d,
    checkHighScore 5 (mkScores (Some [9; 4; 0]%R) true)
    = (hs', mkScores (Some hs') false)
    ∧ length hs' = length [9; 4; 0]%R
    ∧ Permutation (5%R :: [9; 4; 0]%R) (hs' ++ [d])
    ∧ StronglySorted Rge (hs' ++ [d]).
Proof.
  apply (checkHighScore_top 5 (mkScores (Some [9; 4; 0]%R) true) [9; 4; 0]%R).
  - reflexivity.
  - reflexivity.
  - repeat constructor; lra.
Defined.

Lemma checkHighScore_no_cookie_witness :
  ∃ hs, checkHighScore 10000 (mkScores None true)
        = (hs, mkScores (Some hs) false)
    ∧ hs = if Rgt_dec 10000 0 then 10000%R :: 10000%R :: replicate 8 0%R
           else 10000%R :: replicate 9 0%R.
Proof.
  apply (checkHighScore_no_cookie 10000 (mkScores None true)); reflexivity.
Defined.

(** X14.  On a page where the canvas id names a canvas or nothing, and the
    cookie of the high scores is absent, a list of numbers or a text that
    [JSON.parse] refuses, [new Game] throws before [createTet] exactly
    when the canvas is missing or the cookie is refused.  With the canvas
    there and the cookie absent or a list of numbers it returns, with two Tets: the current one, of the type of the
    first draw (4 and 6 turned into 3 and 5, and 0 drawn again), and the
    next one, both at row 0 and column 4 in rotation 0.  [allTets] holds
    the current Tet, the score is 0, the game is paused and not over, no
    timer is set, and an absent cookie is now the list of ten zeros. *)
Theorem Game_new_starts p devMode r1 r2 r3 :
  isDraw r1 → isDraw r2 → isDraw r3 →
  (Game_constructor p devMode r1 r2 r3 = None
   ↔ canvasFound p = false ∨ highScores p = BadCookie)
  ∧ (canvasFound p = true → highScores p ≠ BadCookie →
     ∃ s1 s3,
       catalog (firstType r1 r2) 0 = Some s1 ∧ catalog r3 0 = Some s3
       ∧ Game_constructor p devMode r1 r2 r3
         = Some (mkWindow
                   (mkGame [freshTet (firstType r1 r2) s1; freshTet r3 s3]
                      devMode false (Some 0%nat) (Some 1%nat) false [0%nat]
                      [] 0%R false emptyLanded true false [])
                   true,
                 mkScores
                   (Some match highScores p with
                         | ListCookie hs => hs
                         | _ => replicate 10 0%R
                         end)
                   true)).
Proof.
  intros H1 H2 H3.
  destruct (Game_new_state devMode r1 r2 r3 H1 H2 H3)
    as (s1 & s3 & Hs1 & Hs3 & Hg).
  unfold Game_constructor. rewrite Hg.
  destruct p as [[|] [| |hs]]; simpl.
  - split; [split; [done|by intros [?|?]]|].
    intros _ _. by exists s1, s3.
  - split; [split; [by right|done]|]. by intros _ ?.
  - split; [split; [done|by intros [?|?]]|].
    intros _ _. by exists s1, s3.
  - split; [split; [by left|done]|]. by intros ?.
  - split; [split; [by left|done]|]. by intros ?.
  - split; [split; [by left|done]|]. by intros ?.
Qed.

Lemma Game_new_starts_witness :
  (Game_constructor (mkPage true NoCookie) false 0 6 3 = None
   ↔ canvasFound (mkPage true NoCookie) = false
     ∨ highScores (mkPage true NoCookie) = BadCookie)
  ∧ (canvasFound (mkPage true NoCookie) = true →
     highScores (mkPage true NoCookie) ≠ BadCookie →
     ∃ s1 s3,
       catalog (firstType 0 6) 0 = Some s1 ∧ catalog 3 0 = Some s3
       ∧ Game_constructor (mkPage true NoCookie) false 0 6 3
         = Some (mkWindow
                   (mkGame [freshTet (firstType 0 6) s1; freshTet 3 s3]
                      false false (Some 0%nat) (Some 1%nat) false [0%nat]
                      [] 0%R false emptyLanded true false [])
                   true,
                 mkScores
                   (Some match highScores (mkPage true NoCookie) with
                         | ListCookie hs => hs
                         | _ => replicate 10 0%R
                         end)
                   true)).
Proof.
  apply (Game_new_starts (mkPage true NoCookie) false 0 6 3);
    unfold isDraw; lia.
Defined.

Lemma allMasks_complete m : m ∈ allMasks (length m).
Proof.
  induction m as [|b m IH]; simpl; [by left|].
  apply elem_of_app. destruct b; [left|right]; by apply list_elem_of_fmap_2.
Qed.

Lemma maskRows_length m s : length m = length s → length (maskRows m s) = length s.
Proof. intros H. unfold maskRows. rewrite length_zip_with. lia. Qed.

Lemma maskRows_none s : maskRows (replicate (length s) false) s = s.
Proof. induction s as [|rw s IH]; simpl; [done|]. by rewrite IH. Qed.

Lemma alter_maskRows m : ∀ s (i : nat),
  length m = length s → (i < length s)%nat →
  alter (fmap (λ _ : nat, 0%nat)) i (maskRows m s)
  = maskRows (<[i := true]> m) s.
Proof.
  induction m as [|b m IH]; intros [|rw s] i Hl Hi; simpl in *; try lia.
  destruct i as [|i]; simpl.
  - f_equal. destruct b; [|done]. rewrite <- list_fmap_compose. done.
  - f_equal. apply IH; lia.
Qed.

Lemma zeroRowAt_mask m s tlRow fr :
  length m = length s →
  ∃ m', length m' = length s
        ∧ zeroRowAt (maskRows m s) tlRow fr = maskRows m' s.
Proof.
  intros Hl. unfold zeroRowAt. rewrite maskRows_length by done.
  destruct (_ || _) eqn:Hr; [by exists m|].
  apply orb_false_iff in Hr as [Hr1 Hr2].
  apply Z.ltb_ge in Hr1, Hr2.
  exists (<[Z.to_nat (fr - tlRow) := true]> m). split.
  - by rewrite length_insert.
  - apply alter_maskRows; [done|lia].
Qed.

Lemma zeroedShape_mask t fullRows :
  ∃ m, length m = length (shape t)
       ∧ zeroedShape t fullRows = maskRows m (shape t).
Proof.
  unfold zeroedShape.
  assert (∀ m, length m = length (shape t) →
            ∃ m', length m' = length (shape t)
              ∧ foldl (λ s fr, zeroRowAt s (row (topLeft t)) fr)
                  (maskRows m (shape t)) fullRows = maskRows m' (shape t)) as H.
  { induction fullRows as [|fr fullRows IH]; intros m Hm; simpl.
    - by exists m.
    - destruct (zeroRowAt_mask m (shape t) (row (topLeft t)) fr Hm)
        as (m1 & Hm1 & ->). by apply IH. }
  destruct (H (replicate (length (shape t)) false)) as (m & Hm & Heq).
  { by rewrite length_replicate. }
  rewrite maskRows_none in Heq. by exists m.
Qed.

Lemma splitRows_fst rows : ∀ tl0 tl0' i i' curr tl tl' q q',
  q.*1 = q'.*1 →
  (splitRows tl0 i rows curr tl q).*1 = (splitRows tl0' i' rows curr tl' q').*1.
Proof.
  induction rows as [|r rows IH]; intros tl0 tl0' i i' curr tl tl' q q' Hq;
    simpl.
  - destruct curr; [done|]. rewrite !fmap_app. simpl. by rewrite Hq.
  - destruct (negb (arrayIsAllZeros r)).
    + by apply IH.
    + destruct curr; [by apply IH|]. apply IH.
      rewrite !fmap_app. simpl. by rewrite Hq.
Qed.

Lemma fragments_fst t t' :
  shape t = shape t' → (fragments t).*1 = (fragments t').*1.
Proof. unfold fragments. intros ->. by apply splitRows_fst. Qed.

Lemma stripLeading_fst fuel : ∀ s tl tl',
  fst <$> stripLeading fuel s tl = fst <$> stripLeading fuel s tl'.
Proof.
  induction fuel as [|fuel IH]; intros s tl tl'; simpl.
  - by destruct (existsb headPositive s).
  - destruct (existsb headPositive s); [done|]. apply IH.
Qed.

Lemma cleanShape_fst s tl tl' :
  fst <$> cleanShape (s, tl) = fst <$> cleanShape (s, tl').
Proof.
  unfold cleanShape. simpl.
  pose proof (stripLeading_fst (maxLen s) s tl tl') as H.
  destruct (stripLeading (maxLen s) s tl) as [[s1 tl1]|],
    (stripLeading (maxLen s) s tl') as [[s2 tl2]|]; simpl in *; try done.
  by injection H as ->.
Qed.

Lemma closure_check :
  forallb (λ s, forallb (clearedOk s) (allMasks (length s))) periShapes = true.
Proof. vm_compute. reflexivity. Qed.

Lemma fragments_nil_zero t :
  fragments t = [] → Forall (λ rw, arrayIsAllZeros rw = true) (shape t).
Proof.
  intros Hf. apply Forall_forall. intros rw Hrw.
  destruct (arrayIsAllZeros rw) eqn:Hz; [done|]. exfalso.
  apply arrayIsAllZeros_false in Hz as (x & Hx & Hx0).
  apply list_elem_of_lookup in Hrw as [i Hi].
  apply list_elem_of_lookup in Hx as [j Hj].
  pose proof (cellAt_lookup _ _ _ _ _ Hi Hj) as Hc.
  destruct (proj2 (fragments_cells t (Z.of_nat i + row (topLeft t))
                     (Z.of_nat j + col (topLeft t)))) as (f & Hin & _).
  - unfold cellOf.
    replace (Z.of_nat i + row (topLeft t) - row (topLeft t)) with (Z.of_nat i)
      by lia.
    replace (Z.of_nat j + col (topLeft t) - col (topLeft t)) with (Z.of_nat j)
      by lia.
    by rewrite Hc.
  - rewrite Hf in Hin. by apply elem_of_nil in Hin.
Qed.

(** What row clearing leaves of a shape of [periMatrix]. *)
Lemma cleared_known t fullRows :
  shape t ∈ periShapes →
  let t' := set_shape (zeroedShape t fullRows) t in
  (fragments t' = [] →
   Forall (λ rw, arrayIsAllZeros rw = true) (zeroedShape t fullRows))
  ∧ ∀ f, f ∈ fragments t' →
         ∃ f', cleanShape f = Some f' ∧ f'.1 ∈ periShapes.
Proof.
  intros Hs t'. split; [intros Hf; by apply (fragments_nil_zero t')|].
  intros f Hf.
  destruct (zeroedShape_mask t fullRows) as (m & Hm & Hz).
  pose proof closure_check as Hc. rewrite forallb_forall in Hc.
  apply list_elem_of_In in Hs. specialize (Hc _ Hs).
  rewrite forallb_forall in Hc. rewrite <- Hm in Hc.
  specialize (Hc m (proj1 (list_elem_of_In _ _) (allMasks_complete m))).
  unfold clearedOk in Hc. cbv zeta in Hc.
  set (t0 := mkTet 0 None None None (mkPos 0 0) (maskRows m (shape t))) in *.
  assert ((fragments t').*1 = (fragments t0).*1) as Hfst.
  { apply fragments_fst. unfold t', t0. simpl. exact Hz. }
  assert (f.1 ∈ (fragments t0).*1) as Hin.
  { rewrite <- Hfst. by apply list_elem_of_fmap_2. }
  apply list_elem_of_fmap in Hin as (f0 & Hf0 & Hin0).
  destruct (fragments t0) as [|o q] eqn:Hq; [by apply elem_of_nil in Hin0|].
  rewrite forallb_forall in Hc.
  specialize (Hc f0 (proj1 (list_elem_of_In _ _) Hin0)).
  destruct (cleanShape f0) as [f0'|] eqn:Hcl; [|done].
  apply bool_decide_eq_true in Hc.
  pose proof (cleanShape_fst f.1 f.2 f0.2) as Hcf.
  rewrite Hf0 in Hcf at 2. rewrite <- (surjective_pairing f0) in Hcf.
  rewrite Hcl in Hcf. rewrite <- (surjective_pairing f) in Hcf.
  destruct (cleanShape f) as [f'|]; simpl in Hcf; [|done].
  injection Hcf as Hcf. exists f'. split; [done|]. by rewrite Hcf.
Qed.

Lemma periShapes_outlined s :
  s ∈ periShapes → ∃ p ps, getPerimeter s = Some (p :: ps).
Proof.
  intros Hs.
  assert (forallb (λ s, match getPerimeter s with
                        | Some (_ :: _) => true
                        | _ => false
                        end) periShapes = true) as Hc
    by (vm_compute; reflexivity).
  rewrite forallb_forall in Hc. apply list_elem_of_In in Hs.
  specialize (Hc _ Hs). destruct (getPerimeter s) as [[|p ps]|]; try done.
  by exists p, ps.
Qed.

Lemma catalog_known ty rot :
  0 <= ty < 7 → 0 <= rot <= 3 →
  ∃ s, catalog ty rot = Some s ∧ s ∈ periShapes.
Proof.
  intros Hty Hrot.
  assert (ty = 0 ∨ ty = 1 ∨ ty = 2 ∨ ty = 3 ∨ ty = 4 ∨ ty = 5 ∨ ty = 6)
    as Ht by lia.
  assert (rot = 0 ∨ rot = 1 ∨ rot = 2 ∨ rot = 3) as Hr by lia.
  destruct Ht as [->|[->|[->|[->|[->|[->| ->]]]]]];
    destruct Hr as [->|[->|[->| ->]]];
    (eexists; split; [reflexivity|]);
    apply list_elem_of_In; simpl;
    repeat (first [left; reflexivity | right]).
Qed.

Lemma tetOk_pivot v t : tetOk t → tetOk (set_pivot v t).
Proof. done. Qed.

Lemma tetOk_pivotMax v t : tetOk t → tetOk (set_pivotMax v t).
Proof. done. Qed.

Lemma tetOk_topLeft pot t :
  tetOk t → 0 <= row pot →
  Forall (λ rc : Z * Z, rc.1 + row pot < BOARD_ROW_NUM) (cells (shape t)) →
  tetOk (set_topLeft pot t).
Proof.
  intros (Hty & Hr & Hrows & Hk & Hrot) Hp Hc.
  split; [done|]. split; [done|]. split; [|done].
  unfold rowsOk. simpl. apply Forall_forall. intros rc Hrc.
  rewrite Forall_forall in Hc. specialize (Hc rc Hrc).
  apply cells_nonneg in Hrc. lia.
Qed.

Lemma wf_setTet g i t t' :
  wf g → heap g !! i = Some t → tetOk t' →
  (is_Some (pivot t) → is_Some (pivot t')) →
  wf (setTet i t' g).
Proof.
  intros [Hh (Ha & Hm & Hc & Hn)] Hi Ht Hp. split.
  - simpl. apply Forall_insert; done.
  - unfold refsOk. simpl. rewrite length_insert. split; [done|].
    split; [done|]. split.
    + intros c Hcc. destruct (Hc c Hcc) as (tc & Htc & Hpc).
      destruct (decide (c = i)) as [->|Hne].
      * exists t'. rewrite list_lookup_insert_eq by (by eapply lookup_lt_Some).
        split; [done|]. apply Hp. congruence.
      * exists tc. by rewrite list_lookup_insert_ne.
    + intros c Hcc. destruct (Hn c Hcc) as (tc & Htc & Hpc).
      destruct (decide (c = i)) as [->|Hne].
      * exists t'. rewrite list_lookup_insert_eq by (by eapply lookup_lt_Some).
        split; [done|]. apply Hp. congruence.
      * exists tc. by rewrite list_lookup_insert_ne.
Qed.

Lemma wf_cacheEq g g' : cacheEq g g' → wf g → wf g'.
Proof. by intros (u & l & ->). Qed.

Lemma wf_tetOk g i t : wf g → heap g !! i = Some t → tetOk t.
Proof.
  intros [Hh _] Hi. rewrite Forall_forall in Hh. apply Hh.
  by eapply list_elem_of_lookup_2.
Qed.

Lemma wf_markable g excl : wf g → markable g excl.
Proof.
  intros [Hh (Ha & _)] i Hi _ _.
  rewrite Forall_forall in Ha. specialize (Ha i Hi).
  destruct (lookup_lt_is_Some_2 _ _ Ha) as [t Ht].
  exists t. split; [done|].
  rewrite Forall_forall in Hh.
  by destruct (Hh t (list_elem_of_lookup_2 _ _ _ Ht)) as (_ & _ & ? & _).
Qed.

Lemma botScan_false_rows l pot cs :
  botScan l pot cs = Some false →
  Forall (λ rc : Z * Z, rc.1 + row pot < BOARD_ROW_NUM) cs.
Proof.
  induction cs as [|[r c] cs IH]; intros H; simpl in H; [done|].
  destruct (Z.leb_spec BOARD_ROW_NUM (r + row pot)); [done|].
  destruct (landedRow l _) as [lr|]; simpl in H; [|done].
  destruct (taken lr _); [done|]. constructor; [done|by apply IH].
Qed.

Lemma rotScan_true_rows l pot cs :
  rotScan l pot cs = Some true →
  Forall (λ rc : Z * Z, rc.1 + row pot < BOARD_ROW_NUM) cs.
Proof.
  induction cs as [|[r c] cs IH]; intros H; simpl in H; [done|].
  destruct (c + col pot <? 0); [done|].
  destruct (BOARD_COL_NUM <=? c + col pot); [done|].
  destruct (Z.leb_spec BOARD_ROW_NUM (r + row pot)); [done|].
  destruct (landedRow l _) as [lr|]; simpl in H; [|done].
  destruct (taken lr _); [done|]. constructor; [done|by apply IH].
Qed.

Lemma sideScan_is_Some l pot cs :
  length l = 16%nat →
  Forall (λ rc : Z * Z, 0 <= rc.1 + row pot < BOARD_ROW_NUM) cs →
  is_Some (sideScan l pot cs).
Proof.
  intros Hl. induction 1 as [|[r c] cs Hr _ IH]; simpl; [by eexists|].
  destruct (c + col pot <? 0); [by eexists|].
  destruct (BOARD_COL_NUM <=? c + col pot); [by eexists|].
  destruct (proj2 (landedRow_is_Some l (r + row pot))) as [lr ->].
  { rewrite Hl. unfold BOARD_ROW_NUM in *. simpl in Hr. lia. }
  simpl. destruct (taken lr _); [by eexists|done].
Qed.

Lemma rotScan_is_Some l pot cs :
  length l = 16%nat →
  Forall (λ rc : Z * Z, 0 <= rc.1 + row pot) cs →
  is_Some (rotScan l pot cs).
Proof.
  intros Hl. induction 1 as [|[r c] cs Hr _ IH]; simpl; [by eexists|].
  destruct (c + col pot <? 0); [by eexists|].
  destruct (BOARD_COL_NUM <=? c + col pot); [by eexists|].
  destruct (Z.leb_spec BOARD_ROW_NUM (r + row pot)); [by eexists|].
  destruct (proj2 (landedRow_is_Some l (r + row pot))) as [lr ->].
  { rewrite Hl. unfold BOARD_ROW_NUM in *. simpl in Hr. lia. }
  simpl. destruct (taken lr _); [by eexists|done].
Qed.

Lemma getLanded_is_Some g x : wf g → is_Some (getLanded g x).
Proof.
  intros Hw. destruct (getLanded g x) eqn:H; [by eexists|].
  apply getLanded_None_iff in H as [_ Hn]. destruct Hn. by apply wf_markable.
Qed.

Lemma getLanded_None_total g :
  wf g → cacheFresh g →
  ∃ g1 l, getLanded g None = Some (g1, l) ∧ cacheEq g g1
          ∧ length l = 16%nat ∧ cacheFresh g1.
Proof.
  intros Hw Hf. destruct (getLanded_is_Some g None Hw) as [[g1 l] H].
  exists g1, l. split; [done|].
  destruct (getLanded_fresh _ _ _ Hf H) as [[Hl _] Hc].
  split; [done|]. split; [done|]. by eapply getLanded_None_fresh.
Qed.

(** [doesTetCollideBot] returns and keeps the game well formed. *)
Lemma doesTetCollideBot_total g this t pot :
  wf g → heap g !! this = Some t → 0 <= row pot →
  ∃ l b, doesTetCollideBot g this pot = Some (cached l g, b)
    ∧ buildLanded g (Some this) = Some l
    ∧ botScan l pot (cells (shape t)) = Some b.
Proof.
  intros Hw Ht Hp.
  destruct (proj2 (buildLanded_is_Some g (Some this))
              (wf_markable g _ Hw)) as [l Hl].
  destruct (botScan_is_Some l pot (cells (shape t))) as [b Hb].
  { apply buildLanded_grid in Hl. by destruct Hl. }
  { apply Forall_forall. intros rc Hrc. apply cells_nonneg in Hrc. lia. }
  exists l, b. rewrite (doesTetCollideBot_built g this t l pot Hl Ht), Hb.
  done.
Qed.

(** [doesTetCollideSide], for a position on the row of the Tet. *)
Lemma doesTetCollideSide_total g this t pot d :
  wf g → cacheFresh g → heap g !! this = Some t →
  row pot = row (topLeft t) →
  ∃ g' b, doesTetCollideSide g this pot d = Some (g', b) ∧ wf g'.
Proof.
  intros Hw Hf Ht Hp.
  destruct (getLanded_None_total g Hw Hf) as (g1 & l & HL & Hc & Hl & _).
  unfold doesTetCollideSide. rewrite HL. simpl.
  pose proof (wf_cacheEq _ _ Hc Hw) as Hw1.
  destruct Hc as (u & l' & ->). simpl. rewrite Ht. simpl.
  pose proof (wf_tetOk _ _ _ Hw Ht) as Hok.
  destruct (sideScan_is_Some l pot (cells (shape t)) Hl) as [hit ->].
  { destruct Hok as (_ & _ & Hrows & _). by rewrite Hp. }
  simpl.
  assert (wf (setTet this (pivotIncr t)
                (set_updateLanded u (set_landed l' g)))) as Hw2.
  { apply (wf_setTet _ _ t); [done|done|by apply tetOk_pivot|].
    intros [p Hp']. unfold pivotIncr. simpl. rewrite Hp'. by eexists. }
  destruct hit as [[]|]; eexists _, _; (split; [reflexivity|]); try done.
  - by destruct (canPivot t).
  - by destruct (isRight d && canPivot t).
Qed.

Lemma cacheFresh_sized g : cacheFresh g → cacheSized g.
Proof. intros [?|[? _]]; [by left|by right]. Qed.

Lemma getLanded_sized g x :
  wf g → cacheSized g →
  ∃ g1 l, getLanded g x = Some (g1, l) ∧ cacheEq g g1
          ∧ length l = 16%nat ∧ landed g1 = l ∧ updateLanded g1 = false.
Proof.
  intros Hw Hs. destruct (getLanded_is_Some g x Hw) as [[g1 l] H].
  exists g1, l. split; [done|]. split; [by eapply getLanded_cacheEq|].
  unfold getLanded in H.
  destruct (updateLanded (if x is Some _ then set_updateLanded true g else g))
    eqn:Hu.
  - destruct (buildLanded _ x) as [l'|] eqn:Hb; simpl in H; [|done].
    injection H as <- <-. apply buildLanded_grid in Hb as [Hl _]. done.
  - destruct x; [done|]. injection H as <- <-.
    destruct Hs as [?|?]; [congruence|done].
Qed.

Lemma cacheSized_setTet g i t : cacheSized g → cacheSized (setTet i t g).
Proof. done. Qed.

Lemma doesTetCollideSide_wf g this t pot d :
  wf g → cacheSized g → heap g !! this = Some t →
  row pot = row (topLeft t) →
  ∃ g' b t', doesTetCollideSide g this pot d = Some (g', b) ∧ wf g'
    ∧ cacheSized g' ∧ heap g' !! this = Some t'
    ∧ shape t' = shape t ∧ topLeft t' = topLeft t.
Proof.
  intros Hw Hs Ht Hp.
  destruct (getLanded_sized g None Hw Hs) as (g1 & l & HL & Hc & Hl & Hl1 & Hu1).
  unfold doesTetCollideSide. rewrite HL. simpl.
  pose proof (wf_cacheEq _ _ Hc Hw) as Hw1.
  assert (cacheSized g1) as Hs1 by (right; congruence).
  destruct Hc as (u & l' & ->). simpl. rewrite Ht. simpl.
  pose proof (wf_tetOk _ _ _ Hw Ht) as Hok.
  destruct (sideScan_is_Some l pot (cells (shape t)) Hl) as [hit ->].
  { destruct Hok as (_ & _ & Hrows & _). by rewrite Hp. }
  simpl.
  set (g1 := set_updateLanded u (set_landed l' g)) in *.
  assert (heap g1 !! this = Some t) as Ht1 by exact Ht.
  assert (wf (setTet this (pivotIncr t) g1)) as Hw2.
  { apply (wf_setTet _ _ t); [done|done|by apply tetOk_pivot|].
    intros [p Hp']. unfold pivotIncr. simpl. rewrite Hp'. by eexists. }
  assert (heap (setTet this (pivotIncr t) g1) !! this = Some (pivotIncr t))
    as Ht2 by (by apply (heap_setTet_eq _ _ t)).
  destruct hit as [[]|].
  - exists g1, true, t. done.
  - destruct (canPivot t).
    + exists (setTet this (pivotIncr t) g1), true, (pivotIncr t). done.
    + exists g1, true, t. done.
  - destruct (isRight d && canPivot t).
    + exists (setTet this (pivotIncr t) g1), true, (pivotIncr t). done.
    + exists g1, true, t. done.
  - exists g1, false, t. done.
Qed.

Lemma rotate_wf g this t :
  wf g → cacheSized g → heap g !! this = Some t → is_Some (pivot t) →
  ∃ g' b, rotate g this = Some (g', b) ∧ wf g' ∧ cacheSized g'.
Proof.
  intros Hw Hs Ht [p Hp].
  destruct (getLanded_sized g None Hw Hs) as (g1 & l & HL & Hc & Hl & Hl1 & Hu1).
  unfold rotate. rewrite HL. simpl.
  pose proof (wf_cacheEq _ _ Hc Hw) as Hw1.
  assert (cacheSized g1) as Hs1 by (right; congruence).
  destruct Hc as (u & l' & ->). simpl. rewrite Ht. simpl.
  set (g1 := set_updateLanded u (set_landed l' g)) in *.
  pose proof (wf_tetOk _ _ _ Hw Ht) as Hok.
  destruct Hok as (Hty & Hr & Hrows & Hk & Hrot).
  assert (0 <= nextRotation t <= 3) as Hnr.
  { unfold nextRotation. destruct (rotation t) as [r|] eqn:Hrt; [|lia].
    specialize (Hrot r eq_refl). destruct (Z.ltb_spec r 3); lia. }
  destruct (catalog_known (type t) (nextRotation t) Hty Hnr) as (s & Hs' & Hin).
  unfold getShapeMatrix. rewrite Hs'. simpl.
  set (t1 := set_pivotMax (Some (pivotMaxOf (type t))) t).
  assert (wf (setTet this t1 g1)) as Hw2.
  { apply (wf_setTet _ _ t); [done|done|by apply tetOk_pivotMax|done]. }
  destruct (rotScan_is_Some l (topLeft t) (cells s) Hl) as [ok Hok].
  { apply Forall_forall. intros rc Hrc. apply cells_nonneg in Hrc.
    simpl. lia. }
  rewrite Hok. simpl. destruct ok.
  - unfold commitRotation. simpl. rewrite Hp. simpl.
    eexists _, true. split; [reflexivity|]. split; [|done].
    apply (wf_setTet _ _ t1); [done|by apply (heap_setTet_eq _ _ t)| |].
    + split; [done|]. split; [done|]. split; [|split].
      * unfold rowsOk. simpl. apply rotScan_true_rows in Hok.
        apply Forall_forall. intros rc Hrc.
        rewrite Forall_forall in Hok. specialize (Hok rc Hrc).
        apply cells_nonneg in Hrc. simpl in Hok. lia.
      * by left.
      * simpl. by intros r [= <-].
    + intros _. by eexists.
  - eexists _, false. done.
Qed.

Lemma moveLeft_wf g this t :
  wf g → cacheSized g → heap g !! this = Some t →
  ∃ g', moveLeft g this = Some g' ∧ wf g' ∧ cacheSized g'.
Proof.
  intros Hw Hs Ht. unfold moveLeft. rewrite Ht. simpl.
  set (t0 := set_pivot (Some 0) t).
  assert (wf (setTet this t0 g)) as Hw0.
  { apply (wf_setTet _ _ t);
      [done|done|apply tetOk_pivot; by eapply wf_tetOk|].
    intros _. by eexists. }
  assert (heap (setTet this t0 g) !! this = Some t0) as Ht0
    by (by apply (heap_setTet_eq _ _ t)).
  destruct (doesTetCollideSide_wf (setTet this t0 g) this t0
              (mkPos (row (topLeft t)) (col (topLeft t) - 1)) None
              Hw0 Hs Ht0 eq_refl)
    as (g1 & b & t1 & Hd & Hw1 & Hs1 & Ht1 & Hsh & Htl).
  rewrite Hd. simpl. destruct b; [by exists g1|].
  rewrite Ht1. simpl. eexists. split; [reflexivity|]. split; [|done].
  apply (wf_setTet _ _ t1); [done|done| |done].
  apply tetOk_topLeft; [by eapply wf_tetOk|simpl|].
  - by destruct (wf_tetOk _ _ _ Hw Ht) as (_ & ? & _).
  - destruct (wf_tetOk _ _ _ Hw Ht) as (_ & _ & Hrows & _).
    rewrite Hsh. simpl. eapply Forall_impl; [exact Hrows|].
    simpl. intros rc Hrc. lia.
Qed.

Lemma moveRight_wf g this t :
  wf g → cacheSized g → heap g !! this = Some t →
  ∃ g', moveRight g this = Some g' ∧ wf g' ∧ cacheSized g'.
Proof.
  intros Hw Hs Ht. unfold moveRight. rewrite Ht. simpl.
  destruct (doesTetCollideSide_wf g this t
              (mkPos (row (topLeft t)) (col (topLeft t) + 1)) (Some 1)
              Hw Hs Ht eq_refl)
    as (g1 & b & t1 & Hd & Hw1 & Hs1 & Ht1 & Hsh & Htl).
  rewrite Hd. simpl. destruct b; [by exists g1|].
  rewrite Ht1. simpl. eexists. split; [reflexivity|]. split; [|done].
  apply (wf_setTet _ _ t1); [done|done| |done].
  apply tetOk_topLeft; [by eapply wf_tetOk|simpl|].
  - by destruct (wf_tetOk _ _ _ Hw Ht) as (_ & ? & _).
  - destruct (wf_tetOk _ _ _ Hw Ht) as (_ & _ & Hrows & _).
    rewrite Hsh. simpl. eapply Forall_impl; [exact Hrows|].
    simpl. intros rc Hrc. lia.
Qed.

Lemma rowsOk_cellOf t :
  rowsOk t ↔
  ∀ R C, cellOf (shape t) (topLeft t) R C ≠ 0%nat → 0 <= R < BOARD_ROW_NUM.
Proof.
  unfold rowsOk, cellOf. rewrite Forall_forall. split.
  - intros H R C Hc. apply elem_of_cells in Hc. specialize (H _ Hc).
    simpl in H. lia.
  - intros H [r c] Hrc. simpl. apply elem_of_cells in Hrc.
    specialize (H (r + row (topLeft t)) (c + col (topLeft t))).
    replace (r + row (topLeft t) - row (topLeft t)) with r in H by lia.
    replace (c + col (topLeft t) - col (topLeft t)) with c in H by lia.
    apply H in Hrc. lia.
Qed.

Lemma cellAt_zeroRowAt s tlRow fr r c :
  cellAt (zeroRowAt s tlRow fr) r c
  = if decide (r = fr - tlRow) then 0%nat else cellAt s r c.
Proof.
  unfold zeroRowAt. destruct (_ || _) eqn:Hr.
  - case_decide as Hd; [|done]. subst.
    apply orb_true_iff in Hr as [Hr|Hr].
    + apply Z.ltb_lt in Hr. by apply cellAt_row_neg.
    + apply Z.ltb_lt in Hr. apply cellAt_row_ge. lia.
  - apply orb_false_iff in Hr as [Hr1 Hr2].
    apply Z.ltb_ge in Hr1, Hr2. unfold cellAt, index.
    destruct (Z.ltb_spec r 0) as [?|Hr0].
    { case_decide; [lia|done]. }
    case_decide as Hd.
    + subst. rewrite list_lookup_alter_eq.
      destruct (s !! Z.to_nat (fr - tlRow)) as [rw|]; simpl; [|done].
      destruct (c <? 0); [done|]. rewrite list_lookup_fmap.
      by destruct (rw !! Z.to_nat c).
    + rewrite list_lookup_alter_ne by lia. done.
Qed.

Lemma cellOf_zeroed t fullRows R C :
  cellOf (zeroedShape t fullRows) (topLeft t) R C
  = if bool_decide (R ∈ fullRows) then 0%nat
    else cellOf (shape t) (topLeft t) R C.
Proof.
  unfold zeroedShape, cellOf.
  generalize (shape t). intros s. revert s.
  induction fullRows as [|fr fullRows IH]; intros s; cbn [foldl].
  - by rewrite bool_decide_eq_false_2 by (by intros ?%elem_of_nil).
  - rewrite IH, cellAt_zeroRowAt.
    destruct (decide (R ∈ fullRows)) as [Hin|Hin].
    + rewrite bool_decide_eq_true_2 by done.
      by rewrite bool_decide_eq_true_2 by (by right).
    + rewrite (bool_decide_eq_false_2 (R ∈ fullRows)) by done.
      destruct (decide (R - row (topLeft t) = fr - row (topLeft t))) as [Hd|Hd].
      * rewrite bool_decide_eq_true_2; [done|]. apply elem_of_cons. left. lia.
      * rewrite bool_decide_eq_false_2; [done|].
        intros [?|?]%elem_of_cons; [lia|done].
Qed.

Lemma cleanShape_row f f' : cleanShape f = Some f' → row f'.2 = row f.2.
Proof.
  unfold cleanShape. intros H.
  destruct (stripLeading _ _ _) as [[s tl]|] eqn:Hs; simpl in H; [|done].
  injection H as <-. simpl.
  apply stripLeading_spec in Hs as (k & _ & _ & -> & _). done.
Qed.

Lemma allZero_cellAt s r c :
  Forall (λ rw, arrayIsAllZeros rw = true) s → cellAt s r c = 0%nat.
Proof.
  intros H. unfold cellAt. destruct (index s r) as [rw|] eqn:Hi; [|done].
  simpl. apply arrayIsAllZeros_true.
  apply index_Some in Hi as [_ Hi]. rewrite Forall_forall in H.
  apply H. by eapply list_elem_of_lookup_2.
Qed.

Lemma wfFrag_cell f : wfFrag f → ∃ R C, cellOf f.1 f.2 R C ≠ 0%nat.
Proof.
  intros [Hne Hrows]. destruct f as [[|rw s] tl]; [done|]. simpl in *.
  apply Forall_cons in Hrows as [(x & Hx & Hx0) _].
  apply list_elem_of_lookup in Hx as [j Hj].
  exists (row tl), (Z.of_nat j + col tl). unfold cellOf.
  replace (row tl - row tl) with (Z.of_nat 0) by lia.
  replace (Z.of_nat j + col tl - col tl) with (Z.of_nat j) by lia.
  by rewrite (cellAt_lookup _ 0 j rw x).
Qed.

(** A fragment of a Tet whose rows were cleared, cleaned, makes a Tet the
    game can keep. *)
Lemma fragment_tetOk t fullRows f f' rot piv pm :
  tetOk t →
  f ∈ fragments (set_shape (zeroedShape t fullRows) t) →
  cleanShape f = Some f' →
  (∀ r, rot = Some r → 0 <= r <= 3) →
  tetOk (mkTet (type t) rot piv pm f'.2 f'.1).
Proof.
  intros (Hty & Hr & Hrows & Hk & Hrot) Hf Hc Hrt.
  set (t0 := set_shape (zeroedShape t fullRows) t) in *.
  pose proof (fragments_wf t0) as Hwf. rewrite Forall_forall in Hwf.
  specialize (Hwf f Hf).
  destruct (cleanShape_frag f Hwf) as (f'' & Hc' & _ & Hcell).
  rewrite Hc in Hc'. injection Hc' as <-.
  assert (∀ R C, cellOf f'.1 f'.2 R C ≠ 0%nat →
                 cellOf (shape t) (topLeft t) R C ≠ 0%nat) as Hsub.
  { intros R C Hne. rewrite Hcell in Hne.
    assert (cellOf (shape t0) (topLeft t0) R C ≠ 0%nat) as H0.
    { apply fragments_cells. by exists f. }
    unfold t0 in H0. simpl in H0. rewrite cellOf_zeroed in H0.
    by destruct (bool_decide (R ∈ fullRows)). }
  split; [done|]. split; [|split; [|split]]; simpl.
  - rewrite (cleanShape_row _ _ Hc).
    pose proof (fragments_runs t0) as Hruns. rewrite Forall_forall in Hruns.
    destruct (Hruns f Hf) as (i & -> & _). simpl. lia.
  - apply rowsOk_cellOf. simpl. intros R C Hne.
    apply (proj1 (rowsOk_cellOf t) Hrows R C). by apply Hsub.
  - destruct Hk as [Hk|Hz].
    + destruct (cleared_known t fullRows Hk) as [_ Hcl].
      destruct (Hcl f Hf) as (f'' & Hc'' & Hin). rewrite Hc in Hc''.
      injection Hc'' as <-. by left.
    + exfalso. destruct (wfFrag_cell f Hwf) as (R & C & Hne).
      rewrite <- Hcell in Hne. apply Hsub in Hne. apply Hne.
      unfold cellOf. by apply allZero_cellAt.
  - done.
Qed.

Lemma zeroed_tetOk t fullRows :
  tetOk t → fragments (set_shape (zeroedShape t fullRows) t) = [] →
  tetOk (set_shape (zeroedShape t fullRows) t).
Proof.
  intros (Hty & Hr & Hrows & Hk & Hrot) Hf.
  split; [done|]. split; [done|]. split; [|split; [|done]].
  - apply rowsOk_cellOf. simpl. intros R C Hne.
    rewrite cellOf_zeroed in Hne.
    apply (proj1 (rowsOk_cellOf t) Hrows R C).
    by destruct (bool_decide (R ∈ fullRows)).
  - right. by apply (fragments_nil_zero (set_shape (zeroedShape t fullRows) t)).
Qed.

(** What [updateTet] does. *)
Lemma updateTet_inv g this t :
  heap g !! this = Some t →
  (fragments t = []
   ∧ updateTet g this
     = Some (set_tetsToRemove
               (tetsToRemove g ++ [indexOf this (allTets g)]) g))
  ∨ (∃ o q f0 news,
       fragments t = o :: q ∧ cleanShape o = Some f0
       ∧ Forall2 (λ f f', cleanShape f = Some f') q news
       ∧ updateTet g this
         = Some (set_allTets (allTets g ++ seq (length (heap g)) (length q))
                   (set_heap
                      (<[this := set_shape f0.1 (set_topLeft f0.2 t)]> (heap g)
                       ++ fragmentTets (type t) news) g))).
Proof.
  intros Ht. unfold updateTet. rewrite Ht. simpl.
  destruct (fragments t) as [|o q] eqn:Hfr; [by left|]. right.
  pose proof (fragments_wf t) as Hwf. rewrite Hfr in Hwf.
  destruct (cleanShape_all _ Hwf) as (all & Hall & Hrel).
  simpl in Hall.
  destruct (cleanShape o) as [f0|] eqn:Ho; simpl in Hall; [|done].
  destruct (mapM cleanShape q) as [news|] eqn:Hq; simpl in Hall; [|done].
  exists o, q, f0, news. split; [done|]. split; [done|]. split.
  { apply mapM_Some_1 in Hq. done. }
  destruct f0 as [s0 tl0]. simpl.
  rewrite (pushFragments_spec _ _ _ news) by done. simpl.
  rewrite length_insert. by destruct g.
Qed.

Lemma alterShape_wf g i t fullRows :
  wf g → heap g !! i = Some t →
  ∃ g', alterShape g i fullRows = Some g' ∧ wf g'
        ∧ (length (heap g) <= length (heap g'))%nat.
Proof.
  intros Hw Ht. pose proof Hw as [Hh (Ha & Hm & Hc & Hn)].
  pose proof (wf_tetOk _ _ _ Hw Ht) as Hok.
  unfold alterShape. rewrite Ht. cbn [mbind option_bind].
  fold (zeroedShape t fullRows).
  set (t0 := set_shape (zeroedShape t fullRows) t).
  assert (heap (setTet i t0 g) !! i = Some t0) as Ht0
    by (by apply (heap_setTet_eq _ _ t)).
  destruct (updateTet_inv _ _ _ Ht0)
    as [[Hfr ->]|(o & q & f0 & news & Hfr & Ho & Hq & ->)].
  - eexists. split; [done|]. split; [|by simpl; rewrite length_insert].
    apply (wf_setTet g i t t0) in Hw; [|done|by apply zeroed_tetOk|done].
    exact Hw.
  - eexists. split; [done|].
    assert (∀ f f', f ∈ o :: q → cleanShape f = Some f' →
              tetOk (mkTet (type t) None None None f'.2 f'.1)) as Hfrag.
    { intros f f' Hf Hcl. apply (fragment_tetOk t fullRows f); try done.
      fold t0. by rewrite Hfr. }
    assert (tetOk (set_shape f0.1 (set_topLeft f0.2 t0))) as Hfirst.
    { apply (fragment_tetOk t fullRows o f0 (rotation t) (pivot t) (pivotMax t));
        try done.
      - fold t0. rewrite Hfr. by left.
      - by destruct Hok as (_ & _ & _ & _ & Hrot). }
    assert (Forall tetOk (fragmentTets (type t0) news)) as Hnews.
    { unfold fragmentTets. apply Forall_fmap. apply Forall_forall.
      intros f' Hf'. apply list_elem_of_lookup in Hf' as [j Hj].
      destruct (Forall2_lookup_r _ _ _ _ _ Hq Hj) as (f & Hfj & Hcl).
      apply (Hfrag f f'); [|done]. right. by eapply list_elem_of_lookup_2. }
    pose proof (Forall2_length _ _ _ Hq) as Hlen.
    simpl. rewrite list_insert_insert_eq.
    split; [|by rewrite length_app, length_insert; lia].
    split; [|split; [|split; [|split]]]; simpl.
    + apply Forall_app. split; [by apply Forall_insert|done].
    + rewrite length_app, !length_insert. apply Forall_app. split.
      * eapply Forall_impl; [exact Ha|]. simpl. intros; lia.
      * apply Forall_forall. intros j Hj. apply elem_of_seq in Hj.
        unfold fragmentTets. rewrite length_fmap. lia.
    + rewrite length_app, !length_insert.
      eapply Forall_impl; [exact Hm|]. simpl. intros; lia.
    + intros c Hcc. destruct (Hc c Hcc) as (tc & Htc & Hpc).
      pose proof (lookup_lt_Some _ _ _ Htc) as Hlt.
      rewrite lookup_app_l by (by rewrite length_insert).
      destruct (decide (c = i)) as [->|Hne].
      * eexists. rewrite list_lookup_insert_eq by done. split; [done|].
        simpl. congruence.
      * exists tc. by rewrite list_lookup_insert_ne.
    + intros c Hcc. destruct (Hn c Hcc) as (tc & Htc & Hpc).
      pose proof (lookup_lt_Some _ _ _ Htc) as Hlt.
      rewrite lookup_app_l by (by rewrite length_insert).
      destruct (decide (c = i)) as [->|Hne].
      * eexists. rewrite list_lookup_insert_eq by done. split; [done|].
        simpl. congruence.
      * exists tc. by rewrite list_lookup_insert_ne.
Qed.

Lemma alterEach_wf fr lr fullRows aT : ∀ g,
  wf g → Forall (λ i, (i < length (heap g))%nat) aT →
  ∃ g', alterEach g fr lr fullRows aT = Some g' ∧ wf g'
        ∧ (length (heap g) <= length (heap g'))%nat.
Proof.
  induction aT as [|i aT IH]; intros g Hw Hall; simpl; [by eexists|].
  apply Forall_cons in Hall as [Hi Hall].
  destruct (lookup_lt_is_Some_2 _ _ Hi) as [t Ht]. rewrite Ht. simpl.
  destruct (_ || _); [by apply IH|].
  destruct (alterShape_wf g i t fullRows Hw Ht) as (g1 & -> & Hw1 & Hlen).
  simpl. destruct (IH g1) as (g' & -> & Hw' & Hlen'); [done| |].
  - eapply Forall_impl; [exact Hall|]. simpl. intros; lia.
  - exists g'. split; [done|]. split; [done|lia].
Qed.

Lemma removeTets_Forall (P : nat → Prop) rm : ∀ i aT,
  Forall P aT → Forall P (removeTets i rm aT).
Proof.
  induction rm as [|x rm IH]; intros i aT H; simpl; [done|].
  apply IH. unfold splice1. by apply Forall_delete.
Qed.

Lemma alterShapes_wf g fullRows :
  wf g →
  ∃ g', alterShapes g fullRows = Some g' ∧ wf g' ∧ updateLanded g' = true
        ∧ (length (heap g) <= length (heap g'))%nat.
Proof.
  intros Hw. pose proof Hw as [_ (Ha & _)].
  destruct (alterEach_wf (head fullRows) (last fullRows) fullRows (allTets g)
              g Hw Ha) as (g1 & He & [Hh1 (Ha1 & Hm1 & Hc1 & Hn1)] & Hlen).
  unfold alterShapes. rewrite He. simpl. eexists. split; [done|].
  split; [|split; [done|done]].
  split; [done|]. split; [|done]. simpl. by apply removeTets_Forall.
Qed.

Lemma findFullRows_is_Some l rows :
  length l = 16%nat → Forall (λ r, 0 <= r < BOARD_ROW_NUM) rows →
  is_Some (findFullRows l rows).
Proof.
  intros Hl. induction 1 as [|r rows Hr _ [fr IH]]; simpl; [by eexists|].
  destruct (proj2 (landedRow_is_Some l r)) as [lr ->];
    [unfold BOARD_ROW_NUM in Hr; lia|]. simpl.
  rewrite IH. simpl. by eexists.
Qed.

Lemma collided_wf g this :
  wf g → cacheSized g → (this < length (heap g))%nat →
  ∃ g', collided g this = Some g' ∧ wf g' ∧ updateLanded g' = true.
Proof.
  intros Hw Hs Hthis.
  destruct (getLanded_sized g None Hw Hs) as (g1 & l & HL & Hc & Hl & _).
  pose proof (wf_cacheEq _ _ Hc Hw) as Hw1.
  assert (heap g1 = heap g) as Hh by (by destruct Hc as (u & l' & ->)).
  destruct (lookup_lt_is_Some_2 (heap g1) this) as [t Ht]; [by rewrite Hh|].
  pose proof (wf_tetOk _ _ _ Hw1 Ht) as (_ & Hr & _).
  destruct (findFullRows_is_Some l
              (seqZ (row (topLeft t)) (BOARD_ROW_NUM - row (topLeft t))) Hl)
    as [fr Hfr].
  { apply Forall_forall. intros r Hrr. apply elem_of_seqZ in Hrr.
    unfold BOARD_ROW_NUM in *. lia. }
  unfold collided, fullRowsOf. rewrite HL. simpl. rewrite Ht. simpl.
  rewrite Hfr. simpl. destruct fr as [|r fr'].
  - eexists. split; [done|]. split; [|done]. exact Hw1.
  - set (g2 := set_score _ _).
    assert (wf g2) as Hw2 by exact Hw1.
    destruct (alterShapes_wf g2 (r :: fr') Hw2) as (g3 & -> & Hw3 & _ & Hlen).
    simpl. eexists. split; [done|]. split; [|done].
    destruct Hw3 as [Hh3 (Ha3 & Hm3 & Hc3 & Hn3)].
    split; [done|]. split; [done|]. split; [|done]. simpl.
    apply Forall_app. split; [done|]. apply Forall_singleton.
    simpl in Hlen. rewrite Hh in Hlen. lia.
Qed.

Lemma moveDown_wf g this t :
  wf g → heap g !! this = Some t →
  ∃ g', moveDown g this = Some g' ∧ wf g' ∧ cacheSized g'.
Proof.
  intros Hw Ht. pose proof (wf_tetOk _ _ _ Hw Ht) as Hok.
  pose proof Hok as (_ & Hr & _).
  set (pot := mkPos (row (topLeft t) + 1) (col (topLeft t))).
  destruct (doesTetCollideBot_total g this t pot Hw Ht)
    as (l & b & Hbot & Hbl & Hscan); [simpl; lia|].
  pose proof (buildLanded_grid _ _ _ Hbl) as [Hl _].
  assert (wf (cached l g)) as Hw1 by exact Hw.
  unfold moveDown. rewrite Ht. simpl. fold pot. rewrite Hbot. simpl.
  destruct b.
  - set (g1 := set_updateLanded true _).
    destruct (collided_wf g1 this) as (g' & -> & Hw' & Hu').
    + destruct Hw as [Hh (Ha & Hm & Hc & Hn)]. split; [done|].
      split; [done|]. split; [done|]. split; [done|]. done.
    + by left.
    + simpl. by eapply lookup_lt_Some.
    + exists g'. split; [done|]. split; [done|by left].
  - rewrite Ht. simpl. eexists. split; [done|]. split.
    + apply (wf_setTet _ this t); [done|done| |done].
      apply tetOk_topLeft; [done|simpl; lia|].
      by apply (botScan_false_rows l).
    + by right.
Qed.

Lemma settlePass_wf aT : ∀ g mv b,
  wf g → Forall (λ i, (i < length (heap g))%nat) aT →
  ∃ g' mv' b', settlePass g aT mv b = Some (g', mv', b') ∧ wf g'
    ∧ length (heap g') = length (heap g).
Proof.
  induction aT as [|i aT IH]; intros g mv b Hw Hall; simpl.
  { by exists g, mv, b. }
  apply Forall_cons in Hall as [Hi Hall].
  destruct (_ || _); [by apply IH|].
  destruct (lookup_lt_is_Some_2 _ _ Hi) as [t Ht]. rewrite Ht. simpl.
  pose proof (wf_tetOk _ _ _ Hw Ht) as Hok. pose proof Hok as (_ & Hr & _).
  set (pot := mkPos (row (topLeft t) + 1) (col (topLeft t))).
  destruct (doesTetCollideBot_total g i t pot Hw Ht)
    as (l & b1 & -> & Hbl & Hscan); [simpl; lia|].
  simpl. assert (wf (cached l g)) as Hw1 by exact Hw.
  destruct b1.
  - destruct (IH (cached l g) mv b Hw1 Hall) as (g' & mv' & b' & -> & ? & ?).
    by exists g', mv', b'.
  - rewrite Ht. simpl.
    set (g1 := setTet i _ _).
    assert (wf g1) as Hw2.
    { apply (wf_setTet _ i t); [done|done| |done].
      apply tetOk_topLeft; [done|simpl; lia|].
      by apply (botScan_false_rows l). }
    destruct (IH g1 (mv ++ [i]) true Hw2) as (g' & mv' & b' & -> & ? & Hlen).
    { unfold g1. simpl. by rewrite length_insert. }
    exists g', mv', b'. split; [done|]. split; [done|].
    rewrite Hlen. unfold g1. simpl. by rewrite length_insert.
Qed.

Lemma settleWhile_wf fuel : ∀ g mv,
  wf g → (length (restTets g mv) < fuel)%nat →
  ∃ g' mv', settleWhile fuel g mv = Some (g', mv') ∧ wf g'
    ∧ length (heap g') = length (heap g) ∧ moveLoops g' = moveLoops g
    ∧ updateLanded g' = true.
Proof.
  induction fuel as [|fuel IH]; intros g mv Hw Hlt; [lia|]. simpl.
  pose proof Hw as [_ (Ha & _)].
  destruct (settlePass_wf (allTets g) g mv false Hw Ha)
    as (g1 & mv1 & b1 & Hp & Hw1 & Hlen).
  rewrite Hp. simpl.
  pose proof (settlePass_inv _ _ _ _ _ _ _ Hp) as (_ & _ & _ & Hml & _).
  destruct b1.
  - apply settlePass_rest in Hp.
    destruct (IH (set_updateLanded true g1) mv1) as (g' & mv' & -> & ? & Hl' & Hm' & ?);
      [exact Hw1|lia|].
    exists g', mv'. split; [done|]. split; [done|].
    split; [by rewrite Hl'|]. split; [by rewrite Hm'|done].
  - exists (set_updateLanded true g1), mv1. split; [done|].
    split; [exact Hw1|]. done.
Qed.

Lemma settleRound_wf g :
  wf g →
  ∃ g' mv', settleRound g = Some (g', mv') ∧ wf g'
    ∧ length (heap g') = length (heap g) ∧ moveLoops g' = moveLoops g
    ∧ updateLanded g' = true.
Proof.
  intros Hw. apply settleWhile_wf; [done|].
  unfold restTets. pose proof (length_filter (λ i, i ∉ []) (allTets g)). lia.
Qed.

Lemma draw_wf g :
  wf g → cacheSized g →
  ∃ g', draw g = Some g' ∧ wf g' ∧ cacheSized g' ∧ cacheEq g g'.
Proof.
  intros Hw Hs. unfold draw.
  assert (cacheEq g g) as Hrefl.
  { exists (updateLanded g), (landed g). by destruct g. }
  destruct (nextTet g); [|by exists g].
  destruct (newTet g); [by exists g|].
  destruct (currentTet g) as [c|] eqn:Hc; [|by exists g].
  pose proof Hw as [Hh (Ha & Hm & Hcur & Hn)].
  destruct (Hcur c Hc) as (t & Ht & _). rewrite Ht. simpl.
  pose proof (wf_tetOk _ _ _ Hw Ht) as (_ & Hr & _).
  destruct (doesTetCollideBot_total g c t
              (mkPos (row (topLeft t) + 1) (col (topLeft t))) Hw Ht)
    as (l & b & -> & Hbl & _); [simpl; lia|].
  simpl. exists (cached l g). split; [done|]. split; [exact Hw|].
  split; [|by exists false, l].
  right. simpl. by apply buildLanded_grid in Hbl as [? _].
Qed.

Lemma periShapes_rows s :
  s ∈ periShapes → Forall (λ rc : Z * Z, rc.1 < 4) (cells s).
Proof.
  intros Hs.
  assert (forallb (λ s, forallb (λ rc : Z * Z, rc.1 <? 4) (cells s))
            periShapes = true) as Hc by (vm_compute; reflexivity).
  rewrite forallb_forall in Hc. apply list_elem_of_In in Hs.
  specialize (Hc _ Hs). rewrite forallb_forall in Hc.
  apply Forall_forall. intros rc Hrc. apply list_elem_of_In in Hrc.
  apply Hc in Hrc. lia.
Qed.

Lemma freshTet_tetOk ty s :
  isDraw ty → catalog ty 0 = Some s → tetOk (freshTet ty s).
Proof.
  intros Hty Hs.
  destruct (catalog_known ty 0 Hty ltac:(lia)) as (s' & Hs' & Hin).
  rewrite Hs in Hs'. injection Hs' as <-.
  split; [done|]. split; [done|]. split; [|split; [by left|]].
  - unfold rowsOk. simpl. pose proof (periShapes_rows s Hin) as Hr.
    apply Forall_forall. intros rc Hrc. rewrite Forall_forall in Hr.
    specialize (Hr rc Hrc). apply cells_nonneg in Hrc.
    unfold BOARD_ROW_NUM. lia.
  - simpl. intros r [= <-]. lia.
Qed.

Lemma wf_alloc g t :
  wf g → tetOk t →
  Forall tetOk (heap (alloc t g).2)
  ∧ heap (alloc t g).2 !! (alloc t g).1 = Some t
  ∧ ∀ i t', heap g !! i = Some t' → heap (alloc t g).2 !! i = Some t'.
Proof.
  intros [Hh _] Ht. simpl. split; [|split].
  - apply Forall_app. split; [done|]. by apply Forall_singleton.
  - rewrite lookup_app_r by done. by rewrite Nat.sub_diag.
  - intros i t' Hi. by apply lookup_app_l_Some.
Qed.

Lemma Tet_new_tetOk ty rnd :
  isDraw rnd → (∀ t, ty = Some t → isDraw t) →
  ∃ t, Tet_new ty rnd = Some t ∧ tetOk t ∧ is_Some (pivot t).
Proof.
  intros Hr Hty.
  set (ty' := match ty with
              | Some t => if negb (t =? 0) && (-1 <=? t) && (t <? 7) then t else rnd
              | None => rnd
              end).
  assert (isDraw ty') as Hd.
  { unfold ty'. destruct ty as [t|]; [|done].
    destruct (_ && _); [by apply Hty|done]. }
  destruct (catalog_draw ty' Hd) as (s & Hs & _).
  exists (freshTet ty' s). split; [by apply Tet_new_fresh|].
  split; [by apply freshTet_tetOk|by eexists].
Qed.

Lemma wf_next g t :
  wf g → tetOk t → is_Some (pivot t) →
  wf (set_nextTet (Some (alloc t g).1) (alloc t g).2).
Proof.
  intros Hw Ht Hp. pose proof Hw as [Hh (Ha & Hm & Hc & Hn)].
  destruct (wf_alloc g t Hw Ht) as (Hh' & Hnew & Hold).
  split; [exact Hh'|]. split; [|split; [|split]]; simpl.
  - rewrite length_app. eapply Forall_impl; [exact Ha|]. simpl. intros; lia.
  - rewrite length_app. eapply Forall_impl; [exact Hm|]. simpl. intros; lia.
  - intros c Hcc. destruct (Hc c Hcc) as (tc & Htc & Hpc).
    exists tc. split; [by apply Hold|done].
  - intros c [= <-]. by exists t.
Qed.

Lemma wf_currentTet g c :
  wf g → nextTet g = Some c → wf (set_currentTet (Some c) g).
Proof.
  intros [Hh (Ha & Hm & Hc & Hn)] Hnx. split; [done|].
  split; [done|]. split; [done|]. split; [|done].
  simpl. intros c' [= <-]. by apply Hn.
Qed.

Lemma spawn_first g r1 r2 r3 t :
  nextTet g = None →
  Tet_new (Some (if (r1 =? 4) || (r1 =? 6) then r1 - 1 else r1)) r2 = Some t →
  spawn g r1 r2 r3
  = spawn (set_nextTet (Some (alloc t g).1) (alloc t g).2) r1 r2 r3.
Proof.
  intros Hn Ht. unfold spawn. rewrite Hn. cbv zeta. rewrite Ht. done.
Qed.

Lemma spawn_later g r1 r2 r3 n :
  wf g → nextTet g = Some n → isDraw r3 →
  ∃ g1 c, spawn g r1 r2 r3 = Some g1 ∧ wf g1 ∧ currentTet g1 = Some c
    ∧ landed g1 = landed g ∧ updateLanded g1 = updateLanded g.
Proof.
  intros Hw Hn H3. unfold spawn. rewrite Hn. cbn [mbind option_bind].
  destruct (newTet g) eqn:Hnew.
  - destruct (Tet_new_tetOk None r3 H3) as (t & -> & Hok & Hp); [done|].
    cbn [mbind option_bind]. rewrite Hn.
    pose proof (wf_currentTet g n Hw Hn) as Hwc.
    pose proof (wf_next _ t Hwc Hok Hp) as Hwn.
    exists (set_newTet false
              (set_nextTet (Some (alloc t (set_currentTet (Some n) g)).1)
                 (alloc t (set_currentTet (Some n) g)).2)), n.
    split; [done|]. split; [exact Hwn|]. done.
  - destruct (currentTet g) as [c|] eqn:Hc.
    + exists (set_newTet false g), c. simpl. rewrite Hc.
      split; [done|]. split; [exact Hw|]. done.
    + exists (set_currentTet (Some n) (set_newTet false g)), n. simpl.
      rewrite Hc, Hn. split; [done|]. split; [|done].
      apply wf_currentTet; [exact Hw|done].
Qed.

Lemma spawn_wf g r1 r2 r3 :
  wf g → isDraw r1 → isDraw r2 → isDraw r3 →
  ∃ g1 c, spawn g r1 r2 r3 = Some g1 ∧ wf g1 ∧ currentTet g1 = Some c
    ∧ landed g1 = landed g ∧ updateLanded g1 = updateLanded g.
Proof.
  intros Hw H1 H2 H3.
  destruct (nextTet g) as [n|] eqn:Hn; [by apply (spawn_later g r1 r2 r3 n)|].
  destruct (Tet_new_tetOk
              (Some (if (r1 =? 4) || (r1 =? 6) then r1 - 1 else r1)) r2 H2)
    as (t & Ht & Hok & Hp).
  { intros t [= <-]. apply isDraw_cases in H1.
    destruct H1 as [->|[->|[->|[->|[->|[->| ->]]]]]]; unfold isDraw; simpl; lia. }
  rewrite (spawn_first g r1 r2 r3 t Hn Ht).
  pose proof (wf_next g t Hw Hok Hp) as Hwn.
  destruct (spawn_later _ r1 r2 r3 (alloc t g).1 Hwn eq_refl H3)
    as (g1 & c & -> & Hw1 & Hc1 & Hl1 & Hu1).
  by exists g1, c.
Qed.

Lemma createTet_wf g r1 r2 r3 :
  wf g → isDraw r1 → isDraw r2 → isDraw r3 →
  ∃ g', createTet g r1 r2 r3 = Some g' ∧ wf g' ∧ cacheSized g'.
Proof.
  intros Hw H1 H2 H3.
  destruct (spawn_wf g r1 r2 r3 Hw H1 H2 H3) as (g1 & c & Hsp & Hw1 & Hc & _).
  unfold createTet. rewrite Hsp. simpl. rewrite Hc. simpl.
  pose proof Hw1 as [Hh1 (Ha1 & Hm1 & Hc1 & Hn1)].
  destruct (Hc1 c Hc) as (t & Ht & Hp). rewrite Ht. simpl.
  pose proof (wf_tetOk _ _ _ Hw1 Ht) as (_ & Hr & _).
  destruct (doesTetCollideBot_total g1 c t (topLeft t) Hw1 Ht Hr)
    as (l & b & -> & Hbl & _).
  simpl. pose proof (buildLanded_grid _ _ _ Hbl) as [Hl _].
  destruct b.
  - eexists. split; [done|]. split; [|by right].
    split; [done|]. split; [done|]. split; [done|]. split; [done|].
    simpl. intros c' Hc'. apply Hc1. congruence.
  - set (g2 := set_allTets _ _).
    assert (wf g2) as Hw2.
    { split; [done|]. split; [|done]. simpl. apply Forall_app.
      split; [done|]. apply Forall_singleton. by eapply lookup_lt_Some. }
    destruct (draw_wf g2 Hw2) as (g' & -> & Hw' & Hs' & _); [by right|].
    by exists g'.
Qed.

Lemma wf_loop b g : wf g → wf (set_loop b g).
Proof. done. Qed.

Lemma wf_paused b g : wf g → wf (set_paused b g).
Proof. done. Qed.

(** Every handler returns on a well-formed state, and leaves one. *)
Lemma step_wf g e :
  wf g → cacheSized g → eventOk e → enabled g e →
  ∃ g', step g e = Some g' ∧ wf g' ∧ cacheSized g'.
Proof.
  intros Hw Hs He Hen. pose proof Hw as [Hh (Ha & Hm & Hc & Hn)].
  destruct e as [| | | | |r1 r2 r3|k]; simpl.
  - unfold onKeyUp. destruct (canTetMove g); [|by exists g].
    destruct (currentTet g) as [c|] eqn:Hcc; [|by exists g].
    destruct (Hc c eq_refl) as (t & Ht & Hp).
    destruct (rotate_wf g c t Hw Hs Ht Hp) as (g1 & b & -> & Hw1 & Hs1).
    simpl. destruct (draw_wf g1 Hw1 Hs1) as (g' & -> & ? & ? & _).
    by exists g'.
  - unfold onKeyLeft. destruct (canTetMove g); [|by exists g].
    destruct (currentTet g) as [c|] eqn:Hcc; [|by exists g].
    destruct (Hc c eq_refl) as (t & Ht & Hp).
    destruct (moveLeft_wf g c t Hw Hs Ht) as (g1 & -> & Hw1 & Hs1).
    simpl. destruct (draw_wf g1 Hw1 Hs1) as (g' & -> & ? & ? & _).
    by exists g'.
  - unfold onKeyRight. destruct (canTetMove g); [|by exists g].
    destruct (currentTet g) as [c|] eqn:Hcc; [|by exists g].
    destruct (Hc c eq_refl) as (t & Ht & Hp).
    destruct (moveRight_wf g c t Hw Hs Ht) as (g1 & -> & Hw1 & Hs1).
    simpl. destruct (draw_wf g1 Hw1 Hs1) as (g' & -> & ? & ? & _).
    by exists g'.
  - unfold onKeyDown. destruct (canTetMove g); [|by exists g].
    destruct (currentTet g) as [c|] eqn:Hcc; [|by exists g].
    destruct (Hc c eq_refl) as (t & Ht & Hp).
    set (g0 := if newTet g then g else set_loop false g).
    assert (wf g0 ∧ heap g0 !! c = Some t) as [Hw0 Ht0]
      by (unfold g0; by destruct (newTet g)).
    destruct (moveDown_wf g0 c t Hw0 Ht0) as (g1 & -> & Hw1 & Hs1).
    simpl. destruct (draw_wf g1 Hw1 Hs1) as (g2 & -> & Hw2 & Hs2 & _).
    simpl. eexists. split; [done|].
    destruct (negb (newTet g) && negb (paused g2)); done.
  - unfold onKeyP. destruct (gameOver g); [by exists g|].
    destruct (negb (paused g)).
    + destruct (draw_wf (set_paused true (set_loop false g)))
        as (g' & -> & ? & ? & _); [done|done|]. by exists g'.
    + destruct (draw_wf (set_paused false (tetDownLoop g)))
        as (g' & -> & ? & ? & _); [done|done|]. by exists g'.
  - unfold onTick. simpl in Hen. rewrite Hen. simpl.
    destruct He as (H1 & H2 & H3).
    assert (∃ g1, (if newTet g then createTet g r1 r2 r3
                   else match paused g, currentTet g with
                        | false, Some c => moveDown g c
                        | _, _ => Some g
                        end) = Some g1 ∧ wf g1 ∧ cacheSized g1)
      as (g1 & -> & Hw1 & Hs1).
    { destruct (newTet g); [by apply createTet_wf|].
      destruct (paused g); [by exists g|].
      destruct (currentTet g) as [c|] eqn:Hcc; [|by exists g].
      destruct (Hc c eq_refl) as (t & Ht & Hp).
      by apply (moveDown_wf g c t). }
    simpl. destruct (draw_wf g1 Hw1 Hs1) as (g' & -> & ? & ? & _).
    by exists g'.
  - unfold onMoveTick. simpl in Hen.
    destruct (lookup_lt_is_Some_2 _ _ Hen) as [that Hthat]. rewrite Hthat.
    simpl.
    destruct (settleRound_wf g Hw) as (g1 & mv & -> & Hw1 & Hl1 & Hm1 & Hu1).
    simpl.
    destruct (draw_wf g1 Hw1) as (g2 & -> & Hw2 & Hs2 & Hce); [by left|].
    simpl. destruct mv; [|by exists g2].
    assert (heap g2 = heap g1 ∧ moveLoops g2 = moveLoops g1) as [Hh2 Hm2]
      by (by destruct Hce as (u & l & ->)).
    destruct (collided_wf (set_moveLoops (delete k (moveLoops g2)) g2) that)
      as (g' & -> & Hw' & Hu').
    + destruct Hw2 as [Hh' (Ha' & Hm' & Hc' & Hn')].
      split; [done|]. split; [done|]. split; [|done].
      simpl. by apply Forall_delete.
    + exact Hs2.
    + simpl. rewrite Hh2, Hl1. rewrite Forall_forall in Hm. apply Hm.
      by eapply list_elem_of_lookup_2.
    + exists g'. split; [done|]. split; [done|by left].
Qed.

Lemma newGame_wf : wf (newGame false).
Proof.
  split; [by apply Forall_nil|].
  split; [by apply Forall_nil|]. split; [by apply Forall_nil|]. done.
Qed.

Lemma reachable_wf g : reachable g → wf g ∧ cacheSized g.
Proof.
  induction 1 as [r1 r2 r3 g H1 H2 H3 Hg|g e g' Hr [Hw Hs] He Hst].
  - destruct (createTet_wf (newGame false) r1 r2 r3 newGame_wf H1 H2 H3)
      as (g' & Hg' & Hw & Hs).
    unfold Game_new in Hg. rewrite Hg' in Hg. by injection Hg as <-.
  - assert (enabled g e) as Hen.
    { destruct e as [| | | | |r1 r2 r3|k]; simpl; try done.
      - simpl in Hst. unfold onTick in Hst. by destruct (loop g).
      - simpl in Hst. unfold onMoveTick in Hst.
        destruct (moveLoops g !! k) eqn:Hk; [|done].
        by eapply lookup_lt_Some. }
    destruct (step_wf g e Hw Hs He Hen) as (g'' & Hst' & Hw' & Hs').
    rewrite Hst in Hst'. by injection Hst' as <-.
Qed.

Lemma enabled_step g e g' : step g e = Some g' → enabled g e.
Proof.
  destruct e as [| | | | |r1 r2 r3|k]; simpl; try done.
  - unfold onTick. by destruct (loop g).
  - unfold onMoveTick. destruct (moveLoops g !! k) eqn:Hk; [|done].
    intros _. by eapply lookup_lt_Some.
Qed.

(** X21.  In every state of a game, each block of each Tet, landed, falling
    or waiting as the next one, lies on one of the 16 rows of the board. *)
Theorem blocks_stay_on_rows g i t r c :
  reachable g → heap g !! i = Some t → occupies t r c = true →
  0 <= r < BOARD_ROW_NUM.
Proof.
  intros Hr Ht Ho. apply reachable_wf in Hr as [Hw _].
  pose proof (wf_tetOk _ _ _ Hw Ht) as (_ & _ & Hrows & _).
  unfold occupies in Ho. apply bool_decide_eq_true in Ho.
  unfold rowsOk in Hrows. rewrite Forall_forall in Hrows.
  specialize (Hrows _ Ho). simpl in Hrows. lia.
Qed.

(** X22.  In every state of a game, the handler of an arrow key or of [p],
    and the callback of a timer that is set, returns (the canvas calls of
    [draw] and its shadow loop apart): no access to [landed], to a Tet or
    to the table of shapes is made on [undefined].  The state it leaves is
    again a state of the game. *)
Theorem handlers_return g e :
  reachable g → eventOk e → enabled g e →
  ∃ g', step g e = Some g' ∧ reachable g'.
Proof.
  intros Hr He Hen. pose proof (reachable_wf g Hr) as [Hw Hs].
  destruct (step_wf g e Hw Hs He Hen) as (g' & Hst & _).
  exists g'. split; [done|]. by apply (reach_step g e).
Qed.

Lemma clearPrefix_ok : Forall eventOk clearPrefix.
Proof.
  unfold clearPrefix. repeat (apply Forall_app; split);
    try (apply Forall_forall; intros e He;
         apply elem_of_replicate in He as [-> _]; exact I);
    repeat constructor; unfold isDraw; lia.
Qed.

Lemma busyGame_reachable : reachable busyGame.
Proof.
  apply (play_reachable 1 0 1 clearPrefix);
    [unfold isDraw; lia..|exact clearPrefix_ok|exact busyGame_play].
Qed.

Lemma blocks_stay_on_rows_witness : 0 <= 15 < BOARD_ROW_NUM.
Proof.
  apply (blocks_stay_on_rows busyGame 3 busyTet 15 6).
  - exact busyGame_reachable.
  - vm_compute. reflexivity.
  - vm_compute. reflexivity.
Defined.

Lemma handlers_return_witness :
  ∃ g', step busyGame KeyDown = Some g' ∧ reachable g'.
Proof.
  apply (handlers_return busyGame KeyDown).
  - exact busyGame_reachable.
  - exact I.
  - exact I.
Defined.

Lemma cells_nil_occupies t : cells (shape t) = [] → ∀ r c, occupies t r c = false.
Proof.
  intros H r c. unfold occupies. rewrite H.
  apply bool_decide_eq_false. by intros ?%elem_of_nil.
Qed.

Lemma indexOf_nonneg x l : x ∈ l → 0 <= indexOf x l.
Proof.
  induction l as [|y l IH]; intros H; [by apply elem_of_nil in H|].
  simpl. destruct (Nat.eqb_spec y x) as [->|Hne]; [done|].
  apply elem_of_cons in H as [->|H]; [done|].
  specialize (IH H). destruct (Z.ltb_spec (indexOf x l) 0); lia.
Qed.

Lemma indexOf_notin x l : x ∉ l → indexOf x l = -1.
Proof.
  induction l as [|y l IH]; intros H; [done|]. simpl.
  apply not_elem_of_cons in H as [Hne H].
  destruct (Nat.eqb_spec y x) as [->|_]; [done|].
  by rewrite (IH H).
Qed.

Lemma indexOf_app_mid pre x post :
  x ∉ pre → indexOf x (pre ++ x :: post) = Z.of_nat (length pre).
Proof.
  induction pre as [|y pre IH]; intros H; simpl.
  - by rewrite Nat.eqb_refl.
  - apply not_elem_of_cons in H as [Hne H].
    destruct (Nat.eqb_spec y x) as [->|_]; [done|].
    rewrite (IH H). destruct (Z.ltb_spec (Z.of_nat (length pre)) 0); lia.
Qed.

(** [removeTets] removes the entries at the positions it is given, when
    these come in increasing order. *)
Lemma removeTets_elem rm : ∀ k aT x,
  StronglySorted Z.lt rm → Forall (λ p, k <= p) rm →
  x ∈ removeTets k rm aT
  ↔ ∃ q : nat, aT !! q = Some x ∧ Forall (λ p, p - k ≠ Z.of_nat q) rm.
Proof.
  induction rm as [|p rm IH]; intros k aT x Hs Hk; simpl.
  - rewrite list_elem_of_lookup. split; intros [q Hq]; exists q; [done|tauto].
  - apply StronglySorted_inv in Hs as [Hs Hp].
    apply Forall_cons in Hk as [Hkp Hk].
    rewrite IH; [|done|].
    2:{ rewrite Forall_forall in Hp. apply Forall_forall. intros p' Hp'.
        specialize (Hp _ Hp'). lia. }
    unfold splice1. destruct (Z.ltb_spec (p - k) 0) as [|_]; [lia|].
    set (d := Z.to_nat (Z.min (p - k) (Z.of_nat (length aT)))).
    rewrite Forall_forall in Hp. split.
    + intros (q' & Hq' & Hnot). destruct (decide (q' < d)%nat) as [Hlt|Hge].
      * exists q'. rewrite list_lookup_delete_lt in Hq' by done. split; [done|].
        apply Forall_cons. split; [unfold d in Hlt; lia|].
        apply Forall_forall. intros p' Hp'. specialize (Hp _ Hp').
        unfold d in Hlt. lia.
      * exists (S q'). rewrite list_lookup_delete_ge in Hq' by lia.
        pose proof (lookup_lt_Some _ _ _ Hq') as Hlen.
        split; [done|]. apply Forall_cons. split; [unfold d in Hge; lia|].
        rewrite Forall_forall in Hnot. apply Forall_forall. intros p' Hp'.
        specialize (Hnot _ Hp'). lia.
    + intros (q & Hq & Hnot). apply Forall_cons in Hnot as [Hne Hnot].
      pose proof (lookup_lt_Some _ _ _ Hq) as Hlen.
      destruct (decide (q < d)%nat) as [Hlt|Hge].
      * exists q. rewrite list_lookup_delete_lt by done. split; [done|].
        apply Forall_forall. intros p' Hp'. specialize (Hp _ Hp').
        unfold d in Hlt. lia.
      * assert (d < q)%nat as Hdq by (unfold d in *; lia).
        exists (pred q). rewrite list_lookup_delete_ge by lia.
        replace (S (pred q)) with q by lia. split; [done|].
        rewrite Forall_forall in Hnot. apply Forall_forall. intros p' Hp'.
        specialize (Hnot _ Hp'). lia.
Qed.

Lemma removeTets_NoDup rm : ∀ k aT, NoDup aT → NoDup (removeTets k rm aT).
Proof.
  induction rm as [|p rm IH]; intros k aT H; simpl; [done|].
  apply IH. unfold splice1. eapply sublist_NoDup; [exact H|]. apply sublist_delete.
Qed.

Lemma allZero_cells s :
  Forall (λ rw, arrayIsAllZeros rw = true) s → cells s = [].
Proof.
  intros H. destruct (cells s) as [|[r c] cs] eqn:Hc; [done|].
  assert ((r, c) ∈ cells s) as Hin by (rewrite Hc; left).
  apply elem_of_cells in Hin. destruct Hin. by apply allZero_cellAt.
Qed.

Lemma occupies_cells t r c : occupies t r c = true → cells (shape t) ≠ [].
Proof.
  unfold occupies. intros H%bool_decide_eq_true Hn. rewrite Hn in H.
  by apply elem_of_nil in H.
Qed.

Lemma clean_cellOf t f f' :
  f ∈ fragments t → cleanShape f = Some f' →
  ∀ r c, cellOf f'.1 f'.2 r c = cellOf f.1 f.2 r c.
Proof.
  intros Hf Hc. pose proof (fragments_wf t) as Hwf.
  rewrite Forall_forall in Hwf.
  destruct (cleanShape_frag f (Hwf f Hf)) as (f'' & Hc' & _ & Hcell).
  rewrite Hc in Hc'. by injection Hc' as <-.
Qed.

Lemma clean_cells t f f' :
  f ∈ fragments t → cleanShape f = Some f' → cells f'.1 ≠ [].
Proof.
  intros Hf Hc. pose proof (fragments_wf t) as Hwf.
  rewrite Forall_forall in Hwf.
  destruct (wfFrag_cell f (Hwf f Hf)) as (R & C & Hne).
  rewrite <- (clean_cellOf t f f' Hf Hc) in Hne.
  unfold cellOf in Hne. apply elem_of_cells in Hne.
  intros Hn. rewrite Hn in Hne. by apply elem_of_nil in Hne.
Qed.

(** What [alterShape] does to the blocks of a Tet: those on the rows of
    [fullRows] go, the others stay where they are, on the Tet itself and
    on the new Tets. *)
Lemma alterShape_cells g i t fullRows g1 :
  heap g !! i = Some t → alterShape g i fullRows = Some g1 →
  ∃ k : nat,
    allTets g1 = allTets g ++ seq (length (heap g)) k
    ∧ length (heap g1) = (length (heap g) + k)%nat
    ∧ (∀ j, j ≠ i → (j < length (heap g))%nat → heap g1 !! j = heap g !! j)
    ∧ (∃ t1, heap g1 !! i = Some t1
         ∧ ((cells (shape t1) = [] ∧ k = 0%nat
             ∧ tetsToRemove g1 = tetsToRemove g ++ [indexOf i (allTets g)])
            ∨ (cells (shape t1) ≠ [] ∧ tetsToRemove g1 = tetsToRemove g)))
    ∧ (∀ j tj, j ∈ seq (length (heap g)) k → heap g1 !! j = Some tj →
         cells (shape tj) ≠ [])
    ∧ (∀ r c,
         (∃ j tj, j ∈ i :: seq (length (heap g)) k
                  ∧ heap g1 !! j = Some tj ∧ occupies tj r c = true)
         ↔ occupies t r c = true ∧ r ∉ fullRows)
    ∧ nextTet g1 = nextTet g ∧ currentTet g1 = currentTet g.
Proof.
  intros Ht Ha. pose proof (lookup_lt_Some _ _ _ Ht) as Hlt.
  unfold alterShape in Ha. rewrite Ht in Ha. cbn [mbind option_bind] in Ha.
  fold (zeroedShape t fullRows) in Ha.
  set (t0 := set_shape (zeroedShape t fullRows) t) in *.
  assert (heap (setTet i t0 g) !! i = Some t0) as Ht0
    by (by apply (heap_setTet_eq _ _ t)).
  assert (∀ r c, cellOf (shape t0) (topLeft t0) r c ≠ 0%nat
                 ↔ occupies t r c = true ∧ r ∉ fullRows) as Hz.
  { intros r c. unfold t0. simpl. rewrite cellOf_zeroed, occupies_cellOf.
    case_bool_decide; [split; [done|tauto]|tauto]. }
  destruct (updateTet_inv _ _ _ Ht0)
    as [[Hfr Hu]|(o & q & f0 & news & Hfr & Ho & Hq & Hu)];
    rewrite Hu in Ha; injection Ha as <-.
  - exists 0%nat. simpl. rewrite app_nil_r, length_insert.
    pose proof (allZero_cells _ (fragments_nil_zero t0 Hfr)) as Hc0.
    split; [done|]. split; [lia|]. split.
    { intros j Hj _. by rewrite list_lookup_insert_ne. }
    split.
    { exists t0. split; [by rewrite list_lookup_insert_eq|]. by left. }
    split; [by intros j tj ?%elem_of_nil|].
    split; [|done]. intros r c. rewrite <- Hz. split.
    + intros (j & tj & Hj & Htj & Hocc).
      apply list_elem_of_singleton in Hj as ->.
      rewrite list_lookup_insert_eq in Htj by done. injection Htj as <-.
      by rewrite (cells_nil_occupies t0) in Hocc.
    + intros Hne. apply occupies_cellOf in Hne.
      by rewrite (cells_nil_occupies t0) in Hne.
  - pose proof (Forall2_length _ _ _ Hq) as Hlen.
    exists (length q). simpl. rewrite list_insert_insert_eq.
    rewrite !length_app, !length_insert.
    unfold fragmentTets at 1. rewrite length_fmap.
    split; [done|]. split; [lia|].
    set (tf := set_shape f0.1 (set_topLeft f0.2 t0)).
    assert (o ∈ fragments t0) as Hoin by (rewrite Hfr; left).
    assert (∀ r c, cellOf (shape tf) (topLeft tf) r c = cellOf o.1 o.2 r c)
      as Hcf by (intros r c; by apply (clean_cellOf t0 o f0)).
    assert (∀ (n : nat) tj,
              (<[i:=tf]> (heap g) ++ fragmentTets (type t0) news)
                !! (length (heap g) + n)%nat = Some tj →
              ∃ f f', q !! n = Some f ∧ cleanShape f = Some f'
                      ∧ tj = Tet_fragment (type t0) f'.2 f'.1) as Hnew.
    { intros n tj Hn. rewrite lookup_app_r in Hn by (rewrite length_insert; lia).
      rewrite length_insert in Hn.
      replace (length (heap g) + n - length (heap g))%nat with n in Hn by lia.
      unfold fragmentTets in Hn. rewrite list_lookup_fmap in Hn.
      destruct (news !! n) as [f'|] eqn:Hf'; simpl in Hn; [|done].
      injection Hn as <-.
      destruct (Forall2_lookup_r _ _ _ _ _ Hq Hf') as (f & Hf & Hcl).
      by exists f, f'. }
    split.
    { intros j Hj Hjl. rewrite lookup_app_l by (by rewrite length_insert).
      by rewrite list_lookup_insert_ne. }
    split.
    { exists tf. split.
      - rewrite lookup_app_l by (by rewrite length_insert).
        by rewrite list_lookup_insert_eq.
      - right. split; [|done]. by apply (clean_cells t0 o f0). }
    split.
    { intros j tj Hj Htj. apply elem_of_seq in Hj.
      replace j with (length (heap g) + (j - length (heap g)))%nat in Htj by lia.
      destruct (Hnew _ _ Htj) as (f & f' & Hf & Hcl & ->). simpl.
      apply (clean_cells t0 f f'); [|done]. rewrite Hfr. right.
      by eapply list_elem_of_lookup_2. }
    split; [|done]. intros r c. rewrite <- Hz, <- fragments_cells, Hfr.
    split.
    + intros (j & tj & Hj & Htj & Hocc). apply occupies_cellOf in Hocc.
      apply elem_of_cons in Hj as [->|Hj].
      * rewrite lookup_app_l in Htj by (by rewrite length_insert).
        rewrite list_lookup_insert_eq in Htj by done. injection Htj as <-.
        exists o. split; [by left|]. by rewrite <- Hcf.
      * apply elem_of_seq in Hj.
        replace j with (length (heap g) + (j - length (heap g)))%nat in Htj
          by lia.
        destruct (Hnew _ _ Htj) as (f & f' & Hf & Hcl & ->).
        assert (f ∈ fragments t0) as Hfin.
        { rewrite Hfr. right. by eapply list_elem_of_lookup_2. }
        exists f. split; [by rewrite <- Hfr|].
        rewrite <- (clean_cellOf t0 f f' Hfin Hcl). exact Hocc.
    + intros (f & Hf & Hne). apply elem_of_cons in Hf as [->|Hf].
      * exists i, tf. split; [by left|]. split.
        -- rewrite lookup_app_l by (by rewrite length_insert).
           by rewrite list_lookup_insert_eq.
        -- apply occupies_cellOf. by rewrite Hcf.
      * apply list_elem_of_lookup in Hf as [n Hn].
        destruct (Forall2_lookup_l _ _ _ _ _ Hq Hn) as (f' & Hf' & Hcl).
        exists (length (heap g) + n)%nat, (Tet_fragment (type t0) f'.2 f'.1).
        split.
        { right. apply elem_of_seq. apply lookup_lt_Some in Hn. lia. }
        split.
        { rewrite lookup_app_r by (rewrite length_insert; lia).
          rewrite length_insert.
          replace (length (heap g) + n - length (heap g))%nat with n by lia.
          unfold fragmentTets. rewrite list_lookup_fmap, Hf'. done. }
        apply occupies_cellOf. simpl.
        assert (f ∈ fragments t0) as Hfin.
        { rewrite Hfr. right. by eapply list_elem_of_lookup_2. }
        by rewrite (clean_cellOf t0 f f' Hfin Hcl).
Qed.

Lemma StronglySorted_head_last (l : list Z) :
  StronglySorted Z.lt l → ∀ r, r ∈ l →
  ∃ a b, head l = Some a ∧ last l = Some b ∧ a <= r <= b.
Proof.
  induction 1 as [|x l Hs IH Hx]; intros r Hr; [by apply elem_of_nil in Hr|].
  rewrite Forall_forall in Hx.
  destruct l as [|y l].
  - apply list_elem_of_singleton in Hr as ->. exists x, x. simpl.
    split; [done|]. split; [done|lia].
  - assert (∃ r', r' ∈ y :: l ∧ r <= r' ∧ (r = x ∨ r = r')) as (r' & Hr' & Hle & Hc).
    { apply elem_of_cons in Hr as [->|Hr].
      - exists y. split; [left|]. specialize (Hx y ltac:(left)). lia.
      - exists r. split; [done|]. lia. }
    destruct (IH r' Hr') as (a & b & Ha & Hb & Hab).
    simpl in Ha. injection Ha as <-.
    exists x, b. split; [done|]. split; [exact Hb|].
    specialize (Hx y ltac:(left)). lia.
Qed.

(** A Tet [alterShapes] passes over has no block on a full row. *)
Lemma passedOver_rows fullRows t r c :
  StronglySorted Z.lt fullRows → tetOk t →
  passedOver fullRows t = true → occupies t r c = true → r ∉ fullRows.
Proof.
  intros Hs (_ & _ & _ & Hk & _) Hp Ho Hr.
  destruct (StronglySorted_head_last _ Hs _ Hr) as (a & b & Ha & Hb & Hab).
  unfold passedOver in Hp. rewrite Ha, Hb in Hp. simpl in Hp.
  unfold occupies in Ho. apply bool_decide_eq_true in Ho.
  destruct Hk as [Hk|Hz].
  - pose proof (periShapes_rows _ Hk) as Hrows.
    rewrite Forall_forall in Hrows. specialize (Hrows _ Ho).
    apply cells_nonneg in Ho. simpl in *.
    apply orb_true_iff in Hp as [Hp|Hp]; lia.
  - rewrite (allZero_cells _ Hz) in Ho. by apply elem_of_nil in Ho.
Qed.

Lemma wf_listed g i : wf g → i ∈ allTets g → (i < length (heap g))%nat.
Proof.
  intros [_ (Ha & _)] Hi. rewrite Forall_forall in Ha. by apply Ha.
Qed.

(** The first loop of [alterShapes], from any point of it: [pre] are the
    entries of [allTets] already seen, [aT] those to come, [ext] the
    fragments added so far. *)
Lemma alterEach_cells fullRows (Hs : StronglySorted Z.lt fullRows) :
  ∀ aT g pre ext g',
  wf g → allTets g = pre ++ aT ++ ext → NoDup (allTets g) →
  alterEach g (head fullRows) (last fullRows) fullRows aT = Some g' →
  ∃ extra rmNew,
    allTets g' = allTets g ++ extra
    ∧ NoDup (allTets g')
    ∧ (length (heap g) <= length (heap g'))%nat
    ∧ Forall (λ e, (length (heap g) <= e)%nat) extra
    ∧ tetsToRemove g' = tetsToRemove g ++ rmNew
    ∧ StronglySorted Z.lt rmNew
    ∧ Forall (λ p, ∃ (n : nat) i t,
                p = Z.of_nat (length pre + n) ∧ aT !! n = Some i
                ∧ heap g' !! i = Some t ∧ cells (shape t) = []) rmNew
    ∧ (∀ j, j ∉ aT → (j < length (heap g))%nat → heap g' !! j = heap g !! j)
    ∧ (∀ r c,
         (∃ i t', i ∈ aT ++ extra ∧ heap g' !! i = Some t'
                  ∧ occupies t' r c = true)
         ↔ (∃ i t, i ∈ aT ∧ heap g !! i = Some t
                   ∧ occupies t r c = true ∧ r ∉ fullRows))
    ∧ (∀ e t, e ∈ extra → heap g' !! e = Some t → cells (shape t) ≠ [])
    ∧ (∀ (n : nat) i t',
         aT !! n = Some i → heap g' !! i = Some t' → cells (shape t') = [] →
         Z.of_nat (length pre + n) ∈ rmNew ∨ heap g !! i = Some t')
    ∧ wf g' ∧ nextTet g' = nextTet g ∧ currentTet g' = currentTet g.
Proof.
  induction aT as [|i aT IH]; intros g pre ext g' Hw Hall Hnd H; simpl in H.
  { injection H as <-. exists [], []. rewrite !app_nil_r.
    split_and!; try done; [constructor| |].
    - intros r c. split.
      + by intros (i & t' & ?%elem_of_nil & _).
      + by intros (i & t & ?%elem_of_nil & _).
    - by intros e t ?%elem_of_nil. }
  assert (i ∈ allTets g) as Hil.
  { rewrite Hall. apply elem_of_app. right. left. }
  pose proof (wf_listed g i Hw Hil) as Hlt.
  destruct (lookup_lt_is_Some_2 _ _ Hlt) as [t Ht]. rewrite Ht in H.
  cbn [mbind option_bind] in H.
  fold (passedOver fullRows t) in H.
  pose proof (wf_tetOk _ _ _ Hw Ht) as Hok.
  assert ((i ∉ pre) ∧ (i ∉ aT)) as [Hipre Hiat].
  { rewrite Hall in Hnd. apply NoDup_app in Hnd as (_ & Hd & Hnd2).
    simpl in Hnd2. apply NoDup_cons in Hnd2 as [Hn2 _]. split.
    - intros Hin. apply (Hd i Hin). left.
    - intros Hin. apply Hn2. apply elem_of_app. by left. }
  assert (∀ x, x ∈ aT → x ≠ i) as Hne by (intros x Hx ->; done).
  destruct (passedOver fullRows t) eqn:Hpass.
  - destruct (IH g (pre ++ [i]) ext g' Hw) as (extra & rmNew & H1 & H2 & H3
      & H4 & H5 & H6 & H7 & H8 & H9 & H10 & H11 & H12 & H13 & H14);
      [by rewrite <- app_assoc|done|done|].
    assert (heap g' !! i = Some t) as Hti by (by rewrite H8).
    exists extra, rmNew. split_and!; try done.
    + eapply Forall_impl; [exact H7|]. simpl.
      intros p (n & j & tj & -> & Hn & Hj & Hc).
      exists (S n), j, tj. split; [rewrite length_app; simpl; lia|done].
    + intros j Hj Hjl. apply H8; [|done].
      intros Hin. apply Hj. by right.
    + intros r c. split.
      * intros (j & tj & Hj & Htj & Ho).
        simpl in Hj. apply elem_of_cons in Hj as [->|Hj].
        -- rewrite Hti in Htj. injection Htj as <-.
           exists i, t. split; [left|]. split; [done|]. split; [done|].
           by apply (passedOver_rows fullRows t r c).
        -- destruct (proj1 (H9 r c)) as (j' & t' & Hj' & Ht' & Ho' & Hr');
             [by exists j, tj|].
           exists j', t'. split; [by right|done].
      * intros (j & tj & Hj & Htj & Ho & Hr).
        apply elem_of_cons in Hj as [->|Hj].
        -- exists i, t. split; [left|]. rewrite Ht in Htj.
           injection Htj as <-. done.
        -- destruct (proj2 (H9 r c)) as (j' & t' & Hj' & Ht' & Ho');
             [by exists j, tj|].
           exists j', t'. split; [by right|done].
    + intros n j t' Hn Hj Hc. destruct n as [|n]; simpl in Hn.
      * injection Hn as <-. right. by rewrite <- H8.
      * destruct (H11 n j t' Hn Hj Hc) as [Hin|Hu]; [|by right].
        left. rewrite length_app in Hin. simpl in Hin.
        by replace (length pre + S n)%nat with (length pre + 1 + n)%nat by lia.
  - destruct (alterShape g i fullRows) as [g1|] eqn:Ha; simpl in H; [|done].
    destruct (alterShape_wf g i t fullRows Hw Ht) as (g1' & Ha' & Hw1 & _).
    rewrite Ha in Ha'. injection Ha' as <-.
    destruct (alterShape_cells g i t fullRows g1 Ht Ha)
      as (k & A1 & A2 & A3 & (t1 & Ht1 & A4) & A5 & A6 & A7 & A8).
    assert (NoDup (allTets g1)) as Hnd1.
    { rewrite A1. apply NoDup_app. split; [done|]. split; [|apply NoDup_seq].
      intros x Hx Hx'. apply elem_of_seq in Hx'.
      pose proof (wf_listed g x Hw Hx). lia. }
    destruct (IH g1 (pre ++ [i]) (ext ++ seq (length (heap g)) k) g' Hw1)
      as (extra & rmNew & H1 & H2 & H3 & H4 & H5 & H6 & H7 & H8 & H9 & H10
          & H11 & H12 & H13 & H14);
      [by rewrite A1, Hall, <- !app_assoc|done|done|].
    assert (∀ x, x ∈ aT → (x < length (heap g))%nat) as Hatl.
    { intros x Hx. apply (wf_listed g x Hw). rewrite Hall.
      apply elem_of_app. right. right. apply elem_of_app. by left. }
    assert (∀ j, j ∈ i :: seq (length (heap g)) k →
                 heap g' !! j = heap g1 !! j) as Hsame.
    { intros j Hj. apply H8.
      - apply elem_of_cons in Hj as [->|Hj]; [done|].
        apply elem_of_seq in Hj. intros Hin. specialize (Hatl j Hin). lia.
      - apply elem_of_cons in Hj as [->|Hj]; [lia|].
        apply elem_of_seq in Hj. lia. }
    assert (heap g' !! i = Some t1) as Hti by (rewrite Hsame; [done|left]).
    assert (indexOf i (allTets g) = Z.of_nat (length pre)) as Hidx.
    { rewrite Hall. by apply indexOf_app_mid. }
    assert (Forall (λ p, Z.of_nat (length pre) < p) rmNew) as Hbig.
    { eapply Forall_impl; [exact H7|]. simpl.
      intros p (n & _ & _ & -> & _). rewrite length_app. simpl. lia. }
    assert (Forall (λ p, ∃ (n : nat) j tj,
                      p = Z.of_nat (length pre + n) ∧ (i :: aT) !! n = Some j
                      ∧ heap g' !! j = Some tj ∧ cells (shape tj) = []) rmNew)
      as H7'.
    { eapply Forall_impl; [exact H7|]. simpl.
      intros p (n & j & tj & -> & Hn & Hj & Hc).
      exists (S n), j, tj. split; [rewrite length_app; simpl; lia|done]. }
    set (rm0 := if decide (cells (shape t1) = [])
                then [indexOf i (allTets g)] else []).
    assert (tetsToRemove g1 = tetsToRemove g ++ rm0) as A4'.
    { unfold rm0. destruct A4 as [(Hc & _ & ->)|(Hc & ->)]; case_decide;
        try done. by rewrite app_nil_r. }
    exists (seq (length (heap g)) k ++ extra), (rm0 ++ rmNew).
    split_and!.
    + by rewrite H1, A1, <- app_assoc.
    + done.
    + lia.
    + apply Forall_app. split.
      * apply Forall_forall. intros e He. apply elem_of_seq in He. lia.
      * eapply Forall_impl; [exact H4|]. simpl. intros; lia.
    + by rewrite H5, A4', <- app_assoc.
    + unfold rm0. case_decide; simpl; [|done].
      constructor; [done|]. by rewrite Hidx.
    + unfold rm0. case_decide; simpl; [|done].
      constructor; [|done]. exists 0%nat, i, t1.
      split; [rewrite Hidx; lia|done].
    + intros j Hj Hjl. rewrite H8.
      * apply A3; [|done]. intros ->. apply Hj. left.
      * intros Hin. apply Hj. by right.
      * lia.
    + intros r c. split.
      * intros (j & tj & Hj & Htj & Ho).
        assert (j ∈ i :: seq (length (heap g)) k ∨ j ∈ aT ++ extra) as [Hj'|Hj'].
        { clear -Hj. set_solver. }
        -- rewrite (Hsame j Hj') in Htj.
           destruct (proj1 (A6 r c)) as [Ho' Hr']; [by exists j, tj|].
           exists i, t. split; [left|done].
        -- destruct (proj1 (H9 r c)) as (j' & t' & Hin' & Ht' & Ho' & Hr');
             [by exists j, tj|].
           exists j', t'. split; [by right|].
           rewrite <- A3; [done|by apply Hne|by apply Hatl].
      * intros (j & tj & Hj & Htj & Ho & Hr).
        apply elem_of_cons in Hj as [->|Hj].
        -- rewrite Ht in Htj. injection Htj as <-.
           destruct (proj2 (A6 r c)) as (j' & t' & Hj' & Ht' & Ho'); [done|].
           exists j', t'. rewrite (Hsame j' Hj'). split; [|done].
           clear -Hj'. set_solver.
        -- destruct (proj2 (H9 r c)) as (j' & t' & Hj' & Ht' & Ho').
           { exists j, tj. split; [done|].
             rewrite A3; [done|by apply Hne|by apply Hatl]. }
           exists j', t'. split; [|done].
           clear -Hj'. set_solver.
    + intros e te He Hte. apply elem_of_app in He as [He|He].
      * rewrite Hsame in Hte by (by right). by apply (A5 e te).
      * by apply (H10 e te).
    + intros n j t' Hn Hj Hc. destruct n as [|n]; simpl in Hn.
      * injection Hn as <-. rewrite Hti in Hj. injection Hj as <-.
        left. unfold rm0. rewrite decide_True by done.
        simpl. apply elem_of_cons. left. rewrite Hidx. f_equal. lia.
      * destruct (H11 n j t' Hn Hj Hc) as [Hin|Hu].
        -- left. apply elem_of_app. right. rewrite length_app in Hin.
           simpl in Hin.
           by replace (length pre + S n)%nat with (length pre + 1 + n)%nat
             by lia.
        -- right. assert (j ∈ aT) as Hjin by (by eapply list_elem_of_lookup_2).
           rewrite <- A3; [done|by apply Hne|by apply Hatl].
    + done.
    + congruence.
    + congruence.
Qed.

Lemma alterShapes_spec g fullRows g' :
  wf g → NoDup (allTets g) → tetsToRemove g = [] →
  StronglySorted Z.lt fullRows →
  alterShapes g fullRows = Some g' →
  (∀ r c, blockAt g' r c ↔ blockAt g r c ∧ r ∉ fullRows)
  ∧ NoDup (allTets g') ∧ tetsToRemove g' = []
  ∧ ((∀ i t, i ∈ allTets g → heap g !! i = Some t → cells (shape t) ≠ []) →
     ∀ i t, i ∈ allTets g' → heap g' !! i = Some t → cells (shape t) ≠ [])
  ∧ (∀ x, x ∈ allTets g' → x ∈ allTets g ∨ (length (heap g) <= x)%nat)
  ∧ (∀ j, j ∉ allTets g → (j < length (heap g))%nat →
       heap g' !! j = heap g !! j)
  ∧ nextTet g' = nextTet g ∧ currentTet g' = currentTet g.
Proof.
  intros Hw Hnd Hrm Hs H. unfold alterShapes in H.
  destruct (alterEach g _ _ fullRows (allTets g)) as [g1|] eqn:He;
    simpl in H; [|done].
  injection H as <-.
  destruct (alterEach_cells fullRows Hs (allTets g) g [] [] g1 Hw)
    as (extra & rmNew & H1 & H2 & H3 & H4 & H5 & H6 & H7 & H8 & H9 & H10
        & H11 & H12 & H13 & H14); [by rewrite app_nil_r|done|done|].
  rewrite Hrm in H5. simpl in H5. simpl.
  assert (∀ x, x ∈ removeTets 0 (tetsToRemove g1) (allTets g1)
             ↔ ∃ q : nat, allTets g1 !! q = Some x
                          ∧ Forall (λ p, p ≠ Z.of_nat q) rmNew) as Hrem.
  { intros x. rewrite removeTets_elem.
    - rewrite H5. split; intros (q & Hq & Hf); exists q; (split; [done|]);
        (eapply Forall_impl; [exact Hf|]); simpl; intros; lia.
    - by rewrite H5.
    - rewrite H5. eapply Forall_impl; [exact H7|]. simpl.
      intros p (n & _ & _ & -> & _). lia. }
  assert (∀ x tx (q : nat),
            allTets g1 !! q = Some x → heap g1 !! x = Some tx →
            cells (shape tx) ≠ [] → Forall (λ p, p ≠ Z.of_nat q) rmNew)
    as Hkeep.
  { intros x tx q Hq Htx Hc. eapply Forall_impl; [exact H7|]. simpl.
    intros p (n & j & tj & -> & Hn & Hj & Hcj) Heq. simpl in Heq.
    assert (q = n) as -> by lia.
    rewrite H1, lookup_app_l in Hq by (by eapply lookup_lt_Some).
    rewrite Hn in Hq. injection Hq as <-. rewrite Hj in Htx.
    injection Htx as <-. done. }
  split_and!.
  - intros r c. unfold blockAt. simpl. split.
    + intros (x & tx & Hx & Htx & Ho).
      apply Hrem in Hx as (q & Hq & _).
      apply list_elem_of_lookup_2 in Hq. rewrite H1 in Hq.
      destruct (proj1 (H9 r c)) as (j & tj & Hj & Htj & Hoj & Hr);
        [by exists x, tx|].
      split; [by exists j, tj|done].
    + intros [(j & tj & Hj & Htj & Hoj) Hr].
      destruct (proj2 (H9 r c)) as (x & tx & Hx & Htx & Ho);
        [by exists j, tj|].
      exists x, tx. split; [|done]. rewrite <- H1 in Hx.
      apply list_elem_of_lookup in Hx as [q Hq].
      apply Hrem. exists q. split; [done|].
      apply (Hkeep x tx q Hq Htx). by eapply occupies_cells.
  - by apply removeTets_NoDup.
  - done.
  - intros HK x tx Hx Htx Hc.
    apply Hrem in Hx as (q & Hq & Hf).
    pose proof Hq as Hq'. rewrite H1 in Hq'.
    destruct (decide (q < length (allTets g))%nat) as [Hlt|Hge].
    + rewrite lookup_app_l in Hq' by done.
      destruct (H11 q x tx Hq' Htx Hc) as [Hin|Hu].
      * rewrite Forall_forall in Hf. by apply (Hf _ Hin).
      * apply (HK x tx); [by eapply list_elem_of_lookup_2|done|done].
    + rewrite lookup_app_r in Hq' by lia.
      apply list_elem_of_lookup_2 in Hq'. by apply (H10 x tx).
  - intros x Hx. apply Hrem in Hx as (q & Hq & _).
    apply list_elem_of_lookup_2 in Hq. rewrite H1 in Hq.
    apply elem_of_app in Hq as [Hq|Hq]; [by left|right].
    rewrite Forall_forall in H4. by apply H4.
  - done.
  - done.
  - done.
Qed.

Lemma alterShapes_removed g fullRows g' :
  wf g → NoDup (allTets g) → tetsToRemove g = [] →
  StronglySorted Z.lt fullRows →
  alterShapes g fullRows = Some g' →
  ∀ i t, i ∈ allTets g → i ∉ allTets g' → heap g' !! i = Some t →
         cells (shape t) = [].
Proof.
  intros Hw Hnd Hrm Hs H. unfold alterShapes in H.
  destruct (alterEach g _ _ fullRows (allTets g)) as [g1|] eqn:He;
    simpl in H; [|done].
  injection H as <-.
  destruct (alterEach_cells fullRows Hs (allTets g) g [] [] g1 Hw)
    as (extra & rmNew & H1 & H2 & H3 & H4 & H5 & H6 & H7 & _);
    [by rewrite app_nil_r|done|done|].
  rewrite Hrm in H5. simpl in H5. simpl.
  intros i t Hi Hout Ht.
  apply list_elem_of_lookup in Hi as [q Hq].
  destruct (decide (Z.of_nat q ∈ rmNew)) as [Hin|Hnin].
  - rewrite Forall_forall in H7.
    destruct (H7 _ Hin) as (n & j & tj & Hn & Hj & Htj & Hc).
    simpl in Hn. assert (n = q) as -> by lia.
    rewrite Hq in Hj. injection Hj as <-. rewrite Ht in Htj.
    by injection Htj as <-.
  - exfalso. apply Hout. rewrite removeTets_elem.
    + exists q. split.
      * rewrite H1. by apply lookup_app_l_Some.
      * rewrite H5. apply Forall_forall. intros p Hp Heq. apply Hnin.
        by replace (Z.of_nat q) with p by lia.
    + by rewrite H5.
    + rewrite H5. eapply Forall_impl; [exact H7|]. simpl.
      intros p (n & _ & _ & -> & _). lia.
Qed.

(** X23.  [alterShapes] clears the rows it is given and nothing else: a cell
    holds a block of a listed Tet afterwards exactly when it held one
    before and its row is not one of [fullRows].  Afterwards [allTets] has
    no duplicate and holds Tets it held before and new ones, the
    fragments, and [tetsToRemove] is empty again.  A Tet taken out of
    [allTets] has no block left, and when every listed Tet had a block
    before, every Tet still listed has one: the Tets left without a block
    are the ones taken out of [allTets]. *)
Theorem alterShapes_clears g fullRows g' :
  wf g → NoDup (allTets g) → tetsToRemove g = [] →
  StronglySorted Z.lt fullRows →
  alterShapes g fullRows = Some g' →
  (∀ r c, blockAt g' r c ↔ blockAt g r c ∧ r ∉ fullRows)
  ∧ NoDup (allTets g') ∧ tetsToRemove g' = []
  ∧ (∀ i, i ∈ allTets g' → i ∈ allTets g ∨ (length (heap g) <= i)%nat)
  ∧ (∀ i t, i ∈ allTets g → i ∉ allTets g' → heap g' !! i = Some t →
            cells (shape t) = [])
  ∧ ((∀ i t, i ∈ allTets g → heap g !! i = Some t → cells (shape t) ≠ []) →
     ∀ i t, i ∈ allTets g' → heap g' !! i = Some t → cells (shape t) ≠ []).
Proof.
  intros Hw Hnd Hrm Hs H.
  destruct (alterShapes_spec g fullRows g' Hw Hnd Hrm Hs H)
    as (A1 & A2 & A3 & A4 & A5 & _).
  split_and!; try done.
  by apply (alterShapes_removed g fullRows).
Qed.

Lemma sameLists_refl g : sameLists g g.
Proof. split_and!; try done. intros i t Ht Hb. by exists t. Qed.

Lemma sameLists_trans g1 g2 g3 :
  sameLists g1 g2 → sameLists g2 g3 → sameLists g1 g3.
Proof.
  intros (A1 & A2 & A3 & A4 & A5 & A6) (B1 & B2 & B3 & B4 & B5 & B6).
  split_and!; try congruence.
  intros i t Ht Hb. destruct (A4 i t Ht Hb) as (t2 & Ht2 & Hb2).
  by apply (B4 i t2).
Qed.

Lemma sameLists_cacheEq g g' : cacheEq g g' → sameLists g g'.
Proof.
  intros (u & l & ->). split_and!; try done. intros i t Ht Hb. by exists t.
Qed.

Lemma sameLists_setTet g i t t' :
  heap g !! i = Some t → (hasBlock t → hasBlock t') →
  sameLists g (setTet i t' g).
Proof.
  intros Ht Hb. split_and!; try done. intros j tj Hj Hbj. simpl.
  destruct (decide (j = i)) as [->|Hne].
  - exists t'. rewrite list_lookup_insert_eq by (by eapply lookup_lt_Some).
    split; [done|]. apply Hb. congruence.
  - exists tj. by rewrite list_lookup_insert_ne.
Qed.

Lemma periShapes_cells s : s ∈ periShapes → cells s ≠ [].
Proof.
  intros Hs.
  assert (forallb (λ s, match cells s with [] => false | _ => true end)
            periShapes = true) as Hc by (vm_compute; reflexivity).
  rewrite forallb_forall in Hc. apply list_elem_of_In in Hs.
  specialize (Hc _ Hs). by destruct (cells s).
Qed.

Lemma doesTetCollideBot_sameLists g this pot g' b :
  doesTetCollideBot g this pot = Some (g', b) → sameLists g g'.
Proof.
  intros H. apply sameLists_cacheEq. by eapply doesTetCollideBot_cacheEq.
Qed.

Lemma doesTetCollideSide_sameLists g this pot d g' b :
  doesTetCollideSide g this pot d = Some (g', b) → sameLists g g'.
Proof.
  unfold doesTetCollideSide. intros H.
  destruct (getLanded g None) as [[g1 l]|] eqn:HL; simpl in H; [|done].
  apply getLanded_cacheEq in HL. apply sameLists_cacheEq in HL.
  destruct (heap g1 !! this) as [t|] eqn:Ht; simpl in H; [|done].
  destruct (sideScan _ _ _) as [hit|]; simpl in H; [|done].
  assert (sameLists g1 (setTet this (pivotIncr t) g1)) as Hp
    by (by apply (sameLists_setTet g1 this t)).
  eapply sameLists_trans; [exact HL|].
  destruct hit as [[| |]|]; injection H as <- <-;
    try apply sameLists_refl.
  - destruct (canPivot t); [done|apply sameLists_refl].
  - destruct (_ && _); [done|apply sameLists_refl].
Qed.

Lemma moveLeft_sameLists g this g' :
  moveLeft g this = Some g' → sameLists g g'.
Proof.
  unfold moveLeft. intros H.
  destruct (heap g !! this) as [t|] eqn:Ht; simpl in H; [|done].
  destruct (doesTetCollideSide _ _ _ _) as [[g1 b]|] eqn:Hs; simpl in H;
    [|done].
  apply doesTetCollideSide_sameLists in Hs.
  eapply sameLists_trans;
    [by apply (sameLists_setTet g this t (set_pivot (Some 0) t))|].
  eapply sameLists_trans; [exact Hs|].
  destruct b; [injection H as <-; apply sameLists_refl|].
  destruct (heap g1 !! this) as [t1|] eqn:Ht1; simpl in H; [|done].
  injection H as <-. by apply (sameLists_setTet g1 this t1).
Qed.

Lemma moveRight_sameLists g this g' :
  moveRight g this = Some g' → sameLists g g'.
Proof.
  unfold moveRight. intros H.
  destruct (heap g !! this) as [t|] eqn:Ht; simpl in H; [|done].
  destruct (doesTetCollideSide _ _ _ _) as [[g1 b]|] eqn:Hs; simpl in H;
    [|done].
  apply doesTetCollideSide_sameLists in Hs.
  eapply sameLists_trans; [exact Hs|].
  destruct b; [injection H as <-; apply sameLists_refl|].
  destruct (heap g1 !! this) as [t1|] eqn:Ht1; simpl in H; [|done].
  injection H as <-. by apply (sameLists_setTet g1 this t1).
Qed.

Lemma rotate_sameLists g this g' b :
  wf g → rotate g this = Some (g', b) → sameLists g g'.
Proof.
  unfold rotate. intros Hw H.
  destruct (getLanded g None) as [[g1 l]|] eqn:HL; simpl in H; [|done].
  apply getLanded_cacheEq in HL.
  pose proof (wf_cacheEq _ _ HL Hw) as Hw1.
  apply sameLists_cacheEq in HL.
  destruct (heap g1 !! this) as [t|] eqn:Ht; simpl in H; [|done].
  pose proof (wf_tetOk _ _ _ Hw1 Ht) as (Hty & _ & _ & _ & Hrot).
  unfold getShapeMatrix in H.
  destruct (catalog (type t) (nextRotation t)) as [s|] eqn:Hs; simpl in H;
    [|done].
  assert (0 <= nextRotation t <= 3) as Hnr.
  { unfold nextRotation. destruct (rotation t) as [r|]; [|lia].
    specialize (Hrot r eq_refl). destruct (Z.ltb_spec r 3); lia. }
  destruct (catalog_known _ _ Hty Hnr) as (s' & Hs' & Hin).
  rewrite Hs in Hs'. injection Hs' as <-.
  pose proof (periShapes_cells s Hin) as Hcs.
  set (t1 := set_pivotMax _ t) in *.
  assert (sameLists g1 (setTet this t1 g1)) as H1
    by (by apply (sameLists_setTet g1 this t)).
  destruct (rotScan _ _ _) as [ok|]; simpl in H; [|done].
  eapply sameLists_trans; [exact HL|].
  eapply sameLists_trans; [exact H1|].
  destruct ok; [|injection H as <- <-; apply sameLists_refl].
  destruct (commitRotation t1 _ s) as [t2|] eqn:Hc; simpl in H; [|done].
  injection H as <- <-.
  apply (sameLists_setTet _ this t1); [by apply (heap_setTet_eq _ _ t)|].
  intros _. unfold commitRotation in Hc.
  destruct (pivot t1); simpl in Hc; [|done]. by injection Hc as <-.
Qed.

Lemma draw_sameLists g g' : draw g = Some g' → sameLists g g'.
Proof. intros H. apply sameLists_cacheEq. by eapply draw_cacheEq. Qed.

Lemma settlePass_sameLists aT : ∀ g mv b g' mv' b',
  settlePass g aT mv b = Some (g', mv', b') → sameLists g g'.
Proof.
  induction aT as [|i aT IH]; intros g mv b g' mv' b' H; simpl in H.
  { injection H as <- _ _. apply sameLists_refl. }
  destruct (_ || _); [by eapply IH|].
  destruct (heap g !! i) as [t|] eqn:Ht; simpl in H; [|done].
  destruct (doesTetCollideBot _ _ _) as [[g1 b1]|] eqn:Hb; simpl in H;
    [|done].
  apply doesTetCollideBot_sameLists in Hb.
  eapply sameLists_trans; [exact Hb|].
  destruct b1; [by eapply IH|].
  destruct (heap g1 !! i) as [t1|] eqn:Ht1; simpl in H; [|done].
  eapply sameLists_trans; [|by eapply IH].
  by apply (sameLists_setTet g1 i t1).
Qed.

Lemma settleWhile_sameLists fuel : ∀ g mv g' mv',
  settleWhile fuel g mv = Some (g', mv') → sameLists g g'.
Proof.
  induction fuel as [|fuel IH]; intros g mv g' mv' H; simpl in H; [done|].
  destruct (settlePass _ _ _ _) as [[[g1 mv1] b1]|] eqn:Hp; simpl in H;
    [|done].
  apply settlePass_sameLists in Hp.
  eapply sameLists_trans; [exact Hp|].
  destruct b1.
  - eapply sameLists_trans; [|by eapply IH].
    by apply sameLists_cacheEq; exists true, (landed g1); destruct g1.
  - injection H as <- <-.
    by apply sameLists_cacheEq; exists true, (landed g1); destruct g1.
Qed.

Lemma listedOk_sameLists g g' :
  wf g → sameLists g g' → listedOk g → listedOk g'.
Proof.
  intros Hw (A1 & A2 & A3 & A4 & _) (B1 & B2 & B3 & B4).
  pose proof Hw as [_ (_ & _ & _ & Hn)].
  split_and!.
  - by rewrite A1.
  - by rewrite A2.
  - rewrite A1. intros i t' Hi Ht'.
    destruct (lookup_lt_is_Some_2 _ _ (wf_listed g i Hw Hi)) as [t Ht].
    destruct (A4 i t Ht (B3 i t Hi Ht)) as (t'' & Ht'' & Hb).
    rewrite Ht' in Ht''. by injection Ht'' as <-.
  - rewrite A1, A3. intros n Hnx. destruct (B4 n Hnx) as [Hni Hnb].
    split; [done|]. intros t' Ht'.
    destruct (Hn n Hnx) as (t & Ht & _).
    destruct (A4 n t Ht (Hnb t Ht)) as (t'' & Ht'' & Hb).
    rewrite Ht' in Ht''. by injection Ht'' as <-.
Qed.

Lemma seqZ_sorted a n : StronglySorted Z.lt (seqZ a n).
Proof.
  destruct (Z.le_gt_cases n 0) as [Hn|Hn].
  { rewrite seqZ_nil by done. constructor. }
  replace n with (Z.of_nat (Z.to_nat n)) by lia.
  generalize (Z.to_nat n). clear. intros k. revert a.
  induction k as [|k IH]; intros a; [constructor|].
  rewrite Nat2Z.inj_succ, seqZ_cons by lia. constructor.
  - replace (Z.pred (Z.succ (Z.of_nat k))) with (Z.of_nat k) by lia.
    apply IH.
  - apply Forall_forall. intros x Hx. apply elem_of_seqZ in Hx. lia.
Qed.

Lemma findFullRows_sorted l rows : ∀ fr,
  StronglySorted Z.lt rows → findFullRows l rows = Some fr →
  StronglySorted Z.lt fr ∧ ∀ r, r ∈ fr → r ∈ rows.
Proof.
  induction rows as [|r rows IH]; intros fr Hs H; simpl in H.
  { injection H as <-. split; [constructor|done]. }
  apply StronglySorted_inv in Hs as [Hs Hr].
  destruct (landedRow l r) as [lr|]; simpl in H; [|done].
  destruct (findFullRows l rows) as [fr'|]; simpl in H; [|done].
  destruct (IH fr' Hs eq_refl) as [Hs' Hsub].
  injection H as <-. destruct (rowFilled lr).
  - split.
    + constructor; [done|]. apply Forall_forall. intros x Hx.
      rewrite Forall_forall in Hr. apply Hr. by apply Hsub.
    + intros x Hx. apply elem_of_cons in Hx as [->|Hx]; [left|right].
      by apply Hsub.
  - split; [done|]. intros x Hx. right. by apply Hsub.
Qed.

Lemma collided_listed g this g' :
  wf g → listedOk g → collided g this = Some g' → listedOk g'.
Proof.
  intros Hw Hl H. unfold collided, fullRowsOf in H.
  destruct (getLanded g None) as [[g1 l]|] eqn:HL; simpl in H; [|done].
  apply getLanded_cacheEq in HL.
  pose proof (wf_cacheEq _ _ HL Hw) as Hw1.
  pose proof (listedOk_sameLists _ _ Hw (sameLists_cacheEq _ _ HL) Hl) as Hl1.
  destruct (heap g1 !! this) as [t|]; simpl in H; [|done].
  destruct (findFullRows l _) as [fr|] eqn:Hfr; simpl in H; [|done].
  apply findFullRows_sorted in Hfr as [Hs _]; [|apply seqZ_sorted].
  destruct fr as [|r fr].
  { injection H as <-. exact Hl1. }
  set (g2 := set_score _ _) in H.
  destruct (alterShapes g2 (r :: fr)) as [g3|] eqn:Ha; simpl in H; [|done].
  injection H as <-.
  destruct Hl1 as (B1 & B2 & B3 & B4).
  destruct (alterShapes_spec g2 (r :: fr) g3 Hw1 B1 B2 Hs Ha)
    as (_ & C2 & C3 & C4 & C5 & C6 & C7 & _).
  split_and!; try done.
  - by apply C4.
  - simpl. rewrite C7. intros n Hn. destruct (B4 n Hn) as [Hni Hnb].
    destruct Hw1 as [_ (_ & _ & _ & Hnx)].
    destruct (Hnx n Hn) as (tn & Htn & _).
    pose proof (lookup_lt_Some _ _ _ Htn) as Hlt. split.
    + intros Hin. destruct (C5 n Hin) as [?|Hge]; [done|].
      simpl in Hge. lia.
    + intros t' Ht'. rewrite C6 in Ht' by done. by apply Hnb.
Qed.

Lemma moveDown_listed g this g' :
  wf g → listedOk g → moveDown g this = Some g' → listedOk g'.
Proof.
  intros Hw Hl H. unfold moveDown in H.
  destruct (heap g !! this) as [t|] eqn:Ht; simpl in H; [|done].
  destruct (doesTetCollideBot _ _ _) as [[g1 b]|] eqn:Hb; simpl in H; [|done].
  pose proof (doesTetCollideBot_cacheEq _ _ _ _ _ Hb) as Hc.
  pose proof (wf_cacheEq _ _ Hc Hw) as Hw1.
  pose proof (listedOk_sameLists _ _ Hw (sameLists_cacheEq _ _ Hc) Hl) as Hl1.
  destruct b.
  - apply collided_listed in H; [done| |exact Hl1].
    destruct Hw1 as [Hh (Ha & Hm & _ & Hn)].
    split; [done|]. split; [done|]. split; [done|]. split; [done|]. done.
  - destruct (heap g1 !! this) as [t1|] eqn:Ht1; simpl in H; [|done].
    injection H as <-.
    eapply listedOk_sameLists; [exact Hw1| |exact Hl1].
    by apply (sameLists_setTet g1 this t1).
Qed.

Lemma Tet_new_hasBlock ty rnd t :
  isDraw rnd → (∀ t', ty = Some t' → isDraw t') →
  Tet_new ty rnd = Some t → hasBlock t.
Proof.
  intros Hr Hty H.
  set (ty' := match ty with
              | Some t => if negb (t =? 0) && (-1 <=? t) && (t <? 7) then t else rnd
              | None => rnd
              end).
  assert (isDraw ty') as Hd.
  { unfold ty'. destruct ty as [t0|]; [|done].
    destruct (_ && _); [by apply Hty|done]. }
  destruct (catalog_known ty' 0 Hd ltac:(lia)) as (s & Hs & Hin).
  rewrite (Tet_new_fresh ty rnd ty' eq_refl s Hs) in H. injection H as <-.
  by apply periShapes_cells.
Qed.

Lemma spawn_new g n t r1 r2 r3 :
  nextTet g = Some n → newTet g = true → Tet_new None r3 = Some t →
  spawn g r1 r2 r3
  = Some (set_newTet false
            (set_nextTet (Some (alloc t (set_currentTet (Some n) g)).1)
               (alloc t (set_currentTet (Some n) g)).2)).
Proof.
  intros Hn Hnew Ht. unfold spawn. rewrite Hn. cbn [mbind option_bind].
  rewrite Hnew, Ht. cbn [mbind option_bind]. by rewrite Hn.
Qed.

(** [createTet] when a new Tet is due and the next Tet is there. *)
Lemma createTet_listed_next g n r1 r2 r3 g' :
  wf g → listedOk g → newTet g = true → nextTet g = Some n →
  isDraw r3 → createTet g r1 r2 r3 = Some g' → listedOk g'.
Proof.
  intros Hw (B1 & B2 & B3 & B4) Hnew Hn H3 H.
  destruct (Tet_new_tetOk None r3 H3) as (t & Ht & Hok & Hp); [done|].
  pose proof (Tet_new_hasBlock None r3 t H3 ltac:(done) Ht) as Hbt.
  unfold createTet in H. rewrite (spawn_new g n t r1 r2 r3 Hn Hnew Ht) in H.
  cbn [mbind option_bind] in H.
  set (g1 := set_newTet false _) in H.
  pose proof (wf_currentTet g n Hw Hn) as Hwc.
  assert (wf g1) as Hw1 by exact (wf_next _ t Hwc Hok Hp).
  destruct (B4 n Hn) as [Hni Hnb].
  pose proof Hw as [_ (Ha & _ & _ & Hnx)].
  destruct (Hnx n Hn) as (tn & Htn & _).
  pose proof (lookup_lt_Some _ _ _ Htn) as Hlt.
  assert (heap g1 = heap g ++ [t]) as Hh1 by done.
  assert (∀ i ti, (i < length (heap g))%nat →
                  heap g1 !! i = Some ti → heap g !! i = Some ti) as Hold.
  { intros i ti Hi. rewrite Hh1, lookup_app_l by done. done. }
  change (currentTet g1) with (Some n) in H. cbn [mbind option_bind] in H.
  destruct (heap g1 !! n) as [tc|] eqn:Htc; simpl in H; [|done].
  destruct (doesTetCollideBot g1 n (topLeft tc)) as [[g2 b]|] eqn:Hb;
    simpl in H; [|done].
  pose proof (doesTetCollideBot_cacheEq _ _ _ _ _ Hb) as Hc.
  assert (listedOk g1) as Hl1.
  { split_and!; try done.
    - intros i ti Hi Hti. apply (B3 i ti Hi). apply Hold; [|done].
      by apply (wf_listed g i Hw).
    - simpl. intros m [= <-]. split.
      + intros Hin. pose proof (wf_listed g _ Hw Hin). lia.
      + intros t'. rewrite lookup_app_r by done. rewrite Nat.sub_diag.
        simpl. by intros [= <-]. }
  pose proof (listedOk_sameLists _ _ Hw1 (sameLists_cacheEq _ _ Hc) Hl1)
    as (C1 & C2 & C3 & C4).
  pose proof (wf_cacheEq _ _ Hc Hw1) as Hw2.
  assert (allTets g2 = allTets g ∧ currentTet g2 = Some n
          ∧ heap g2 = heap g ++ [t]) as (Ea & Ec & Eh)
    by (by destruct Hc as (u & l & ->)).
  assert (∀ tn', heap g2 !! n = Some tn' → hasBlock tn') as Hnb2.
  { intros tn'. rewrite Eh, lookup_app_l by done. apply Hnb. }
  destruct b.
  - injection H as <-. split_and!; try done. simpl.
    intros m Hm. rewrite Ec in Hm. injection Hm as <-.
    split; [by rewrite Ea|done].
  - set (g3 := set_allTets _ _) in H.
    assert (wf g3) as Hw3.
    { destruct Hw2 as [Hh (Ha2 & Hm2 & Hc2 & Hn2)].
      split; [done|]. split; [|done]. simpl. apply Forall_app.
      split; [done|]. apply Forall_singleton. rewrite Eh, length_app. lia. }
    apply draw_sameLists in H.
    eapply listedOk_sameLists; [exact Hw3|exact H|].
    split_and!; try done.
    + simpl. rewrite Ea. apply NoDup_app. split; [done|].
      split; [|apply NoDup_singleton].
      intros x Hx ->%list_elem_of_singleton. done.
    + simpl. intros i ti Hi Hti. apply elem_of_app in Hi as [Hi|Hi].
      * by apply (C3 i ti).
      * apply list_elem_of_singleton in Hi as ->. by apply Hnb2.
    + simpl. intros m Hm. destruct (C4 m Hm) as [Hmi Hmb].
      split; [|done]. rewrite Ea in *. intros Hin.
      apply elem_of_app in Hin as [?|Hin]; [done|].
      apply list_elem_of_singleton in Hin as ->.
      assert (nextTet g2 = Some (length (heap g))) as Hn2
        by (by destruct Hc as (u & l & ->)).
      rewrite Hn2 in Hm. injection Hm as Hm. lia.
Qed.

Lemma createTet_listed g r1 r2 r3 g' :
  wf g → listedOk g → newTet g = true →
  isDraw r1 → isDraw r2 → isDraw r3 →
  createTet g r1 r2 r3 = Some g' → listedOk g'.
Proof.
  intros Hw Hl Hnew H1 H2 H3 H.
  destruct (nextTet g) as [n|] eqn:Hn;
    [by apply (createTet_listed_next g n r1 r2 r3 g')|].
  assert (∀ t', Some (if (r1 =? 4) || (r1 =? 6) then r1 - 1 else r1) = Some t'
                → isDraw t') as Hd.
  { intros t' [= <-]. apply isDraw_cases in H1.
    destruct H1 as [->|[->|[->|[->|[->|[->| ->]]]]]]; unfold isDraw; simpl; lia. }
  destruct (Tet_new_tetOk _ r2 H2 Hd) as (t & Ht & Hok & Hp).
  pose proof (Tet_new_hasBlock _ r2 t H2 Hd Ht) as Hbt.
  unfold createTet in H. rewrite (spawn_first g r1 r2 r3 t Hn Ht) in H.
  fold (createTet (set_nextTet (Some (alloc t g).1) (alloc t g).2) r1 r2 r3)
    in H.
  apply (createTet_listed_next _ (alloc t g).1) in H; try done.
  - by apply wf_next.
  - destruct Hl as (B1 & B2 & B3 & B4). split_and!; try done.
    + simpl. intros i ti Hi Hti. apply (B3 i ti Hi).
      rewrite lookup_app_l in Hti by (by apply (wf_listed g i Hw)). done.
    + simpl. intros m [= <-]. split.
      * intros Hin. pose proof (wf_listed g _ Hw Hin). lia.
      * intros t'. rewrite lookup_app_r by done. rewrite Nat.sub_diag.
        simpl. by intros [= <-].
Qed.

Lemma listedOk_loop b g : listedOk g → listedOk (set_loop b g).
Proof. done. Qed.

Lemma step_listed g e g' :
  wf g → cacheSized g → listedOk g → eventOk e → step g e = Some g' →
  listedOk g'.
Proof.
  intros Hw Hs Hl He H. pose proof Hw as [Hh (Ha & Hm & Hc & Hn)].
  destruct e as [| | | | |r1 r2 r3|k]; simpl in H.
  - unfold onKeyUp in H. destruct (canTetMove g); [|by injection H as <-].
    destruct (currentTet g) as [c|] eqn:Hcc; [|by injection H as <-].
    destruct (Hc c eq_refl) as (t & Ht & Hp).
    destruct (rotate_wf g c t Hw Hs Ht Hp) as (g1 & b & Hr & Hw1 & Hs1).
    rewrite Hr in H. simpl in H.
    apply draw_sameLists in H. apply rotate_sameLists in Hr; [|done].
    eapply listedOk_sameLists; [exact Hw1|exact H|].
    eapply listedOk_sameLists; [exact Hw|exact Hr|exact Hl].
  - unfold onKeyLeft in H. destruct (canTetMove g); [|by injection H as <-].
    destruct (currentTet g) as [c|] eqn:Hcc; [|by injection H as <-].
    destruct (Hc c eq_refl) as (t & Ht & Hp).
    destruct (moveLeft_wf g c t Hw Hs Ht) as (g1 & Hr & Hw1 & Hs1).
    rewrite Hr in H. simpl in H.
    apply draw_sameLists in H. apply moveLeft_sameLists in Hr.
    eapply listedOk_sameLists; [exact Hw1|exact H|].
    eapply listedOk_sameLists; [exact Hw|exact Hr|exact Hl].
  - unfold onKeyRight in H. destruct (canTetMove g); [|by injection H as <-].
    destruct (currentTet g) as [c|] eqn:Hcc; [|by injection H as <-].
    destruct (Hc c eq_refl) as (t & Ht & Hp).
    destruct (moveRight_wf g c t Hw Hs Ht) as (g1 & Hr & Hw1 & Hs1).
    rewrite Hr in H. simpl in H.
    apply draw_sameLists in H. apply moveRight_sameLists in Hr.
    eapply listedOk_sameLists; [exact Hw1|exact H|].
    eapply listedOk_sameLists; [exact Hw|exact Hr|exact Hl].
  - unfold onKeyDown in H. destruct (canTetMove g); [|by injection H as <-].
    destruct (currentTet g) as [c|] eqn:Hcc; [|by injection H as <-].
    destruct (Hc c eq_refl) as (t & Ht & Hp).
    cbv zeta in H.
    set (g0 := if newTet g then g else set_loop false g) in H.
    assert (wf g0 ∧ listedOk g0 ∧ heap g0 !! c = Some t) as (Hw0 & Hl0 & Ht0)
      by (unfold g0; by destruct (newTet g)).
    destruct (moveDown_wf g0 c t Hw0 Ht0) as (g1 & Hr & Hw1 & Hs1).
    rewrite Hr in H. simpl in H.
    apply moveDown_listed in Hr; [|done|done].
    destruct (draw g1) as [g2|] eqn:Hd; simpl in H; [|done].
    apply draw_sameLists in Hd.
    pose proof (listedOk_sameLists _ _ Hw1 Hd Hr) as Hl2.
    injection H as <-. by destruct (_ && _).
  - unfold onKeyP in H. destruct (gameOver g); [by injection H as <-|].
    destruct (negb (paused g)); apply draw_sameLists in H;
      (eapply listedOk_sameLists; [|exact H|]; done).
  - unfold onTick in H. destruct (loop g); simpl in H; [|done].
    destruct He as (H1 & H2 & H3).
    destruct (newTet g) eqn:Hnew.
    + destruct (createTet_wf g r1 r2 r3 Hw H1 H2 H3) as (g1 & Hr & Hw1 & Hs1).
      rewrite Hr in H. simpl in H.
      apply draw_sameLists in H. apply createTet_listed in Hr; try done.
      eapply listedOk_sameLists; [exact Hw1|exact H|exact Hr].
    + destruct (paused g).
      { simpl in H. apply draw_sameLists in H.
        eapply listedOk_sameLists; [exact Hw|exact H|exact Hl]. }
      destruct (currentTet g) as [c|] eqn:Hcc.
      2:{ simpl in H. apply draw_sameLists in H.
          eapply listedOk_sameLists; [exact Hw|exact H|exact Hl]. }
      destruct (Hc c eq_refl) as (t & Ht & Hp).
      destruct (moveDown_wf g c t Hw Ht) as (g1 & Hr & Hw1 & Hs1).
      rewrite Hr in H. simpl in H.
      apply draw_sameLists in H. apply moveDown_listed in Hr; try done.
      eapply listedOk_sameLists; [exact Hw1|exact H|exact Hr].
  - unfold onMoveTick in H.
    destruct (moveLoops g !! k) as [that|] eqn:Hk; simpl in H; [|done].
    destruct (settleRound_wf g Hw) as (g1 & mv & Hr & Hw1 & Hl1 & Hm1 & Hu1).
    rewrite Hr in H. simpl in H.
    apply settleWhile_sameLists in Hr.
    pose proof (listedOk_sameLists _ _ Hw Hr Hl) as Hlo1.
    destruct (draw_wf g1 Hw1) as (g2 & Hd & Hw2 & Hs2 & Hce); [by left|].
    rewrite Hd in H. simpl in H.
    apply draw_sameLists in Hd.
    pose proof (listedOk_sameLists _ _ Hw1 Hd Hlo1) as Hlo2.
    destruct mv; [|by injection H as <-].
    apply collided_listed in H; [done| |exact Hlo2].
    destruct Hw2 as [Hh' (Ha' & Hm' & Hc' & Hn')].
    split; [done|]. split; [done|]. split; [|done].
    simpl. by apply Forall_delete.
Qed.

Lemma newGame_listed : listedOk (newGame false).
Proof. split_and!; try done. apply NoDup_nil_2. Qed.

Lemma reachable_listed g : reachable g → listedOk g.
Proof.
  induction 1 as [r1 r2 r3 g H1 H2 H3 Hg|g e g' Hr IH He Hst].
  - unfold Game_new in Hg.
    by apply (createTet_listed _ _ _ _ _ newGame_wf newGame_listed eq_refl
                H1 H2 H3) in Hg.
  - destruct (reachable_wf g Hr) as [Hw Hs].
    by apply (step_listed g e).
Qed.

Lemma hasBlock_outlined t :
  tetOk t → hasBlock t → ∃ p ps, getPerimeter (shape t) = Some (p :: ps).
Proof.
  intros (_ & _ & _ & [Hk|Hz] & _) Hb.
  - by apply periShapes_outlined.
  - destruct Hb. by apply allZero_cells.
Qed.

(** X24.  In every state of a game no Tet is listed twice in [allTets],
    every listed Tet has a block and an outline with at least one corner,
    and so has the next Tet, which is not listed: [draw] never reads the
    first corner of an empty outline of these. *)
Theorem listed_tets_have_outlines g :
  reachable g →
  NoDup (allTets g) ∧ tetsToRemove g = []
  ∧ (∀ i, i ∈ allTets g →
       ∃ t p ps, heap g !! i = Some t ∧ cells (shape t) ≠ []
                 ∧ getPerimeter (shape t) = Some (p :: ps))
  ∧ (∀ n, nextTet g = Some n →
       (n ∉ allTets g)
       ∧ ∃ t p ps, heap g !! n = Some t ∧ cells (shape t) ≠ []
                   ∧ getPerimeter (shape t) = Some (p :: ps)).
Proof.
  intros Hr. destruct (reachable_wf g Hr) as [Hw _].
  destruct (reachable_listed g Hr) as (B1 & B2 & B3 & B4).
  split; [done|]. split; [done|]. split.
  - intros i Hi.
    destruct (lookup_lt_is_Some_2 _ _ (wf_listed g i Hw Hi)) as [t Ht].
    pose proof (B3 i t Hi Ht) as Hb.
    destruct (hasBlock_outlined t (wf_tetOk _ _ _ Hw Ht) Hb) as (p & ps & Hp).
    exists t, p, ps. split; [done|]. split; [exact Hb|exact Hp].
  - intros n Hn. destruct (B4 n Hn) as [Hni Hnb]. split; [done|].
    destruct Hw as [Hh (_ & _ & _ & Hnx)].
    destruct (Hnx n Hn) as (t & Ht & _).
    rewrite Forall_forall in Hh.
    destruct (hasBlock_outlined t (Hh t (list_elem_of_lookup_2 _ _ _ Ht))
                (Hnb t Ht)) as (p & ps & Hp).
    exists t, p, ps. split; [done|]. split; [exact (Hnb t Ht)|exact Hp].
Qed.

Lemma rowFilled_iff l P r lr :
  gridOf l P → landedRow l r = Some lr →
  rowFilled lr = true ↔ ∀ c, 0 <= c < BOARD_COL_NUM → P r c.
Proof.
  intros [_ HP] Hr. unfold rowFilled. rewrite forallb_forall.
  assert (∀ c, negb (isZero lr c) = taken lr c) as Ht.
  { intros c. unfold isZero, taken. by destruct (lr !! c) as [[|?]|]. }
  split.
  - intros H c Hc. specialize (H c). rewrite Ht in H.
    apply (HP r lr Hr c) in H as [?|[?|?]]; [lia|lia|done|].
    apply list_elem_of_In, elem_of_seqZ. lia.
  - intros H c Hc. apply list_elem_of_In, elem_of_seqZ in Hc.
    rewrite Ht. apply (HP r lr Hr c). right. right. apply H. lia.
Qed.

Lemma findFullRows_spec l P rows : ∀ fr,
  gridOf l P → findFullRows l rows = Some fr →
  ∀ r, r ∈ fr ↔ r ∈ rows ∧ ∀ c, 0 <= c < BOARD_COL_NUM → P r c.
Proof.
  induction rows as [|r0 rows IH]; intros fr Hg H r; simpl in H.
  { injection H as <-. split; [by intros ?%elem_of_nil|].
    by intros [?%elem_of_nil _]. }
  destruct (landedRow l r0) as [lr|] eqn:Hlr; simpl in H; [|done].
  destruct (findFullRows l rows) as [fr'|]; simpl in H; [|done].
  injection H as <-. specialize (IH fr' Hg eq_refl r).
  pose proof (rowFilled_iff l P r0 lr Hg Hlr) as Hf.
  destruct (rowFilled lr).
  - rewrite !elem_of_cons, IH. split.
    + intros [->|[? ?]]; [|by auto]. split; [by left|]. by apply Hf.
    + intros [[->|?] ?]; [by left|by right].
  - rewrite elem_of_cons, IH. split; [intros [? ?]; by auto|].
    intros [[->|?] Hall]; [|done]. apply Hf in Hall. done.
Qed.

(** X25.  What a landing clears.  [collided] judges a row full by the landed
    Tets alone, on the rows from the top row of the Tet it is called on;
    it then takes the blocks on these rows from every listed Tet, the
    falling one too, and leaves every other block where it is. *)
Theorem collided_clears g this t g' :
  wf g → listedOk g → cacheFresh g → heap g !! this = Some t →
  collided g this = Some g' →
  ∀ r c,
    blockAt g' r c
    ↔ blockAt g r c
      ∧ ¬ (row (topLeft t) <= r
           ∧ ∀ c', 0 <= c' < BOARD_COL_NUM → landedBy g None r c').
Proof.
  intros Hw Hl Hfresh Ht H. unfold collided, fullRowsOf in H.
  destruct (getLanded g None) as [[g0 l]|] eqn:HL; simpl in H; [|done].
  apply (getLanded_fresh _ _ _ Hfresh) in HL as [Hgrid HL].
  pose proof (wf_cacheEq _ _ HL Hw) as Hw0.
  pose proof (listedOk_sameLists _ _ Hw (sameLists_cacheEq _ _ HL) Hl)
    as (B1 & B2 & B3 & B4).
  assert (heap g0 !! this = Some t) as Ht0
    by (by destruct HL as (u & l' & ->)).
  rewrite Ht0 in H. simpl in H.
  destruct (findFullRows l _) as [fr|] eqn:Hfr; simpl in H; [|done].
  pose proof (findFullRows_spec _ _ _ _ Hgrid Hfr) as Hspec.
  apply findFullRows_sorted in Hfr as [Hs _]; [|apply seqZ_sorted].
  assert (∀ r, r ∈ fr
             ↔ row (topLeft t) <= r
               ∧ ∀ c', 0 <= c' < BOARD_COL_NUM → landedBy g None r c')
    as Hfull.
  { intros r. rewrite Hspec, elem_of_seqZ. split; [intros [? ?]|intros [? Hall]].
    - split; [lia|done].
    - split; [|done]. split; [done|].
      destruct (Hall 0 ltac:(unfold BOARD_COL_NUM; lia))
        as (i & ti & _ & _ & _ & Hti & Ho).
      pose proof (wf_tetOk _ _ _ Hw Hti) as (_ & _ & Hrows & _).
      unfold occupies in Ho. apply bool_decide_eq_true in Ho.
      unfold rowsOk in Hrows. rewrite Forall_forall in Hrows.
      specialize (Hrows _ Ho). simpl in Hrows. lia. }
  assert (∀ r c, blockAt (set_updateLanded true g0) r c ↔ blockAt g r c)
    as Hsame by (by destruct HL as (u & l' & ->)).
  destruct fr as [|r0 fr].
  { injection H as <-. intros r c. rewrite Hsame, <- Hfull.
    split; [|tauto]. intros Hb. split; [done|]. by intros ?%elem_of_nil. }
  set (g2 := set_score _ _) in H.
  destruct (alterShapes g2 (r0 :: fr)) as [g3|] eqn:Ha; simpl in H; [|done].
  injection H as <-.
  destruct (alterShapes_spec g2 (r0 :: fr) g3 Hw0 B1 B2 Hs Ha) as [Hcl _].
  intros r c. rewrite <- Hsame, <- Hfull. exact (Hcl r c).
Qed.

Lemma wf_landingOf g : wf g → wf (landingOf g).
Proof.
  intros [Hh (Ha & Hm & _ & Hn)]. split; [done|].
  split; [done|]. split; [done|]. split; [done|]. done.
Qed.

(** The state of the landing in [clearLanding] is one of a game but for
    the fields [moveDown] has just set. *)
Lemma clearLanding_ok :
  wf clearLanding ∧ listedOk clearLanding ∧ cacheFresh clearLanding.
Proof.
  assert (clearLanding
          = landingOf (cached busyGrid (set_loop false busyGame))) as ->
    by (vm_compute; reflexivity).
  destruct (reachable_wf _ busyGame_reachable) as [Hw _].
  pose proof (reachable_listed _ busyGame_reachable) as Hl.
  split; [|split; [|by left]].
  - apply wf_landingOf. exact Hw.
  - exact Hl.
Qed.

Lemma alterShapes_clears_witness :
  (∀ r c, blockAt clearedRows r c ↔ blockAt clearLanding r c ∧ r ∉ [14])
  ∧ NoDup (allTets clearedRows) ∧ tetsToRemove clearedRows = []
  ∧ (∀ i, i ∈ allTets clearedRows
          → i ∈ allTets clearLanding ∨ (length (heap clearLanding) <= i)%nat)
  ∧ (∀ i t, i ∈ allTets clearLanding → i ∉ allTets clearedRows →
            heap clearedRows !! i = Some t → cells (shape t) = [])
  ∧ ((∀ i t, i ∈ allTets clearLanding → heap clearLanding !! i = Some t →
             cells (shape t) ≠ []) →
     ∀ i t, i ∈ allTets clearedRows → heap clearedRows !! i = Some t →
            cells (shape t) ≠ []).
Proof.
  destruct clearLanding_ok as (Hw & (Hnd & Hrm & _) & _).
  apply (alterShapes_clears clearLanding [14] clearedRows Hw Hnd Hrm).
  - repeat constructor.
  - vm_compute. reflexivity.
Defined.

Lemma listed_tets_have_outlines_witness :
  NoDup (allTets busyGame) ∧ tetsToRemove busyGame = []
  ∧ (∀ i, i ∈ allTets busyGame →
       ∃ t p ps, heap busyGame !! i = Some t ∧ cells (shape t) ≠ []
                 ∧ getPerimeter (shape t) = Some (p :: ps))
  ∧ (∀ n, nextTet busyGame = Some n →
       (n ∉ allTets busyGame)
       ∧ ∃ t p ps, heap busyGame !! n = Some t ∧ cells (shape t) ≠ []
                   ∧ getPerimeter (shape t) = Some (p :: ps)).
Proof.
  apply (listed_tets_have_outlines busyGame). exact busyGame_reachable.
Defined.

Lemma collided_clears_witness :
  blockAt clearCleared 14 6
  ↔ blockAt clearLanding 14 6
    ∧ ¬ (row (topLeft busyTet) <= 14
         ∧ ∀ c', 0 <= c' < BOARD_COL_NUM → landedBy clearLanding None 14 c').
Proof.
  destruct clearLanding_ok as (Hw & Hl & Hf).
  apply (collided_clears clearLanding 3 busyTet clearCleared Hw Hl Hf).
  - vm_compute. reflexivity.
  - vm_compute. reflexivity.
Defined.

Lemma flags_mode g g' : flags g' = flags g → mode g' = mode g.
Proof. unfold flags, mode. intros [= -> _ _ _ -> _ ->]. done. Qed.

Lemma sameLists_mode g g' : sameLists g g' → mode g' = mode g.
Proof. intros (_ & _ & _ & _ & Hf & _). by apply flags_mode. Qed.

Lemma moveDown_mode g this g' : moveDown g this = Some g' → mode g' = mode g.
Proof.
  unfold moveDown. intros H.
  destruct (heap g !! this) as [t|]; simpl in H; [|done].
  destruct (doesTetCollideBot _ _ _) as [[g1 b]|] eqn:Hb; simpl in H; [|done].
  apply doesTetCollideBot_cacheEq in Hb as (u & l & ->).
  destruct b.
  - apply collided_flags in H as [H _]. by apply flags_mode in H.
  - destruct (heap _ !! this); simpl in H; [|done]. by injection H as <-.
Qed.

Lemma spawn_mode g r1 r2 r3 g1 :
  spawn g r1 r2 r3 = Some g1 → mode g1 = mode g.
Proof.
  unfold spawn, alloc. intros H.
  destruct (nextTet g) eqn:Hn; simpl in H;
    [|destruct (Tet_new (Some _) r2); simpl in H; [|done]];
    (destruct (newTet g); simpl in H;
      [destruct (Tet_new None r3); simpl in H; [|done]|]);
    injection H as <-; rewrite ?Hn; simpl; by repeat case_match.
Qed.

Lemma createTet_mode g r1 r2 r3 g' :
  createTet g r1 r2 r3 = Some g' →
  devModeOn g' = devModeOn g
  ∧ ((gameOver g' = true ∧ loop g' = false) ∨ mode g' = mode g).
Proof.
  unfold createTet. intros H.
  destruct (spawn g r1 r2 r3) as [g1|] eqn:Hs; simpl in H; [|done].
  apply spawn_mode in Hs.
  destruct (currentTet g1) as [cur|]; simpl in H; [|done].
  destruct (heap g1 !! cur) as [t|]; simpl in H; [|done].
  destruct (doesTetCollideBot _ _ _) as [[g2 b]|] eqn:Hb; simpl in H; [|done].
  apply doesTetCollideBot_cacheEq in Hb as (u & l & ->).
  injection Hs as Hs1 Hs2 Hs3.
  destruct b.
  - injection H as <-. simpl. split; [done|]. by left.
  - apply draw_cacheEq in H as (u' & l' & ->). split; [simpl; congruence|].
    right. unfold mode. simpl. congruence.
Qed.

Lemma overOk_mode g g' : mode g' = mode g → overOk g → overOk g'.
Proof. unfold mode, overOk. intros [= -> -> ->]. done. Qed.

Lemma step_mode g e g' :
  wf g → cacheSized g → overOk g → step g e = Some g' →
  overOk g'
  ∧ (gameOver g = true → gameOver g' = true)
  ∧ (gameOver g = true →
     match e with MoveTick _ => True | _ => g' = g end).
Proof.
  intros Hw Hs Hok H. pose proof Hok as [Hdev Hov].
  pose proof Hw as [Hh (Ha & Hm & Hc & Hn)].
  assert (gameOver g = true → canTetMove g = false) as Hcan.
  { intros Hg. unfold canTetMove. rewrite Hg. apply andb_false_r. }
  assert (canTetMove g = true → gameOver g = false) as Hcan'.
  { intros Hg. destruct (gameOver g); [|done]. by rewrite Hcan in Hg. }
  assert (∀ g1, mode g1 = mode g →
                overOk g1 ∧ (gameOver g = true → gameOver g1 = true)) as Hsame.
  { intros g1 Hg1. split; [by apply (overOk_mode g)|].
    injection Hg1 as -> _ _. done. }
  destruct e as [| | | | |r1 r2 r3|k]; simpl in H.
  - unfold onKeyUp in H. destruct (canTetMove g) eqn:Hcm.
    2:{ injection H as <-. by split_and!. }
    rewrite (Hcan' eq_refl). split_and!; try done.
    destruct (currentTet g) as [c|] eqn:Hcc; [|by injection H as <-].
    destruct (rotate g c) as [[g1 b]|] eqn:Hr; simpl in H; [|done].
    apply rotate_sameLists in Hr; [|done]. apply draw_sameLists in H.
    apply (overOk_mode g); [|exact Hok].
    by rewrite (sameLists_mode _ _ H), (sameLists_mode _ _ Hr).
  - unfold onKeyLeft in H. destruct (canTetMove g) eqn:Hcm.
    2:{ injection H as <-. by split_and!. }
    rewrite (Hcan' eq_refl). split_and!; try done.
    destruct (currentTet g) as [c|] eqn:Hcc; [|by injection H as <-].
    destruct (moveLeft g c) as [g1|] eqn:Hr; simpl in H; [|done].
    apply moveLeft_sameLists in Hr. apply draw_sameLists in H.
    apply (overOk_mode g); [|exact Hok].
    by rewrite (sameLists_mode _ _ H), (sameLists_mode _ _ Hr).
  - unfold onKeyRight in H. destruct (canTetMove g) eqn:Hcm.
    2:{ injection H as <-. by split_and!. }
    rewrite (Hcan' eq_refl). split_and!; try done.
    destruct (currentTet g) as [c|] eqn:Hcc; [|by injection H as <-].
    destruct (moveRight g c) as [g1|] eqn:Hr; simpl in H; [|done].
    apply moveRight_sameLists in Hr. apply draw_sameLists in H.
    apply (overOk_mode g); [|exact Hok].
    by rewrite (sameLists_mode _ _ H), (sameLists_mode _ _ Hr).
  - unfold onKeyDown in H. destruct (canTetMove g) eqn:Hcm.
    2:{ injection H as <-. by split_and!. }
    pose proof (Hcan' eq_refl) as Hgo. rewrite Hgo. split_and!; try done.
    destruct (currentTet g) as [c|] eqn:Hcc; [|by injection H as <-].
    cbv zeta in H.
    set (g0 := if newTet g then g else set_loop false g) in H.
    assert (gameOver g0 = false ∧ devModeOn g0 = false) as [Hg0 Hd0]
      by (unfold g0; by destruct (newTet g)).
    destruct (moveDown g0 c) as [g1|] eqn:Hr; simpl in H; [|done].
    apply moveDown_mode in Hr. injection Hr as Hr1 Hr2 _.
    destruct (draw g1) as [g2|] eqn:Hd; simpl in H; [|done].
    apply draw_cacheEq in Hd as (u & l & ->).
    injection H as <-. split.
    + destruct (negb (newTet g) && negb (paused g1)); simpl; congruence.
    + destruct (negb (newTet g) && negb (paused g1)); simpl; congruence.
  - unfold onKeyP in H. destruct (gameOver g) eqn:Hgo.
    { injection H as <-. split_and!; [|done|done].
      split; [done|]. intros _. by apply Hov. }
    split_and!; try done.
    destruct (negb (paused g)); apply draw_cacheEq in H as (u & l & ->);
      (split; simpl; [done|congruence]).
  - unfold onTick in H. destruct (loop g) eqn:Hloop; simpl in H; [|done].
    assert (gameOver g = false) as Hgo.
    { destruct (gameOver g) eqn:E; [|done]. by specialize (Hov eq_refl). }
    rewrite Hgo. split_and!; try done.
    destruct (newTet g).
    + destruct (createTet g r1 r2 r3) as [g1|] eqn:Hr; simpl in H; [|done].
      apply createTet_mode in Hr as [Hd1 Hr].
      apply draw_cacheEq in H as (u & l & ->).
      destruct Hr as [[Hg1 Hl1]|Hm1].
      * split; [simpl; congruence|]. intros _. exact Hl1.
      * apply (overOk_mode g); [|exact Hok]. exact Hm1.
    + assert (∃ g1, (match paused g, currentTet g with
                     | false, Some c => moveDown g c
                     | _, _ => Some g
                     end) = Some g1 ∧ draw g1 = Some g') as (g1 & Hr & Hd).
      { destruct (match paused g, currentTet g with
                  | false, Some c => moveDown g c
                  | _, _ => Some g
                  end) as [g1|]; simpl in H; [|done]. by exists g1. }
      apply draw_cacheEq in Hd as (u & l & ->).
      apply (overOk_mode g); [|exact Hok].
      destruct (paused g); [by injection Hr as <-|].
      destruct (currentTet g); [|by injection Hr as <-].
      by apply moveDown_mode in Hr.
  - unfold onMoveTick in H.
    destruct (moveLoops g !! k) as [that|]; simpl in H; [|done].
    destruct (settleRound g) as [[g1 mv]|] eqn:Hr; simpl in H; [|done].
    apply settleWhile_sameLists, sameLists_mode in Hr.
    destruct (draw g1) as [g2|] eqn:Hd; simpl in H; [|done].
    apply draw_sameLists, sameLists_mode in Hd.
    assert (mode g' = mode g) as Hmode.
    { destruct mv.
      - apply collided_flags in H as [H _]. apply flags_mode in H.
        rewrite H. simpl. change (mode (set_moveLoops _ g2)) with (mode g2).
        congruence.
      - injection H as <-. congruence. }
    destruct (Hsame g' Hmode) as [? ?]. by split_and!.
Qed.

Lemma reachable_overOk g : reachable g → overOk g.
Proof.
  induction 1 as [r1 r2 r3 g H1 H2 H3 Hg|g e g' Hr IH He Hst].
  - unfold Game_new in Hg. apply createTet_mode in Hg as [Hd Hg].
    split; [by rewrite Hd|]. intros Hgo.
    destruct Hg as [[_ ?]|Hm]; [done|]. injection Hm as Hm1 _ Hm3.
    by rewrite Hm3.
  - destruct (reachable_wf g Hr) as [Hw Hs].
    by destruct (step_mode g e g' Hw Hs IH Hst) as [? _].
Qed.

(** X26.  A game that is over stays over.  In a state of a game with
    [gameOver] set, the timer [loop] is cleared and cannot fire, the arrow
    keys and [p] leave the state as it is, and the falling animation, the
    one thing that can still run, keeps [gameOver] set and [loop]
    cleared. *)
Theorem game_over_is_final g :
  reachable g → gameOver g = true →
  loop g = false
  ∧ (∀ r1 r2 r3, step g (Tick r1 r2 r3) = None)
  ∧ step g KeyUp = Some g ∧ step g KeyLeft = Some g
  ∧ step g KeyRight = Some g ∧ step g KeyDown = Some g
  ∧ step g KeyP = Some g
  ∧ ∀ k g', step g (MoveTick k) = Some g' →
      gameOver g' = true ∧ loop g' = false.
Proof.
  intros Hr Hgo. destruct (reachable_overOk g Hr) as [Hdev Hov].
  pose proof (Hov Hgo) as Hloop.
  assert (canTetMove g = false) as Hcan.
  { unfold canTetMove. rewrite Hgo. apply andb_false_r. }
  split; [done|]. split.
  { intros r1 r2 r3. simpl. unfold onTick. by rewrite Hloop. }
  simpl. unfold onKeyUp, onKeyLeft, onKeyRight, onKeyDown, onKeyP.
  rewrite Hcan, Hgo. split_and!; try done.
  intros k g' Hst. destruct (reachable_wf g Hr) as [Hw Hs].
  destruct (step_mode g (MoveTick k) g' Hw Hs (conj Hdev Hov) Hst)
    as ([_ Hov'] & Hgo' & _).
  split; [by apply Hgo'|]. apply Hov'. by apply Hgo'.
Qed.

Lemma overGame_reachable : reachable overGame.
Proof.
  apply (play_reachable 3 0 3 (topOutTrace ++ [Tick 0 0 3]));
    [unfold isDraw; lia..| |vm_compute; reflexivity].
  unfold topOutTrace. repeat (apply Forall_app; split);
    try (apply Forall_forall; intros e He;
         apply elem_of_replicate in He as [-> _]; exact I);
    repeat constructor; unfold isDraw; lia.
Qed.

Lemma game_over_is_final_witness :
  loop overGame = false
  ∧ (∀ r1 r2 r3, step overGame (Tick r1 r2 r3) = None)
  ∧ step overGame KeyUp = Some overGame
  ∧ step overGame KeyLeft = Some overGame
  ∧ step overGame KeyRight = Some overGame
  ∧ step overGame KeyDown = Some overGame
  ∧ step overGame KeyP = Some overGame
  ∧ ∀ k g', step overGame (MoveTick k) = Some g' →
      gameOver g' = true ∧ loop g' = false.
Proof.
  apply (game_over_is_final overGame).
  - exact overGame_reachable.
  - reflexivity.
Defined.

Lemma sideEqb_eq e1 e2 : sideEqb e1 e2 = true ↔ e1 = e2.
Proof.
  destruct e1 as [[x1 y1] b1], e2 as [[x2 y2] b2]. unfold sideEqb. simpl.
  rewrite !andb_true_iff, !Z.eqb_eq, Bool.eqb_true_iff. split.
  - by intros [[-> ->] ->].
  - by intros [= -> -> ->].
Qed.

Lemma existsb_sideEqb e l : existsb (sideEqb e) l = true ↔ e ∈ l.
Proof.
  rewrite existsb_exists. split.
  - intros (x & Hx & He). apply sideEqb_eq in He as ->.
    by apply list_elem_of_In.
  - intros He. exists e. split; [by apply list_elem_of_In|].
    by apply sideEqb_eq.
Qed.

Lemma noDupSides_NoDup l : noDupSides l = true → NoDup l.
Proof.
  induction l as [|e l IH]; simpl; [constructor|].
  rewrite andb_true_iff, negb_true_iff. intros [He Hl].
  constructor; [|by apply IH]. intros Hin. apply existsb_sideEqb in Hin.
  congruence.
Qed.

Lemma periMatrix_outlineOk : forallb outlineOk periMatrix = true.
Proof. vm_compute. reflexivity. Qed.

Lemma isBlock_cells s r c : isBlock s r c = true ↔ (r, c) ∈ cells s.
Proof.
  unfold isBlock. rewrite elem_of_cells, negb_true_iff, Nat.eqb_neq. done.
Qed.

Lemma boxSides_elem x y b :
  0 <= x <= 4 → 0 <= y <= 4 → (x, y, b) ∈ boxSides.
Proof.
  intros Hx Hy. unfold boxSides.
  apply list_elem_of_bind. exists x. split; [|apply elem_of_seqZ; lia].
  apply list_elem_of_bind. exists y. split; [|apply elem_of_seqZ; lia].
  destruct b; [left|right; left].
Qed.

(** Each outline of [periMatrix] runs along the border of its shape. *)
Lemma periMatrix_fits s peri :
  (s, peri) ∈ periMatrix →
  getPerimeter s = Some peri
  ∧ NoDup (outlineSides peri)
  ∧ ∀ e, e ∈ outlineSides peri ↔ onBorder s e = true.
Proof.
  intros Hin. pose proof periMatrix_outlineOk as Hok.
  rewrite forallb_forall in Hok. apply list_elem_of_In in Hin.
  specialize (Hok _ Hin). unfold outlineOk in Hok. cbn [fst snd] in Hok.
  rewrite !andb_true_iff in Hok.
  destruct Hok as ((((H1 & H2) & H3) & H4) & H5).
  apply bool_decide_eq_true in H5.
  split; [done|]. split; [by apply noDupSides_NoDup|].
  rewrite forallb_forall in H1, H2, H4.
  intros e. split.
  - intros He. apply H1. by apply list_elem_of_In.
  - intros Hb. apply existsb_sideEqb.
    assert (In e boxSides) as Hbox.
    { apply list_elem_of_In. destruct e as [[x y] b].
      assert (∀ r c, isBlock s r c = true → 0 <= r < 4 ∧ 0 <= c < 4) as Hc.
      { intros r c Hrc. apply isBlock_cells in Hrc.
        pose proof (cells_nonneg _ _ Hrc) as [? ?].
        apply list_elem_of_In, H4 in Hrc. simpl in *. lia. }
      simpl in Hb. destruct b.
      - destruct (isBlock s (y - 1) x) eqn:E1, (isBlock s y x) eqn:E2;
          try done.
        + destruct (Hc _ _ E1). apply boxSides_elem; lia.
        + destruct (Hc _ _ E2). apply boxSides_elem; lia.
      - destruct (isBlock s y (x - 1)) eqn:E1, (isBlock s y x) eqn:E2;
          try done.
        + destruct (Hc _ _ E1). apply boxSides_elem; lia.
        + destruct (Hc _ _ E2). apply boxSides_elem; lia. }
    specialize (H2 e Hbox). by rewrite Hb in H2.
Qed.

(** X27.  In every state of a game, the outline [getPerimeter] gives for the
    shape of a Tet with a block, traced as [draw] does with [moveTo],
    [lineTo] and [closePath], runs once along each side that has a block
    of the shape on one side and none on the other, and along no other
    side. *)
Theorem outlines_fit g i t :
  reachable g → heap g !! i = Some t → cells (shape t) ≠ [] →
  ∃ peri, getPerimeter (shape t) = Some peri
    ∧ NoDup (outlineSides peri)
    ∧ ∀ e, e ∈ outlineSides peri ↔ onBorder (shape t) e = true.
Proof.
  intros Hr Ht Hb. destruct (reachable_wf g Hr) as [Hw _].
  pose proof (wf_tetOk _ _ _ Hw Ht) as (_ & _ & _ & [Hk|Hz] & _).
  - unfold periShapes in Hk. apply list_elem_of_fmap in Hk as ([s peri] & Hs & Hin).
    simpl in Hs. subst s. exists peri. by apply periMatrix_fits.
  - destruct Hb. by apply allZero_cells.
Qed.

Lemma outlines_fit_witness :
  ∃ peri, getPerimeter (shape busyTet) = Some peri
    ∧ NoDup (outlineSides peri)
    ∧ ∀ e, e ∈ outlineSides peri ↔ onBorder (shape busyTet) e = true.
Proof.
  apply (outlines_fit busyGame 3 busyTet).
  - exact busyGame_reachable.
  - vm_compute. reflexivity.
  - discriminate.
Defined.

Lemma scoreGain_pos n : (0 < scoreGain n)%R.
Proof.
  unfold scoreGain. apply Rmult_lt_0_compat; [|lra].
  unfold Rpower. apply exp_pos.
Qed.

Lemma collided_score_le g this g' :
  collided g this = Some g' → (score g <= score g')%R.
Proof.
  unfold collided. intros H.
  destruct (fullRowsOf g this) as [[g1 fullRows]|] eqn:Hf; simpl in H; [|done].
  apply fullRowsOf_cacheEq in Hf as (u & l & ->).
  destruct fullRows as [|r rs].
  - injection H as <-. simpl. lra.
  - pose proof (scoreGain_pos (length (r :: rs))) as Hpos.
    set (gain := scoreGain (length (r :: rs))) in *. clearbody gain.
    destruct (alterShapes _ _) as [g3|] eqn:Ha; simpl in H; [|done].
    injection H as <-.
    apply (keeps_alterShapes (λ _, True)) in Ha as [Ha _]; [|done|done].
    simpl. rewrite Ha. simpl. lra.
Qed.

Lemma moveDown_score_le g this g' :
  moveDown g this = Some g' → (score g <= score g')%R.
Proof.
  unfold moveDown. intros H.
  destruct (heap g !! this) as [t|]; simpl in H; [|done].
  destruct (doesTetCollideBot _ _ _) as [[g1 b]|] eqn:Hb; simpl in H; [|done].
  apply doesTetCollideBot_cacheEq in Hb as (u & l & ->).
  destruct b.
  - by apply collided_score_le in H.
  - destruct (heap _ !! this); simpl in H; [|done]. injection H as <-.
    simpl. lra.
Qed.

Lemma spawn_score g r1 r2 r3 g1 :
  spawn g r1 r2 r3 = Some g1 → score g1 = score g.
Proof.
  unfold spawn, alloc. intros H.
  destruct (nextTet g) eqn:Hn; simpl in H;
    [|destruct (Tet_new (Some _) r2); simpl in H; [|done]];
    (destruct (newTet g); simpl in H;
      [destruct (Tet_new None r3); simpl in H; [|done]|]);
    injection H as <-; rewrite ?Hn; simpl; by repeat case_match.
Qed.

Lemma createTet_score g r1 r2 r3 g' :
  createTet g r1 r2 r3 = Some g' → score g' = score g.
Proof.
  unfold createTet. intros H.
  destruct (spawn g r1 r2 r3) as [g1|] eqn:Hs; simpl in H; [|done].
  apply spawn_score in Hs.
  destruct (currentTet g1) as [cur|]; simpl in H; [|done].
  destruct (heap g1 !! cur) as [t|]; simpl in H; [|done].
  destruct (doesTetCollideBot _ _ _) as [[g2 b]|] eqn:Hb; simpl in H; [|done].
  apply doesTetCollideBot_cacheEq in Hb as (u & l & ->).
  destruct b.
  - by injection H as <-.
  - by apply draw_cacheEq in H as (u' & l' & ->).
Qed.

Lemma sameLists_score g g' : sameLists g g' → score g' = score g.
Proof. by intros (_ & _ & _ & _ & _ & ?). Qed.

Lemma step_score_le g e g' :
  wf g → step g e = Some g' → (score g <= score g')%R.
Proof.
  intros Hw H. destruct e as [| | | | |r1 r2 r3|k]; simpl in H.
  - unfold onKeyUp in H. destruct (canTetMove g); [|injection H as <-; lra].
    destruct (currentTet g) as [c|]; [|injection H as <-; lra].
    destruct (rotate g c) as [[g1 b]|] eqn:Hr; simpl in H; [|done].
    apply rotate_sameLists, sameLists_score in Hr; [|done].
    apply draw_sameLists, sameLists_score in H. lra.
  - unfold onKeyLeft in H. destruct (canTetMove g); [|injection H as <-; lra].
    destruct (currentTet g) as [c|]; [|injection H as <-; lra].
    destruct (moveLeft g c) as [g1|] eqn:Hr; simpl in H; [|done].
    apply moveLeft_sameLists, sameLists_score in Hr.
    apply draw_sameLists, sameLists_score in H. lra.
  - unfold onKeyRight in H. destruct (canTetMove g); [|injection H as <-; lra].
    destruct (currentTet g) as [c|]; [|injection H as <-; lra].
    destruct (moveRight g c) as [g1|] eqn:Hr; simpl in H; [|done].
    apply moveRight_sameLists, sameLists_score in Hr.
    apply draw_sameLists, sameLists_score in H. lra.
  - unfold onKeyDown in H. destruct (canTetMove g); [|injection H as <-; lra].
    destruct (currentTet g) as [c|]; [|injection H as <-; lra].
    cbv zeta in H.
    set (g0 := if newTet g then g else set_loop false g) in H.
    assert (score g0 = score g) as Hg0 by (unfold g0; by destruct (newTet g)).
    destruct (moveDown g0 c) as [g1|] eqn:Hr; simpl in H; [|done].
    apply moveDown_score_le in Hr.
    destruct (draw g1) as [g2|] eqn:Hd; simpl in H; [|done].
    apply draw_sameLists, sameLists_score in Hd.
    injection H as <-.
    assert (score (if negb (newTet g) && negb (paused g2)
                   then tetDownLoop g2 else g2) = score g2) as ->
      by (by destruct (negb (newTet g) && negb (paused g2))).
    lra.
  - unfold onKeyP in H. destruct (gameOver g); [injection H as <-; lra|].
    destruct (negb (paused g));
      apply draw_sameLists, sameLists_score in H; simpl in H; lra.
  - unfold onTick in H. destruct (loop g); simpl in H; [|done].
    assert (∃ g1, (if newTet g then createTet g r1 r2 r3
                   else match paused g, currentTet g with
                        | false, Some c => moveDown g c
                        | _, _ => Some g
                        end) = Some g1 ∧ draw g1 = Some g') as (g1 & Hr & Hd).
    { destruct (if newTet g then _ else _) as [g1|]; simpl in H; [|done].
      by exists g1. }
    apply draw_sameLists, sameLists_score in Hd. rewrite Hd.
    destruct (newTet g).
    + apply createTet_score in Hr. lra.
    + destruct (paused g); [injection Hr as <-; lra|].
      destruct (currentTet g); [|injection Hr as <-; lra].
      by apply moveDown_score_le in Hr.
  - unfold onMoveTick in H.
    destruct (moveLoops g !! k) as [that|]; simpl in H; [|done].
    destruct (settleRound g) as [[g1 mv]|] eqn:Hr; simpl in H; [|done].
    apply settleWhile_sameLists, sameLists_score in Hr.
    destruct (draw g1) as [g2|] eqn:Hd; simpl in H; [|done].
    apply draw_sameLists, sameLists_score in Hd.
    destruct mv.
    + apply collided_score_le in H. simpl in H. lra.
    + injection H as <-. lra.
Qed.

Lemma reachable_score g : reachable g → (0 <= score g)%R.
Proof.
  induction 1 as [r1 r2 r3 g H1 H2 H3 Hg|g e g' Hr IH He Hst].
  - unfold Game_new in Hg. apply createTet_score in Hg. rewrite Hg.
    simpl. lra.
  - destruct (reachable_wf g Hr) as [Hw _].
    pose proof (step_score_le g e g' Hw Hst). lra.
Qed.

(** X28.  The score of a game is never negative, and no key or timer lowers
    it. *)
Theorem score_never_decreases g e g' :
  reachable g → step g e = Some g' → (0 <= score g <= score g')%R.
Proof.
  intros Hr Hst. destruct (reachable_wf g Hr) as [Hw _].
  split; [by apply reachable_score|by apply (step_score_le g e)].
Qed.

Lemma score_never_decreases_witness :
  (0 <= score busyGame <= score busyDown)%R.
Proof.
  apply (score_never_decreases busyGame KeyDown busyDown).
  - exact busyGame_reachable.
  - vm_compute. reflexivity.
Defined.

Lemma commaScan_digits run : ∀ acc rest,
  Forall (λ c, isDigit c = true) run →
  commaScan acc (run ++ rest) = commaScan (acc ++ run) rest.
Proof.
  induction run as [|c run IH]; intros acc rest H; simpl.
  - by rewrite app_nil_r.
  - apply Forall_cons in H as [Hc H]. rewrite Hc, IH by done.
    by rewrite <- app_assoc.
Qed.

Lemma commaScan_groups3 rest : groups3 rest → ∀ acc,
  commaScan acc rest
  = if (4 <=? length acc)%nat then Some (commaRun acc ++ rest) else None.
Proof.
  induction 1 as [|a b c rest Ha Hb Hc _ IH]; intros acc.
  - cbn [commaScan]. rewrite app_nil_r. done.
  - cbn [commaScan]. change (isDigit ","%char) with false. cbv iota.
    destruct (4 <=? length acc)%nat; [done|].
    rewrite Ha. cbn [commaScan app]. rewrite Hb. cbn [commaScan app].
    rewrite Hc. rewrite IH. done.
Qed.

Lemma groupRev_long a b c d rs :
  groupRev (a :: b :: c :: d :: rs)
  = a :: b :: c :: ","%char :: groupRev (d :: rs).
Proof. done. Qed.

Lemma groupRev_short rs : (length rs <= 3)%nat → groupRev rs = rs.
Proof. by destruct rs as [|a [|b [|c [|d rs]]]]; simpl; try lia. Qed.

Lemma withCommas_short ds : (length ds <= 3)%nat → withCommas ds = ds.
Proof.
  intros H. unfold withCommas.
  rewrite groupRev_short by (by rewrite length_reverse).
  apply reverse_involutive.
Qed.

Lemma withCommas_long ds :
  (4 <= length ds)%nat →
  withCommas ds
  = withCommas (take (length ds - 3) ds)
    ++ ","%char :: drop (length ds - 3) ds.
Proof.
  intros H. rewrite <- (take_drop (length ds - 3) ds) at 1.
  set (p := take (length ds - 3) ds).
  assert (length p = (length ds - 3)%nat) as Hp
    by (unfold p; rewrite length_take; lia).
  assert (length (drop (length ds - 3) ds) = 3%nat) as Hd
    by (rewrite length_drop; lia).
  destruct (drop (length ds - 3) ds) as [|a [|b [|c [|? ?]]]];
    simpl in Hd; try lia.
  unfold withCommas. rewrite reverse_app.
  change (reverse [a; b; c]) with [c; b; a].
  destruct (reverse p) as [|d rp] eqn:Hrp.
  { apply (f_equal length) in Hrp. rewrite length_reverse in Hrp.
    simpl in Hrp. lia. }
  cbn [app]. rewrite groupRev_long, !reverse_cons, <- !app_assoc. done.
Qed.

Lemma commaLoop_groups fuel : ∀ run rest,
  Forall (λ c, isDigit c = true) run → groups3 rest →
  (length run < fuel)%nat →
  commaLoop fuel (run ++ rest) = Some (withCommas run ++ rest).
Proof.
  induction fuel as [|fuel IH]; intros run rest Hd Hr Hf; [lia|].
  simpl. rewrite (commaScan_digits run [] rest Hd). simpl.
  rewrite (commaScan_groups3 rest Hr run).
  destruct (Nat.leb_spec 4 (length run)) as [H4|H4].
  - unfold commaRun. rewrite <- app_assoc. simpl.
    assert (length (drop (length run - 3) run) = 3%nat) as Hl
      by (rewrite length_drop; lia).
    assert (Forall (λ c, isDigit c = true) (drop (length run - 3) run))
      as Hdd by (by apply Forall_drop).
    destruct (drop (length run - 3) run) as [|a [|b [|c [|? ?]]]] eqn:Hdr;
      simpl in Hl; try lia.
    apply Forall_cons in Hdd as [Ha Hdd].
    apply Forall_cons in Hdd as [Hb Hdd].
    apply Forall_cons in Hdd as [Hc _].
    rewrite IH.
    + rewrite (withCommas_long run) by done. rewrite Hdr.
      rewrite <- app_assoc. done.
    + by apply Forall_take.
    + by constructor.
    + rewrite length_take. lia.
  - by rewrite withCommas_short by lia.
Qed.

Lemma groupRev_filter n : ∀ rs,
  (length rs <= n)%nat → Forall (λ c, isDigit c = true) rs →
  filter (λ c, c ≠ ","%char) (groupRev rs) = rs.
Proof.
  assert (∀ rs, Forall (λ c, isDigit c = true) rs →
                filter (λ c, c ≠ ","%char) rs = rs) as Hall.
  { induction 1 as [|c rs Hc _ IH]; [done|].
    rewrite filter_cons_True; [by rewrite IH|].
    intros ->. done. }
  induction n as [n IH] using lt_wf_ind. intros rs Hl Hd.
  destruct rs as [|a [|b [|c [|d rs]]]]; try (by apply Hall).
  rewrite groupRev_long.
  apply Forall_cons in Hd as [Ha Hd]. apply Forall_cons in Hd as [Hb Hd].
  apply Forall_cons in Hd as [Hc Hd].
  rewrite filter_cons_True by (intros ->; done).
  rewrite filter_cons_True by (intros ->; done).
  rewrite filter_cons_True by (intros ->; done).
  rewrite filter_cons_False by (intros Hn; by apply Hn).
  rewrite (IH (length (d :: rs))); [done| |done|done].
  simpl in *. lia.
Qed.

Lemma withCommas_filter ds :
  Forall (λ c, isDigit c = true) ds →
  filter (λ c, c ≠ ","%char) (withCommas ds) = ds.
Proof.
  intros Hd. unfold withCommas. rewrite filter_reverse.
  rewrite (groupRev_filter (length (reverse ds))); [|done|].
  - apply reverse_involutive.
  - by apply Forall_reverse.
Qed.

Lemma digitsOf_digits n : Forall (λ c, isDigit c = true) (digitsOf n).
Proof.
  unfold digitsOf. unfold DecimalString.NilZero.string_of_uint.
  assert (∀ u, Forall (λ c, isDigit c = true)
                 (String.list_ascii_of_string
                    (DecimalString.NilEmpty.string_of_uint u))) as H.
  { induction u; simpl; try constructor; done. }
  destruct (N.to_uint n); try apply H.
  simpl. by repeat constructor.
Qed.

(** X29.  For a whole number of at most 14 digits, [commaSeparateNumber]
    returns its digits in groups of three from the right, with a comma
    between two groups: the loop ends, and taking the commas out gives the
    digits back.  The number is returned as it is exactly when it has
    fewer than four digits. *)
Theorem commaSeparateNumber_groups n fuel :
  (n <= 99999999999999)%N → (length (digitsOf n) < fuel)%nat →
  ∃ r, commaSeparateNumber fuel n = Some r
    ∧ textOf r = withCommas (digitsOf n)
    ∧ filter (λ c, c ≠ ","%char) (textOf r) = digitsOf n
    ∧ (r = Number n ↔ (length (digitsOf n) < 4)%nat).
Proof.
  intros Hn Hf. unfold commaSeparateNumber.
  rewrite (proj2 (N.leb_le _ _) Hn).
  pose proof (digitsOf_digits n) as Hd.
  pose proof (commaLoop_groups fuel (digitsOf n) [] Hd groups3_nil Hf) as Hl.
  rewrite !app_nil_r in Hl. rewrite Hl. simpl.
  eexists. split; [done|].
  pose proof (commaScan_digits (digitsOf n) [] [] Hd) as Hs.
  rewrite app_nil_r in Hs. rewrite Hs. cbn [commaScan app].
  destruct (4 <=? length (digitsOf n))%nat eqn:E.
  - apply Nat.leb_le in E. split; [done|].
    split; [by apply withCommas_filter|]. split; [done|lia].
  - apply Nat.leb_gt in E. cbn [textOf].
    rewrite withCommas_short by lia. split; [done|].
    split; [|done]. rewrite <- (withCommas_short (digitsOf n)) at 1 by lia.
    by apply withCommas_filter.
Qed.

Lemma commaSeparateNumber_groups_witness :
  ∃ r, commaSeparateNumber 8 1234567 = Some r
    ∧ textOf r = withCommas (digitsOf 1234567)
    ∧ filter (λ c, c ≠ ","%char) (textOf r) = digitsOf 1234567
    ∧ (r = Number 1234567 ↔ (length (digitsOf 1234567) < 4)%nat).
Proof.
  apply (commaSeparateNumber_groups 1234567 8).
  - vm_compute. discriminate.
  - vm_compute. lia.
Defined.
